(** * qjson: a shallow embedding of the qjson -> JSON converter (src/qjson.c)

    The C program is modelled function by function.  Conventions:

    - the input text is a [list byte]; a pointer into it is its byte offset
      and a read past the end of the list yields the terminating NUL;
    - C [int] values (lengths, offsets, line numbers) are unbounded [Z]
      (inputs are assumed shorter than 2^31 bytes); [int64_t] and [uint64_t]
      arithmetic is written with its wrap-around;
    - whether plain [char] is signed is implementation-defined: it is the
      parameter [char_signed] of the model;
    - [double] is IEEE-754 binary64 ([SpecFloat] with prec = 53, emax = 1024);
      the sign bit of a NaN, which IEEE-754 leaves open, is that of the
      SSE2 instructions of x86-64;
    - every [while]/[for] loop whose trip count is not fixed by its header is
      the iteration [iter] of its body under a fuel; running out of fuel is
      the outcome [NoFuel], a failed [assert] the outcome [AssertFail];
    - the division and the remainder of INT64_MIN by -1, which C leaves
      undefined and x86-64 traps on, are the outcome [Undefined];
    - [errno] is global state: only whether it holds ERANGE is observable, and
      that bit is carried by the engines ([e_errno], [ne_errno]). *)

From Stdlib Require Import ZArith List Bool Lia String Ascii.
From Stdlib Require Import Strings.Byte DecimalString.
From Stdlib Require Import Floats.SpecFloat.
Import ListNotations.
Open Scope Z_scope.

(** ** Outcomes and loops *)

Inductive outcome (A : Type) : Type :=
| Ret (a : A)
| AssertFail
| NoFuel
| Undefined.
Arguments Ret {A} a.
Arguments AssertFail {A}.
Arguments NoFuel {A}.
Arguments Undefined {A}.

Definition bind {A B : Type} (m : outcome A) (k : A -> outcome B) : outcome B :=
  match m with
  | Ret a => k a
  | AssertFail => AssertFail
  | NoFuel => NoFuel
  | Undefined => Undefined
  end.

Notation "x <- m ;; k" := (bind m (fun x => k))
  (at level 61, m at next level, right associativity).
Notation "' pat <- m ;; k" := (bind m (fun x => match x with pat => k end))
  (at level 61, pat pattern, m at next level, right associativity).

(** [assert(c)] followed by the rest of the function. *)
Definition assert {A : Type} (c : bool) (k : outcome A) : outcome A :=
  if c then k else AssertFail.

(** One loop: [body] either continues with a new loop state ([inl]) or
    leaves the loop with a result ([inr]). *)
Fixpoint iter {S R : Type} (fuel : nat) (body : S -> outcome (S + R)) (s : S)
  : outcome R :=
  match fuel with
  | O => NoFuel
  | Datatypes.S fuel' =>
      match body s with
      | Ret (inl s') => iter fuel' body s'
      | Ret (inr r) => Ret r
      | AssertFail => AssertFail
      | NoFuel => NoFuel
      | Undefined => Undefined
      end
  end.

Definition continue {S R : Type} (s : S) : outcome (S + R) := Ret (inl s).
Definition break {S R : Type} (r : R) : outcome (S + R) := Ret (inr r).

(** ** Bytes and characters *)

Definition byteZ (b : byte) : Z := Z.of_N (Byte.to_N b).

Definition Zbyte (z : Z) : byte :=
  match Byte.of_N (Z.to_N (z mod 256)) with
  | Some b => b
  | None => x00
  end.

(** The code of an ASCII character constant. *)
Definition ch (a : ascii) : Z := Z.of_N (N_of_ascii a).
Arguments ch a%_char.

Definition TAB : Z := 9.        (* '\t' *)
Definition LF : Z := 10.        (* '\n' *)
Definition CR : Z := 13.        (* '\r' *)
Definition BS : Z := 8.         (* '\b' *)
Definition FF : Z := 12.        (* '\f' *)
Definition DQUOTE : Z := 34.    (* the double quote *)
Definition SQUOTE : Z := 39.    (* the single quote *)
Definition BSLASH : Z := 92.    (* the backslash *)
Definition BTICK : Z := 96.     (* the back-tick *)

Definition bytes (s : string) : list byte := list_byte_of_string s.

(** ** The static error messages *)

Inductive errmsg : Type :=
| ErrEndOfInput | ErrInvalidChar | ErrTruncatedChar | ErrSyntaxError
| ErrUnclosedDoubleQuoteString | ErrUnclosedSingleQuoteString
| ErrUnclosedSlashStarComment
| ErrNewlineInDoubleQuoteString | ErrNewlineInSingleQuoteString
| ErrExpectStringIdentifier | ErrExpectColon | ErrInvalidValueType
| ErrMaxObjectArrayDepth | ErrUnclosedObject | ErrUnclosedArray
| ErrUnexpectedEndOfInput | ErrExpectIdentifierAfterComma
| ErrExpectValueAfterComma | ErrInvalidEscapeSequence
| ErrInvalidNumericExpression | ErrInvalidBinaryNumber
| ErrInvalidHexadecimalNumber | ErrInvalidOctalNumber
| ErrInvalidIntegerNumber | ErrInvalidDecimalNumber | ErrNumberOverflow
| ErrUnopenedParenthesis | ErrDivisionByZero | ErrUnclosedParenthesis
| ErrOperandMustBeInteger | ErrOperandsMustBeInteger
| ErrMarginMustBeWhitespaceOnly | ErrUnclosedMultiline | ErrInvalidMarginChar
| ErrMissingNewlineSpecifier | ErrInvalidNewlineSpecifier
| ErrInvalidMultilineStart | ErrUnexpectedCloseBrace
| ErrUnexpectedCloseSquare | ErrInvalidISODateTime.

(** The text of each message, as the C string constants spell it (the
    text of [ErrInvalidEscapeSequence] is misspelt in the source). *)
Definition err_text (e : errmsg) : string :=
  match e with
  | ErrEndOfInput => "end of input"
  | ErrInvalidChar => "invalid character"
  | ErrTruncatedChar =>
      (* a no-break space, the bytes C2 A0, stands between utf8 and char *)
      append "last utf8" (String "194"%char (String "160"%char "char is truncated"))
  | ErrSyntaxError => "syntax error"
  | ErrUnclosedDoubleQuoteString => "unclosed double quote string"
  | ErrUnclosedSingleQuoteString => "unclosed single quote string"
  | ErrUnclosedSlashStarComment => "unclosed /*...*/ comment"
  | ErrNewlineInDoubleQuoteString => "newline in double quoted string"
  | ErrNewlineInSingleQuoteString => "newline in single quoted string"
  | ErrExpectStringIdentifier => "expect string identifier"
  | ErrExpectColon => "expect a colon"
  | ErrInvalidValueType => "invalid value type"
  | ErrMaxObjectArrayDepth => "too many object or array encapsulations"
  | ErrUnclosedObject => "unclosed object"
  | ErrUnclosedArray => "unclosed array"
  | ErrUnexpectedEndOfInput => "unexpected end of input"
  | ErrExpectIdentifierAfterComma => "expect identifier after comma"
  | ErrExpectValueAfterComma => "expect value after comma"
  | ErrInvalidEscapeSequence => "invalid escape squence"
  | ErrInvalidNumericExpression => "invalid numeric expression"
  | ErrInvalidBinaryNumber => "invalid binary number"
  | ErrInvalidHexadecimalNumber => "invalid hexadecimal number"
  | ErrInvalidOctalNumber => "invalid octal number"
  | ErrInvalidIntegerNumber => "invalid integer number"
  | ErrInvalidDecimalNumber => "invalid decimal number"
  | ErrNumberOverflow => "number overflow"
  | ErrUnopenedParenthesis => "missing open parenthesis"
  | ErrDivisionByZero => "division by zero"
  | ErrUnclosedParenthesis => "missing close parenthesis"
  | ErrOperandMustBeInteger => "operand must be integer"
  | ErrOperandsMustBeInteger => "operands must be integer"
  | ErrMarginMustBeWhitespaceOnly => "multiline margin must contain only whitespaces"
  | ErrUnclosedMultiline => "unclosed multiline"
  | ErrInvalidMarginChar => "invalid margin character"
  | ErrMissingNewlineSpecifier => "missing \n or \r\n after multiline start"
  | ErrInvalidNewlineSpecifier => "expect \n or \r\n after `"
  | ErrInvalidMultilineStart => "invalid multiline start line"
  | ErrUnexpectedCloseBrace => "unexpected }"
  | ErrUnexpectedCloseSquare => "unexpected ]"
  | ErrInvalidISODateTime => "invalid ISO date time"
  end.

(** ** Data model *)

(** [pos_t]: a position in the input string. *)
Record pos_t : Type := mkPos {
  pos_b : Z;   (* index of the current char in the input string *)
  pos_s : Z;   (* index of the first char of the line *)
  pos_l : Z    (* line number starting at 0 *)
}.

Inductive tokenTag_t : Type :=
| tagUnknown | tagError | tagIntegerVal | tagDecimalVal
| tagPlus | tagMinus | tagMultiplication | tagDivision
| tagXor | tagAnd | tagOr | tagInverse | tagModulo
| tagOpenParen | tagCloseParen
| tagWeeks | tagDays | tagHours | tagMinutes | tagSeconds
| tagOpenBrace | tagCloseBrace | tagOpenSquare | tagCloseSquare
| tagColon | tagQuotelessString | tagDoubleQuotedString
| tagSingleQuotedString | tagMultilineString | tagComma.

(** The enumerator's integer value (tables are indexed by it). *)
Definition tag_index (t : tokenTag_t) : Z :=
  match t with
  | tagUnknown => 0 | tagError => 1 | tagIntegerVal => 2 | tagDecimalVal => 3
  | tagPlus => 4 | tagMinus => 5 | tagMultiplication => 6 | tagDivision => 7
  | tagXor => 8 | tagAnd => 9 | tagOr => 10 | tagInverse => 11
  | tagModulo => 12 | tagOpenParen => 13 | tagCloseParen => 14
  | tagWeeks => 15 | tagDays => 16 | tagHours => 17 | tagMinutes => 18
  | tagSeconds => 19 | tagOpenBrace => 20 | tagCloseBrace => 21
  | tagOpenSquare => 22 | tagCloseSquare => 23 | tagColon => 24
  | tagQuotelessString => 25 | tagDoubleQuotedString => 26
  | tagSingleQuotedString => 27 | tagMultilineString => 28 | tagComma => 29
  end.

Definition tag_eqb (a b : tokenTag_t) : bool := tag_index a =? tag_index b.

(** A [const char*]: NULL, a pointer into the input text (its offset), or
    one of the static message strings.  Pointer arithmetic is only ever
    applied to pointers into the input. *)
Inductive ptr : Type :=
| NULL
| Inp (off : Z)
| Msg (e : errmsg).

Definition padd (p : ptr) (n : Z) : ptr :=
  match p with
  | Inp off => Inp (off + n)
  | _ => p
  end.

Definition is_NULL (p : ptr) : bool :=
  match p with NULL => true | _ => false end.

(** [p == ErrEndOfInput] *)
Definition is_ErrEndOfInput (p : ptr) : bool :=
  match p with Msg ErrEndOfInput => true | _ => false end.

(** [slice_t]: a slice of characters. *)
Record slice_t : Type := mkSlice {
  sl_p : ptr;  (* pointer to the first char of the slice *)
  sl_l : Z     (* byte length of the slice *)
}.

(** [token_t]: a token parsed by the tokenizer. *)
Record token_t : Type := mkToken {
  tk_tag : tokenTag_t;
  tk_pos : pos_t;
  tk_val : slice_t
}.

(** [engine_t]: the conversion engine.  The field [in] is the text itself
    (the section variable [text] below); [out] is the content of the output
    buffer, [buf[0..len)] (its capacity is not observable); [e_errno] is
    the global [errno == ERANGE]. *)
Record engine_t : Type := mkEngine {
  e_p : slice_t;
  e_pos : pos_t;
  e_out : list byte;
  e_tk : token_t;
  e_depth : Z;
  e_errno : bool
}.

(** [error_t]: an error message with its position. *)
Record error_t : Type := newError {
  err_pos : pos_t;
  err_err : errmsg
}.

Definition set_p (e : engine_t) (p : slice_t) : engine_t :=
  mkEngine p (e_pos e) (e_out e) (e_tk e) (e_depth e) (e_errno e).
Definition set_pos (e : engine_t) (p : pos_t) : engine_t :=
  mkEngine (e_p e) p (e_out e) (e_tk e) (e_depth e) (e_errno e).
Definition set_out (e : engine_t) (o : list byte) : engine_t :=
  mkEngine (e_p e) (e_pos e) o (e_tk e) (e_depth e) (e_errno e).
Definition set_tk (e : engine_t) (t : token_t) : engine_t :=
  mkEngine (e_p e) (e_pos e) (e_out e) t (e_depth e) (e_errno e).
Definition set_depth (e : engine_t) (d : Z) : engine_t :=
  mkEngine (e_p e) (e_pos e) (e_out e) (e_tk e) d (e_errno e).
Definition set_errno (e : engine_t) (r : bool) : engine_t :=
  mkEngine (e_p e) (e_pos e) (e_out e) (e_tk e) (e_depth e) r.

Definition maxDepth : Z := 200.

(** ** The UTF-8 tables *)

Definition s0 : Z := 0x00. (* invalid character *)
Definition s1 : Z := 0x01. (* valid characters (printable ascii) *)
Definition s2 : Z := 0x12. (* rule 1, 2 byte long *)
Definition s3 : Z := 0x23. (* rule 2, 3 byte long *)
Definition s4 : Z := 0x13. (* rule 1, 3 byte long *)
Definition s5 : Z := 0x33. (* rule 3, 3 byte long *)
Definition s6 : Z := 0x44. (* rule 4, 4 byte long *)
Definition s7 : Z := 0x14. (* rule 1, 4 byte long *)
Definition s8 : Z := 0x54. (* rule 5, 4 byte long *)

Definition utf8Table_rows : list Z := [
  s0; s0; s0; s0; s0; s0; s0; s0; s0; s1; s0; s0; s0; s0; s0; s0; (* 00 *)
  s0; s0; s0; s0; s0; s0; s0; s0; s0; s0; s0; s0; s0; s0; s0; s0; (* 10 *)
  s1; s1; s1; s1; s1; s1; s1; s1; s1; s1; s1; s1; s1; s1; s1; s1; (* 20 *)
  s1; s1; s1; s1; s1; s1; s1; s1; s1; s1; s1; s1; s1; s1; s1; s1; (* 30 *)
  s1; s1; s1; s1; s1; s1; s1; s1; s1; s1; s1; s1; s1; s1; s1; s1; (* 40 *)
  s1; s1; s1; s1; s1; s1; s1; s1; s1; s1; s1; s1; s1; s1; s1; s1; (* 50 *)
  s1; s1; s1; s1; s1; s1; s1; s1; s1; s1; s1; s1; s1; s1; s1; s1; (* 60 *)
  s1; s1; s1; s1; s1; s1; s1; s1; s1; s1; s1; s1; s1; s1; s1; s1; (* 70 *)
  s0; s0; s0; s0; s0; s0; s0; s0; s0; s0; s0; s0; s0; s0; s0; s0; (* 80 *)
  s0; s0; s0; s0; s0; s0; s0; s0; s0; s0; s0; s0; s0; s0; s0; s0; (* 90 *)
  s0; s0; s0; s0; s0; s0; s0; s0; s0; s0; s0; s0; s0; s0; s0; s0; (* A0 *)
  s0; s0; s0; s0; s0; s0; s0; s0; s0; s0; s0; s0; s0; s0; s0; s0; (* B0 *)
  s0; s0; s2; s2; s2; s2; s2; s2; s2; s2; s2; s2; s2; s2; s2; s2; (* C0 *)
  s2; s2; s2; s2; s2; s2; s2; s2; s2; s2; s2; s2; s2; s2; s2; s2; (* D0 *)
  s3; s4; s4; s4; s4; s4; s4; s4; s4; s4; s4; s4; s4; s5; s4; s4; (* E0 *)
  s6; s7; s7; s7; s8; s0; s0; s0; s0; s0; s0; s0; s0; s0; s0; s0  (* F0 *)
].

(** [table[i]] for a table given by its initializer: the entries not
    initialized are zero. *)
Definition index {A : Type} (d : A) (t : list A) (i : Z) : A :=
  if i <? 0 then d else nth (Z.to_nat i) t d.

Definition utf8Table (b : Z) : Z := index 0 utf8Table_rows b.

Definition utf8lo : Z := 0x80.
Definition utf8hi : Z := 0xBF.

Definition utf8Range (i : Z) : Z :=
  index 0 [0; 0; utf8lo; utf8hi; 0xA0; utf8hi; utf8lo; 0x9F; 0x90; utf8hi; utf8lo; 0x8F] i.

(** A counted loop [for (i = lo; i < hi; i++)] whose body changes neither
    [i] nor [hi]: [k] is the trip count [hi - lo]; the body either goes on
    to the next [i] ([inl], also what [continue] does) or returns from the
    function ([inr]). *)
Fixpoint for_ {S R : Type} (k : nat) (i : Z) (body : Z -> S -> S + R) (s : S)
  : S + R :=
  match k with
  | O => inl s
  | Datatypes.S k' =>
      match body i s with
      | inl s' => for_ k' (i + 1) body s'
      | inr r => inr r
      end
  end.

Definition for_range {S R : Type} (lo hi : Z) (body : Z -> S -> S + R) (s : S)
  : S + R :=
  for_ (Z.to_nat (hi - lo)) lo body s.

(** ** The C library

    The functions of the C library the program calls are not part of the
    repository.  They are modelled from the C standard and POSIX, as glibc
    implements them, on the list of the bytes of the string they are given
    (without its NUL). *)

Definition prec : Z := 53.
Definition emax : Z := 1024.

(** [double]: IEEE-754 binary64, operations rounded to nearest-even.
    [spec_float] has a single NaN; the sign bit of a NaN, which [printf]
    shows, is kept beside the value ([false] for a value that is no
    NaN). *)
Record double : Type := mkDouble {
  d_val : spec_float;
  d_nan_neg : bool
}.

Definition is_nan (f : spec_float) : bool :=
  match f with S754_nan => true | _ => false end.

(** A value that is no NaN. *)
Definition d_num (f : spec_float) : double := mkDouble f false.

(** An arithmetic operation, as the SSE2 instructions of x86-64 do it: a
    NaN operand is the result, the first one if both are; an invalid
    operation (inf - inf, 0 * inf, inf / inf) gives the default NaN,
    whose sign bit is set. *)
Definition d_arith (op : spec_float -> spec_float -> spec_float) (x y : double)
  : double :=
  let r := op (d_val x) (d_val y) in
  if is_nan r then
    mkDouble r (if is_nan (d_val x) then d_nan_neg x
                else if is_nan (d_val y) then d_nan_neg y
                else true)
  else d_num r.

Definition d_of_int (z : Z) : double := d_num (binary_normalize prec emax z 0 false).
Definition d_zero : double := d_num (S754_zero false).
Definition d_add : double -> double -> double := d_arith (SFadd prec emax).
Definition d_sub : double -> double -> double := d_arith (SFsub prec emax).
Definition d_mul : double -> double -> double := d_arith (SFmul prec emax).
Definition d_div : double -> double -> double := d_arith (SFdiv prec emax).
(** The negation flips the sign bit, of a NaN too. *)
Definition d_neg (x : double) : double :=
  mkDouble (SFopp (d_val x)) (is_nan (d_val x) && negb (d_nan_neg x)).
Definition d_ltb (x y : double) : bool := SFltb (d_val x) (d_val y).
Definition d_eqb (x y : double) : bool := SFeqb (d_val x) (d_val y).

Definition is_digit (c : Z) : bool := (48 <=? c) && (c <=? 57).

Fixpoint span_digits (s : list Z) : list Z * list Z :=
  match s with
  | c :: s' =>
      if is_digit c then let '(d, r) := span_digits s' in (c :: d, r)
      else ([], s)
  | [] => ([], [])
  end.

Definition digits_val (ds : list Z) : Z :=
  fold_left (fun a c => a * 10 + (c - 48)) ds 0.

(** An optional sign: whether it is '-', and the rest. *)
Definition span_sign (s : list Z) : bool * list Z :=
  match s with
  | c :: r => if c =? 45 then (true, r) else if c =? 43 then (false, r) else (false, s)
  | [] => (false, s)
  end.

(** The double nearest to [M * 10^E] (M >= 0), and whether [strtod] sets
    [errno] to ERANGE for it: on overflow, and when the result is zero or
    subnormal and not exact. *)
Definition dec_to_double (M E : Z) : double * bool :=
  if M <=? 0 then (d_zero, false)
  else
    let r :=
      if 0 <=? E then binary_normalize prec emax (M * 10 ^ E) 0 false
      else
        let '(q, e', l) := SFdiv_core_binary prec emax M 0 (10 ^ (- E)) 0 in
        binary_round_aux prec emax false q e' l in
    let erange :=
      match r with
      | S754_infinity _ => true
      | S754_zero _ => true
      | S754_nan => false
      | S754_finite _ m e =>
          negb (Zpos (digits2_pos m) =? prec)
          && negb (Zpos m * 2 ^ (Z.max e 0) * 10 ^ (Z.max (- E) 0)
                   =? M * 10 ^ (Z.max E 0) * 2 ^ (Z.max (- e) 0))
      end in
    (d_num r, erange).

(** [strtod] on a string that starts with a digit or '.' (the only ones
    the program passes): the longest prefix of the form
    digits[.digits][(e|E)[+-]digits] or .digits[...] is converted; with no
    digit at all there is no conversion and the result is 0. *)
Definition strtod (s : list Z) : double * bool :=
  let '(ip, r1) := span_digits s in
  let '(fp, r2) :=
    match r1 with
    | c :: r => if c =? 46 then span_digits r else ([], r1)
    | [] => ([], r1)
    end in
  match ip ++ fp with
  | [] => (d_zero, false)
  | ds =>
      let ex :=
        match r2 with
        | c :: r =>
            if Z.land c 0xDF =? 69 then
              let '(neg, r') := span_sign r in
              let '(ed, _) := span_digits r' in
              match ed with
              | [] => 0
              | _ => if neg then - digits_val ed else digits_val ed
              end
            else 0
        | [] => 0
        end in
      dec_to_double (digits_val ds) (ex - Z.of_nat (List.length fp))
  end.

(** [sscanf] for formats made of [%d] conversions and ordinary characters:
    the values assigned, in order (their number is the return value; the
    source never tells EOF from 0).  The fields scanned have at most six
    digits, so [int] overflow is not modelled. *)
Inductive fmt_item : Type :=
| FmtD
| FmtC (c : Z).

Definition is_space (c : Z) : bool := (c =? 32) || ((9 <=? c) && (c <=? 13)).

Fixpoint skip_space (s : list Z) : list Z :=
  match s with
  | c :: r => if is_space c then skip_space r else s
  | [] => []
  end.

Definition scan_d (s : list Z) : option (Z * list Z) :=
  let '(neg, s1) := span_sign (skip_space s) in
  let '(ds, r) := span_digits s1 in
  match ds with
  | [] => None
  | _ => Some (if neg then - digits_val ds else digits_val ds, r)
  end.

Fixpoint sscanf (fmt : list fmt_item) (s : list Z) : list Z :=
  match fmt with
  | [] => []
  | FmtD :: fmt' =>
      match scan_d s with
      | Some (v, r) => v :: sscanf fmt' r
      | None => []
      end
  | FmtC c :: fmt' =>
      match s with
      | x :: r => if x =? c then sscanf fmt' r else []
      | [] => []
      end
  end.

(** [timegm]: the days since 1970-01-01 of a proleptic Gregorian date
    (month 1..12), and the seconds since the epoch of a broken-down UTC
    time, whose fields are normalized (an hour of 24 or a day of 31 in a
    shorter month carry over). *)
Definition days_from_civil (y m d : Z) : Z :=
  let y := if m <=? 2 then y - 1 else y in
  let era := y / 400 in
  let yoe := y - era * 400 in
  let mp := (m + 9) mod 12 in
  let doy := (153 * mp + 2) / 5 + d - 1 in
  let doe := yoe * 365 + yoe / 4 - yoe / 100 + doy in
  era * 146097 + doe - 719468.

Definition timegm (tm_year tm_mon tm_mday tm_hour tm_min tm_sec : Z) : Z :=
  let y := tm_year + 1900 + tm_mon / 12 in
  let m := tm_mon mod 12 + 1 in
  (((days_from_civil y m 1 + (tm_mday - 1)) * 24 + tm_hour) * 60 + tm_min) * 60 + tm_sec.

(** [sprintf(buf, "%.16g", x)]: [P] significant digits, the decimal
    expansion rounded to nearest (ties to even) from the exact value; the
    style of %e is used when the decimal exponent X is < -4 or >= P, else
    that of %f; trailing zeros of the fraction are removed, and the point
    with them when no digit follows it. *)
Fixpoint dec_digits (k : nat) (n : Z) (acc : list byte) : list byte :=
  match k with
  | O => acc
  | S k' => dec_digits k' (n / 10) (Zbyte (48 + n mod 10) :: acc)
  end.

Definition strip_zeros (l : list byte) : list byte :=
  fold_right (fun b acc =>
                match acc with
                | [] => if byteZ b =? 48 then [] else [b]
                | _ => b :: acc
                end) [] l.

Definition with_point (int_part frac : list byte) : list byte :=
  match strip_zeros frac with
  | [] => int_part
  | f => int_part ++ bytes "." ++ f
  end.

Definition sprintf_g (P : Z) (x : double) : list byte :=
  let sign (s : bool) := if s then bytes "-" else [] in
  match d_val x with
  | S754_nan => sign (d_nan_neg x) ++ bytes "nan"
  | S754_infinity s => sign s ++ bytes "inf"
  | S754_zero s => sign s ++ bytes "0"
  | S754_finite s m e =>
      let num := if 0 <=? e then Zpos m * 2 ^ e else Zpos m in
      let den := if 0 <=? e then 1 else 2 ^ (- e) in
      (* the decimal exponent: 10^X <= num/den < 10^(X+1) *)
      let ge10 (X : Z) :=
        if 0 <=? X then den * 10 ^ X <=? num else den <=? num * 10 ^ (- X) in
      let X0 := (Z.log2 (Zpos m) + e) * 30103 / 100000 in
      let X := if ge10 (X0 + 1) then X0 + 1 else if ge10 X0 then X0 else X0 - 1 in
      (* the P significant digits *)
      let sh := P - 1 - X in
      let n := if 0 <=? sh then num * 10 ^ sh else num in
      let d := if 0 <=? sh then den else den * 10 ^ (- sh) in
      let q := n / d in
      let r := n mod d in
      let q := if (d <? 2 * r) || ((d =? 2 * r) && Z.odd q) then q + 1 else q in
      let '(q, X) := if q =? 10 ^ P then (10 ^ (P - 1), X + 1) else (q, X) in
      let ds := dec_digits (Z.to_nat P) q [] in
      sign s ++
      (if (-4 <=? X) && (X <? P) then
         if 0 <=? X then
           with_point (firstn (Z.to_nat (X + 1)) ds) (skipn (Z.to_nat (X + 1)) ds)
         else
           with_point (bytes "0") (repeat (Zbyte 48) (Z.to_nat (- X - 1)) ++ ds)
       else
         with_point (firstn 1 ds) (skipn 1 ds)
         ++ bytes (if X <? 0 then "e-" else "e+")
         ++ (if Z.abs X <? 10 then bytes "0" else [])
         ++ bytes (DecimalString.NilZero.string_of_int (Z.to_int (Z.abs X))))
  end.

Section Qjson.

(** Whether plain [char] is a signed type. *)
Variable char_signed : bool.

(** The input string ([e->in] points to its first byte). *)
Variable text : list byte.

(** ** Memory *)

(** The byte at offset [off] of the input, as an [unsigned char]; the
    string is NUL-terminated. *)
Definition mem (off : Z) : Z :=
  if off <? 0 then 0 else byteZ (nth (Z.to_nat off) text x00).

(** [p[i]] read as an [unsigned char]. *)
Definition rd (p : ptr) (i : Z) : Z :=
  match p with
  | Inp off => mem (off + i)
  | Msg e => if i <? 0 then 0 else byteZ (nth (Z.to_nat i) (bytes (err_text e)) x00)
  | NULL => 0
  end.

Notation "s .[ i ]" := (rd (sl_p s) i) (at level 1, format "s .[ i ]").

(** The value of a plain [char] holding the byte [b]. *)
Definition char (b : Z) : Z :=
  if char_signed && (128 <=? b) then b - 256 else b.

Definition e_in : ptr := Inp 0.

(** [v.p += n; v.l -= n] *)
Definition adv (v : slice_t) (n : Z) : slice_t :=
  mkSlice (padd (sl_p v) n) (sl_l v - n).

Definition fuel_of (p : slice_t) : nat := S (Z.to_nat (sl_l p)).

Definition nullSlice : slice_t := mkSlice NULL 0.

(** ** Tokenizer *)

(** [whitespace] returns the byte length of the white space in front of p. *)
Definition whitespace (p : slice_t) : Z :=
  if sl_l p =? 0 then 0
  else if (p.[0] =? ch " ") || (p.[0] =? TAB) then 1
  else if (1 <? sl_l p) && (p.[0] =? 0xC2) && (p.[1] =? 0xA0) then 2
  else 0.

(** [newline] returns the byte length of the newline in front of p. *)
Definition newline (p : slice_t) : Z :=
  if sl_l p =? 0 then 0
  else if p.[0] =? LF then 1
  else if (1 <? sl_l p) && (p.[0] =? CR) && (p.[1] =? LF) then 2
  else 0.

(** [popBytes] removes n bytes from the front of p. *)
Definition popBytes (e : engine_t) (n : Z) : engine_t :=
  set_pos (set_p e (adv (e_p e) n))
          (mkPos (pos_b (e_pos e) + n) (pos_s (e_pos e)) (pos_l (e_pos e))).

(** [popNewline] returns false if there is no newline in front of p,
    otherwise true after removing the newline. *)
Definition popNewline (e : engine_t) : bool * engine_t :=
  let n := newline (e_p e) in
  if n =? 0 then (false, e)
  else
    let e := popBytes e n in
    (true, set_pos e (mkPos (pos_b (e_pos e)) (pos_b (e_pos e)) (pos_l (e_pos e) + 1))).

(** [qcharX] requires that x == s0 || x >= s2.  The result is the error (if
    any) and the value left in [*nOut] (0, as set by [qchar], on error). *)
Definition qcharX (e : engine_t) (x : Z) : option error_t * Z :=
  if x =? s0 then (Some (newError (e_pos e) ErrInvalidChar), 0)
  else
    let n := Z.land x 0xF in
    if sl_l (e_p e) <? n then (Some (newError (e_pos e) ErrTruncatedChar), 0)
    else
      let b2 := (e_p e).[1] in
      let r := Z.shiftl (Z.shiftr x 4) 1 in
      if (b2 <? utf8Range r) || (utf8Range (r + 1) <? b2)
      then (Some (newError (e_pos e) ErrInvalidChar), 0)
      else if 3 <=? n then
        if ((e_p e).[2] <? utf8lo) || (utf8hi <? char (e_p e).[2])
        then (Some (newError (e_pos e) ErrInvalidChar), 0)
        else if n =? 4 then
          if ((e_p e).[3] <? utf8lo) || (utf8hi <? char (e_p e).[3])
          then (Some (newError (e_pos e) ErrInvalidChar), 0)
          else (None, n)
        else (None, n)
      else (None, n).

(** [qchar] returns the byte length of the char in front of e.p and no
    error, or 0 and the error.  The char is not popped. *)
Definition qchar (e : engine_t) : option error_t * Z :=
  if sl_l (e_p e) =? 0 then (None, 0)
  else
    let x := utf8Table (e_p e).[0] in
    if x =? s1 then (None, 1)
    else qcharX e x.

(** [column] returns the number of utf8 chars in p. *)
Definition column_body (st : slice_t * Z) : outcome (slice_t * Z + Z) :=
  let '(p, cnt) := st in
  if 0 <? sl_l p then
    let n := Z.land (utf8Table p.[0]) 0xF in
    if (n =? 0) || (sl_l p <? n) then break cnt
    else continue (adv p n, cnt + 1)
  else break cnt.

Definition column (p : slice_t) : outcome Z :=
  assert (negb (is_NULL (sl_p p)))
    (assert (0 <=? sl_l p)
       (iter (fuel_of p) column_body (p, 0))).

(** [skipRestOfLine] pops all characters until an error occurs, a newline
    is met, or the end of input is met. *)
Definition skipRestOfLine_body (e : engine_t)
  : outcome (engine_t + option error_t * engine_t) :=
  let '(nl, e) := popNewline e in
  if nl || (sl_l (e_p e) =? 0) then break (None, e)
  else
    match qchar e with
    | (Some err, _) => break (Some err, e)
    | (None, n) => continue (popBytes e n)
    end.

Definition skipRestOfLine (e : engine_t) : outcome (option error_t * engine_t) :=
  iter (fuel_of (e_p e)) skipRestOfLine_body e.

Definition is_err (err : option error_t) : bool :=
  match err with Some _ => true | None => false end.

(** [skipLineComment]: the error, the out-parameter [*out], the engine. *)
Definition skipLineComment (e : engine_t)
  : outcome (option error_t * bool * engine_t) :=
  if sl_l (e_p e) =? 0 then Ret (None, false, e)
  else if ((e_p e).[0] =? ch "#")
          || (((e_p e).[0] =? ch "/") && (2 <=? sl_l (e_p e)) && ((e_p e).[1] =? ch "/"))
  then
    '(err, e) <- skipRestOfLine e ;;
    Ret (err, negb (is_err err), e)
  else Ret (None, false, e).

(** [skipMultilineComment]: false and no error when e.p is not the start of
    a comment, true and no error after skipping one, else an error. *)
Definition skipMultilineComment_body (startPos : pos_t) (e : engine_t)
  : outcome (engine_t + option error_t * bool * engine_t) :=
  if sl_l (e_p e) =? 0
  then break (Some (newError startPos ErrUnclosedSlashStarComment), false, e)
  else if ((e_p e).[0] =? ch "*") && (2 <=? sl_l (e_p e)) && ((e_p e).[1] =? ch "/")
  then break (None, true, popBytes e 2)
  else
    let '(nl, e) := popNewline e in
    if nl then continue e
    else if char (e_p e).[0] <? 0x20 then continue (popBytes e 1)
    else
      match qchar e with
      | (Some err, _) => break (Some err, false, e)
      | (None, n) => continue (popBytes e n)
      end.

Definition skipMultilineComment (e : engine_t)
  : outcome (option error_t * bool * engine_t) :=
  if (sl_l (e_p e) =? 0) || negb ((e_p e).[0] =? ch "/")
     || (sl_l (e_p e) <? 2) || negb ((e_p e).[1] =? ch "*")
  then Ret (None, false, e)
  else
    let startPos := e_pos e in
    let e := popBytes e 2 in
    iter (fuel_of (e_p e)) (skipMultilineComment_body startPos) e.

(** [skipWhitespaces] skips all whitespace characters. *)
Definition skipWhitespaces_body (e : engine_t) : outcome (engine_t + engine_t) :=
  let n := whitespace (e_p e) in
  if n =? 0 then break e else continue (popBytes e n).

Definition skipWhitespaces (e : engine_t) : outcome engine_t :=
  iter (fuel_of (e_p e)) skipWhitespaces_body e.


(** [doubleQuotedString] tries to parse a double quoted string: the error,
    the out-parameter (a NULL slice when there is no such string), the
    engine. *)
Definition doubleQuotedString_body (startPos : pos_t) (e : engine_t)
  : outcome (engine_t + option error_t * slice_t * engine_t) :=
  if sl_l (e_p e) =? 0
  then break (Some (newError startPos ErrUnclosedDoubleQuoteString), nullSlice, e)
  else if ((e_p e).[0] =? BSLASH) && (1 <? sl_l (e_p e)) && ((e_p e).[1] =? DQUOTE)
  then continue (popBytes e 2)
  else if (e_p e).[0] =? DQUOTE then
    let e := popBytes e 1 in
    break (None, mkSlice (padd e_in (pos_b startPos)) (pos_b (e_pos e) - pos_b startPos), e)
  else if negb (newline (e_p e) =? 0)
  then break (Some (newError startPos ErrNewlineInDoubleQuoteString), nullSlice, e)
  else
    match qchar e with
    | (Some err, _) => break (Some err, nullSlice, e)
    | (None, n) => continue (popBytes e n)
    end.

Definition doubleQuotedString (e : engine_t)
  : outcome (option error_t * slice_t * engine_t) :=
  let startPos := e_pos e in
  if (sl_l (e_p e) =? 0) || negb ((e_p e).[0] =? DQUOTE)
  then Ret (None, nullSlice, e)
  else
    let e := popBytes e 1 in
    iter (fuel_of (e_p e)) (doubleQuotedString_body startPos) e.

(** [singleQuotedString] tries to parse a single quoted string. *)
Definition singleQuotedString_body (startPos : pos_t) (e : engine_t)
  : outcome (engine_t + option error_t * slice_t * engine_t) :=
  if sl_l (e_p e) =? 0
  then break (Some (newError startPos ErrUnclosedSingleQuoteString), nullSlice, e)
  else if ((e_p e).[0] =? BSLASH) && (2 <=? sl_l (e_p e)) && ((e_p e).[1] =? SQUOTE)
  then continue (popBytes e 2)
  else if (e_p e).[0] =? SQUOTE then
    let e := popBytes e 1 in
    break (None, mkSlice (padd e_in (pos_b startPos)) (pos_b (e_pos e) - pos_b startPos), e)
  else if negb (newline (e_p e) =? 0)
  then break (Some (newError startPos ErrNewlineInSingleQuoteString), nullSlice, e)
  else
    match qchar e with
    | (Some err, _) => break (Some err, nullSlice, e)
    | (None, n) => continue (popBytes e n)
    end.

Definition singleQuotedString (e : engine_t)
  : outcome (option error_t * slice_t * engine_t) :=
  let startPos := e_pos e in
  if (sl_l (e_p e) =? 0) || negb ((e_p e).[0] =? SQUOTE)
  then Ret (None, nullSlice, e)
  else
    let e := popBytes e 1 in
    iter (fuel_of (e_p e)) (singleQuotedString_body startPos) e.

(** [inRange] returns true if lo <= v <= hi (all three are [byte]s, the
    subtractions wrap to [unsigned char]). *)
Definition inRange (v lo hi : Z) : bool :=
  ((v - lo) mod 256) <=? ((hi - lo) mod 256).

Definition isIntDigit (v : Z) : bool := inRange v (ch "0") (ch "9").

(** [parseISODateTimeLiteral] (declared ahead of the tokenizer in the
    source): 0 if not a literal, -1 if invalid, else its byte length. *)
Definition count_digits_body (v : slice_t) (p : Z) : outcome (Z + Z) :=
  if (p <? sl_l v) && isIntDigit v.[p] then continue (p + 1) else break p.

Definition parseISODateTimeLiteral (v : slice_t) : outcome Z :=
  (* must start with date *)
  if (sl_l v <? 11) || negb (v.[10] =? ch "T") || negb (v.[4] =? ch "-")
     || negb (v.[7] =? ch "-")
     || negb (isIntDigit v.[0]) || negb (isIntDigit v.[1])
     || negb (isIntDigit v.[2]) || negb (isIntDigit v.[3])
     || negb (isIntDigit v.[5]) || negb (isIntDigit v.[6])
     || negb (isIntDigit v.[8]) || negb (isIntDigit v.[9])
  then Ret 0
  else
  let n := 11 in
  let v := adv v 11 in
  if sl_l v =? 0 then Ret n else
  (* followed by hours and minutes (seconds and rest is optional) *)
  if (sl_l v <? 5) || negb (v.[2] =? ch ":")
     || negb (isIntDigit v.[0]) || negb (isIntDigit v.[1])
     || negb (isIntDigit v.[3]) || negb (isIntDigit v.[4])
  then Ret (-1)
  else
  let n := n + 5 in
  let v := adv v 5 in
  if sl_l v =? 0 then Ret n else
  if v.[0] =? ch "Z" then Ret (n + 1) else
  if negb (v.[0] =? ch ":") then Ret n else
  if (sl_l v <? 3) || negb (isIntDigit v.[1]) || negb (isIntDigit v.[2])
  then Ret (-1)
  else
  let n := n + 3 in
  let v := adv v 3 in
  if sl_l v =? 0 then Ret n else
  if v.[0] =? ch "Z" then Ret (n + 1) else
  if negb (v.[0] =? ch ".") && negb (v.[0] =? ch "+") && negb (v.[0] =? ch "-")
  then Ret n
  else
  (* milli or micro seconds *)
  '(n, v, bad) <-
    (if v.[0] =? ch "." then
       let n := n + 1 in
       let v := adv v 1 in
       p <- iter (fuel_of v) (count_digits_body v) 0 ;;
       if negb (p =? 6) && negb (p =? 3) then Ret (n, v, true)
       else Ret (n + p, adv v p, false)
     else Ret (n, v, false)) ;;
  if (bad : bool) then Ret (-1) else
  if sl_l v =? 0 then Ret n else
  if v.[0] =? ch "Z" then Ret (n + 1) else
  if negb (v.[0] =? ch "+") && negb (v.[0] =? ch "-") then Ret n else
  (* time offset *)
  let n := n + 1 in
  let v := adv v 1 in
  if (sl_l v <? 5) || negb (v.[2] =? ch ":")
     || negb (isIntDigit v.[0]) || negb (isIntDigit v.[1])
     || negb (isIntDigit v.[3]) || negb (isIntDigit v.[4])
  then Ret (-1)
  else Ret (n + 5).

(** [lenISODateTime] is called when parsing a quoteless string: 0 when the
    ':' in front of e.p does not belong to an ISO date time, otherwise the
    offset of the first byte after the date time. *)
Definition lenISODateTime (e : engine_t) : outcome Z :=
  if ((e_p e).[0] =? ch ":") && (13 <=? pos_b (e_pos e)) then
    n <- parseISODateTimeLiteral (mkSlice (padd (sl_p (e_p e)) (-13)) (sl_l (e_p e) + 13)) ;;
    if 13 <? n then Ret (n - 13) else Ret 0
  else Ret 0.


Definition stopByte (b : Z) : Z :=
  index 0 [
    0; 0; 0; 0; 0; 0; 0; 0; 0; 0; 1; 0; 0; 1; 0; 0; (* 00  \n \r *)
    0; 0; 0; 0; 0; 0; 0; 0; 0; 0; 0; 0; 0; 0; 0; 0; (* 10 *)
    0; 0; 0; 1; 0; 0; 0; 0; 0; 0; 0; 0; 1; 0; 0; 1; (* 20  # , / *)
    0; 0; 0; 0; 0; 0; 0; 0; 0; 0; 1; 0; 0; 0; 0; 0; (* 30  : *)
    0; 0; 0; 0; 0; 0; 0; 0; 0; 0; 0; 0; 0; 0; 0; 0; (* 40 *)
    0; 0; 0; 0; 0; 0; 0; 0; 0; 0; 0; 1; 0; 1; 0; 0; (* 50 [ ] *)
    0; 0; 0; 0; 0; 0; 0; 0; 0; 0; 0; 0; 0; 0; 0; 0; (* 60 *)
    0; 0; 0; 0; 0; 0; 0; 0; 0; 0; 0; 1; 0; 1; 0; 0  (* 70 { } *)
  ] b.

(** [quotelessString] includes any valid characters until any of
    , { } [ ] : \n \r\n // /*, the end of input or an error is met.  The
    loop state is the engine and [endIdx]; the loop is left by [break]
    (no error) or by [return err]. *)
Definition quotelessString_body (st : engine_t * Z)
  : outcome (engine_t * Z + option error_t * engine_t * Z) :=
  let '(e, endIdx) := st in
  if sl_l (e_p e) =? 0 then break (None, e, endIdx)
  else if negb (whitespace (e_p e) =? 0) then
    e <- skipWhitespaces e ;;
    continue (e, endIdx)
  else
    let read_char :=
      match qchar e with
      | (Some err, _) => break (Some err, e, endIdx)
      | (None, n) => let e := popBytes e n in continue (e, pos_b (e_pos e))
      end in
    if negb (stopByte (e_p e).[0] =? 0) then
      if (((e_p e).[0] =? ch "/") && (1 <? sl_l (e_p e))
           && (((e_p e).[1] =? ch "/") || ((e_p e).[1] =? ch "*")))
         || negb (newline (e_p e) =? 0)
         || (negb ((e_p e).[0] =? CR) && negb ((e_p e).[0] =? ch "/"))
      then
        (* we met any of , : { } [ ] # \n \r\n // /* *)
        n <- lenISODateTime e ;;
        if n =? 0 then break (None, e, endIdx)
        else let e := popBytes e n in continue (e, pos_b (e_pos e))
      else read_char
    else read_char.

Definition quotelessString (e : engine_t)
  : outcome (option error_t * slice_t * engine_t) :=
  let startPos := e_pos e in
  let endIdx := pos_b startPos in
  '(err, e, endIdx) <- iter (fuel_of (e_p e)) quotelessString_body (e, endIdx) ;;
  if is_err err then Ret (err, nullSlice, e)
  else if pos_b startPos =? endIdx then Ret (None, nullSlice, e)
  else Ret (None, mkSlice (padd e_in (pos_b startPos)) (endIdx - pos_b startPos), e).

Definition tkTagTable (b : Z) : tokenTag_t :=
  let o := tagUnknown in
  index tagUnknown [
    o; o; o; o; o; o; o; o; o; o; o; o; o; o; o; o; (* 00 *)
    o; o; o; o; o; o; o; o; o; o; o; o; o; o; o; o; (* 10 *)
    o; o; o; o; o; o; o; o; o; o; o; o; tagComma; o; o; o; (* 20 *)
    o; o; o; o; o; o; o; o; o; o; tagColon; o; o; o; o; o; (* 30 *)
    o; o; o; o; o; o; o; o; o; o; o; o; o; o; o; o; (* 40 *)
    o; o; o; o; o; o; o; o; o; o; o; tagOpenSquare; o; tagCloseSquare; o; o; (* 50 *)
    o; o; o; o; o; o; o; o; o; o; o; o; o; o; o; o; (* 60 *)
    o; o; o; o; o; o; o; o; o; o; o; tagOpenBrace; o; tagCloseBrace; o; o  (* 70 *)
  ] b.

(** [delimiter] returns the delimiter tag or tagUnknown; a delimiter is
    popped from e.p. *)
Definition delimiter (e : engine_t) : tokenTag_t * engine_t :=
  let tag := tkTagTable (e_p e).[0] in
  if negb (tag_eqb tag tagUnknown) then (tag, popBytes e 1) else (tag, e).

(** [skipSpaces] skips whitespaces, comments, newlines, and returns the
    error if any.  The loop state is [err] and the engine. *)
Definition skipSpaces_body (st : option error_t * engine_t)
  : outcome (option error_t * engine_t + option error_t * engine_t) :=
  let '(err, e) := st in
  if negb (is_err err) && (0 <? sl_l (e_p e)) then
    e <- skipWhitespaces e ;;
    '(err, ok, e) <- skipLineComment e ;;
    if ok || is_err err then continue (err, e)
    else
      '(err, ok, e) <- skipMultilineComment e ;;
      if ok || is_err err then continue (err, e)
      else
        let '(nl, e) := popNewline e in
        if negb nl then break (err, e) else continue (err, e)
  else break (err, e).

Definition skipSpaces (e : engine_t) : outcome (option error_t * engine_t) :=
  iter (S (fuel_of (e_p e))) skipSpaces_body (None, e).

Definition matchingMarginLength (margin line : slice_t) : Z :=
  let n := if sl_l line <? sl_l margin then sl_l line else sl_l margin in
  match for_range 0 n
          (fun i (_ : unit) => if negb (line.[i] =? margin.[i]) then inr i else inl tt) tt
  with
  | inr i => i
  | inl _ => n
  end.

Definition newlineSpecifier (p : slice_t) : Z :=
  if p.[0] =? BSLASH then
    if (1 <? sl_l p) && (p.[1] =? ch "n") then 2
    else if (3 <? sl_l p) && (p.[1] =? ch "r") && (p.[2] =? BSLASH) && (p.[3] =? ch "n")
    then 4
    else 0
  else 0.

(** [getMargin] returns the index in p of the end of the margin. *)
Definition getMargin_body (st : slice_t * Z) : outcome (slice_t * Z + Z) :=
  let '(p, b) := st in
  if 0 <? sl_l p then
    let n := whitespace p in
    if n =? 0 then break b else continue (adv p n, b + n)
  else break b.

Definition getMargin (p : slice_t) : outcome Z :=
  iter (fuel_of p) getMargin_body (p, 0).


(** [multilineString] tests if e.p starts with a multiline string; if so
    it returns the multiline string including the margin and the trailing
    back-tick, and pops it from e.p. *)
Definition multilineString_body (margin : slice_t) (startPos : pos_t) (e : engine_t)
  : outcome (engine_t + option error_t * slice_t * engine_t) :=
  if 0 <? sl_l (e_p e) then
    let '(nl, e) := popNewline e in
    if nl then
      let n := matchingMarginLength margin (e_p e) in
      if negb (n =? sl_l margin)
      then break (Some (newError (mkPos (pos_b (e_pos e) + n) (pos_s (e_pos e)) (pos_l (e_pos e)))
                                 ErrInvalidMarginChar), nullSlice, e)
      else if 0 <? n then continue (popBytes e n)
      else continue e
    else if char (e_p e).[0] <? 0x20 then continue (popBytes e 1)
    else if (e_p e).[0] =? BTICK then
      let e := popBytes e 1 in
      if (sl_l (e_p e) =? 0) || negb ((e_p e).[0] =? BSLASH)
      then (* we reached the end of the multiline *)
        break (None, mkSlice (padd e_in (pos_s startPos)) (pos_b (e_pos e) - pos_s startPos), e)
      else continue e
    else
      match qchar e with
      | (Some err, _) => break (Some err, nullSlice, e)
      | (None, n) => continue (popBytes e n)
      end
  else break (Some (newError startPos ErrUnclosedMultiline), nullSlice, e).

Definition multilineString (e : engine_t)
  : outcome (option error_t * slice_t * engine_t) :=
  if (sl_l (e_p e) =? 0) || negb ((e_p e).[0] =? BTICK)
  then Ret (None, nullSlice, e)
  else
    m <- getMargin (mkSlice (padd e_in (pos_s (e_pos e))) (pos_b (e_pos e) - pos_s (e_pos e))) ;;
    let b := m + pos_s (e_pos e) in
    if negb (b =? pos_b (e_pos e))
    then Ret (Some (newError (mkPos b (pos_s (e_pos e)) (pos_l (e_pos e)))
                             ErrMarginMustBeWhitespaceOnly), nullSlice, e)
    else
    let margin := mkSlice (padd e_in (pos_s (e_pos e))) (pos_b (e_pos e) - pos_s (e_pos e)) in
    let startPos := e_pos e in (* for error reporting *)
    let e := popBytes e 1 in   (* pops starting ` *)
    e <- skipWhitespaces e ;;
    if sl_l (e_p e) =? 0
    then Ret (Some (newError startPos ErrMissingNewlineSpecifier), nullSlice, e)
    else
    let n := newlineSpecifier (e_p e) in
    if n =? 0
    then Ret (Some (newError startPos ErrInvalidNewlineSpecifier), nullSlice, e)
    else
    let e := popBytes e n in
    e <- skipWhitespaces e ;;
    let '(nl, e) := popNewline e in
    '(err, e) <-
      (if negb nl then
         '(err, ok, e) <- skipLineComment e ;;
         if is_err err then Ret (err, e)
         else if negb ok then Ret (Some (newError startPos ErrInvalidMultilineStart), e)
         else Ret (None, e)
       else Ret (None, e)) ;;
    if is_err err then Ret (err, nullSlice, e)
    else
    if sl_l (e_p e) =? 0
    then Ret (Some (newError startPos ErrUnclosedMultiline), nullSlice, e)
    else
    let n := matchingMarginLength margin (e_p e) in
    if negb (n =? sl_l margin)
    then Ret (Some (newError (mkPos (pos_b (e_pos e) + n) (pos_s (e_pos e)) (pos_l (e_pos e)))
                             ErrInvalidMarginChar), nullSlice, e)
    else
    let e := popBytes e n in
    iter (fuel_of (e_p e)) (multilineString_body margin startPos) e.

Definition error_token (err : error_t) : token_t :=
  mkToken tagError (err_pos err)
          (mkSlice (Msg (err_err err)) (Z.of_nat (String.length (err_text (err_err err))))).

(** [nextToken] reads the next token.  The token is set to an error if an
    error is detected or the end of input is reached. *)
Definition nextToken (e : engine_t) : outcome engine_t :=
  if tag_eqb (tk_tag (e_tk e)) tagError then Ret e
  else
  '(err, e) <- skipSpaces e ;;
  match err with
  | Some err => Ret (set_tk e (error_token err))
  | None =>
  let tokenPos := e_pos e in
  if sl_l (e_p e) =? 0
  then Ret (set_tk e (error_token (newError (e_pos e) ErrEndOfInput)))
  else
  let '(tag, e) := delimiter e in
  if negb (tag_eqb tag tagUnknown)
  then Ret (set_tk e (mkToken tag tokenPos nullSlice))
  else
  '(err, s, e) <- doubleQuotedString e ;;
  match err with
  | Some err => Ret (set_tk e (error_token err))
  | None =>
  if negb (is_NULL (sl_p s))
  then Ret (set_tk e (mkToken tagDoubleQuotedString tokenPos s))
  else
  '(err, s, e) <- singleQuotedString e ;;
  match err with
  | Some err => Ret (set_tk e (error_token err))
  | None =>
  if negb (is_NULL (sl_p s))
  then Ret (set_tk e (mkToken tagSingleQuotedString tokenPos s))
  else
  '(err, s, e) <- multilineString e ;;
  match err with
  | Some err => Ret (set_tk e (error_token err))
  | None =>
  if negb (is_NULL (sl_p s))
  then Ret (set_tk e (mkToken tagMultilineString tokenPos s))
  else
  '(err, s, e) <- quotelessString e ;;
  match err with
  | Some err => Ret (set_tk e (error_token err))
  | None =>
  if negb (is_NULL (sl_p s))
  then Ret (set_tk e (mkToken tagQuotelessString tokenPos s))
  else AssertFail (* assert(false): we should never reach this line *)
  end end end end end.

(** ** Engine helpers *)

(** [done] returns true when an error is met. *)
Definition done (e : engine_t) : bool := tag_eqb (tk_tag (e_tk e)) tagError.

Definition setErrorAndPos (e : engine_t) (err : errmsg) (pos : pos_t) : engine_t :=
  set_tk e (error_token (newError pos err)).

Definition setError (e : engine_t) (err : errmsg) : engine_t :=
  setErrorAndPos e err (e_pos e).

(** ** Output *)

Definition outputByte (e : engine_t) (c : Z) : engine_t :=
  set_out e (e_out e ++ [Zbyte c]).

Definition outputString (e : engine_t) (s : list byte) : engine_t :=
  set_out e (e_out e ++ s).

Definition outputReset (e : engine_t) : engine_t := set_out e [].


(** The C string [p] points to (up to its NUL). *)
Fixpoint until_nul (l : list byte) : list byte :=
  match l with
  | [] => []
  | b :: l' => if byteZ b =? 0 then [] else b :: until_nul l'
  end.

Definition cstring (p : ptr) : list byte :=
  match p with
  | Inp off => if off <? 0 then [] else until_nul (skipn (Z.to_nat off) text)
  | Msg e => bytes (err_text e)
  | NULL => []
  end.

(** [isHexDigit] (declared ahead of the output functions in the source). *)
Definition isHexDigit (v : Z) : bool :=
  isIntDigit v || inRange (Z.land v 0xDF) (ch "A") (ch "F").

(** The test of the escape that follows a backslash at [str.p[i]]; [q] is
    the quote of the string.  The source tests [str.p[i+5]] twice and
    [str.p[i+4]] never. *)
Definition bad_escape (str : slice_t) (i : Z) (q : Z) : bool :=
  let c := str.[i + 1] in
  negb (c =? ch "t") && negb (c =? ch "n") && negb (c =? ch "r")
  && negb (c =? ch "f") && negb (c =? ch "b") && negb (c =? ch "/")
  && negb (c =? BSLASH) && negb (c =? q)
  && negb ((c =? ch "u") && (i + 6 <=? sl_l str)
           && isHexDigit str.[i + 2] && isHexDigit str.[i + 3]
           && isHexDigit str.[i + 5] && isHexDigit str.[i + 5]).

Definition escape_error (e : engine_t) (i : Z) : engine_t :=
  setErrorAndPos e ErrInvalidEscapeSequence
    (mkPos (pos_b (tk_pos (e_tk e)) + i) (pos_s (tk_pos (e_tk e))) (pos_l (tk_pos (e_tk e)))).

Definition outputDoubleQuotedString (e : engine_t) : engine_t :=
  let str := tk_val (e_tk e) in
  let e := outputByte e DQUOTE in
  match for_range 1 (sl_l str - 1)
          (fun i e =>
             if str.[i] =? ch "/" then
               let e := if str.[i - 1] =? ch "<" then outputByte e BSLASH else e in
               inl (outputByte e str.[i])
             else if str.[i] =? TAB then
               inl (outputByte (outputByte e BSLASH) (ch "t"))
             else if str.[i] =? BSLASH then
               if bad_escape str i DQUOTE then inr (escape_error e i)
               else inl (outputByte e str.[i])
             else inl (outputByte e str.[i])) e
  with
  | inl e => outputByte e DQUOTE
  | inr e => e
  end.

Definition outputSingleQuotedString (e : engine_t) : engine_t :=
  let str := tk_val (e_tk e) in
  let e := outputByte e DQUOTE in
  match for_range 1 (sl_l str - 1)
          (fun i e =>
             if str.[i] =? ch "/" then
               let e := if str.[i - 1] =? ch "<" then outputByte e BSLASH else e in
               inl (outputByte e str.[i])
             else if str.[i] =? TAB then
               inl (outputByte (outputByte e BSLASH) (ch "t"))
             else if str.[i] =? BSLASH then
               if bad_escape str i SQUOTE then inr (escape_error e i)
               else if str.[i + 1] =? SQUOTE then inl e
               else inl (outputByte e str.[i])
             else if str.[i] =? DQUOTE then
               inl (outputByte (outputByte e BSLASH) str.[i])
             else inl (outputByte e str.[i])) e
  with
  | inl e => outputByte e DQUOTE
  | inr e => e
  end.

Definition outputQuotelessString (e : engine_t) : engine_t :=
  let str := tk_val (e_tk e) in
  let e := outputByte e DQUOTE in
  match for_range 0 (sl_l str)
          (fun i e =>
             if str.[i] =? DQUOTE then
               inl (outputByte (outputByte e BSLASH) str.[i])
             else if str.[i] =? TAB then
               inl (outputByte (outputByte e BSLASH) (ch "t"))
             else if str.[i] =? ch "/" then
               let e := if (0 <? i) && (str.[i - 1] =? ch "<")
                        then outputByte e BSLASH else e in
               inl (outputByte e str.[i])
             else if str.[i] =? BSLASH then
               inl (outputByte (outputByte e BSLASH) str.[i])
             else (inl (outputByte e str.[i]) : engine_t + unit)) e
  with
  | inl e => outputByte e DQUOTE
  | inr _ => e
  end.

(** [sprintf(tmp, "%0X", c)] for a plain [char] c: the argument is promoted
    to [int] and printed as an [unsigned int], without padding. *)
Fixpoint hexX_uint (u : Hexadecimal.uint) : list byte :=
  let d (c : ascii) (u' : Hexadecimal.uint) := Zbyte (ch c) :: hexX_uint u' in
  match u with
  | Hexadecimal.Nil => []
  | Hexadecimal.D0 u' => d "0"%char u' | Hexadecimal.D1 u' => d "1"%char u'
  | Hexadecimal.D2 u' => d "2"%char u' | Hexadecimal.D3 u' => d "3"%char u'
  | Hexadecimal.D4 u' => d "4"%char u' | Hexadecimal.D5 u' => d "5"%char u'
  | Hexadecimal.D6 u' => d "6"%char u' | Hexadecimal.D7 u' => d "7"%char u'
  | Hexadecimal.D8 u' => d "8"%char u' | Hexadecimal.D9 u' => d "9"%char u'
  | Hexadecimal.Da u' => d "A"%char u' | Hexadecimal.Db u' => d "B"%char u'
  | Hexadecimal.Dc u' => d "C"%char u' | Hexadecimal.Dd u' => d "D"%char u'
  | Hexadecimal.De u' => d "E"%char u' | Hexadecimal.Df u' => d "F"%char u'
  end.

Definition sprintf_X (c : Z) : list byte :=
  hexX_uint (N.to_hex_uint (Z.to_N (c mod 2 ^ 32))).

(** [sprintf(buf, "%d", n)] *)
Definition sprintf_d (n : Z) : list byte :=
  bytes (DecimalString.NilZero.string_of_int (Z.to_int n)).


(** [outputMultilineString]: the token value is decomposed into margin,
    newline specifier and body. *)
Definition find_btick_body (str : slice_t) (p : Z) : outcome (Z + Z) :=
  if negb (str.[p] =? BTICK) then continue (p + 1) else break p.

Definition skip_ws_body (str : slice_t) : outcome (slice_t + slice_t) :=
  let n := whitespace str in
  if 0 <? n then continue (adv str n) else break str.

Definition find_LF_body (str : slice_t) : outcome (slice_t + slice_t) :=
  if negb (str.[0] =? LF) then continue (adv str 1) else break str.

Definition outputMultilineString_body (nl : list byte) (margin : slice_t)
  (st : slice_t * engine_t) : outcome (slice_t * engine_t + engine_t) :=
  let '(str, e) := st in
  if 0 <? sl_l str then
    let n := newline str in
    if negb (n =? 0) then
      continue (adv str (n + sl_l margin), outputString e nl)
    else if char str.[0] <? 0x20 then
      let e :=
        if str.[0] =? BS then outputString e (bytes "\b")
        else if str.[0] =? TAB then outputString e (bytes "\t")
        else if str.[0] =? CR then outputString e (bytes "\r")
        else if str.[0] =? FF then outputString e (bytes "\f")
        else outputString e (bytes "\u00" ++ sprintf_X (char str.[0])) in
      continue (adv str 1, e)
    else if str.[0] =? ch "<" then
      let e := outputByte e (ch "<") in
      let e := if (1 <? sl_l str) && (str.[1] =? ch "/")
               then outputByte e BSLASH else e in
      continue (adv str 1, e)
    else if str.[0] =? DQUOTE then
      continue (adv str 1, outputByte (outputByte e BSLASH) DQUOTE)
    else if (str.[0] =? BTICK) && (1 <? sl_l str) && (str.[1] =? BSLASH) then
      continue (adv str 2, outputByte e BTICK)
    else if str.[0] =? BSLASH then
      continue (adv str 1, outputByte (outputByte e BSLASH) BSLASH)
    else continue (adv str 1, outputByte e str.[0])
  else break e.

Definition outputMultilineString (e : engine_t) : outcome engine_t :=
  let str := tk_val (e_tk e) in
  p <- iter (fuel_of str) (find_btick_body str) 0 ;;
  let margin := mkSlice (sl_p str) p in
  let str := adv str (p + 1) in
  str <- iter (fuel_of str) skip_ws_body str ;;
  let str := adv str 1 in
  let '(nl, str) :=
    if str.[0] =? ch "n" then (bytes "\n", adv str 1)
    else (bytes "\r\n", adv str 3) in
  str <- iter (fuel_of str) find_LF_body str ;;
  (* skip \n with margin of first line, and drop closing ` *)
  let str := mkSlice (padd (sl_p str) (1 + sl_l margin)) (sl_l str - 2 - sl_l margin) in
  let e := outputByte e DQUOTE in
  e <- iter (fuel_of str) (outputMultilineString_body nl margin) (str, e) ;;
  Ret (outputByte e DQUOTE).


(** ** NumTokenizer *)

(** The [val] union of [numToken_t]: the member last written. *)
Inductive numval : Type :=
| VI (i : Z)
| VF (f : double)
| VE (e : errmsg).

Record numToken_t : Type := mkNumToken {
  nt_tag : tokenTag_t;
  nt_pos : Z;
  nt_val : numval
}.

(** [numEngine_t]; [ne_errno] is the global [errno == ERANGE]. *)
Record numEngine_t : Type := mkNumEngine {
  ne_in : slice_t;    (* input expression to parse *)
  ne_p : slice_t;     (* expression left to parse *)
  ne_pos : Z;         (* position in in of the first byte of p *)
  ne_tk : numToken_t; (* the last token *)
  ne_errno : bool
}.

Definition nset_tk (e : numEngine_t) (t : numToken_t) : numEngine_t :=
  mkNumEngine (ne_in e) (ne_p e) (ne_pos e) t (ne_errno e).
Definition nset_errno (e : numEngine_t) (r : bool) : numEngine_t :=
  mkNumEngine (ne_in e) (ne_p e) (ne_pos e) (ne_tk e) r.

Definition val_i (t : numToken_t) : Z :=
  match nt_val t with VI i => i | _ => 0 end.
Definition val_f (t : numToken_t) : double :=
  match nt_val t with VF f => f | _ => d_zero end.
Definition val_e (t : numToken_t) : option errmsg :=
  match nt_val t with VE e => Some e | _ => None end.

(** [t.val.e == ErrEndOfInput] *)
Definition val_is_EndOfInput (t : numToken_t) : bool :=
  match nt_val t with VE ErrEndOfInput => true | _ => false end.

Definition numError (pos : Z) (err : errmsg) : numToken_t :=
  mkNumToken tagError pos (VE err).

Definition numDone (e : numEngine_t) : bool := tag_eqb (nt_tag (ne_tk e)) tagError.

Definition numPopBytes (e : numEngine_t) (n : Z) : outcome numEngine_t :=
  assert (n <=? sl_l (ne_p e))
    (Ret (mkNumEngine (ne_in e) (adv (ne_p e) n) (ne_pos e + n) (ne_tk e) (ne_errno e))).

Definition tkOpTable (b : Z) : tokenTag_t :=
  let o := tagUnknown in
  index tagUnknown [
    o; o; o; o; o; o; o; o; o; o; o; o; o; o; o; o; (* 00 *)
    o; o; o; o; o; o; o; o; o; o; o; o; o; o; o; o; (* 10 *)
    o; o; o; o; o; tagModulo; tagAnd; o; tagOpenParen; (* 20 *)
    tagCloseParen; tagMultiplication; tagPlus; o; tagMinus; o; tagDivision; (* 29 *)
    o; o; o; o; o; o; o; o; o; o; o; o; o; o; o; o; (* 30 *)
    o; o; o; o; o; o; o; o; o; o; o; o; o; o; o; o; (* 40 *)
    o; o; o; o; o; o; o; o; o; o; o; o; o; o; tagXor; o; (* 50 *)
    o; o; o; o; tagDays; o; o; o; tagHours; o; o; o; o; tagMinutes; o; o; (* 60 *)
    o; o; o; tagSeconds; o; o; o; tagWeeks; o; o; o; o; tagOr; o; tagInverse; o (* 70 *)
  ] b.

(** [nextOperator] returns true and pops the operator if e.p starts with
    an operator. *)
Definition nextOperator (e : numEngine_t) : outcome (bool * numEngine_t) :=
  let x := tkOpTable (ne_p e).[0] in
  if tag_eqb x tagUnknown then Ret (false, e)
  else
    let e := nset_tk e (mkNumToken x (ne_pos e) (VI 0)) in
    e <- numPopBytes e 1 ;;
    Ret (true, e).

(** [skipHeaderAndOptionalUnderscore]: the returned count (-1 at the end of
    v) and the out-parameter. *)
Definition skipHeaderAndOptionalUnderscore (n : Z) (v : slice_t) : Z * slice_t :=
  if sl_l v <=? n then (-1, nullSlice)
  else
    let v := adv v n in
    if v.[0] =? ch "_" then
      let n := n + 1 in
      let v := adv v 1 in
      if sl_l v =? 0 then (-1, nullSlice) else (n, v)
    else (n, v).

(** The loop shared (textually) by [parseBinDigits], [parseOctDigits],
    [parseIntDigits] and [parseHexDigits], for the digit test [isDigit]:
    [for (p = 1; p < v.l; p++)], with [p] also stepped over an underscore. *)
Definition parseDigits_body (isDigit : Z -> bool) (v : slice_t) (p : Z)
  : outcome (Z + Z) :=
  if p <? sl_l v then
    let us := v.[p] =? ch "_" in
    let p := if us then p + 1 else p in
    if us && (p =? sl_l v) then break (-1)
    else if negb (isDigit v.[p]) then
      if v.[p - 1] =? ch "_" then break (-1) else break p
    else continue (p + 1)
  else break (sl_l v).

Definition isBinDigit (v : Z) : bool := (v =? ch "0") || (v =? ch "1").

(** The number of bytes parsed, or 0 if not valid digits. *)
Definition parseBinDigits (v : slice_t) : outcome Z :=
  if negb (isBinDigit v.[0]) then Ret 0
  else iter (fuel_of v) (parseDigits_body isBinDigit v) 1.

(** 0 if not a literal, -1 if invalid, n when valid of n bytes. *)
Definition parseBinLiteral (v : slice_t) : outcome Z :=
  if (sl_l v <? 2) || negb (v.[0] =? ch "0") || negb (Z.land v.[1] 0xDF =? ch "B")
  then Ret 0
  else
    let '(n, v) := skipHeaderAndOptionalUnderscore 2 v in
    if 0 <=? n then
      p <- parseBinDigits v ;;
      if 0 <? p then Ret (n + p) else Ret (-1)
    else Ret (-1).

(** Two's complement conversions. *)
Definition to_uint64 (z : Z) : Z := z mod 2 ^ 64.
Definition to_int64 (z : Z) : Z := (z + 2 ^ 63) mod 2 ^ 64 - 2 ^ 63.
Definition to_int32 (z : Z) : Z := (z + 2 ^ 31) mod 2 ^ 32 - 2 ^ 31.
Definition INT64_MIN : Z := - 2 ^ 63.

(** The value in the range 0 to MAX_INT, or -1 if overflows. *)
Definition decodeBinLiteral (v : slice_t) : Z :=
  let v := adv v 2 in
  match for_range 0 (sl_l v)
          (fun p val =>
             if v.[p] =? ch "_" then inl val
             else if negb (Z.land val 0x8000000000000000 =? 0) then inr (-1)
             else
               let val := to_uint64 (Z.shiftl val 1) in
               inl (if v.[p] =? ch "1" then Z.lor val 1 else val)) 0
  with
  | inr r => r
  | inl val =>
      if negb (Z.land val 0x8000000000000000 =? 0) then -1 else to_int64 val
  end.


Definition nextBinValue (e : numEngine_t) : outcome (bool * numEngine_t) :=
  n <- parseBinLiteral (ne_p e) ;;
  if n =? 0 then Ret (false, e)
  else if n <? 0 then Ret (true, nset_tk e (numError (ne_pos e) ErrInvalidBinaryNumber))
  else
    let val := decodeBinLiteral (mkSlice (sl_p (ne_p e)) n) in
    if val <? 0 then Ret (true, nset_tk e (numError (ne_pos e) ErrNumberOverflow))
    else
      let e := nset_tk e (mkNumToken tagIntegerVal (ne_pos e) (VI val)) in
      e <- numPopBytes e n ;;
      Ret (true, e).

Definition isOctDigit (v : Z) : bool := inRange v (ch "0") (ch "7").

Definition parseOctDigits (v : slice_t) : outcome Z :=
  if (sl_l v =? 0) || negb (isOctDigit v.[0]) then Ret 0
  else iter (fuel_of v) (parseDigits_body isOctDigit v) 1.

Definition parseOctLiteral (v : slice_t) : outcome Z :=
  if (sl_l v <? 1) || negb (v.[0] =? ch "0") then Ret 0
  else if (2 <=? sl_l v) && (Z.land v.[1] 0xDF =? ch "O") then
    let '(n, v) := skipHeaderAndOptionalUnderscore 2 v in
    if 0 <=? n then
      p <- parseOctDigits v ;;
      if 0 <? p then Ret (n + p) else Ret (-1)
    else Ret (-1)
  (* a 0 at end of input or followed by anything different from _ and an
     oct digit is not an octal number *)
  else if (sl_l v <? 2) || (negb (v.[1] =? ch "_") && negb (isOctDigit v.[1]))
  then Ret 0
  else
    let '(n, v) := skipHeaderAndOptionalUnderscore 1 v in
    if 0 <=? n then
      p <- parseOctDigits v ;;
      if 0 <? p then Ret (n + p) else Ret (-1)
    else Ret (-1).

(** [decodeOctLiteral] is declared to return [int]: the [int64_t] value is
    converted to [int] on return (modulo 2^32, as gcc and clang define). *)
Definition decodeOctLiteral (v : slice_t) : Z :=
  let v := if Z.land v.[1] 0xDF =? ch "O" then adv v 2 else adv v 1 in
  match for_range 0 (sl_l v)
          (fun p val =>
             if v.[p] =? ch "_" then inl val
             else if negb (Z.land val 0xF000000000000000 =? 0) then inr (-1)
             else inl (Z.lor (to_uint64 (Z.shiftl val 3))
                             (to_uint64 (char v.[p] - ch "0")))) 0
  with
  | inr r => r
  | inl val => to_int32 (to_int64 val)
  end.

Definition nextOctValue (e : numEngine_t) : outcome (bool * numEngine_t) :=
  n <- parseOctLiteral (ne_p e) ;;
  if n =? 0 then Ret (false, e)
  else if n <? 0 then Ret (true, nset_tk e (numError (ne_pos e) ErrInvalidOctalNumber))
  else
    let val := decodeOctLiteral (mkSlice (sl_p (ne_p e)) n) in
    if val <? 0 then Ret (true, nset_tk e (numError (ne_pos e) ErrNumberOverflow))
    else
      let e := nset_tk e (mkNumToken tagIntegerVal (ne_pos e) (VI val)) in
      e <- numPopBytes e n ;;
      Ret (true, e).

Definition parseIntDigits (v : slice_t) : outcome Z :=
  if (sl_l v =? 0) || negb (isIntDigit v.[0]) then Ret 0
  else iter (fuel_of v) (parseDigits_body isIntDigit v) 1.

(** 0 if not a literal, or n when valid of n bytes. *)
Definition parseIntLiteral (v : slice_t) : outcome Z :=
  if inRange v.[0] (ch "1") (ch "9") then parseIntDigits v
  else if negb (v.[0] =? ch "0") then Ret 0
  else if (1 <? sl_l v) && ((v.[1] =? ch "_") || isIntDigit v.[1]) then Ret (-1)
  else Ret 1.

(** The value in the range 0 to MAX_INT, or -1 if overflows. *)
Definition decodeIntLiteral (v : slice_t) : Z :=
  match for_range 0 (sl_l v)
          (fun p val =>
             if v.[p] =? ch "_" then inl val
             else if 0x1999999999999999 <? val then inr (-1)
             else inl (to_uint64 (val * 10 + to_uint64 (char v.[p] - ch "0")))) 0
  with
  | inr r => r
  | inl val =>
      if negb (Z.land val 0x8000000000000000 =? 0) then -1 else to_int64 val
  end.

Definition nextIntValue (e : numEngine_t) : outcome (bool * numEngine_t) :=
  n <- parseIntLiteral (ne_p e) ;;
  if n =? 0 then Ret (false, e)
  else if n <? 0 then Ret (true, nset_tk e (numError (ne_pos e) ErrInvalidIntegerNumber))
  else
    let val := decodeIntLiteral (mkSlice (sl_p (ne_p e)) n) in
    if val <? 0 then Ret (true, nset_tk e (numError (ne_pos e) ErrNumberOverflow))
    else
      let e := nset_tk e (mkNumToken tagIntegerVal (ne_pos e) (VI val)) in
      e <- numPopBytes e n ;;
      Ret (true, e).

Definition parseHexDigits (v : slice_t) : outcome Z :=
  if (sl_l v =? 0) || negb (isHexDigit v.[0]) then Ret 0
  else iter (fuel_of v) (parseDigits_body isHexDigit v) 1.

Definition parseHexLiteral (v : slice_t) : outcome Z :=
  if (sl_l v <? 2) || negb (v.[0] =? ch "0") || negb (Z.land v.[1] 0xDF =? ch "X")
  then Ret 0
  else
    let '(n, v) := skipHeaderAndOptionalUnderscore 2 v in
    if 0 <=? n then
      p <- parseHexDigits v ;;
      if 0 <? p then Ret (n + p) else Ret (-1)
    else Ret (-1).

(** The value in the range 0 to MAX_INT, or -1 if overflows. *)
Definition decodeHexLiteral (v : slice_t) : Z :=
  let v := adv v 2 in
  match for_range 0 (sl_l v)
          (fun p val =>
             if v.[p] =? ch "_" then inl val
             else if negb (Z.land val 0xF000000000000000 =? 0) then inr (-1)
             else if inRange v.[p] (ch "0") (ch "9") then
               inl (Z.lor (to_uint64 (Z.shiftl val 4))
                          (to_uint64 (char v.[p] - ch "0")))
             else
               inl (Z.lor (to_uint64 (Z.shiftl val 4))
                          (to_uint64 (to_uint64 (Z.land v.[p] 0xDF - ch "A") + 10)))) 0
  with
  | inr r => r
  | inl val =>
      if negb (Z.land val 0x8000000000000000 =? 0) then -1 else to_int64 val
  end.

Definition nextHexValue (e : numEngine_t) : outcome (bool * numEngine_t) :=
  n <- parseHexLiteral (ne_p e) ;;
  if n =? 0 then Ret (false, e)
  else if n <? 0 then Ret (true, nset_tk e (numError (ne_pos e) ErrInvalidHexadecimalNumber))
  else
    let val := decodeHexLiteral (mkSlice (sl_p (ne_p e)) n) in
    if val <? 0 then Ret (true, nset_tk e (numError (ne_pos e) ErrNumberOverflow))
    else
      let e := nset_tk e (mkNumToken tagIntegerVal (ne_pos e) (VI val)) in
      e <- numPopBytes e n ;;
      Ret (true, e).


(** 0 if not an exponent, -1 if invalid, n when valid of n bytes. *)
Definition parseExponent (v : slice_t) : outcome Z :=
  if (sl_l v =? 0) || negb (Z.land v.[0] 0xDF =? ch "E") then Ret 0
  else
    let n := 1 in
    let v := adv v 1 in
    if sl_l v =? 0 then Ret (-1)
    else
      let sign := (v.[0] =? ch "+") || (v.[0] =? ch "-") in
      let n := if sign then n + 1 else n in
      let v := if sign then adv v 1 else v in
      if sign && (sl_l v =? 0) then Ret (-1)
      else
        p <- parseIntDigits v ;;
        if 0 <? p then Ret (n + p) else Ret (-1).

(** 0 if not a literal, -1 if invalid, n when valid of n bytes. *)
Definition parseDecLiteral (v : slice_t) : outcome Z :=
  p <- parseIntDigits v ;;
  if p <? 0 then Ret 0
  else if p =? 0 then
    (* numbers must be of the form .123[e[+/-]145] *)
    if negb (v.[0] =? ch ".") || (sl_l v <? 2) then Ret 0
    else
      let v := adv v 1 in
      p <- parseIntDigits v ;;
      if p <? 0 then Ret (-1)
      else if p =? 0 then
        if (0 <? sl_l v) && ((v.[0] =? ch "_") || (Z.land v.[0] 0xDF =? ch "E"))
        then Ret (-1)
        else Ret 0
      else
        let v := adv v p in
        q <- parseExponent v ;;
        if q <? 0 then Ret (-1) else Ret (1 + p + q)
  else
    (* numbers must be of the form 123e[+/-]145 or 123.456[e[+/-]789] *)
    let n := p in
    let v := adv v p in
    q <- parseExponent v ;;
    if q <? 0 then Ret (-1)
    else if 0 <? q then Ret (p + q)
    (* numbers must be of the form 123.456[e[+/-]789] *)
    else if sl_l v =? 0 then Ret 0
    else if negb (v.[0] =? ch ".") then Ret 0 (* not invalid, but not a decimal number *)
    else
      let n := n + 1 in
      let v := adv v 1 in
      q <- parseIntDigits v ;;
      let n := if 0 <? q then n + q else n in
      let v := if 0 <? q then adv v q else v in
      if q <? 0 then Ret (-1)
      else
        p <- parseExponent v ;;
        if p <? 0 then Ret (-1)
        else
          let n := n + p in
          if (p <? sl_l v) && (v.[p] =? ch "_") then Ret (-1)
          else Ret n.

(** The bytes [v.p[0 .. v.l)], as copied by [memcpy] into a local buffer. *)
Definition slice_bytes (v : slice_t) : list Z :=
  map (fun i => v.[Z.of_nat i]) (seq 0 (Z.to_nat (sl_l v))).


(** [decodeDecLiteral]: the value ([-1] flags a failure) and [errno]. *)
Definition decodeDecLiteral (errno : bool) (v : slice_t) : double * bool :=
  if 255 <? sl_l v then (d_of_int (-1), errno)
  else
    let '(x, erange) := strtod (slice_bytes v) in
    let errno := erange || errno in
    if d_eqb x d_zero && errno then (d_of_int (-1), errno)
    else (x, errno).

Definition nextDecValue (e : numEngine_t) : outcome (bool * numEngine_t) :=
  n <- parseDecLiteral (ne_p e) ;;
  if n =? 0 then Ret (false, e)
  else if n <? 0 then Ret (true, nset_tk e (numError (ne_pos e) ErrInvalidDecimalNumber))
  else
    let '(val, errno) := decodeDecLiteral (ne_errno e) (mkSlice (sl_p (ne_p e)) n) in
    let e := nset_errno e errno in
    if d_ltb val d_zero
    then Ret (true, nset_tk e (numError (ne_pos e) ErrInvalidDecimalNumber))
    else
      let e := nset_tk e (mkNumToken tagDecimalVal (ne_pos e) (VF val)) in
      e <- numPopBytes e n ;;
      Ret (true, e).

Record ISODateTime_t : Type := mkISODateTime {
  dt_y : Z;   (* Year.         [1970-...]   *)
  dt_M : Z;   (* Month.        [1-12]       *)
  dt_d : Z;   (* Day.          [1-31]       *)
  dt_h : Z;   (* Hours.        [0-24]       *)
  dt_m : Z;   (* Minutes.      [0-59]       *)
  dt_s : Z;   (* Seconds.      [0-60]       *)
  dt_ho : Z;  (* Hour offset.  [-15-15]     *)
  dt_mo : Z;  (* Min offset.   [0-59]       *)
  dt_f : double (* Frac. of sec. [0-0.999999] *)
}.

(** [makeTime] converts the decoded ISO date time into UTC time in seconds
    since 1970-01-01T00:00:00Z. *)
Definition makeTime (dt : ISODateTime_t) : double :=
  if (dt_y dt <? 1970) || (dt_M dt <? 1) || (12 <? dt_M dt)
     || (dt_d dt <? 1) || (31 <? dt_d dt)
     || (dt_h dt <? 0) || (24 <? dt_h dt) || (dt_m dt <? 0) || (59 <? dt_m dt)
     || (dt_s dt <? 0) || (60 <? dt_s dt)
     || (dt_ho dt <? -15) || (15 <? dt_ho dt) || (dt_mo dt <? 0) || (59 <? dt_mo dt)
     || ((dt_h dt =? 24) && negb (dt_m dt =? 0) && negb (dt_s dt =? 0)
         && negb (d_eqb (dt_f dt) d_zero))
  then d_of_int (-1)
  else
    let v := d_add (d_of_int (timegm (dt_y dt - 1900) (dt_M dt - 1) (dt_d dt)
                                     (dt_h dt) (dt_m dt) (dt_s dt)))
                   (dt_f dt) in
    if dt_ho dt <? 0
    then d_add (d_sub v (d_of_int (dt_ho dt * 3600))) (d_of_int (dt_mo dt * 60))
    else d_sub (d_sub v (d_of_int (dt_ho dt * 3600))) (d_of_int (dt_mo dt * 60)).

(** [buf[i]] of a local buffer holding [s] and its NUL. *)
Definition buf_at (s : list Z) (i : Z) : Z :=
  if i <? 0 then 0 else nth (Z.to_nat i) s 0.

Definition fmt_date_time : list fmt_item :=   (* "%d-%d-%dT%d:%d:%d" *)
  [FmtD; FmtC (ch "-"); FmtD; FmtC (ch "-"); FmtD; FmtC (ch "T");
   FmtD; FmtC (ch ":"); FmtD; FmtC (ch ":"); FmtD].

(** [decodeISODateTimeLiteral] returns -1 if decoding failed. *)
Definition decodeISODateTimeLiteral (v : slice_t) : double :=
  if 255 <? sl_l v then d_of_int (-1)
  else
    let buf := slice_bytes v in
    let r := sscanf fmt_date_time buf in
    let k := Z.of_nat (List.length r) in
    let t := mkISODateTime (nth 0 r 0) (nth 1 r 0) (nth 2 r 0) (nth 3 r 0)
                           (nth 4 r 0) (nth 5 r 0) 0 0 d_zero in
    if (k <? 3) || (k =? 4) then d_of_int (-1)
    else if (k =? 3) || (k =? 5) then makeTime t
    else
      let p := 19 in
      if (buf_at buf p =? 0) || (buf_at buf p =? ch "Z") then makeTime t
      else
        let frac :=
          if buf_at buf p =? ch "." then
            let p := p + 1 in
            match sscanf [FmtD] (skipn (Z.to_nat p) buf) with
            | [num] =>
                if isIntDigit (buf_at buf (p + 3))
                then Some (d_div (d_of_int num) (d_of_int 1000000), p + 6)
                else Some (d_div (d_of_int num) (d_of_int 1000), p + 3)
            | _ => None
            end
          else Some (d_zero, p) in
        match frac with
        | None => d_of_int (-1)
        | Some (f, p) =>
            let t := mkISODateTime (dt_y t) (dt_M t) (dt_d t) (dt_h t) (dt_m t)
                                   (dt_s t) 0 0 f in
            if (buf_at buf p =? 0) || (buf_at buf p =? ch "Z") then makeTime t
            else
              match sscanf [FmtD; FmtC (ch ":"); FmtD] (skipn (Z.to_nat p) buf) with
              | [ho; mo] =>
                  makeTime (mkISODateTime (dt_y t) (dt_M t) (dt_d t) (dt_h t)
                                          (dt_m t) (dt_s t) ho mo f)
              | _ => d_of_int (-1)
              end
        end.

Definition nextISODateTimeValue (e : numEngine_t) : outcome (bool * numEngine_t) :=
  n <- parseISODateTimeLiteral (ne_p e) ;;
  if n =? 0 then Ret (false, e)
  else if n <? 0 then Ret (true, nset_tk e (numError (ne_pos e) ErrInvalidISODateTime))
  else
    let val := decodeISODateTimeLiteral (mkSlice (sl_p (ne_p e)) n) in
    if d_ltb val d_zero
    then Ret (true, nset_tk e (numError (ne_pos e) ErrInvalidISODateTime))
    else
      let e := nset_tk e (mkNumToken tagDecimalVal (ne_pos e) (VF val)) in
      e <- numPopBytes e n ;;
      Ret (true, e).

Definition numSkipWhitespace_body (e : numEngine_t)
  : outcome (numEngine_t + numEngine_t) :=
  if 0 <? sl_l (ne_p e) then
    let n := whitespace (ne_p e) in
    if n =? 0 then break e
    else e <- numPopBytes e n ;; continue e
  else break e.

Definition numNextToken (e : numEngine_t) : outcome numEngine_t :=
  if tag_eqb (nt_tag (ne_tk e)) tagError then Ret e
  else
    e <- iter (fuel_of (ne_p e)) numSkipWhitespace_body e ;;
    if sl_l (ne_p e) =? 0
    then Ret (nset_tk e (numError (ne_pos e) ErrEndOfInput))
    else
      '(ok, e) <- nextOperator e ;;
      if ok then Ret e else
      '(ok, e) <- nextISODateTimeValue e ;;
      if ok then Ret e else
      '(ok, e) <- nextBinValue e ;;
      if ok then Ret e else
      '(ok, e) <- nextHexValue e ;;
      if ok then Ret e else
      '(ok, e) <- nextDecValue e ;;
      if ok then Ret e else
      '(ok, e) <- nextOctValue e ;;
      if ok then Ret e else
      '(ok, e) <- nextIntValue e ;;
      if ok then Ret e else
      Ret (nset_tk e (numError (ne_pos e) ErrInvalidNumericExpression)).

Definition numEngineInit (errno : bool) (input : slice_t) : outcome numEngine_t :=
  assert (negb (is_NULL (sl_p input)))
    (assert (negb (sl_l input =? 0))
       (numNextToken (mkNumEngine input input 0 (mkNumToken tagUnknown 0 (VI 0)) errno))).


Definition precedenceTable (t : tokenTag_t) : Z :=
  index 0 [
    0; (* tagUnknown *)
    0; (* tagError *)
    0; (* tagIntegerVal *)
    0; (* tagDecimalVal *)
    1; (* tagPlus *)
    1; (* tagMinus *)
    2; (* tagMultiplication *)
    2; (* tagDivision *)
    1; (* tagXor *)
    2; (* tagAnd *)
    1; (* tagOr *)
    1; (* tagInverse *)
    2; (* tagModulo *)
    0; (* tagOpenParen *)
    0; (* tagCloseParen *)
    4; (* tagWeeks *)
    4; (* tagDays *)
    4; (* tagHours *)
    4; (* tagMinutes *)
    4  (* tagSeconds *)
  ] (tag_index t).

Definition highestPrecedence : Z := 4.

Definition is_value_tag (t : tokenTag_t) : bool :=
  tag_eqb t tagIntegerVal || tag_eqb t tagDecimalVal.

Definition with_val (t : numToken_t) (v : numval) : numToken_t :=
  mkNumToken (nt_tag t) (nt_pos t) v.

(** [normalizeTypes] ensures that v1 and v2 are both integer or decimal
    values. *)
Definition normalizeTypes (v1 v2 : numToken_t) : outcome (numToken_t * numToken_t) :=
  assert (is_value_tag (nt_tag v1))
    (assert (is_value_tag (nt_tag v2))
       (if tag_eqb (nt_tag v1) tagIntegerVal then
          if tag_eqb (nt_tag v2) tagDecimalVal
          then Ret (mkNumToken tagDecimalVal (nt_pos v1) (VF (d_of_int (val_i v1))), v2)
          else Ret (v1, v2)
        else if tag_eqb (nt_tag v2) tagIntegerVal
        then Ret (v1, mkNumToken tagDecimalVal (nt_pos v2) (VF (d_of_int (val_i v2))))
        else Ret (v1, v2))).

Definition toDouble (t : numToken_t) : outcome numToken_t :=
  assert (is_value_tag (nt_tag t))
    (if tag_eqb (nt_tag t) tagIntegerVal
     then Ret (mkNumToken tagDecimalVal (nt_pos t) (VF (d_of_int (val_i t))))
     else Ret t).

(** [if (right.val.e == ErrEndOfInput) right.val.e = ErrInvalidNumericExpression] *)
Definition end_is_invalid (right : numToken_t) : numToken_t :=
  if val_is_EndOfInput right then with_val right (VE ErrInvalidNumericExpression)
  else right.


(** The nud and led handlers, over the function [expression] they call
    back.  They return the engine with the result token.  [int64_t]
    sums, differences and products wrap; the quotient and the remainder
    of INT64_MIN by -1 do not fit and are [Undefined] (the machine
    division traps).  [lhs] and [rhs] are the source's [left] and
    [right]. *)
Section Handlers.

Variable expression : numEngine_t -> Z -> outcome (numEngine_t * numToken_t).

Definition nudValue (e : numEngine_t) (t : numToken_t)
  : outcome (numEngine_t * numToken_t) := Ret (e, t).

Definition nudPlus (e : numEngine_t) (t : numToken_t)
  : outcome (numEngine_t * numToken_t) :=
  '(e, rhs) <- expression e (highestPrecedence + 1) ;;
  if tag_eqb (nt_tag rhs) tagError then Ret (e, end_is_invalid rhs)
  else Ret (e, rhs).

Definition nudMinus (e : numEngine_t) (t : numToken_t)
  : outcome (numEngine_t * numToken_t) :=
  '(e, rhs) <- expression e (highestPrecedence + 1) ;;
  if tag_eqb (nt_tag rhs) tagError then Ret (e, end_is_invalid rhs)
  else if tag_eqb (nt_tag rhs) tagIntegerVal
  then Ret (e, with_val rhs (VI (to_int64 (- val_i rhs))))
  else Ret (e, with_val rhs (VF (d_neg (val_f rhs)))).

Definition nudOpenParen (e : numEngine_t) (t : numToken_t)
  : outcome (numEngine_t * numToken_t) :=
  '(e, rhs) <- expression e (precedenceTable tagOpenParen) ;;
  if tag_eqb (nt_tag rhs) tagError then Ret (e, end_is_invalid rhs)
  else if negb (tag_eqb (nt_tag (ne_tk e)) tagCloseParen)
  then Ret (e, numError (nt_pos t) ErrUnclosedParenthesis)
  else
    e <- numNextToken e ;;
    Ret (e, rhs).

Definition nudCloseParen (e : numEngine_t) (t : numToken_t)
  : outcome (numEngine_t * numToken_t) :=
  Ret (e, numError (nt_pos t) ErrUnopenedParenthesis).

Definition nudInverse (e : numEngine_t) (t : numToken_t)
  : outcome (numEngine_t * numToken_t) :=
  '(e, rhs) <- expression e (highestPrecedence + 1) ;;
  if tag_eqb (nt_tag rhs) tagError then Ret (e, end_is_invalid rhs)
  else
    assert (is_value_tag (nt_tag rhs))
      (if tag_eqb (nt_tag rhs) tagDecimalVal
       then Ret (e, numError (nt_pos t) ErrOperandMustBeInteger)
       else Ret (e, with_val rhs (VI (Z.lnot (val_i rhs))))).

Definition ledPlus (e : numEngine_t) (t lhs : numToken_t)
  : outcome (numEngine_t * numToken_t) :=
  assert (is_value_tag (nt_tag lhs))
    ('(e, rhs) <- expression e (precedenceTable tagPlus) ;;
     if tag_eqb (nt_tag rhs) tagError then Ret (e, end_is_invalid rhs)
     else
       assert (is_value_tag (nt_tag rhs))
         ('(lhs, rhs) <- normalizeTypes lhs rhs ;;
          if tag_eqb (nt_tag lhs) tagIntegerVal then
            assert (tag_eqb (nt_tag rhs) tagIntegerVal)
              (Ret (e, with_val lhs (VI (to_int64 (val_i lhs + val_i rhs)))))
          else
            assert (tag_eqb (nt_tag rhs) tagDecimalVal)
              (Ret (e, with_val lhs (VF (d_add (val_f lhs) (val_f rhs))))))).

Definition ledMinus (e : numEngine_t) (t lhs : numToken_t)
  : outcome (numEngine_t * numToken_t) :=
  assert (is_value_tag (nt_tag lhs))
    ('(e, rhs) <- expression e (precedenceTable tagMinus) ;;
     if tag_eqb (nt_tag rhs) tagError then Ret (e, end_is_invalid rhs)
     else
       assert (is_value_tag (nt_tag rhs))
         ('(lhs, rhs) <- normalizeTypes lhs rhs ;;
          if tag_eqb (nt_tag lhs) tagIntegerVal
          then Ret (e, with_val lhs (VI (to_int64 (val_i lhs - val_i rhs))))
          else Ret (e, with_val lhs (VF (d_sub (val_f lhs) (val_f rhs)))))).

Definition ledMultiplication (e : numEngine_t) (t lhs : numToken_t)
  : outcome (numEngine_t * numToken_t) :=
  assert (is_value_tag (nt_tag lhs))
    ('(e, rhs) <- expression e (precedenceTable tagMultiplication) ;;
     if tag_eqb (nt_tag rhs) tagError then Ret (e, end_is_invalid rhs)
     else
       assert (is_value_tag (nt_tag rhs))
         ('(lhs, rhs) <- normalizeTypes lhs rhs ;;
          if tag_eqb (nt_tag lhs) tagIntegerVal
          then Ret (e, with_val lhs (VI (to_int64 (val_i lhs * val_i rhs))))
          else Ret (e, with_val lhs (VF (d_mul (val_f lhs) (val_f rhs)))))).

Definition ledDivision (e : numEngine_t) (t lhs : numToken_t)
  : outcome (numEngine_t * numToken_t) :=
  assert (is_value_tag (nt_tag lhs))
    ('(e, rhs) <- expression e (precedenceTable tagDivision) ;;
     if tag_eqb (nt_tag rhs) tagError then Ret (e, end_is_invalid rhs)
     else
       assert (is_value_tag (nt_tag rhs))
         ('(lhs, rhs) <- normalizeTypes lhs rhs ;;
          if tag_eqb (nt_tag lhs) tagIntegerVal then
            if val_i rhs =? 0 then Ret (e, numError (nt_pos t) ErrDivisionByZero)
            else if (val_i lhs =? INT64_MIN) && (val_i rhs =? -1) then Undefined
            else Ret (e, with_val lhs (VI (to_int64 (Z.quot (val_i lhs) (val_i rhs)))))
          else
            if d_eqb (val_f rhs) d_zero
            then Ret (e, numError (nt_pos t) ErrDivisionByZero)
            else Ret (e, with_val lhs (VF (d_div (val_f lhs) (val_f rhs)))))).

Definition ledModulo (e : numEngine_t) (t lhs : numToken_t)
  : outcome (numEngine_t * numToken_t) :=
  assert (is_value_tag (nt_tag lhs))
    ('(e, rhs) <- expression e (precedenceTable tagModulo) ;;
     if tag_eqb (nt_tag rhs) tagError then Ret (e, end_is_invalid rhs)
     else
       assert (is_value_tag (nt_tag rhs))
         ('(lhs, rhs) <- normalizeTypes lhs rhs ;;
          if tag_eqb (nt_tag rhs) tagDecimalVal
          then Ret (e, numError (nt_pos t) ErrOperandMustBeInteger)
          else if val_i rhs =? 0
          then Ret (e, numError (nt_pos t) ErrDivisionByZero)
          else if (val_i lhs =? INT64_MIN) && (val_i rhs =? -1) then Undefined
          else Ret (e, with_val lhs (VI (to_int64 (Z.rem (val_i lhs) (val_i rhs))))))).

Definition ledAnd (e : numEngine_t) (t lhs : numToken_t)
  : outcome (numEngine_t * numToken_t) :=
  assert (is_value_tag (nt_tag lhs))
    ('(e, rhs) <- expression e (precedenceTable tagAnd) ;;
     if tag_eqb (nt_tag rhs) tagError then Ret (e, end_is_invalid rhs)
     else
       assert (is_value_tag (nt_tag rhs))
         ('(lhs, rhs) <- normalizeTypes lhs rhs ;;
          if tag_eqb (nt_tag rhs) tagDecimalVal
          then Ret (e, numError (nt_pos t) ErrOperandMustBeInteger)
          else Ret (e, with_val lhs (VI (Z.land (val_i lhs) (val_i rhs)))))).

Definition ledOr (e : numEngine_t) (t lhs : numToken_t)
  : outcome (numEngine_t * numToken_t) :=
  assert (is_value_tag (nt_tag lhs))
    ('(e, rhs) <- expression e (precedenceTable tagOr) ;;
     if tag_eqb (nt_tag rhs) tagError then Ret (e, end_is_invalid rhs)
     else
       assert (is_value_tag (nt_tag rhs))
         ('(lhs, rhs) <- normalizeTypes lhs rhs ;;
          if tag_eqb (nt_tag rhs) tagDecimalVal
          then Ret (e, numError (nt_pos t) ErrOperandMustBeInteger)
          else Ret (e, with_val lhs (VI (Z.lor (val_i lhs) (val_i rhs)))))).

Definition ledXor (e : numEngine_t) (t lhs : numToken_t)
  : outcome (numEngine_t * numToken_t) :=
  assert (is_value_tag (nt_tag lhs))
    ('(e, rhs) <- expression e (precedenceTable tagXor) ;;
     if tag_eqb (nt_tag rhs) tagError then Ret (e, end_is_invalid rhs)
     else
       assert (is_value_tag (nt_tag rhs))
         ('(lhs, rhs) <- normalizeTypes lhs rhs ;;
          if tag_eqb (nt_tag rhs) tagDecimalVal
          then Ret (e, numError (nt_pos t) ErrOperandMustBeInteger)
          else Ret (e, with_val lhs (VI (Z.lxor (val_i lhs) (val_i rhs)))))).


Definition ledDuration (e : numEngine_t) (t lhs : numToken_t) (duration : double) (rbp : Z)
  : outcome (numEngine_t * numToken_t) :=
  assert (is_value_tag (nt_tag lhs))
    (lhs <- toDouble lhs ;;
     if tag_eqb (nt_tag (ne_tk e)) tagCloseParen
     then Ret (e, with_val lhs (VF (d_mul (val_f lhs) duration)))
     else
       '(e, rhs) <- expression e rbp ;;
       if tag_eqb (nt_tag rhs) tagError then
         if val_is_EndOfInput rhs (* right hand operand is optional *)
         then Ret (e, with_val lhs (VF (d_mul (val_f lhs) duration)))
         else Ret (e, rhs) (* return error *)
       else
         rhs <- toDouble rhs ;;
         Ret (e, with_val lhs (VF (d_add (d_mul (val_f lhs) duration) (val_f rhs))))).

Definition ledWeeks (e : numEngine_t) (t lhs : numToken_t) :=
  ledDuration e t lhs (d_of_int (3600 * 24 * 7)) (precedenceTable tagWeeks - 1).

Definition ledDays (e : numEngine_t) (t lhs : numToken_t) :=
  ledDuration e t lhs (d_of_int (3600 * 24)) (precedenceTable tagDays - 1).

Definition ledHours (e : numEngine_t) (t lhs : numToken_t) :=
  ledDuration e t lhs (d_of_int 3600) (precedenceTable tagHours - 1).

Definition ledMinutes (e : numEngine_t) (t lhs : numToken_t) :=
  ledDuration e t lhs (d_of_int 60) (precedenceTable tagMinutes - 1).

Definition ledSeconds (e : numEngine_t) (t lhs : numToken_t) :=
  ledDuration e t lhs (d_of_int 1) (precedenceTable tagSeconds - 1).

(** [nudTable] and [nud]: the handler of the tag, or an error. *)
Definition nud (e : numEngine_t) (t : numToken_t)
  : outcome (numEngine_t * numToken_t) :=
  match nt_tag t with
  | tagIntegerVal | tagDecimalVal => nudValue e t
  | tagPlus => nudPlus e t
  | tagMinus => nudMinus e t
  | tagInverse => nudInverse e t
  | tagOpenParen => nudOpenParen e t
  | tagCloseParen => nudCloseParen e t
  | _ => Ret (e, numError (nt_pos t) ErrInvalidNumericExpression)
  end.

(** [ledTable] and [led]. *)
Definition led (e : numEngine_t) (t lhs : numToken_t)
  : outcome (numEngine_t * numToken_t) :=
  match nt_tag t with
  | tagPlus => ledPlus e t lhs
  | tagMinus => ledMinus e t lhs
  | tagMultiplication => ledMultiplication e t lhs
  | tagDivision => ledDivision e t lhs
  | tagXor => ledXor e t lhs
  | tagAnd => ledAnd e t lhs
  | tagOr => ledOr e t lhs
  | tagModulo => ledModulo e t lhs
  | tagWeeks => ledWeeks e t lhs
  | tagDays => ledDays e t lhs
  | tagHours => ledHours e t lhs
  | tagMinutes => ledMinutes e t lhs
  | tagSeconds => ledSeconds e t lhs
  | _ => Ret (e, numError (nt_pos t) ErrInvalidNumericExpression)
  end.

(** The body of the loop of [expression]. *)
Definition expression_body (rbp : Z) (st : numEngine_t * numToken_t)
  : outcome (numEngine_t * numToken_t + numEngine_t * numToken_t) :=
  let '(e, lhs) := st in
  if negb (tag_eqb (nt_tag lhs) tagError) && (rbp <? precedenceTable (nt_tag (ne_tk e)))
  then
    let t := ne_tk e in
    e <- numNextToken e ;;
    '(e, lhs) <- led e t lhs ;;
    continue (e, lhs)
  else break (e, lhs).

End Handlers.

(** [expression] evaluates the expression at the current token position.
    On return, the current token is the first token after the evaluated
    expression.  The fuel bounds the depth of the recursion and the trips
    of the loop. *)
Fixpoint expression (fuel : nat) (e : numEngine_t) (rbp : Z) {struct fuel}
  : outcome (numEngine_t * numToken_t) :=
  match fuel with
  | O => NoFuel
  | S fuel' =>
      if numDone e then Ret (e, ne_tk e)
      else
        let t := ne_tk e in
        e <- numNextToken e ;;
        '(e, lhs) <- nud (expression fuel') e t ;;
        iter fuel' (expression_body (expression fuel') rbp) (e, lhs)
  end.

(** [evalNumberExpression] evaluates the expression in input: the
    resulting token (a decimal value or an error) and [errno]. *)
Definition evalNumberExpression (errno : bool) (input : slice_t)
  : outcome (numToken_t * bool) :=
  e <- numEngineInit errno input ;;
  '(e, t) <- expression (S (fuel_of input)) e 0 ;;
  if tag_eqb (nt_tag t) tagError || tag_eqb (nt_tag t) tagDecimalVal
  then Ret (t, ne_errno e)
  else
    assert (tag_eqb (nt_tag t) tagIntegerVal)
      (Ret (mkNumToken tagDecimalVal (nt_pos t) (VF (d_of_int (val_i t))), ne_errno e)).

(** [isNumberExpr] returns true if p is a number expression. *)
Definition isNumberExpr (p : slice_t) : bool :=
  match for_range 0 (sl_l p)
          (fun i (_ : unit) =>
             if (p.[i] =? ch "+") || (p.[i] =? ch "-") || (p.[i] =? ch " ")
                || (p.[i] =? TAB) || (p.[i] =? ch "(")
             then inl tt
             else inr (isIntDigit p.[i]
                       || ((p.[i] =? ch ".") && (i + 1 <? sl_l p) && isIntDigit p.[i + 1]))) tt
  with
  | inr b => b
  | inl _ => false
  end.


(** ** Engine *)

(** [isLiteralValue]: the JSON keyword p stands for, or NULL.  The cases
    of the [switch] on [p.l] fall through. *)
Definition eqc (p : slice_t) (i : Z) (a : ascii) : bool := p.[i] =? ch a.
Arguments eqc p i a%_char.

Definition isLiteralValue (p : slice_t) : option string :=
  let case2 :=
    if (eqc p 0 "o" || eqc p 0 "O") && (eqc p 1 "n" || eqc p 1 "N") then Some "true"%string
    else if (eqc p 0 "n" || eqc p 0 "N") && (eqc p 1 "o" || eqc p 1 "O") then Some "false"%string
    else None in
  let case3 :=
    if (eqc p 0 "y" || eqc p 0 "Y") && ((eqc p 1 "e" && eqc p 2 "s") || (eqc p 1 "E" && eqc p 2 "S"))
    then Some "true"%string
    else if (eqc p 0 "o" || eqc p 0 "O") && ((eqc p 1 "f" && eqc p 2 "f") || (eqc p 1 "F" && eqc p 2 "F"))
    then Some "false"%string
    else case2 in
  let case4 :=
    if (eqc p 0 "n" || eqc p 0 "N")
       && ((eqc p 1 "u" && eqc p 2 "l" && eqc p 3 "l") || (eqc p 1 "U" && eqc p 2 "L" && eqc p 3 "L"))
    then Some "null"%string
    else if (eqc p 0 "t" || eqc p 0 "T")
            && ((eqc p 1 "r" && eqc p 2 "u" && eqc p 3 "e") || (eqc p 1 "R" && eqc p 2 "U" && eqc p 3 "E"))
    then Some "true"%string
    else case3 in
  let case5 :=
    if (eqc p 0 "f" || eqc p 0 "F")
       && ((eqc p 1 "a" && eqc p 2 "l" && eqc p 3 "s" && eqc p 4 "e")
           || (eqc p 1 "A" && eqc p 2 "L" && eqc p 3 "S" && eqc p 4 "E"))
    then Some "false"%string
    else case4 in
  if sl_l p =? 5 then case5
  else if sl_l p =? 4 then case4
  else if sl_l p =? 3 then case3
  else if sl_l p =? 2 then case2
  else None.

(** [t.val.e] of an error token. *)
Definition val_err (t : numToken_t) : errmsg :=
  match nt_val t with VE e => e | _ => ErrInvalidNumericExpression end.

Definition tk_is_EndOfInput (e : engine_t) : bool :=
  is_ErrEndOfInput (sl_p (tk_val (e_tk e))).

(** The parser, over the function [value] that [member] and [values] call
    back.  Each function returns its [bool] and the engine. *)
Section Parser.

Variable value : engine_t -> outcome (bool * engine_t).

(** The loop of [values]; its state is [notFirst] and the engine. *)
Definition values_body (st : bool * engine_t)
  : outcome (bool * engine_t + engine_t) :=
  let '(notFirst, e) := st in
  if negb (done e) && negb (tag_eqb (tk_tag (e_tk e)) tagCloseSquare) then
    '(stop, e) <-
      (if notFirst then
         let e := outputByte e (ch ",") in
         if tag_eqb (tk_tag (e_tk e)) tagComma then
           e <- nextToken e ;;
           if done e then
             Ret (true, if tk_is_EndOfInput e
                        then setError e ErrExpectValueAfterComma else e)
           else if tag_eqb (tk_tag (e_tk e)) tagCloseBrace
                   || tag_eqb (tk_tag (e_tk e)) tagCloseSquare
           then Ret (true, setError e ErrExpectValueAfterComma)
           else Ret (false, e)
         else Ret (false, e)
       else Ret (false, e)) ;;
    if (stop : bool) then break e
    else
      '(b, e) <- value e ;;
      if (b : bool) then break e else continue (true, e)
  else break e.

(** [values] processes 0 or more values.  Returns done(). *)
Definition values (e : engine_t) : outcome (bool * engine_t) :=
  let e := outputByte e (ch "[") in
  e <- iter (S (fuel_of (e_p e))) values_body (false, e) ;;
  let e := outputByte e (ch "]") in
  Ret (done e, e).

Definition member (e : engine_t) : outcome (bool * engine_t) :=
  match tk_tag (e_tk e) with
  | tagCloseSquare => Ret (false, setError e ErrUnexpectedCloseSquare)
  | tag =>
      let e :=
        match tag with
        | tagDoubleQuotedString => outputDoubleQuotedString e
        | tagSingleQuotedString => outputSingleQuotedString e
        | tagQuotelessString => outputQuotelessString e
        | _ => setError e ErrExpectStringIdentifier
        end in
      e <- nextToken e ;;
      if done e then
        Ret (true, if tk_is_EndOfInput e then setError e ErrUnexpectedEndOfInput else e)
      else if negb (tag_eqb (tk_tag (e_tk e)) tagColon)
      then Ret (true, setError e ErrExpectColon)
      else
        let e := outputByte e (ch ":") in
        e <- nextToken e ;;
        if done e then
          Ret (true, if tk_is_EndOfInput e then setError e ErrUnexpectedEndOfInput else e)
        else value e
  end.

(** The loop of [members]. *)
Definition members_body (st : bool * engine_t)
  : outcome (bool * engine_t + engine_t) :=
  let '(notFirst, e) := st in
  if negb (done e) && negb (tag_eqb (tk_tag (e_tk e)) tagCloseBrace) then
    '(stop, e) <-
      (if notFirst then
         let e := outputByte e (ch ",") in
         if tag_eqb (tk_tag (e_tk e)) tagComma then
           e <- nextToken e ;;
           if done e then
             Ret (true, if tk_is_EndOfInput e
                        then setError e ErrExpectIdentifierAfterComma else e)
           else if tag_eqb (tk_tag (e_tk e)) tagCloseBrace
                   || tag_eqb (tk_tag (e_tk e)) tagCloseSquare
           then Ret (true, setError e ErrExpectIdentifierAfterComma)
           else Ret (false, e)
         else Ret (false, e)
       else Ret (false, e)) ;;
    if (stop : bool) then break e
    else
      '(b, e) <- member e ;;
      if (b : bool) then break e else continue (true, e)
  else break e.

(** [members] processes 0 or more members (identifier : value).  Returns
    done(). *)
Definition members (e : engine_t) : outcome (bool * engine_t) :=
  let e := outputByte e (ch "{") in
  e <- iter (S (fuel_of (e_p e))) members_body (false, e) ;;
  let e := outputByte e (ch "}") in
  Ret (done e, e).

End Parser.


(** [value] processes a value.  If an error occurred it returns with the
    error set, otherwise calls nextToken() and returns done().  The fuel
    bounds the depth of the recursion through [members] and [values]. *)
Fixpoint value (fuel : nat) (e : engine_t) {struct fuel} : outcome (bool * engine_t) :=
  match fuel with
  | O => NoFuel
  | S fuel' =>
      let finish (e : engine_t) : outcome (bool * engine_t) :=
        e <- nextToken e ;;
        Ret (done e, e) in
      match tk_tag (e_tk e) with
      | tagCloseSquare => Ret (false, setError e ErrUnexpectedCloseSquare)
      | tagCloseBrace => Ret (false, setError e ErrUnexpectedCloseBrace)
      | tagDoubleQuotedString => finish (outputDoubleQuotedString e)
      | tagSingleQuotedString => finish (outputSingleQuotedString e)
      | tagMultilineString =>
          e <- outputMultilineString e ;;
          finish e
      | tagQuotelessString =>
          let val := tk_val (e_tk e) in
          match isLiteralValue val with
          | Some str => finish (outputString e (bytes str))
          | None =>
              if isNumberExpr val then
                '(t, errno) <- evalNumberExpression (e_errno e) val ;;
                let e := set_errno e errno in
                if tag_eqb (nt_tag t) tagError then
                  Ret (true, setErrorAndPos e (val_err t)
                               (mkPos (pos_b (tk_pos (e_tk e)) + nt_pos t)
                                      (pos_s (tk_pos (e_tk e))) (pos_l (tk_pos (e_tk e)))))
                else
                  assert (negb (tag_eqb (nt_tag t) tagIntegerVal))
                    (finish (outputString e (sprintf_g 16 (val_f t))))
              else finish (outputQuotelessString e)
          end
      | tagOpenBrace =>
          let startPos := tk_pos (e_tk e) in
          e <- nextToken e ;;
          if done e then
            Ret (true, if tk_is_EndOfInput e
                       then setErrorAndPos e ErrUnclosedObject startPos else e)
          else if e_depth e =? maxDepth
          then Ret (true, setError e ErrMaxObjectArrayDepth)
          else
            let e := set_depth e (e_depth e + 1) in
            '(b, e) <- members (value fuel') e ;;
            if (b : bool) then
              Ret (true, if tk_is_EndOfInput e
                         then setErrorAndPos e ErrUnclosedObject startPos else e)
            else finish (set_depth e (e_depth e - 1))
      | tagOpenSquare =>
          e <- nextToken e ;;
          if done e then
            Ret (true, if tk_is_EndOfInput e then setError e ErrUnclosedArray else e)
          else
            let startPos := tk_pos (e_tk e) in
            if e_depth e =? maxDepth
            then Ret (true, setError e ErrMaxObjectArrayDepth)
            else
              let e := set_depth e (e_depth e + 1) in
              '(b, e) <- values (value fuel') e ;;
              if (b : bool) then
                Ret (true, if tk_is_EndOfInput e
                           then setErrorAndPos e ErrUnclosedArray startPos else e)
              else finish (set_depth e (e_depth e - 1))
      | _ => Ret (false, setError e ErrSyntaxError)
      end
  end.

(** ** Main *)

Definition myStrLen_body (i : Z) : outcome (Z + Z) :=
  if negb (mem i =? 0) then continue (i + 1) else break i.

Definition myStrLen : outcome Z :=
  iter (S (List.length text)) myStrLen_body 0.

Definition initial_engine (errno : bool) (len : Z) : engine_t :=
  mkEngine (mkSlice e_in len) (mkPos 0 0 0) []
           (mkToken tagUnknown (mkPos 0 0 0) nullSlice) 0 errno.

(** The engine when parsing ends: after [nextToken], [members] and the
    replacement of a closing brace left at top level by a syntax error. *)
Definition parse (errno : bool) (len : Z) : outcome engine_t :=
  let e := initial_engine errno len in
  e <- nextToken e ;;
  '(_, e) <- members (value (fuel_of (e_p e))) e ;;
  if tag_eqb (tk_tag (e_tk e)) tagCloseBrace
  then Ret (setErrorAndPos e ErrSyntaxError (tk_pos (e_tk e)))
  else Ret e.

(** The string returned for the final engine: the JSON text, or the error
    message with its line and column; both with their NUL. *)
Definition finish_decode (e : engine_t) : outcome (list byte) :=
  assert (tag_eqb (tk_tag (e_tk e)) tagError)
    (if tk_is_EndOfInput e then Ret (e_out (outputByte e 0))
     else
       let e := outputReset e in
       let e := outputString e (cstring (sl_p (tk_val (e_tk e)))) in
       col <- column (mkSlice (padd e_in (pos_s (tk_pos (e_tk e))))
                              (pos_b (tk_pos (e_tk e)) - pos_s (tk_pos (e_tk e)))) ;;
       let buf := bytes " at line " ++ sprintf_d (pos_l (tk_pos (e_tk e)) + 1)
                  ++ bytes " col " ++ sprintf_d (col + 1) in
       let e := outputString e buf in
       Ret (e_out (outputByte e 0))).

(** [qjson_decode] accepts a qjson text string as input and returns a heap
    allocated string: the JSON text if it starts with the character '{',
    otherwise an error message.  ([qjsonText] is not NULL; [errno] is the
    state of the global when the function is called.) *)
Definition qjson_decode (errno : bool) : outcome (list byte) :=
  len <- myStrLen ;;
  if len =? 0 then Ret (bytes "{}" ++ [x00])
  else
    e <- parse errno len ;;
    finish_decode e.


(** * Verification *)

(** ** Loops *)

(** A loop whose body keeps the invariant [I] and decreases the measure
    [mu] leaves with a result that satisfies [Q], given enough fuel. *)
Lemma iter_spec {S R : Type} (body : S -> outcome (S + R))
  (I : S -> Prop) (Q : R -> Prop) (mu : S -> Z) :
  (forall s, I s ->
     0 <= mu s /\
     match body s with
     | Ret (inl s') => I s' /\ mu s' < mu s
     | Ret (inr r) => Q r
     | _ => False
     end) ->
  forall fuel s, I s -> mu s < Z.of_nat fuel ->
  exists r, iter fuel body s = Ret r /\ Q r.
Proof.
  intros Hbody fuel; induction fuel as [|fuel IH]; intros s Hs Hmu.
  - destruct (Hbody s Hs) as [H0 _]; simpl in Hmu; lia.
  - simpl. destruct (Hbody s Hs) as [H0 Hb].
    destruct (body s) as [[s'|r]| | |]; try contradiction.
    + destruct Hb as [Hs' Hlt]. apply IH; [assumption|lia].
    + exists r; split; [reflexivity|assumption].
Qed.

(** The same for a body that may meet an undefined operation, which it
    does only when [D] holds: the loop then returns, or is [Undefined]
    and [D] holds, and nothing else. *)
Lemma iter_spec_undef {S R : Type} (body : S -> outcome (S + R))
  (I : S -> Prop) (Q : R -> Prop) (D : Prop) (mu : S -> Z) :
  (forall s, I s ->
     0 <= mu s /\
     match body s with
     | Ret (inl s') => I s' /\ mu s' < mu s
     | Ret (inr r) => Q r
     | Undefined => D
     | _ => False
     end) ->
  forall fuel s, I s -> mu s < Z.of_nat fuel ->
  (iter fuel body s = Undefined /\ D) \/ exists r, iter fuel body s = Ret r /\ Q r.
Proof.
  intros Hbody fuel; induction fuel as [|fuel IH]; intros s Hs Hmu.
  - destruct (Hbody s Hs) as [H0 _]; simpl in Hmu; lia.
  - simpl. destruct (Hbody s Hs) as [H0 Hb].
    destruct (body s) as [[s'|r]| | |]; try contradiction.
    + destruct Hb as [Hs' Hlt]. apply IH; [assumption|lia].
    + right. exists r; split; [reflexivity|assumption].
    + left. split; [reflexivity|exact Hb].
Qed.

(** What a loop returns satisfies [Q] when the body keeps [I]. *)
Lemma iter_post {S R : Type} (body : S -> outcome (S + R))
  (I : S -> Prop) (Q : R -> Prop) :
  (forall s, I s ->
     match body s with
     | Ret (inl s') => I s'
     | Ret (inr r) => Q r
     | _ => True
     end) ->
  forall fuel s r, I s -> iter fuel body s = Ret r -> Q r.
Proof.
  intros Hbody fuel; induction fuel as [|fuel IH]; intros s r Hs Hr.
  - discriminate.
  - simpl in Hr. specialize (Hbody s Hs).
    destruct (body s) as [[s'|r']| | |]; try discriminate.
    + exact (IH s' r Hbody Hr).
    + injection Hr as <-; assumption.
Qed.

(** A counted loop keeps an invariant of its state. *)
Lemma for_spec {S R : Type} (body : Z -> S -> S + R)
  (I : S -> Prop) (Q : R -> Prop) :
  (forall i s, I s ->
     match body i s with
     | inl s' => I s'
     | inr r => Q r
     end) ->
  forall k i s, I s ->
  match for_ k i body s with
  | inl s' => I s'
  | inr r => Q r
  end.
Proof.
  intros Hbody k; induction k as [|k IH]; intros i s Hs; simpl.
  - assumption.
  - specialize (Hbody i s Hs). destruct (body i s) as [s'|r].
    + apply IH; assumption.
    + assumption.
Qed.

(** ** Bytes and tables *)

Lemma byteZ_range (b : byte) : 0 <= byteZ b < 256.
Proof. destruct b; vm_compute; split; congruence. Qed.

Lemma mem_range (off : Z) : 0 <= mem off < 256.
Proof.
  unfold mem. destruct (off <? 0); [lia|apply byteZ_range].
Qed.

Lemma index_forallb {A : Type} (P : A -> bool) (d : A) (t : list A) (i : Z) :
  forallb P t = true -> P d = true -> P (index d t i) = true.
Proof.
  intros Ht Hd. unfold index. destruct (i <? 0); [assumption|].
  destruct (nth_in_or_default (Z.to_nat i) t d) as [Hin | ->]; [|assumption].
  rewrite forallb_forall in Ht. apply Ht; assumption.
Qed.

Lemma utf8Table_length (b : Z) :
  utf8Table b = s0 \/ utf8Table b = s1 \/ 2 <= Z.land (utf8Table b) 0xF <= 4.
Proof.
  pose proof (index_forallb
    (fun x => (x =? s0) || (x =? s1) || ((2 <=? Z.land x 0xF) && (Z.land x 0xF <=? 4)))
    0 utf8Table_rows b eq_refl eq_refl) as H.
  fold (utf8Table b) in H.
  destruct (utf8Table b =? s0) eqn:E0; [left; lia|].
  destruct (utf8Table b =? s1) eqn:E1; [right; left; lia|].
  simpl in H. right; right. lia.
Qed.


Lemma byte_cases (P : Z -> bool) :
  forallb P (map Z.of_nat (seq 0 256)) = true ->
  forall c, 0 <= c < 256 -> P c = true.
Proof.
  intros H c Hc. rewrite forallb_forall in H. apply H.
  rewrite in_map_iff. exists (Z.to_nat c). split; [lia|].
  apply in_seq. lia.
Qed.

Ltac b2p :=
  repeat match goal with
  | H : (_ && _) = true |- _ => apply andb_prop in H; destruct H
  | H : (_ || _) = false |- _ => apply orb_false_elim in H; destruct H
  | H : negb _ = true |- _ => apply negb_true_iff in H
  | H : negb _ = false |- _ => apply negb_false_iff in H
  | H : (_ =? _) = true |- _ => apply Z.eqb_eq in H
  | H : (_ =? _) = false |- _ => apply Z.eqb_neq in H
  | H : (_ <? _) = true |- _ => apply Z.ltb_lt in H
  | H : (_ <? _) = false |- _ => apply Z.ltb_ge in H
  | H : (_ <=? _) = true |- _ => apply Z.leb_le in H
  | H : (_ <=? _) = false |- _ => apply Z.leb_gt in H
  end.

Ltac dest_if :=
  match goal with
  | |- context [if ?c then _ else _] => destruct c eqn:?
  end.

(** ** The state of the tokenizer *)

Definition pos_ok (p : pos_t) : Prop := 0 <= pos_s p <= pos_b p /\ 0 <= pos_l p.

(** The text left to parse starts at the current position. *)
Definition wfp (e : engine_t) : Prop :=
  sl_p (e_p e) = Inp (pos_b (e_pos e)) /\ 0 <= sl_l (e_p e) /\ pos_ok (e_pos e).

(** [e'] is [e] with some bytes popped. *)
Definition advanced (e e' : engine_t) : Prop :=
  wfp e' /\ e_out e' = e_out e /\ e_tk e' = e_tk e /\ e_depth e' = e_depth e
  /\ e_errno e' = e_errno e
  /\ pos_b (e_pos e) <= pos_b (e_pos e')
  /\ pos_b (e_pos e') + sl_l (e_p e') = pos_b (e_pos e) + sl_l (e_p e).

(** [lia] over the numeric content of the invariants. *)
Ltac ulia := unfold advanced, wfp, pos_ok in *; cbn [fst snd] in *; lia.

Lemma advanced_refl e : wfp e -> advanced e e.
Proof. unfold advanced; intuition lia. Qed.

Lemma advanced_trans e1 e2 e3 : advanced e1 e2 -> advanced e2 e3 -> advanced e1 e3.
Proof. unfold advanced; intuition (try congruence; try lia). Qed.

Lemma advanced_len e e' : advanced e e' -> sl_l (e_p e') <= sl_l (e_p e).
Proof. unfold advanced; intuition lia. Qed.

Lemma rd_wfp e i : wfp e -> (e_p e).[i] = mem (pos_b (e_pos e) + i).
Proof. intros (Hp & _). rewrite Hp. reflexivity. Qed.

Lemma whitespace_range p : 0 <= sl_l p -> 0 <= whitespace p <= sl_l p.
Proof.
  intros Hl. unfold whitespace. repeat dest_if; b2p; lia.
Qed.

Lemma newline_range p : 0 <= sl_l p -> 0 <= newline p <= sl_l p.
Proof.
  intros Hl. unfold newline. repeat dest_if; b2p; lia.
Qed.

Lemma popBytes_advanced e n :
  wfp e -> 0 <= n <= sl_l (e_p e) ->
  advanced e (popBytes e n) /\ pos_b (e_pos (popBytes e n)) = pos_b (e_pos e) + n.
Proof.
  intros (Hp & Hl & Hs) Hn. unfold advanced, wfp, pos_ok in *; simpl.
  rewrite Hp; simpl. intuition lia.
Qed.

Lemma popNewline_spec e b e' :
  wfp e -> popNewline e = (b, e') ->
  advanced e e'
  /\ (b = false -> e' = e /\ newline (e_p e) = 0)
  /\ (b = true -> exists q, pos_b (e_pos e) <= q < pos_b (e_pos e') /\ mem q = LF).
Proof.
  intros Hw H. unfold popNewline in H.
  pose proof (newline_range (e_p e) (proj1 (proj2 Hw))) as Hn.
  destruct (newline (e_p e) =? 0) eqn:E; b2p.
  - injection H as <- <-. split; [apply advanced_refl; assumption|].
    split; [auto|discriminate].
  - injection H as <- <-.
    destruct (popBytes_advanced e (newline (e_p e)) Hw) as [Ha Hb]; [lia|].
    split.
    + destruct Ha as ((Hp & Hl & Hs) & Ho & Ht & Hd & He & Hle & Hsum).
      unfold advanced, wfp, pos_ok in *; simpl in *. intuition lia.
    + split; [discriminate|]. intros _. simpl.
      exists (pos_b (e_pos e) + newline (e_p e) - 1). split; [lia|].
      unfold newline in *. rewrite !rd_wfp in * by assumption.
      repeat dest_if; b2p; try lia.
      * replace (pos_b (e_pos e) + 1 - 1) with (pos_b (e_pos e) + 0) by lia. assumption.
      * replace (pos_b (e_pos e) + 2 - 1) with (pos_b (e_pos e) + 1) by lia. assumption.
Qed.

Definition lexical (m : errmsg) : bool :=
  match m with
  | ErrInvalidChar | ErrTruncatedChar | ErrUnclosedDoubleQuoteString
  | ErrUnclosedSingleQuoteString | ErrUnclosedSlashStarComment
  | ErrNewlineInDoubleQuoteString | ErrNewlineInSingleQuoteString
  | ErrMarginMustBeWhitespaceOnly | ErrUnclosedMultiline | ErrInvalidMarginChar
  | ErrMissingNewlineSpecifier | ErrInvalidNewlineSpecifier
  | ErrInvalidMultilineStart => true
  | _ => false
  end.

(** An error of the tokenizer, if any. *)
Definition lex_err (err : option error_t) : Prop :=
  match err with
  | Some er => pos_ok (err_pos er) /\ lexical (err_err er) = true
  | None => True
  end.

Lemma qchar_spec e :
  wfp e -> 0 < sl_l (e_p e) ->
  match qchar e with
  | (Some er, _) => lex_err (Some er)
  | (None, n) => 1 <= n <= sl_l (e_p e)
  end.
Proof.
  intros (Hp & Hl & Hs) Hpos. unfold qchar, qcharX.
  destruct (sl_l (e_p e) =? 0) eqn:E0; b2p; [lia|].
  destruct (utf8Table_length (e_p e).[0]) as [H|[H|H]]; rewrite ?H.
  - simpl. split; [assumption|reflexivity].
  - simpl. lia.
  - destruct (utf8Table (e_p e).[0] =? s1) eqn:E1; [lia|].
    destruct (utf8Table (e_p e).[0] =? s0) eqn:E2; [simpl; split; [assumption|reflexivity]|].
    repeat dest_if; b2p; simpl; try (split; [assumption|reflexivity]); lia.
Qed.


(** A newline was popped between the two engines. *)
Definition LF_between (e e' : engine_t) : Prop :=
  exists q, pos_b (e_pos e) <= q < pos_b (e_pos e') /\ mem q = LF.

Lemma LF_between_mono e1 e2 e3 e4 :
  pos_b (e_pos e1) <= pos_b (e_pos e2) -> pos_b (e_pos e3) <= pos_b (e_pos e4) ->
  LF_between e2 e3 -> LF_between e1 e4.
Proof. intros H1 H2 (q & Hq & Hm). exists q. split; [lia|assumption]. Qed.

Lemma skipRestOfLine_spec e :
  wfp e ->
  exists err e', skipRestOfLine e = Ret (err, e')
    /\ advanced e e' /\ lex_err err
    /\ (err = None -> LF_between e e' \/ sl_l (e_p e') = 0)
    /\ (err = None -> 0 < sl_l (e_p e) -> pos_b (e_pos e) < pos_b (e_pos e')).
Proof.
  intros Hw. unfold skipRestOfLine.
  destruct (iter_spec skipRestOfLine_body
    (fun s => advanced e s /\ (s = e \/ pos_b (e_pos e) < pos_b (e_pos s)))
    (fun r => advanced e (snd r) /\ lex_err (fst r)
              /\ (fst r = None -> LF_between e (snd r) \/ sl_l (e_p (snd r)) = 0)
              /\ (fst r = None -> 0 < sl_l (e_p e) -> pos_b (e_pos e) < pos_b (e_pos (snd r))))
    (fun s => sl_l (e_p s))) with (fuel := fuel_of (e_p e)) (s := e)
    as ([err e'] & Hr & HQ).
  - intros s (Ha & Hprog). pose proof Ha as (Hws & _).
    split; [ulia|].
    unfold skipRestOfLine_body.
    destruct (popNewline s) as [nl s1] eqn:Hnl.
    destruct (popNewline_spec s nl s1 Hws Hnl) as (Ha1 & Hf & Ht).
    pose proof (advanced_trans _ _ _ Ha Ha1) as Ha2.
    destruct nl; simpl.
    + split; [assumption|]. split; [exact I|].
      destruct (Ht eq_refl) as (q & Hq & Hm).
      split; intros; [left; exists q; split; [ulia|assumption]|ulia].
    + destruct (Hf eq_refl) as [-> _].
      destruct (sl_l (e_p s) =? 0) eqn:E0; b2p; simpl.
      * split; [assumption|]. split; [exact I|]. split; [auto|].
        intros _ Hl. destruct Hprog as [->|]; ulia.
      * pose proof (qchar_spec s Hws) as Hq.
        destruct (qchar s) as [[er|] n].
        -- simpl. split; [assumption|]. split; [apply Hq; ulia|]. split; discriminate.
        -- destruct (popBytes_advanced s n Hws) as [Hb Hb']; [ulia|].
           split; [split; [eapply advanced_trans; eauto|]|]; ulia.
  - split; [apply advanced_refl; assumption|left; reflexivity].
  - unfold fuel_of. ulia.
  - exists err, e'. simpl in HQ. intuition.
Qed.

Definition comment_start (p : slice_t) : Prop :=
  p.[0] = ch "#" \/ (p.[0] = ch "/" /\ 2 <= sl_l p /\ (p.[1] = ch "/" \/ p.[1] = ch "*")).

Lemma skipLineComment_spec e :
  wfp e ->
  exists err ok e', skipLineComment e = Ret (err, ok, e')
    /\ advanced e e' /\ lex_err err
    /\ (ok = true -> err = None /\ pos_b (e_pos e) < pos_b (e_pos e')
                     /\ (LF_between e e' \/ sl_l (e_p e') = 0))
    /\ (ok = false -> err = None ->
        e' = e /\ (sl_l (e_p e) = 0 \/
                   ((e_p e).[0] <> ch "#" /\
                    ~ ((e_p e).[0] = ch "/" /\ 2 <= sl_l (e_p e) /\ (e_p e).[1] = ch "/")))).
Proof.
  intros Hw. unfold skipLineComment.
  destruct (sl_l (e_p e) =? 0) eqn:E0; b2p.
  - exists None, false, e. split; [reflexivity|]. split; [apply advanced_refl; assumption|].
    split; [exact I|]. split; [discriminate|]. intros _ _. auto.
  - destruct (_ || _) eqn:Ec.
    + destruct (skipRestOfLine_spec e Hw) as (err & e' & Hr & Ha & He & HLF & Hprog).
      rewrite Hr. simpl. exists err, (negb (is_err err)), e'.
      split; [reflexivity|]. split; [assumption|]. split; [assumption|].
      destruct Hw as (_ & Hl & _).
      destruct err; simpl; split; try discriminate.
      * intros _. split; [reflexivity|]. split; [apply Hprog; [reflexivity|lia]|].
        apply HLF; reflexivity.
    + exists None, false, e. split; [reflexivity|]. split; [apply advanced_refl; assumption|].
      split; [exact I|]. split; [discriminate|]. intros _ _. split; [reflexivity|].
      right. b2p. split; [assumption|]. intros (H1 & H2 & H3).
      apply andb_false_iff in H0. destruct H0 as [H0|H0]; b2p; [|congruence].
      apply andb_false_iff in H0. destruct H0 as [H0|H0]; b2p; [congruence|lia].
Qed.


Lemma skipMultilineComment_spec e :
  wfp e ->
  exists err ok e', skipMultilineComment e = Ret (err, ok, e')
    /\ advanced e e' /\ lex_err err
    /\ (ok = true -> err = None /\ pos_b (e_pos e) < pos_b (e_pos e'))
    /\ (ok = false -> err = None ->
        e' = e /\ ~ (0 < sl_l (e_p e) /\ (e_p e).[0] = ch "/" /\ 2 <= sl_l (e_p e)
                     /\ (e_p e).[1] = ch "*")).
Proof.
  intros Hw. unfold skipMultilineComment.
  destruct (_ || _) eqn:Ec.
  - exists None, false, e. split; [reflexivity|]. split; [apply advanced_refl; assumption|].
    split; [exact I|]. split; [discriminate|]. intros _ _. split; [reflexivity|].
    intros (H1 & H2 & H3 & H4).
    repeat (apply orb_true_iff in Ec; destruct Ec as [Ec|Ec]); b2p; try lia; congruence.
  - b2p.
    destruct (popBytes_advanced e 2 Hw) as [Hb Hb']; [ulia|].
    set (e2 := popBytes e 2) in *.
    destruct (iter_spec (skipMultilineComment_body (e_pos e))
      (fun s => advanced e2 s)
      (fun r => let '(err, ok, e') := r in
                advanced e2 e' /\ lex_err err /\ (ok = true -> err = None)
                /\ (ok = false -> err <> None))
      (fun s => sl_l (e_p s))) with (fuel := fuel_of (e_p e2)) (s := e2)
      as ([[err ok] e'] & Hr & Ha & He & Hok & Hnok).
    + intros s Ha. pose proof Ha as (Hws & _). split; [ulia|].
      unfold skipMultilineComment_body.
      destruct (sl_l (e_p s) =? 0) eqn:E0; b2p.
      { simpl. split; [assumption|]. split; [split; [apply Hw|reflexivity]|].
        split; [discriminate|]. intros _; discriminate. }
      destruct (_ && _) eqn:Eend.
      { b2p. destruct (popBytes_advanced s 2 Hws) as [Hc _]; [ulia|].
        simpl. split; [eapply advanced_trans; eauto|]. split; [exact I|].
        split; [reflexivity|]. discriminate. }
      destruct (popNewline s) as [nl s1] eqn:Hnl.
      destruct (popNewline_spec s nl s1 Hws Hnl) as (Ha1 & Hf & Ht).
      destruct nl.
      { simpl. split; [eapply advanced_trans; eauto|].
        destruct (Ht eq_refl) as (q & Hq & _). ulia. }
      destruct (Hf eq_refl) as [-> _].
      destruct (char (e_p s).[0] <? 32) eqn:Ectl.
      { destruct (popBytes_advanced s 1 Hws) as [Hc Hc']; [ulia|].
        simpl. split; [eapply advanced_trans; eauto|]. ulia. }
      pose proof (qchar_spec s Hws) as Hq.
      destruct (qchar s) as [[er|] n].
      { simpl. split; [assumption|]. split; [apply Hq; ulia|].
        split; [discriminate|]. intros _; discriminate. }
      destruct (popBytes_advanced s n Hws) as [Hc Hc']; [ulia|].
      simpl. split; [eapply advanced_trans; eauto|]. ulia.
    + apply advanced_refl. apply Hb.
    + unfold fuel_of. ulia.
    + exists err, ok, e'. split; [assumption|].
      split; [eapply advanced_trans; eauto|]. split; [assumption|].
      split; [intros Ht; split; [auto|ulia]|].
      intros Hf Hn. exfalso. apply (Hnok Hf Hn).
Qed.

Lemma skipWhitespaces_spec e :
  wfp e ->
  exists e', skipWhitespaces e = Ret e' /\ advanced e e' /\ whitespace (e_p e') = 0.
Proof.
  intros Hw. unfold skipWhitespaces.
  destruct (iter_spec skipWhitespaces_body
    (fun s => advanced e s)
    (fun r => advanced e r /\ whitespace (e_p r) = 0)
    (fun s => sl_l (e_p s))) with (fuel := fuel_of (e_p e)) (s := e)
    as (e' & Hr & HQ).
  - intros s Ha. pose proof Ha as (Hws & _). split; [ulia|].
    unfold skipWhitespaces_body.
    pose proof (whitespace_range (e_p s) (proj1 (proj2 Hws))) as Hn.
    destruct (whitespace (e_p s) =? 0) eqn:E0; b2p; simpl.
    + split; assumption.
    + destruct (popBytes_advanced s (whitespace (e_p s)) Hws) as [Hc Hc']; [lia|].
      split; [eapply advanced_trans; eauto|]. ulia.
  - apply advanced_refl; assumption.
  - unfold fuel_of. ulia.
  - exists e'. tauto.
Qed.

(** Where a token starts: no white space, newline or comment. *)
Definition token_start (p : slice_t) : Prop :=
  0 < sl_l p /\ whitespace p = 0 /\ newline p = 0 /\ p.[0] <> ch "#"
  /\ ~ (p.[0] = ch "/" /\ 2 <= sl_l p /\ (p.[1] = ch "/" \/ p.[1] = ch "*")).

Lemma skipSpaces_spec e :
  wfp e ->
  exists err e', skipSpaces e = Ret (err, e')
    /\ advanced e e' /\ lex_err err
    /\ (err = None -> sl_l (e_p e') = 0 \/ token_start (e_p e')).
Proof.
  intros Hw. unfold skipSpaces.
  destruct (iter_spec skipSpaces_body
    (fun s => advanced e (snd s) /\ lex_err (fst s))
    (fun r => advanced e (snd r) /\ lex_err (fst r)
              /\ (fst r = None -> sl_l (e_p (snd r)) = 0 \/ token_start (e_p (snd r))))
    (fun s => if is_err (fst s) then 0 else sl_l (e_p (snd s)) + 1))
    with (fuel := S (fuel_of (e_p e))) (s := (@None error_t, e))
    as ([err e'] & Hr & HQ).
  - intros [err s] (Ha & He). simpl in Ha, He. pose proof Ha as (Hws & _).
    split; [simpl; destruct (is_err err); ulia|].
    unfold skipSpaces_body.
    destruct (negb (is_err err) && (0 <? sl_l (e_p s))) eqn:Ec.
    2:{ simpl. split; [assumption|]. split; [assumption|].
        intros ->. simpl in Ec. b2p. left. ulia. }
    b2p. destruct err; [discriminate|]. simpl.
    destruct (skipWhitespaces_spec s Hws) as (s1 & -> & Ha1 & Hws1). simpl.
    pose proof Ha1 as (Hw1 & _).
    destruct (skipLineComment_spec s1 Hw1) as (err2 & ok2 & s2 & -> & Ha2 & He2 & Hok2 & Hnok2).
    simpl. pose proof Ha2 as (Hw2 & _).
    pose proof (advanced_trans _ _ _ Ha (advanced_trans _ _ _ Ha1 Ha2)) as Ha02.
    destruct ok2; simpl.
    { destruct (Hok2 eq_refl) as (-> & Hlt & _). simpl.
      split; [split; [assumption|exact I]|]. ulia. }
    destruct err2 as [er2|]; simpl.
    { split; [split; assumption|]. ulia. }
    destruct (Hnok2 eq_refl eq_refl) as [-> Hnc].
    destruct (skipMultilineComment_spec s1 Hw1) as (err3 & ok3 & s3 & -> & Ha3 & He3 & Hok3 & Hnok3).
    simpl. pose proof Ha3 as (Hw3 & _).
    pose proof (advanced_trans _ _ _ Ha (advanced_trans _ _ _ Ha1 Ha3)) as Ha03.
    destruct ok3; simpl.
    { destruct (Hok3 eq_refl) as (-> & Hlt). simpl.
      split; [split; [assumption|exact I]|]. ulia. }
    destruct err3 as [er3|]; simpl.
    { split; [split; assumption|]. ulia. }
    destruct (Hnok3 eq_refl eq_refl) as [-> Hnm].
    destruct (popNewline s1) as [nl s4] eqn:Hnl.
    destruct (popNewline_spec s1 nl s4 Hw1 Hnl) as (Ha4 & Hf4 & Ht4).
    destruct nl; simpl.
    { split; [split; [eapply advanced_trans; eauto using advanced_trans|exact I]|].
      destruct (Ht4 eq_refl) as (q & Hq & _). ulia. }
    destruct (Hf4 eq_refl) as [-> Hn0].
    split; [eapply advanced_trans; eauto|]. split; [exact I|]. intros _.
    destruct (Z.eq_dec (sl_l (e_p s1)) 0) as [|Hne]; [left; assumption|right].
    unfold token_start. split; [ulia|]. split; [assumption|]. split; [assumption|].
    destruct Hnc as [Hz|[Hnc1 Hnc2]]; [contradiction|].
    split; [assumption|].
    intros (H1 & H2 & [H3|H3]).
    + apply Hnc2. auto.
    + apply Hnm. repeat split; try assumption. ulia.
  - simpl. split; [apply advanced_refl; assumption|exact I].
  - simpl. unfold fuel_of. ulia.
  - exists err, e'. simpl in HQ. tauto.
Qed.


(** What a quoted-string scanner returns: nothing (the engine unchanged),
    or the slice from the start position to the new position. *)
Definition scanned (first : Z) (e : engine_t) (err : option error_t) (s : slice_t)
  (e' : engine_t) : Prop :=
  advanced e e' /\ lex_err err
  /\ (err = None ->
      (is_NULL (sl_p s) = true /\ e' = e
       /\ (sl_l (e_p e) = 0 \/ (e_p e).[0] <> first))
      \/ (s = mkSlice (Inp (pos_b (e_pos e))) (pos_b (e_pos e') - pos_b (e_pos e))
          /\ pos_b (e_pos e) < pos_b (e_pos e'))).

Lemma doubleQuotedString_spec e :
  wfp e ->
  exists err s e', doubleQuotedString e = Ret (err, s, e') /\ scanned DQUOTE e err s e'.
Proof.
  intros Hw. unfold doubleQuotedString, scanned.
  destruct (_ || _) eqn:Ec.
  - exists None, nullSlice, e. split; [reflexivity|].
    split; [apply advanced_refl; assumption|]. split; [exact I|]. intros _. left.
    split; [reflexivity|]. split; [reflexivity|].
    apply orb_true_iff in Ec. destruct Ec; b2p; auto.
  - b2p.
    destruct (popBytes_advanced e 1 Hw) as [Hb Hb']; [ulia|].
    set (e1 := popBytes e 1) in *.
    destruct (iter_spec (doubleQuotedString_body (e_pos e))
      (fun s => advanced e1 s)
      (fun r => let '(err, sl, e') := r in
                advanced e1 e' /\ lex_err err
                /\ (err = None ->
                    sl = mkSlice (Inp (pos_b (e_pos e))) (pos_b (e_pos e') - pos_b (e_pos e))))
      (fun s => sl_l (e_p s))) with (fuel := fuel_of (e_p e1)) (s := e1)
      as ([[err sl] e'] & Hr & Ha & He & Hsl).
    + intros s Ha. pose proof Ha as (Hws & _). split; [ulia|].
      unfold doubleQuotedString_body.
      destruct (sl_l (e_p s) =? 0) eqn:E0; b2p.
      { simpl. split; [assumption|]. split; [split; [apply Hw|reflexivity]|discriminate]. }
      destruct (_ && _) eqn:Eesc.
      { b2p. destruct (popBytes_advanced s 2 Hws) as [Hc _]; [ulia|].
        simpl. split; [eapply advanced_trans; eauto|]. ulia. }
      destruct ((e_p s).[0] =? DQUOTE) eqn:Eq.
      { destruct (popBytes_advanced s 1 Hws) as [Hc _]; [ulia|].
        simpl. split; [eapply advanced_trans; eauto|]. split; [exact I|].
        intros _. reflexivity. }
      destruct (negb (newline (e_p s) =? 0)) eqn:En.
      { simpl. split; [assumption|]. split; [split; [apply Hw|reflexivity]|discriminate]. }
      pose proof (qchar_spec s Hws) as Hq.
      destruct (qchar s) as [[er|] n].
      { simpl. split; [assumption|]. split; [apply Hq; ulia|discriminate]. }
      destruct (popBytes_advanced s n Hws) as [Hc Hc']; [ulia|].
      simpl. split; [eapply advanced_trans; eauto|]. ulia.
    + apply advanced_refl. apply Hb.
    + unfold fuel_of. ulia.
    + exists err, sl, e'. split; [assumption|].
      split; [eapply advanced_trans; eauto|]. split; [assumption|].
      intros Hn. right. split; [auto|]. ulia.
Qed.

Lemma singleQuotedString_spec e :
  wfp e ->
  exists err s e', singleQuotedString e = Ret (err, s, e') /\ scanned SQUOTE e err s e'.
Proof.
  intros Hw. unfold singleQuotedString, scanned.
  destruct (_ || _) eqn:Ec.
  - exists None, nullSlice, e. split; [reflexivity|].
    split; [apply advanced_refl; assumption|]. split; [exact I|]. intros _. left.
    split; [reflexivity|]. split; [reflexivity|].
    apply orb_true_iff in Ec. destruct Ec; b2p; auto.
  - b2p.
    destruct (popBytes_advanced e 1 Hw) as [Hb Hb']; [ulia|].
    set (e1 := popBytes e 1) in *.
    destruct (iter_spec (singleQuotedString_body (e_pos e))
      (fun s => advanced e1 s)
      (fun r => let '(err, sl, e') := r in
                advanced e1 e' /\ lex_err err
                /\ (err = None ->
                    sl = mkSlice (Inp (pos_b (e_pos e))) (pos_b (e_pos e') - pos_b (e_pos e))))
      (fun s => sl_l (e_p s))) with (fuel := fuel_of (e_p e1)) (s := e1)
      as ([[err sl] e'] & Hr & Ha & He & Hsl).
    + intros s Ha. pose proof Ha as (Hws & _). split; [ulia|].
      unfold singleQuotedString_body.
      destruct (sl_l (e_p s) =? 0) eqn:E0; b2p.
      { simpl. split; [assumption|]. split; [split; [apply Hw|reflexivity]|discriminate]. }
      destruct (_ && _) eqn:Eesc.
      { b2p. destruct (popBytes_advanced s 2 Hws) as [Hc _]; [ulia|].
        simpl. split; [eapply advanced_trans; eauto|]. ulia. }
      destruct ((e_p s).[0] =? SQUOTE) eqn:Eq.
      { destruct (popBytes_advanced s 1 Hws) as [Hc _]; [ulia|].
        simpl. split; [eapply advanced_trans; eauto|]. split; [exact I|].
        intros _. reflexivity. }
      destruct (negb (newline (e_p s) =? 0)) eqn:En.
      { simpl. split; [assumption|]. split; [split; [apply Hw|reflexivity]|discriminate]. }
      pose proof (qchar_spec s Hws) as Hq.
      destruct (qchar s) as [[er|] n].
      { simpl. split; [assumption|]. split; [apply Hq; ulia|discriminate]. }
      destruct (popBytes_advanced s n Hws) as [Hc Hc']; [ulia|].
      simpl. split; [eapply advanced_trans; eauto|]. ulia.
    + apply advanced_refl. apply Hb.
    + unfold fuel_of. ulia.
    + exists err, sl, e'. split; [assumption|].
      split; [eapply advanced_trans; eauto|]. split; [assumption|].
      intros Hn. right. split; [auto|]. ulia.
Qed.

(** ** The ISO date-time literal *)

Lemma count_digits_spec v :
  0 <= sl_l v ->
  exists p, iter (fuel_of v) (count_digits_body v) 0 = Ret p /\ 0 <= p <= sl_l v.
Proof.
  intros Hl.
  destruct (iter_spec (count_digits_body v)
    (fun p => 0 <= p <= sl_l v) (fun p => 0 <= p <= sl_l v)
    (fun p => sl_l v - p)) with (fuel := fuel_of v) (s := 0) as (p & Hr & HQ).
  - intros p Hp. split; [lia|]. unfold count_digits_body.
    destruct (_ && _) eqn:E; simpl; b2p; lia.
  - lia.
  - unfold fuel_of. lia.
  - exists p. auto.
Qed.

(** The literal lies within the slice. *)
Lemma parseISODateTimeLiteral_spec v :
  0 <= sl_l v ->
  exists n, parseISODateTimeLiteral v = Ret n /\ -1 <= n <= sl_l v.
Proof.
  intros Hl. unfold parseISODateTimeLiteral. cbv zeta.
  repeat (dest_if; b2p; [eexists; split; [reflexivity|cbn [sl_l adv] in *; lia]|]).
  dest_if.
  - match goal with
    | |- context [iter ?f (count_digits_body ?s) 0] =>
        destruct (count_digits_spec s) as (p & Hp1 & Hp); [cbn [sl_l adv] in *; lia|];
        rewrite Hp1
    end. cbn [bind].
    dest_if; cbn [bind].
    + eexists; split; [reflexivity|lia].
    + repeat (dest_if; b2p; [eexists; split; [reflexivity|cbn [sl_l adv] in *; lia]|]).
      eexists; split; [reflexivity|cbn [sl_l adv] in *; lia].
  - cbn [bind].
    repeat (dest_if; b2p; [eexists; split; [reflexivity|cbn [sl_l adv] in *; lia]|]).
    eexists; split; [reflexivity|cbn [sl_l adv] in *; lia].
Qed.


Lemma advanced_same_p e e' :
  wfp e -> advanced e e' -> pos_b (e_pos e') = pos_b (e_pos e) -> e_p e' = e_p e.
Proof.
  intros (Hp & _) ((Hp' & _) & _ & _ & _ & _ & _ & Hsum) Heq.
  destruct (e_p e') as [p' l'], (e_p e) as [p l]. cbn [sl_p sl_l] in *.
  f_equal; [congruence|lia].
Qed.

Lemma lenISODateTime_spec e :
  wfp e ->
  exists n, lenISODateTime e = Ret n /\ 0 <= n <= sl_l (e_p e).
Proof.
  intros Hw. unfold lenISODateTime.
  destruct (_ && _) eqn:Ec.
  - destruct (parseISODateTimeLiteral_spec
                (mkSlice (padd (sl_p (e_p e)) (-13)) (sl_l (e_p e) + 13)))
      as (n & -> & Hn); [cbn [sl_l]; ulia|].
    cbn [bind sl_l] in *. dest_if; b2p; eexists; (split; [reflexivity|ulia]).
  - eexists; split; [reflexivity|ulia].
Qed.

(** ** Quoteless strings *)

Lemma stopByte_cases c :
  0 <= c < 256 -> stopByte c <> 0 ->
  c = LF \/ c = CR \/ c = ch "#" \/ c = ch "/" \/ tkTagTable c <> tagUnknown.
Proof.
  intros Hc Hs.
  pose proof (byte_cases
    (fun c => (stopByte c =? 0) || (c =? LF) || (c =? CR) || (c =? ch "#")
              || (c =? ch "/") || negb (tag_eqb (tkTagTable c) tagUnknown))
    eq_refl c Hc) as H.
  cbv beta in H.
  repeat (apply orb_true_iff in H; destruct H as [H|H]); b2p; auto; try contradiction.
  right; right; right; right. intros E. rewrite E in H. discriminate.
Qed.

Lemma quotelessString_spec e :
  wfp e -> token_start (e_p e) -> tkTagTable (e_p e).[0] = tagUnknown ->
  exists err s e', quotelessString e = Ret (err, s, e')
    /\ advanced e e' /\ lex_err err
    /\ (err = None ->
        exists l, s = mkSlice (Inp (pos_b (e_pos e))) l /\ 0 < l
                  /\ pos_b (e_pos e) + l <= pos_b (e_pos e')).
Proof.
  intros Hw (Hl0 & Hws0 & Hnl0 & Hh0 & Hc0) Htag. unfold quotelessString.
  destruct (iter_spec quotelessString_body
    (fun st => advanced e (fst st)
               /\ ((fst st = e /\ snd st = pos_b (e_pos e))
                   \/ pos_b (e_pos e) < snd st <= pos_b (e_pos (fst st))))
    (fun r => let '(err, e', endIdx) := r in
              advanced e e' /\ lex_err err
              /\ (err = None -> pos_b (e_pos e) < endIdx <= pos_b (e_pos e')))
    (fun st => sl_l (e_p (fst st))))
    with (fuel := fuel_of (e_p e)) (s := (e, pos_b (e_pos e)))
    as ([[err e'] endIdx] & Hr & Ha & He & Hend).
  - intros [s endIdx] (Ha & Hst). cbn [fst snd] in *. pose proof Ha as (Hws & _).
    split; [ulia|]. unfold quotelessString_body.
    assert (Hread :
      match (match qchar s with
             | (Some err, _) => break (Some err, s, endIdx)
             | (None, n) => let e0 := popBytes s n in continue (e0, pos_b (e_pos e0))
             end : outcome (engine_t * Z + option error_t * engine_t * Z)) with
      | Ret (inl s') =>
          (advanced e (fst s')
           /\ ((fst s' = e /\ snd s' = pos_b (e_pos e))
               \/ pos_b (e_pos e) < snd s' <= pos_b (e_pos (fst s'))))
          /\ sl_l (e_p (fst s')) < sl_l (e_p s)
      | Ret (inr (err, e', endIdx)) =>
          advanced e e' /\ lex_err err
          /\ (err = None -> pos_b (e_pos e) < endIdx <= pos_b (e_pos e'))
      | _ => False
      end \/ sl_l (e_p s) = 0).
    { destruct (Z.eq_dec (sl_l (e_p s)) 0) as [|Hne]; [right; assumption|left].
      pose proof (qchar_spec s Hws) as Hq.
      destruct (qchar s) as [[er|] n].
      - cbn. split; [assumption|]. split; [apply Hq; ulia|discriminate].
      - destruct (popBytes_advanced s n Hws) as [Hc Hc']; [ulia|].
        cbn [continue fst snd]. split; [split; [eapply advanced_trans; eauto|]|]; ulia. }
    destruct (sl_l (e_p s) =? 0) eqn:E0; b2p.
    { cbn. split; [assumption|]. split; [exact I|]. intros _.
      destruct Hst as [[-> _]|]; ulia. }
    destruct Hread as [Hread|]; [|contradiction].
    destruct (negb (whitespace (e_p s) =? 0)) eqn:Ews; b2p.
    { destruct (skipWhitespaces_spec s Hws) as (s1 & -> & Ha1 & Hz). cbn.
      destruct Hst as [[-> _]|Hst]; [contradiction|].
      assert (pos_b (e_pos s1) <> pos_b (e_pos s)).
      { intros Heq. apply Ews. rewrite <- Hz. f_equal. symmetry.
        apply (advanced_same_p _ _ Hws Ha1 Heq). }
      split; [split; [eapply advanced_trans; eauto|right]|]; ulia. }
    destruct (negb (stopByte (e_p s).[0] =? 0)) eqn:Estop; [|exact Hread].
    destruct (_ || _) eqn:Econd; [|exact Hread].
    destruct (lenISODateTime_spec s Hws) as (n & -> & Hn). cbn [bind].
    destruct (n =? 0) eqn:En; b2p.
    { cbn. split; [assumption|]. split; [exact I|]. intros _.
      destruct Hst as [[-> _]|Hst]; [exfalso|ulia].
      rewrite rd_wfp in * by assumption.
      destruct (stopByte_cases (mem (pos_b (e_pos e) + 0)) (mem_range _) Estop)
        as [Hc|[Hc|[Hc|[Hc|Hc]]]].
      - unfold newline in Hnl0. rewrite rd_wfp in Hnl0 by assumption.
        rewrite Hc in Hnl0. rewrite Z.eqb_refl in Hnl0.
        destruct (sl_l (e_p e) =? 0) eqn:E1; b2p; [lia|discriminate].
      - rewrite Hc, Hnl0 in Econd. discriminate.
      - contradiction.
      - rewrite Hc, Hnl0 in Econd.
        rewrite Z.eqb_refl in Econd. cbn in Econd.
        rewrite !orb_false_r in Econd. apply andb_prop in Econd.
        destruct Econd as [E1 E2]. b2p.
        apply Hc0. split; [assumption|]. split; [lia|].
        apply orb_true_iff in E2. destruct E2 as [E2|E2]; b2p; [left|right]; exact E2.
      - contradiction. }
    destruct (popBytes_advanced s n Hws) as [Hc Hc']; [ulia|].
    cbn [continue fst snd]. split; [split; [eapply advanced_trans; eauto|]|]; ulia.
  - cbn [fst snd]. split; [apply advanced_refl; assumption|left; auto].
  - cbn [fst]. unfold fuel_of. ulia.
  - rewrite Hr. cbn [bind]. destruct err as [er|]; cbn [is_err].
    + eexists _, _, _. split; [reflexivity|]. split; [assumption|]. split; [assumption|discriminate].
    + specialize (Hend eq_refl). destruct (_ =? _) eqn:E; b2p; [lia|].
      eexists _, _, _. split; [reflexivity|]. split; [assumption|]. split; [exact I|].
      intros _. eexists. split; [reflexivity|]. unfold e_in; cbn [padd]. lia.
Qed.


(** ** Multiline strings *)

Lemma rd_padd p n i : (exists off, p = Inp off) -> rd (padd p n) i = rd p (n + i).
Proof. intros (off & ->). cbn. f_equal. lia. Qed.

Lemma whitespace_cases p :
  whitespace p = 0
  \/ (whitespace p = 1 /\ 0 <> sl_l p /\ (p.[0] = ch " " \/ p.[0] = TAB))
  \/ (whitespace p = 2 /\ 1 < sl_l p /\ p.[0] = 0xC2 /\ p.[1] = 0xA0).
Proof.
  unfold whitespace.
  destruct (sl_l p =? 0) eqn:E0; [auto|].
  destruct ((p.[0] =? ch " ") || (p.[0] =? TAB)) eqn:E1.
  - right; left. b2p. repeat split; auto.
    apply orb_true_iff in E1. destruct E1; b2p; auto.
  - destruct (_ && _) eqn:E2; [|auto].
    right; right. b2p. auto.
Qed.

(** [whitespace] only looks at the length to know whether there are 0, 1
    or more bytes. *)
Lemma whitespace_indep p l1 l2 :
  2 <= l1 -> 2 <= l2 -> whitespace (mkSlice p l1) = whitespace (mkSlice p l2).
Proof.
  intros H1 H2. unfold whitespace. cbn [sl_l sl_p].
  destruct (l1 =? 0) eqn:E1, (l2 =? 0) eqn:E2; b2p; try lia.
  destruct (1 <? l1) eqn:E3, (1 <? l2) eqn:E4; b2p; lia.
Qed.

Lemma slice_eq a l a' l' : a = a' -> l = l' -> mkSlice (Inp a) l = mkSlice (Inp a') l'.
Proof. intros -> ->; reflexivity. Qed.

Lemma getMargin_spec s l :
  0 <= l ->
  exists m, getMargin (mkSlice (Inp s) l) = Ret m /\ 0 <= m <= l
            /\ forall i, 0 <= i < m -> mem (s + i) <> BTICK.
Proof.
  intros Hl. unfold getMargin.
  destruct (iter_spec getMargin_body
    (fun st => fst st = mkSlice (Inp (s + snd st)) (l - snd st) /\ 0 <= snd st <= l
               /\ forall i, 0 <= i < snd st -> mem (s + i) <> BTICK)
    (fun m => 0 <= m <= l /\ forall i, 0 <= i < m -> mem (s + i) <> BTICK)
    (fun st => l - snd st))
    with (fuel := fuel_of (mkSlice (Inp s) l)) (s := (mkSlice (Inp s) l, 0))
    as (m & Hr & HQ).
  - intros [p b] (Hp & Hb & Hm). cbn [fst snd] in *. subst p. split; [lia|].
    unfold getMargin_body. cbn [sl_l].
    destruct (0 <? l - b) eqn:E0; b2p; [|cbn; auto].
    destruct (whitespace_cases (mkSlice (Inp (s + b)) (l - b))) as [H|[H|H]];
      cbn [sl_l sl_p rd] in H.
    + rewrite H. cbn. auto.
    + destruct H as (-> & _ & Hc). unfold adv; cbn [Z.eqb continue padd sl_p sl_l fst snd].
      split; [split; [apply slice_eq; lia|split; [lia|]]|lia].
      intros i Hi. destruct (Z.eq_dec i b) as [->|]; [|apply Hm; lia].
      replace (s + b) with (s + b + 0) by lia. intros E; rewrite E in Hc.
      destruct Hc; discriminate.
    + destruct H as (-> & Hl2 & Hc1 & Hc2). unfold adv; cbn [Z.eqb continue padd sl_p sl_l fst snd].
      split; [split; [apply slice_eq; lia|split; [lia|]]|lia].
      intros i Hi. destruct (Z.eq_dec i b) as [->|].
      * replace (s + b) with (s + b + 0) by lia. rewrite Hc1. discriminate.
      * destruct (Z.eq_dec i (b + 1)) as [->|]; [|apply Hm; lia].
        replace (s + (b + 1)) with (s + b + 1) by lia. rewrite Hc2. discriminate.
  - cbn [fst snd]. split; [apply slice_eq; lia|]. split; [lia|]. intros; lia.
  - cbn [snd]. unfold fuel_of; cbn [sl_l]. lia.
  - exists m. tauto.
Qed.

Lemma matchingMarginLength_range margin line :
  0 <= sl_l margin -> 0 <= sl_l line ->
  0 <= matchingMarginLength margin line <= sl_l line.
Proof.
  intros Hm Hl. unfold matchingMarginLength, for_range.
  set (n := if sl_l line <? sl_l margin then sl_l line else sl_l margin).
  assert (Hn : 0 <= n <= sl_l line) by (subst n; dest_if; b2p; lia).
  rewrite Z.sub_0_r.
  assert (H : forall k i, 0 <= i -> i + Z.of_nat k <= n ->
            match for_ k i (fun i (_ : unit) =>
                    if negb (line.[i] =? margin.[i]) then inr i else inl tt) tt with
            | inl _ => True
            | inr r => 0 <= r < n
            end).
  { induction k as [|k IH]; intros i Hi Hk; cbn [for_]; [exact I|].
    destruct (negb _); [lia|]. apply IH; lia. }
  specialize (H (Z.to_nat n) 0). destruct (for_ _ _ _ _); lia.
Qed.

(** The three searches that open [outputMultilineString] succeed on the
    slice. *)
Definition ml_ok (str : slice_t) : Prop :=
  exists p str2 str3,
    iter (fuel_of str) (find_btick_body str) 0 = Ret p
    /\ iter (fuel_of (adv str (p + 1))) skip_ws_body (adv str (p + 1)) = Ret str2
    /\ iter (fuel_of (if (adv str2 1).[0] =? ch "n"
                      then adv (adv str2 1) 1 else adv (adv str2 1) 3))
            find_LF_body
            (if (adv str2 1).[0] =? ch "n" then adv (adv str2 1) 1 else adv (adv str2 1) 3)
       = Ret str3.


Lemma skipWhitespaces_iter_advanced fuel e e' :
  wfp e -> iter fuel skipWhitespaces_body e = Ret e' -> advanced e e'.
Proof.
  intros Hw. apply (iter_post skipWhitespaces_body (fun s => advanced e s)).
  - intros s Ha. pose proof Ha as (Hws & _). unfold skipWhitespaces_body.
    pose proof (whitespace_range (e_p s) (proj1 (proj2 Hws))) as Hn.
    destruct (whitespace (e_p s) =? 0); cbn; [assumption|].
    destruct (popBytes_advanced s (whitespace (e_p s)) Hws) as [Hc _]; [lia|].
    eapply advanced_trans; eauto.
  - apply advanced_refl; assumption.
Qed.

(** The white space skipped by the tokenizer is the white space skipped in
    a slice that ends at [E], two bytes at least after it. *)
Lemma ws_lockstep fuel : forall e e',
  wfp e -> iter fuel skipWhitespaces_body e = Ret e' ->
  forall E fuel', pos_b (e_pos e') + 2 <= E -> E <= pos_b (e_pos e) + sl_l (e_p e) ->
  E - pos_b (e_pos e) < Z.of_nat fuel' ->
  iter fuel' skip_ws_body (mkSlice (Inp (pos_b (e_pos e))) (E - pos_b (e_pos e)))
  = Ret (mkSlice (Inp (pos_b (e_pos e'))) (E - pos_b (e_pos e'))).
Proof.
  induction fuel as [|fuel IH]; intros e e' Hw Hr E fuel' HE HN Hf; [discriminate|].
  pose proof (skipWhitespaces_iter_advanced _ _ _ Hw Hr) as Ha.
  cbn [iter] in Hr. unfold skipWhitespaces_body in Hr.
  destruct fuel' as [|fuel']; [ulia|]. cbn [iter]. unfold skip_ws_body.
  assert (Hws : whitespace (mkSlice (Inp (pos_b (e_pos e))) (E - pos_b (e_pos e)))
                = whitespace (e_p e)).
  { destruct Hw as (Hp & Hl & _). destruct (e_p e) as [p l]. cbn [sl_p sl_l] in *.
    subst p. apply whitespace_indep; ulia. }
  rewrite Hws.
  pose proof (whitespace_range (e_p e) (proj1 (proj2 Hw))) as Hn.
  destruct (whitespace (e_p e) =? 0) eqn:E0; b2p.
  - cbn in Hr. injection Hr as <-. rewrite E0. reflexivity.
  - cbn [continue] in Hr.
    destruct (popBytes_advanced e (whitespace (e_p e)) Hw) as [Hc Hc']; [lia|].
    destruct (0 <? whitespace (e_p e)) eqn:E1; b2p; [|lia]. cbn [continue].
    pose proof Hc as (Hw1 & _).
    specialize (IH _ _ Hw1 Hr E fuel' HE).
    rewrite Hc' in IH.
    unfold adv; cbn [padd sl_p sl_l].
    replace (E - pos_b (e_pos e) - whitespace (e_p e))
      with (E - (pos_b (e_pos e) + whitespace (e_p e))) by lia.
    apply IH; ulia.
Qed.

Lemma find_LF_spec q E : forall fuel u,
  u <= q -> mem q = LF -> q - u < Z.of_nat fuel ->
  exists str3, iter fuel find_LF_body (mkSlice (Inp u) (E - u)) = Ret str3.
Proof.
  induction fuel as [|fuel IH]; intros u Hu Hq Hf; [lia|].
  cbn [iter]. unfold find_LF_body. cbn [sl_p rd].
  destruct (Z.eq_dec u q) as [->|Hne].
  - replace (q + 0) with q by lia. rewrite Hq. cbn. eauto.
  - destruct (negb (mem (u + 0) =? LF)) eqn:E0; cbn [continue break]; [|eauto].
    unfold adv; cbn [padd sl_p sl_l].
    replace (E - u - 1) with (E - (u + 1)) by lia. apply IH; lia.
Qed.

Lemma find_btick_spec s0 L P : forall fuel p,
  0 <= p <= P -> mem (s0 + P) = BTICK ->
  (forall i, 0 <= i < P -> mem (s0 + i) <> BTICK) ->
  P - p < Z.of_nat fuel ->
  iter fuel (find_btick_body (mkSlice (Inp s0) L)) p = Ret P.
Proof.
  induction fuel as [|fuel IH]; intros p Hp HP Hm Hf; [lia|].
  cbn [iter]. unfold find_btick_body. cbn [sl_p rd].
  destruct (Z.eq_dec p P) as [->|Hne].
  - rewrite HP. cbn. reflexivity.
  - destruct (mem (s0 + p) =? BTICK) eqn:E0; b2p.
    + exfalso. apply (Hm p); [lia|assumption].
    + cbn. apply IH; auto; lia.
Qed.

Lemma newlineSpecifier_cases p :
  newlineSpecifier p = 0
  \/ (newlineSpecifier p = 2 /\ 1 < sl_l p /\ p.[1] = ch "n")
  \/ (newlineSpecifier p = 4 /\ 3 < sl_l p /\ p.[1] <> ch "n").
Proof.
  unfold newlineSpecifier.
  destruct (p.[0] =? BSLASH); [|auto].
  destruct ((1 <? sl_l p) && (p.[1] =? ch "n")) eqn:E1.
  - b2p; auto.
  - destruct ((3 <? sl_l p) && (p.[1] =? ch "r") && (p.[2] =? BSLASH)
              && (p.[3] =? ch "n")) eqn:E2; [|auto].
    b2p. right; right. repeat split; auto.
    match goal with H : p.[1] = ch "r" |- _ => rewrite H end. discriminate.
Qed.


Lemma multilineString_loop_spec margin startPos e7 :
  wfp e7 -> pos_ok startPos -> 0 <= sl_l margin ->
  exists err s e', iter (fuel_of (e_p e7)) (multilineString_body margin startPos) e7
                   = Ret (err, s, e')
    /\ advanced e7 e' /\ lex_err err
    /\ (err = None ->
        s = mkSlice (Inp (pos_s startPos)) (pos_b (e_pos e') - pos_s startPos)
        /\ pos_b (e_pos e7) < pos_b (e_pos e')).
Proof.
  intros Hw Hsp Hmg.
  destruct (iter_spec (multilineString_body margin startPos)
    (fun s => advanced e7 s)
    (fun r => let '(err, sl, e') := r in
              advanced e7 e' /\ lex_err err
              /\ (err = None ->
                  sl = mkSlice (Inp (pos_s startPos)) (pos_b (e_pos e') - pos_s startPos)
                  /\ pos_b (e_pos e7) < pos_b (e_pos e')))
    (fun s => sl_l (e_p s))) with (fuel := fuel_of (e_p e7)) (s := e7)
    as ([[err sl] e'] & Hr & HQ).
  - intros s Ha. pose proof Ha as (Hws & _). split; [ulia|].
    unfold multilineString_body.
    destruct (0 <? sl_l (e_p s)) eqn:E0; b2p.
    2:{ cbn. split; [assumption|]. split; [split; [assumption|reflexivity]|discriminate]. }
    destruct (popNewline s) as [nl s1] eqn:Hnl.
    destruct (popNewline_spec s nl s1 Hws Hnl) as (Ha1 & Hf & Ht).
    destruct nl.
    { destruct (Ht eq_refl) as (q & Hq & _). pose proof Ha1 as (Hw1 & _).
      pose proof (advanced_trans _ _ _ Ha Ha1) as Ha01.
      destruct (negb (_ =? _)) eqn:En.
      - cbn. split; [assumption|]. split; [|discriminate].
        split; [|reflexivity].
        pose proof (matchingMarginLength_range margin (e_p s1) Hmg) as Hm.
        unfold pos_ok; cbn [pos_s pos_b pos_l]. ulia.
      - pose proof (matchingMarginLength_range margin (e_p s1) Hmg) as Hm.
        destruct (0 <? matchingMarginLength margin (e_p s1)) eqn:E1; b2p.
        + destruct (popBytes_advanced s1 (matchingMarginLength margin (e_p s1)) Hw1)
            as [Hc _]; [ulia|].
          cbn. split; [eapply advanced_trans; eauto|]. ulia.
        + cbn. split; [assumption|]. ulia. }
    destruct (Hf eq_refl) as [-> _].
    destruct (char (e_p s).[0] <? 32) eqn:Ectl.
    { destruct (popBytes_advanced s 1 Hws) as [Hc Hc']; [ulia|].
      cbn. split; [eapply advanced_trans; eauto|]. ulia. }
    destruct ((e_p s).[0] =? BTICK) eqn:Ebt.
    { destruct (popBytes_advanced s 1 Hws) as [Hc Hc']; [ulia|].
      pose proof (advanced_trans _ _ _ Ha Hc) as Hac.
      destruct (_ || _) eqn:Eend.
      - cbn. split; [assumption|]. split; [exact I|]. intros _.
        unfold e_in; cbn [padd]. split; [reflexivity|ulia].
      - cbn. split; [assumption|]. ulia. }
    pose proof (qchar_spec s Hws) as Hq.
    destruct (qchar s) as [[er|] n].
    { cbn. split; [assumption|]. split; [apply Hq; ulia|discriminate]. }
    destruct (popBytes_advanced s n Hws) as [Hc Hc']; [ulia|].
    cbn. split; [eapply advanced_trans; eauto|]. ulia.
  - apply advanced_refl; assumption.
  - unfold fuel_of. ulia.
  - exists err, sl, e'. tauto.
Qed.


Lemma multilineString_spec e :
  wfp e ->
  exists err s e', multilineString e = Ret (err, s, e')
    /\ advanced e e' /\ lex_err err
    /\ (err = None ->
        (is_NULL (sl_p s) = true /\ e' = e
         /\ (sl_l (e_p e) = 0 \/ (e_p e).[0] <> BTICK))
        \/ (s = mkSlice (Inp (pos_s (e_pos e))) (pos_b (e_pos e') - pos_s (e_pos e))
            /\ pos_b (e_pos e) < pos_b (e_pos e') /\ ml_ok s)).
Proof.
  intros Hw. unfold multilineString.
  destruct (_ || _) eqn:Ec.
  { exists None, nullSlice, e. split; [reflexivity|].
    split; [apply advanced_refl; assumption|]. split; [exact I|]. intros _. left.
    split; [reflexivity|]. split; [reflexivity|].
    apply orb_true_iff in Ec. destruct Ec; b2p; auto. }
  b2p. rename H into Hl0. rename H0 into Hbt.
  unfold e_in; cbn [padd Z.add].
  destruct (getMargin_spec (pos_s (e_pos e)) (pos_b (e_pos e) - pos_s (e_pos e)))
    as (m & -> & Hm & Hmargin); [ulia|].
  cbn [bind].
  (* every exit with an error *)
  assert (Herr : forall (er : error_t) (e' : engine_t),
            advanced e e' -> lex_err (Some er) ->
            exists err s e'0, Ret (Some er, nullSlice, e') = Ret (err, s, e'0)
              /\ advanced e e'0 /\ lex_err err
              /\ (err = None ->
                  (is_NULL (sl_p s) = true /\ e'0 = e
                   /\ (sl_l (e_p e) = 0 \/ (e_p e).[0] <> BTICK))
                  \/ (s = mkSlice (Inp (pos_s (e_pos e)))
                                  (pos_b (e_pos e'0) - pos_s (e_pos e))
                      /\ pos_b (e_pos e) < pos_b (e_pos e'0) /\ ml_ok s))).
  { intros er e' Ha He. exists (Some er), nullSlice, e'.
    split; [reflexivity|]. split; [assumption|]. split; [assumption|discriminate]. }
  pose proof (advanced_refl e Hw) as Ha0.
  destruct (negb (m + pos_s (e_pos e) =? pos_b (e_pos e))) eqn:Em; b2p.
  { apply Herr; [assumption|]. split; [unfold pos_ok; cbn; ulia|reflexivity]. }
  assert (Hpos : pos_ok (e_pos e)) by apply Hw.
  destruct (popBytes_advanced e 1 Hw) as [Ha1 Hb1]; [ulia|].
  set (e1 := popBytes e 1) in *. pose proof Ha1 as (Hw1 & _).
  unfold skipWhitespaces at 1.
  destruct (skipWhitespaces_spec e1 Hw1) as (e2 & Hr2 & Ha2 & _).
  pose proof Hr2 as Hr2'. unfold skipWhitespaces in Hr2'. rewrite Hr2'. cbn [bind].
  pose proof Ha2 as (Hw2 & _).
  pose proof (advanced_trans _ _ _ Ha1 Ha2) as Ha02.
  destruct (sl_l (e_p e2) =? 0) eqn:El2; b2p.
  { apply Herr; [assumption|]. split; [assumption|reflexivity]. }
  destruct (newlineSpecifier_cases (e_p e2)) as [Hn|Hn].
  { rewrite Hn. cbn [Z.eqb]. apply Herr; [assumption|]. split; [assumption|reflexivity]. }
  assert (Hn' : 2 <= newlineSpecifier (e_p e2) <= sl_l (e_p e2)
                /\ (newlineSpecifier (e_p e2) =? 0) = false
                /\ (if (e_p e2).[1] =? ch "n" then newlineSpecifier (e_p e2) = 2
                    else newlineSpecifier (e_p e2) = 4)).
  { destruct Hn as [(Hn & H1 & H2)|(Hn & H1 & H2)]; rewrite Hn.
    - rewrite H2, Z.eqb_refl. repeat split; try lia.
    - apply Z.eqb_neq in H2. rewrite H2. repeat split; try lia. }
  destruct Hn' as (Hnr & Hnz & Hnc). rewrite Hnz. clear Hn.
  destruct (popBytes_advanced e2 (newlineSpecifier (e_p e2)) Hw2) as [Ha3 Hb3]; [lia|].
  set (e3 := popBytes e2 (newlineSpecifier (e_p e2))) in *. pose proof Ha3 as (Hw3 & _).
  destruct (skipWhitespaces_spec e3 Hw3) as (e4 & -> & Ha4 & _). cbn [bind].
  pose proof Ha4 as (Hw4 & _).
  pose proof (advanced_trans _ _ _ Ha02 (advanced_trans _ _ _ Ha3 Ha4)) as Ha04.
  destruct (popNewline e4) as [nl e5] eqn:Hnl.
  destruct (popNewline_spec e4 nl e5 Hw4 Hnl) as (Ha5 & Hf5 & Ht5).
  (* the first line ends with a newline *)
  assert (Hline : exists err6 e6,
            (if negb nl
             then '(err, ok, e0) <- skipLineComment e5;;
                  (if is_err err then Ret (err, e0)
                   else if negb ok
                        then Ret (Some (newError (e_pos e) ErrInvalidMultilineStart), e0)
                        else Ret (None, e0))
             else Ret (None, e5)) = Ret (err6, e6)
            /\ advanced e4 e6 /\ lex_err err6
            /\ (err6 = None -> LF_between e4 e6 \/ sl_l (e_p e6) = 0)).
  { destruct nl; cbn [negb].
    - exists None, e5. split; [reflexivity|]. split; [assumption|]. split; [exact I|].
      intros _. left. apply Ht5; reflexivity.
    - destruct (Hf5 eq_refl) as [-> _].
      destruct (skipLineComment_spec e4 Hw4) as (err & ok & e6 & -> & Ha6 & He6 & Hok & _).
      cbn [bind]. destruct err as [er|]; cbn [is_err].
      + exists (Some er), e6. split; [reflexivity|]. split; [assumption|].
        split; [assumption|discriminate].
      + destruct ok; cbn [negb].
        * exists None, e6. split; [reflexivity|]. split; [assumption|]. split; [exact I|].
          intros _. apply Hok; reflexivity.
        * exists (Some (newError (e_pos e) ErrInvalidMultilineStart)), e6.
          split; [reflexivity|]. split; [assumption|].
          split; [split; [assumption|reflexivity]|discriminate]. }
  destruct Hline as (err6 & e6 & -> & Ha6 & He6 & HLF). cbn [bind].
  pose proof Ha6 as (Hw6 & _).
  pose proof (advanced_trans _ _ _ Ha04 Ha6) as Ha06.
  destruct err6 as [er6|]; cbn [is_err].
  { apply Herr; assumption. }
  specialize (HLF eq_refl).
  destruct (sl_l (e_p e6) =? 0) eqn:El6; b2p.
  { apply Herr; [assumption|]. split; [assumption|reflexivity]. }
  destruct HLF as [(q & Hq & HqLF)|]; [|contradiction].
  set (margin := mkSlice (Inp (pos_s (e_pos e))) (pos_b (e_pos e) - pos_s (e_pos e))) in *.
  assert (Hmg : 0 <= sl_l margin) by (cbn; ulia).
  pose proof (matchingMarginLength_range margin (e_p e6) Hmg (proj1 (proj2 Hw6))) as Hmm.
  destruct (negb (_ =? _)) eqn:Emm.
  { apply Herr; [assumption|]. split; [unfold pos_ok; cbn; ulia|reflexivity]. }
  destruct (popBytes_advanced e6 (matchingMarginLength margin (e_p e6)) Hw6)
    as [Ha7 Hb7]; [lia|].
  set (e7 := popBytes e6 (matchingMarginLength margin (e_p e6))) in *.
  pose proof Ha7 as (Hw7 & _).
  destruct (multilineString_loop_spec margin (e_pos e) e7 Hw7 Hpos Hmg)
    as (err & s & e8 & -> & Ha8 & He8 & Hs8).
  pose proof (advanced_trans _ _ _ Ha06 (advanced_trans _ _ _ Ha7 Ha8)) as Ha08.
  exists err, s, e8. split; [reflexivity|]. split; [assumption|]. split; [assumption|].
  intros Hnone. right. destruct (Hs8 Hnone) as [-> Hlt].
  split; [reflexivity|]. split; [ulia|].
  (* the searches of outputMultilineString *)
  set (E := pos_b (e_pos e8)).
  set (s0 := pos_s (e_pos e)).
  assert (HP : iter (fuel_of (mkSlice (Inp s0) (E - s0)))
                 (find_btick_body (mkSlice (Inp s0) (E - s0))) 0
               = Ret (pos_b (e_pos e) - s0)).
  { apply find_btick_spec.
    - ulia.
    - rewrite rd_wfp in Hbt by assumption.
      replace (s0 + (pos_b (e_pos e) - s0)) with (pos_b (e_pos e) + 0) by lia. assumption.
    - intros i Hi. apply Hmargin. lia.
    - unfold fuel_of; cbn [sl_l]. subst E s0. ulia. }
  assert (Hadv1 : adv (mkSlice (Inp s0) (E - s0)) (pos_b (e_pos e) - s0 + 1)
                  = mkSlice (Inp (pos_b (e_pos e1))) (E - pos_b (e_pos e1))).
  { unfold adv; cbn [padd sl_p sl_l]. apply slice_eq; lia. }
  assert (Hws : iter (fuel_of (mkSlice (Inp (pos_b (e_pos e1))) (E - pos_b (e_pos e1))))
                  skip_ws_body (mkSlice (Inp (pos_b (e_pos e1))) (E - pos_b (e_pos e1)))
                = Ret (mkSlice (Inp (pos_b (e_pos e2))) (E - pos_b (e_pos e2)))).
  { apply (ws_lockstep _ _ _ Hw1 Hr2').
    - subst E. ulia.
    - subst E. ulia.
    - unfold fuel_of; cbn [sl_l]. subst E. ulia. }
  assert (Hadv2 : (if (adv (mkSlice (Inp (pos_b (e_pos e2))) (E - pos_b (e_pos e2))) 1).[0]
                      =? ch "n"
                   then adv (adv (mkSlice (Inp (pos_b (e_pos e2))) (E - pos_b (e_pos e2))) 1) 1
                   else adv (adv (mkSlice (Inp (pos_b (e_pos e2))) (E - pos_b (e_pos e2))) 1) 3)
                  = mkSlice (Inp (pos_b (e_pos e3))) (E - pos_b (e_pos e3))).
  { unfold adv; cbn [padd sl_p sl_l rd].
    rewrite rd_wfp in Hnc by assumption.
    replace (pos_b (e_pos e2) + 1 + 0) with (pos_b (e_pos e2) + 1) by lia.
    destruct (mem (pos_b (e_pos e2) + 1) =? ch "n"); apply slice_eq; lia. }
  destruct (find_LF_spec q E (fuel_of (mkSlice (Inp (pos_b (e_pos e3))) (E - pos_b (e_pos e3))))
              (pos_b (e_pos e3))) as (str3 & Hstr3).
  { ulia. }
  { assumption. }
  { unfold fuel_of; cbn [sl_l]. subst E. ulia. }
  unfold ml_ok. eexists _, _, _.
  split; [exact HP|]. rewrite Hadv1. split; [exact Hws|].
  rewrite Hadv2. exact Hstr3.
Qed.


(** ** nextToken *)

(** The tags the tokenizer gives to the current token. *)
Definition lexer_tag (t : tokenTag_t) : bool :=
  match t with
  | tagError | tagComma | tagColon | tagOpenBrace | tagCloseBrace
  | tagOpenSquare | tagCloseSquare | tagQuotelessString
  | tagDoubleQuotedString | tagSingleQuotedString | tagMultilineString => true
  | _ => false
  end.

Definition is_delimiter (t : tokenTag_t) : bool :=
  match t with
  | tagComma | tagColon | tagOpenBrace | tagCloseBrace
  | tagOpenSquare | tagCloseSquare => true
  | _ => false
  end.

(** What holds of the current token: its position is on its line; an error
    token carries a message, and an [unclosed object] error is anchored at
    an opening brace; a brace token stands on a brace of the input; a
    multiline token can be decomposed; a quoteless token is not empty. *)
Definition tk_inv (t : token_t) : Prop :=
  pos_ok (tk_pos t)
  /\ match tk_tag t with
     | tagError =>
         exists m, t = error_token (newError (tk_pos t) m)
                   /\ (m = ErrUnclosedObject -> mem (pos_b (tk_pos t)) = ch "{")
     | tagOpenBrace => mem (pos_b (tk_pos t)) = ch "{"
     | tagMultilineString => ml_ok (tk_val t)
     | tagQuotelessString => exists b l, tk_val t = mkSlice (Inp b) l /\ 0 < l
     | _ => True
     end.

Lemma tkTagTable_cases c :
  0 <= c < 256 ->
  tkTagTable c = tagUnknown
  \/ (is_delimiter (tkTagTable c) = true
      /\ (tkTagTable c = tagOpenBrace -> c = ch "{")).
Proof.
  intros Hc.
  pose proof (byte_cases
    (fun c => tag_eqb (tkTagTable c) tagUnknown
              || (is_delimiter (tkTagTable c)
                  && (negb (tag_eqb (tkTagTable c) tagOpenBrace) || (c =? ch "{"))))
    eq_refl c Hc) as H.
  cbv beta in H. apply orb_true_iff in H. destruct H as [H|H].
  - left. destruct (tkTagTable c); try discriminate. reflexivity.
  - right. b2p. split; [assumption|]. intros E. rewrite E in *.
    cbn in H0. b2p. assumption.
Qed.

(** What [nextToken] does to an engine that is not in the error state. *)
Definition next_token (e e' : engine_t) : Prop :=
  wfp e' /\ e_out e' = e_out e /\ e_depth e' = e_depth e /\ e_errno e' = e_errno e
  /\ tk_inv (e_tk e') /\ lexer_tag (tk_tag (e_tk e')) = true
  /\ sl_l (e_p e') <= sl_l (e_p e)
  /\ (done e' = false -> sl_l (e_p e') < sl_l (e_p e))
  /\ (done e' = true ->
      exists pos m, e_tk e' = error_token (newError pos m)
                    /\ (lexical m = true \/ m = ErrEndOfInput)).

Lemma next_token_error e e' er :
  advanced e e' -> pos_ok (err_pos er) ->
  lexical (err_err er) = true \/ err_err er = ErrEndOfInput ->
  next_token e (set_tk e' (error_token er)).
Proof.
  intros Ha Hp Hm. destruct er as [pos m]. cbn [err_pos err_err] in *.
  unfold next_token. cbn [set_tk e_p e_pos e_out e_tk e_depth e_errno].
  destruct Ha as (Hw & Ho & _ & Hd & Hn & Hle & Hsum).
  split; [exact Hw|]. repeat (split; [assumption || reflexivity|]).
  split; [split; [assumption|]|].
  { cbn. exists m. split; [reflexivity|]. intros ->. destruct Hm; discriminate. }
  split; [reflexivity|]. split; [ulia|]. split; [unfold done; cbn; discriminate|].
  intros _. exists pos, m. auto.
Qed.

Lemma next_token_plain e e' tag pos s :
  advanced e e' -> sl_l (e_p e') < sl_l (e_p e) -> lexer_tag tag = true ->
  tag <> tagError -> tk_inv (mkToken tag pos s) ->
  next_token e (set_tk e' (mkToken tag pos s)).
Proof.
  intros Ha Hlt Htag Hne Hi.
  unfold next_token. cbn [set_tk e_p e_pos e_out e_tk e_depth e_errno].
  destruct Ha as (Hw & Ho & _ & Hd & Hn & Hle & Hsum).
  split; [exact Hw|]. repeat (split; [assumption || reflexivity|]).
  split; [lia|]. split; [intros _; assumption|].
  unfold done. cbn [tk_tag]. destruct tag; try discriminate. contradiction.
Qed.


Lemma nextToken_spec e :
  wfp e -> done e = false ->
  exists e', nextToken e = Ret e' /\ next_token e e'.
Proof.
  intros Hw Hnd. unfold nextToken. unfold done in Hnd. rewrite Hnd.
  destruct (skipSpaces_spec e Hw) as (err & e1 & -> & Ha1 & He1 & Hstart). cbn [bind].
  pose proof Ha1 as (Hw1 & _).
  destruct err as [er|].
  { eexists; split; [reflexivity|]. destruct He1. apply next_token_error; auto. }
  specialize (Hstart eq_refl).
  destruct (sl_l (e_p e1) =? 0) eqn:El1; b2p.
  { eexists; split; [reflexivity|]. apply next_token_error; cbn; auto. apply Hw1. }
  destruct Hstart as [|Hstart]; [contradiction|].
  (* delimiter *)
  unfold delimiter.
  destruct (tkTagTable_cases (e_p e1).[0]) as [Hu|[Hd Hob]];
    [rewrite rd_wfp by assumption; apply mem_range| |].
  2:{ destruct (negb (tag_eqb (tkTagTable (e_p e1).[0]) tagUnknown)) eqn:Et.
      2:{ destruct (tkTagTable (e_p e1).[0]); discriminate. }
      rewrite Et.
      destruct (popBytes_advanced e1 1 Hw1) as [Hc Hc']; [ulia|].
      eexists; split; [reflexivity|].
      apply next_token_plain.
      - eapply advanced_trans; eauto.
      - ulia.
      - destruct (tkTagTable (e_p e1).[0]); try discriminate; reflexivity.
      - intros E; rewrite E in Hd; discriminate.
      - split; [apply Hw1|]. cbn [tk_tag tk_pos].
        destruct (tkTagTable (e_p e1).[0]) eqn:E; try exact I; try discriminate.
        rewrite <- (Hob eq_refl). rewrite rd_wfp by assumption. f_equal. lia. }
  rewrite Hu. cbn [tag_eqb tag_index Z.eqb negb].
  (* double quoted *)
  destruct (doubleQuotedString_spec e1 Hw1) as (err & s & e2 & -> & Ha2 & He2 & Hs2).
  cbn [bind]. destruct err as [er|].
  { eexists; split; [reflexivity|]. destruct He2.
    apply next_token_error; auto. eapply advanced_trans; eauto. }
  destruct (Hs2 eq_refl) as [(Hnull & -> & Hq)|[-> Hlt]].
  2:{ cbn [sl_p is_NULL negb]. eexists; split; [reflexivity|].
      apply next_token_plain; try reflexivity; try discriminate.
      - eapply advanced_trans; eauto.
      - ulia.
      - split; [apply Hw1|exact I]. }
  rewrite Hnull. cbn [negb]. clear Ha2 He2 Hs2 Hnull s.
  (* single quoted *)
  destruct (singleQuotedString_spec e1 Hw1) as (err & s & e2 & -> & Ha2 & He2 & Hs2).
  cbn [bind]. destruct err as [er|].
  { eexists; split; [reflexivity|]. destruct He2.
    apply next_token_error; auto. eapply advanced_trans; eauto. }
  destruct (Hs2 eq_refl) as [(Hnull & -> & Hq')|[-> Hlt]].
  2:{ cbn [sl_p is_NULL negb]. eexists; split; [reflexivity|].
      apply next_token_plain; try reflexivity; try discriminate.
      - eapply advanced_trans; eauto.
      - ulia.
      - split; [apply Hw1|exact I]. }
  rewrite Hnull. cbn [negb]. clear Ha2 He2 Hs2 Hnull s.
  (* multiline *)
  destruct (multilineString_spec e1 Hw1) as (err & s & e2 & -> & Ha2 & He2 & Hs2).
  cbn [bind]. destruct err as [er|].
  { eexists; split; [reflexivity|]. destruct He2.
    apply next_token_error; auto. eapply advanced_trans; eauto. }
  destruct (Hs2 eq_refl) as [(Hnull & -> & Hq'')|(-> & Hlt & Hml)].
  2:{ cbn [sl_p is_NULL negb]. eexists; split; [reflexivity|].
      apply next_token_plain; try reflexivity; try discriminate.
      - eapply advanced_trans; eauto.
      - ulia.
      - split; [apply Hw1|exact Hml]. }
  rewrite Hnull. cbn [negb]. clear Ha2 He2 Hs2 Hnull s.
  (* quoteless *)
  destruct (quotelessString_spec e1 Hw1 Hstart Hu) as (err & s & e2 & -> & Ha2 & He2 & Hs2).
  cbn [bind]. destruct err as [er|].
  { eexists; split; [reflexivity|]. destruct He2.
    apply next_token_error; auto. eapply advanced_trans; eauto. }
  destruct (Hs2 eq_refl) as (l & -> & Hl & Hlt).
  cbn [sl_p is_NULL negb]. eexists; split; [reflexivity|].
  apply next_token_plain; try reflexivity; try discriminate.
  - eapply advanced_trans; eauto.
  - ulia.
  - split; [apply Hw1|]. cbn. eauto.
Qed.


(** C10. Called with a well-formed engine that is not in the error state,
    [nextToken] returns (neither the trailing [assert(false)] nor the end
    of the fuel is reached) and the current token has one of the tags of
    the tokenizer; in particular, where [nextToken] calls
    [quotelessString] (a token starts at e.p and is not a delimiter),
    [quotelessString] returns an error or a slice that is not NULL. *)
Theorem nextToken_sets_token : forall e,
  wfp e -> tk_tag (e_tk e) <> tagError ->
  (exists e', nextToken e = Ret e' /\ wfp e'
              /\ lexer_tag (tk_tag (e_tk e')) = true)
  /\ (token_start (e_p e) -> tkTagTable (e_p e).[0] = tagUnknown ->
      exists err s e', quotelessString e = Ret (err, s, e')
                       /\ (err = None -> is_NULL (sl_p s) = false)).
Proof.
  intros e Hw Hne. split.
  - destruct (nextToken_spec e Hw) as (e' & Hr & Hn).
    + unfold done. destruct (tk_tag (e_tk e)); try reflexivity. contradiction.
    + exists e'. split; [assumption|]. destruct Hn as (Hw' & _ & _ & _ & _ & Ht & _).
      auto.
  - intros Hs Hu.
    destruct (quotelessString_spec e Hw Hs Hu) as (err & s & e' & Hr & _ & _ & Hsl).
    exists err, s, e'. split; [assumption|].
    intros Hn. destruct (Hsl Hn) as (l & -> & _). reflexivity.
Qed.

(** [n] calls of an advance function in a row. *)
Fixpoint repeat_call {A : Type} (f : A -> outcome A) (n : nat) (a : A) : outcome A :=
  match n with
  | O => Ret a
  | S n' => x <- repeat_call f n' a ;; f x
  end.

(** C9. Once the current token is in the Error state, any number of calls
    of [nextToken] (resp. [numNextToken]) returns the engine unchanged:
    current token, position, remaining input and all. *)
Theorem advance_in_error_state_is_noop : forall (e : engine_t) (ne : numEngine_t) (n : nat),
  tk_tag (e_tk e) = tagError -> nt_tag (ne_tk ne) = tagError ->
  repeat_call nextToken n e = Ret e /\ repeat_call numNextToken n ne = Ret ne.
Proof.
  intros e ne n He Hne.
  induction n as [|n [IH1 IH2]]; [split; reflexivity|].
  cbn [repeat_call]. rewrite IH1, IH2. cbn [bind].
  unfold nextToken, numNextToken. rewrite He, Hne. split; reflexivity.
Qed.


(** ** The literal values *)

(** The spellings of a keyword that [isLiteralValue] tests for: the first
    letter in either case, followed by the other letters all in lower
    case or all in upper case. *)
Definition upper (a : ascii) : ascii := ascii_of_nat (nat_of_ascii a - 32).

Fixpoint upper_all (w : string) : string :=
  match w with
  | EmptyString => EmptyString
  | String c r => String (upper c) (upper_all r)
  end.

Definition spellings (w : string) : list string :=
  match w with
  | EmptyString => []
  | String c r =>
      [String c r; String (upper c) r; String c (upper_all r); String (upper c) (upper_all r)]
  end.

(** The words of the tests of [isLiteralValue], with the keyword returned. *)
Definition literal_words : list (string * string) :=
  [("false", "false"); ("null", "null"); ("true", "true"); ("yes", "true");
   ("off", "false"); ("on", "true"); ("no", "false")]%string.

Definition accepted_spellings : list (string * string) :=
  Eval vm_compute in
  flat_map (fun wk => map (fun s => (s, snd wk)) (spellings (fst wk))) literal_words.

(** The bytes of [w] stand at [p[i]], [p[i+1]], ... *)
Fixpoint match_at (p : slice_t) (i : Z) (w : list byte) : bool :=
  match w with
  | [] => true
  | b :: w' => (p.[i] =? byteZ b) && match_at p (i + 1) w'
  end.

(** The slice [p] begins with the string [w]. *)
Definition starts_with (p : slice_t) (w : string) : bool :=
  (Z.of_nat (List.length (bytes w)) <=? sl_l p) && match_at p 0 (bytes w).

Lemma accepted_intro : forall (p : slice_t) (k : string),
  existsb (fun wk => String.eqb (snd wk) k && starts_with p (fst wk)) accepted_spellings = true ->
  exists w, In (w, k) accepted_spellings /\ starts_with p w = true.
Proof.
  intros p k H. apply existsb_exists in H. destruct H as [[w k'] [Hin H]].
  apply andb_prop in H. destruct H as [Hk Hs]. apply String.eqb_eq in Hk.
  cbn [fst snd] in *. subst k'. exists w. split; assumption.
Qed.

Lemma isLiteralValue_sound : forall (p : slice_t) (k : string),
  isLiteralValue p = Some k ->
  sl_l p <= 5 /\ exists w, In (w, k) accepted_spellings /\ starts_with p w = true.
Proof.
  intros [pp l] k. unfold isLiteralValue, eqc. cbn [sl_p sl_l].
  intros H. split.
  - destruct (l =? 5) eqn:?; [b2p; lia|]. destruct (l =? 4) eqn:?; [b2p; lia|].
    destruct (l =? 3) eqn:?; [b2p; lia|]. destruct (l =? 2) eqn:?; [b2p; lia|].
    discriminate.
  - apply accepted_intro. unfold starts_with.
    cbn -[Z.eqb Z.leb String.eqb]. revert H. unfold ch. cbn -[Z.eqb Z.leb String.eqb].
    generalize (rd pp 0), (rd pp 1), (rd pp 2), (rd pp 3), (rd pp 4).
    intros c0 c1 c2 c3 c4 H.
    repeat match type of H with
           | context [if ?c then _ else _] => destruct c eqn:?
           end;
      try discriminate; injection H as <-;
      repeat (b2p; match goal with
                   | Ho : (_ || _) = true |- _ => apply orb_prop in Ho; destruct Ho
                   end);
      b2p; subst; vm_compute; reflexivity.
Qed.

Lemma isLiteralValue_complete : forall (p : slice_t) (w k : string),
  sl_l p <= 5 -> In (w, k) accepted_spellings -> starts_with p w = true ->
  isLiteralValue p = Some k.
Proof.
  intros [pp l] w k Hl Hin Hs. unfold isLiteralValue, eqc, ch. cbn [sl_p sl_l] in *.
  unfold starts_with in Hs. cbn [sl_p sl_l] in Hs.
  cbn -[Z.eqb Z.leb String.eqb].
  unfold accepted_spellings in Hin. cbn [In] in Hin.
  repeat (destruct Hin as [Hin | Hin];
          [injection Hin as <- <-; cbn -[Z.eqb Z.leb] in Hs; b2p;
           repeat match goal with Hc : rd pp _ = _ |- _ => rewrite Hc; clear Hc end;
           assert (Hc : l = 2 \/ l = 3 \/ l = 4 \/ l = 5) by lia;
           destruct Hc as [-> | [-> | [-> | ->]]]; try lia; vm_compute; reflexivity|]).
  destruct Hin.
Qed.


(** ** The numeric tokenizer *)

(** The parsers of literals return at most the length of the slice. *)
Lemma parseDigits_spec isDigit v :
  1 <= sl_l v ->
  exists n, iter (fuel_of v) (parseDigits_body isDigit v) 1 = Ret n /\ n <= sl_l v.
Proof.
  intros Hl.
  apply (iter_spec (parseDigits_body isDigit v)
           (fun p => 1 <= p <= sl_l v) (fun n => n <= sl_l v) (fun p => sl_l v - p)).
  - intros p Hp. split; [lia|]. unfold parseDigits_body, continue, break.
    destruct (p <? sl_l v) eqn:E; b2p; [|lia].
    destruct (v.[p] =? ch "_") eqn:Eu; cbv beta iota zeta; cbn [andb].
    + destruct (p + 1 =? sl_l v) eqn:E2; b2p; [lia|].
      repeat dest_if; cbv beta iota; lia.
    + repeat dest_if; cbv beta iota; lia.
  - lia.
  - unfold fuel_of. lia.
Qed.

Lemma parseBinDigits_spec v :
  1 <= sl_l v -> exists n, parseBinDigits v = Ret n /\ n <= sl_l v.
Proof.
  intros Hl. unfold parseBinDigits.
  destruct (negb _); [exists 0; split; [reflexivity|lia]|].
  apply parseDigits_spec; assumption.
Qed.

Lemma parseOctDigits_spec v :
  0 <= sl_l v -> exists n, parseOctDigits v = Ret n /\ n <= sl_l v.
Proof.
  intros Hl. unfold parseOctDigits.
  destruct (sl_l v =? 0) eqn:E; b2p; cbn [orb]; [exists 0; split; [reflexivity|lia]|].
  destruct (negb _); [exists 0; split; [reflexivity|lia]|].
  apply parseDigits_spec; lia.
Qed.

Lemma parseIntDigits_spec v :
  0 <= sl_l v -> exists n, parseIntDigits v = Ret n /\ n <= sl_l v.
Proof.
  intros Hl. unfold parseIntDigits.
  destruct (sl_l v =? 0) eqn:E; b2p; cbn [orb]; [exists 0; split; [reflexivity|lia]|].
  destruct (negb _); [exists 0; split; [reflexivity|lia]|].
  apply parseDigits_spec; lia.
Qed.

Lemma parseHexDigits_spec v :
  0 <= sl_l v -> exists n, parseHexDigits v = Ret n /\ n <= sl_l v.
Proof.
  intros Hl. unfold parseHexDigits.
  destruct (sl_l v =? 0) eqn:E; b2p; cbn [orb]; [exists 0; split; [reflexivity|lia]|].
  destruct (negb _); [exists 0; split; [reflexivity|lia]|].
  apply parseDigits_spec; lia.
Qed.

Lemma skipHeader_spec n v n' v' :
  0 <= n -> skipHeaderAndOptionalUnderscore n v = (n', v') -> 0 <= n' ->
  0 < sl_l v' /\ sl_l v' = sl_l v - n'.
Proof.
  intros Hn H Hn'. unfold skipHeaderAndOptionalUnderscore in H.
  destruct (sl_l v <=? n) eqn:E; b2p; [injection H as <- <-; lia|].
  destruct (_ =? ch "_").
  - destruct (sl_l (adv (adv v n) 1) =? 0) eqn:E2; b2p;
      injection H as <- <-; cbn [adv sl_l] in *; lia.
  - injection H as <- <-. cbn [adv sl_l]. lia.
Qed.

(** A literal made of a header and digits. *)
Lemma headed_literal_spec (parseDigits : slice_t -> outcome Z) k v :
  (forall w, 1 <= sl_l w -> exists n, parseDigits w = Ret n /\ n <= sl_l w) ->
  0 <= k ->
  exists n,
    (let '(n, v) := skipHeaderAndOptionalUnderscore k v in
     if 0 <=? n then
       p <- parseDigits v ;;
       if 0 <? p then Ret (n + p) else Ret (-1)
     else Ret (-1)) = Ret n /\ n <= Z.max (-1) (sl_l v).
Proof.
  intros Hd Hk.
  destruct (skipHeaderAndOptionalUnderscore k v) as [n' v'] eqn:Hs.
  destruct (0 <=? n') eqn:E; b2p; [|exists (-1); split; [reflexivity|lia]].
  destruct (skipHeader_spec _ _ _ _ Hk Hs E) as [H1 H2].
  destruct (Hd v') as (p & Hp & Hple); [lia|]. rewrite Hp. cbn [bind].
  destruct (0 <? p); eexists; (split; [reflexivity|lia]).
Qed.

Lemma parseBinLiteral_spec v :
  0 <= sl_l v -> exists n, parseBinLiteral v = Ret n /\ n <= sl_l v.
Proof.
  intros Hl. unfold parseBinLiteral.
  destruct (_ || _); [exists 0; split; [reflexivity|lia]|].
  destruct (headed_literal_spec parseBinDigits 2 v parseBinDigits_spec) as (n & Hn & Hle);
    [lia|]. exists n. split; [exact Hn|lia].
Qed.

Lemma parseHexLiteral_spec v :
  0 <= sl_l v -> exists n, parseHexLiteral v = Ret n /\ n <= sl_l v.
Proof.
  intros Hl. unfold parseHexLiteral.
  destruct (_ || _); [exists 0; split; [reflexivity|lia]|].
  destruct (headed_literal_spec parseHexDigits 2 v) as (n & Hn & Hle);
    [intros; apply parseHexDigits_spec; lia|lia|].
  exists n. split; [exact Hn|lia].
Qed.

Lemma parseOctLiteral_spec v :
  0 <= sl_l v -> exists n, parseOctLiteral v = Ret n /\ n <= sl_l v.
Proof.
  intros Hl. unfold parseOctLiteral.
  destruct (_ || _); [exists 0; split; [reflexivity|lia]|].
  destruct (_ && _).
  - destruct (headed_literal_spec parseOctDigits 2 v) as (n & Hn & Hle);
      [intros; apply parseOctDigits_spec; lia|lia|].
    exists n. split; [exact Hn|lia].
  - destruct (_ || _); [exists 0; split; [reflexivity|lia]|].
    destruct (headed_literal_spec parseOctDigits 1 v) as (n & Hn & Hle);
      [intros; apply parseOctDigits_spec; lia|lia|].
    exists n. split; [exact Hn|lia].
Qed.

Lemma parseIntLiteral_spec v :
  0 < sl_l v -> exists n, parseIntLiteral v = Ret n /\ n <= sl_l v.
Proof.
  intros Hl. unfold parseIntLiteral.
  destruct (inRange _ _ _); [apply parseIntDigits_spec; lia|].
  destruct (negb _); [exists 0; split; [reflexivity|lia]|].
  destruct (_ && _); eexists; (split; [reflexivity|lia]).
Qed.

Lemma parseExponent_spec v :
  0 <= sl_l v -> exists n, parseExponent v = Ret n /\ n <= sl_l v.
Proof.
  intros Hl. unfold parseExponent.
  destruct (sl_l v =? 0) eqn:E0; b2p; cbn [orb]; [exists 0; split; [reflexivity|lia]|].
  destruct (negb _); [exists 0; split; [reflexivity|lia]|].
  destruct (sl_l (adv v 1) =? 0) eqn:E1; b2p; [exists (-1); split; [reflexivity|lia]|].
  cbn [adv sl_l] in E1.
  destruct (_ || _); cbn [andb].
  - destruct (sl_l (adv (adv v 1) 1) =? 0) eqn:E2; b2p; [exists (-1); split; [reflexivity|lia]|].
    destruct (parseIntDigits_spec (adv (adv v 1) 1)) as (p & Hp & Hle);
      [cbn [adv sl_l]; lia|].
    rewrite Hp. cbn [bind]. cbn [adv sl_l] in Hle.
    destruct (0 <? p); eexists; (split; [reflexivity|lia]).
  - destruct (parseIntDigits_spec (adv v 1)) as (p & Hp & Hle); [cbn [adv sl_l]; lia|].
    rewrite Hp. cbn [bind]. cbn [adv sl_l] in Hle.
    destruct (0 <? p); eexists; (split; [reflexivity|lia]).
Qed.


Ltac ret_le := eexists; (split; [reflexivity|cbn [adv sl_l] in *; lia]).

Lemma parseDecLiteral_spec v :
  0 <= sl_l v -> exists n, parseDecLiteral v = Ret n /\ n <= sl_l v.
Proof.
  intros Hl. unfold parseDecLiteral.
  destruct (parseIntDigits_spec v Hl) as (p & Hp & Hple). rewrite Hp. cbn [bind].
  destruct (p <? 0) eqn:E0; b2p; [ret_le|].
  destruct (p =? 0) eqn:E1; b2p.
  - destruct (negb _ || (sl_l v <? 2)) eqn:E2; [ret_le|]. b2p.
    destruct (parseIntDigits_spec (adv v 1)) as (p1 & Hp1 & Hp1le); [cbn [adv sl_l]; lia|].
    rewrite Hp1. cbn [bind].
    destruct (p1 <? 0) eqn:E3; b2p; [ret_le|].
    destruct (p1 =? 0) eqn:E4; b2p; [destruct (_ && _); ret_le|].
    destruct (parseExponent_spec (adv (adv v 1) p1)) as (q & Hq & Hqle);
      [cbn [adv sl_l] in *; lia|].
    rewrite Hq. cbn [bind]. destruct (q <? 0); ret_le.
  - destruct (parseExponent_spec (adv v p)) as (q & Hq & Hqle); [cbn [adv sl_l]; lia|].
    rewrite Hq. cbn [bind].
    destruct (q <? 0) eqn:E2; b2p; [ret_le|].
    destruct (0 <? q) eqn:E3; b2p; [ret_le|].
    destruct (sl_l (adv v p) =? 0) eqn:E4; b2p; [ret_le|].
    destruct (negb _); [ret_le|].
    destruct (parseIntDigits_spec (adv (adv v p) 1)) as (q1 & Hq1 & Hq1le);
      [cbn [adv sl_l] in *; lia|].
    rewrite Hq1. cbn [bind].
    destruct (0 <? q1) eqn:E5; b2p.
    + destruct (q1 <? 0) eqn:E6; b2p; [lia|].
      destruct (parseExponent_spec (adv (adv (adv v p) 1) q1)) as (p2 & Hp2 & Hp2le);
        [cbn [adv sl_l] in *; lia|].
      rewrite Hp2. cbn [bind].
      destruct (p2 <? 0); [ret_le|]. destruct (_ && _); ret_le.
    + destruct (q1 <? 0) eqn:E6; b2p; [ret_le|].
      destruct (parseExponent_spec (adv (adv v p) 1)) as (p2 & Hp2 & Hp2le);
        [cbn [adv sl_l] in *; lia|].
      rewrite Hp2. cbn [bind].
      destruct (p2 <? 0); [ret_le|]. destruct (_ && _); ret_le.
Qed.

(** The state of the numeric tokenizer. *)
Definition nwf (e : numEngine_t) : Prop := 0 <= sl_l (ne_p e) /\ 0 <= ne_pos e.

(** The messages of the numeric evaluator. *)
Definition numeric (m : errmsg) : bool :=
  match m with
  | ErrInvalidNumericExpression | ErrInvalidBinaryNumber | ErrInvalidHexadecimalNumber
  | ErrInvalidOctalNumber | ErrInvalidIntegerNumber | ErrInvalidDecimalNumber
  | ErrNumberOverflow | ErrUnopenedParenthesis | ErrDivisionByZero
  | ErrUnclosedParenthesis | ErrOperandMustBeInteger | ErrInvalidISODateTime => true
  | _ => false
  end.

(** A token of the numeric tokenizer: an operator, a value, or an error
    with its message. *)
Definition ntk_ok (t : numToken_t) : Prop :=
  0 <= nt_pos t
  /\ (nt_tag t = tagError ->
      exists m, nt_val t = VE m /\ (numeric m = true \/ m = ErrEndOfInput)).

(** What bounds the work left: nothing once an error is met. *)
Definition nmu (e : numEngine_t) : Z :=
  if numDone e then 0 else sl_l (ne_p e) + 1.

(** One step of the numeric tokenizer. *)
Definition num_next (e e' : numEngine_t) : Prop :=
  nwf e' /\ ntk_ok (ne_tk e') /\ nmu e' <= nmu e /\ (numDone e = false -> nmu e' < nmu e)
  /\ ne_in e' = ne_in e.

Lemma ntk_ok_error pos m :
  0 <= pos -> numeric m = true \/ m = ErrEndOfInput -> ntk_ok (numError pos m).
Proof.
  intros Hp Hm. split; [exact Hp|]. intros _. exists m. split; [reflexivity|exact Hm].
Qed.

Lemma num_next_error e e0 m :
  nwf e0 -> nwf e -> numDone e0 = false -> ne_in e = ne_in e0 ->
  numeric m = true \/ m = ErrEndOfInput ->
  num_next e0 (nset_tk e (numError (ne_pos e) m)).
Proof.
  intros Hw0 Hw Hd Hin Hm. unfold num_next.
  split; [exact Hw|]. split; [apply ntk_ok_error; [apply Hw|exact Hm]|].
  unfold nmu, nwf in *. rewrite Hd. cbn. split; [lia|]. split; [lia|exact Hin].
Qed.

(** A literal of [n] bytes popped, with its value. *)
Lemma num_next_value e tag v n :
  nwf e -> numDone e = false -> 0 < n <= sl_l (ne_p e) ->
  tag <> tagError ->
  exists e', (e1 <- numPopBytes (nset_tk e (mkNumToken tag (ne_pos e) v)) n ;;
              Ret (true, e1)) = Ret (true, e')
             /\ num_next e e' /\ ne_tk e' = mkNumToken tag (ne_pos e) v.
Proof.
  intros Hw Hd Hn Htag. unfold numPopBytes. cbn [nset_tk ne_p].
  destruct (n <=? sl_l (ne_p e)) eqn:E; b2p; [|lia]. cbn [assert bind].
  eexists. split; [reflexivity|]. split; [|reflexivity].
  unfold num_next, ntk_ok, nmu, nwf, numDone in *. cbn.
  destruct (tag_eqb tag tagError) eqn:Et.
  - destruct tag; try discriminate; congruence.
  - rewrite Hd. split; [lia|]. split; [split; [lia|congruence]|].
    split; [lia|]. split; [lia|reflexivity].
Qed.


(** A function of the numeric tokenizer that tries one kind of token:
    false with the engine unchanged, or true with the token set. *)
Definition tries (r : outcome (bool * numEngine_t)) (e : numEngine_t) : Prop :=
  exists ok e', r = Ret (ok, e') /\ (ok = false -> e' = e)
                /\ (ok = true -> num_next e e' /\ val_is_EndOfInput (ne_tk e') = false).

Lemma tries_false e : tries (Ret (false, e)) e.
Proof. exists false, e. split; [reflexivity|]. split; [reflexivity|discriminate]. Qed.

Lemma tries_error e m :
  nwf e -> numDone e = false -> numeric m = true ->
  tries (Ret (true, nset_tk e (numError (ne_pos e) m))) e.
Proof.
  intros Hw Hd Hm. eexists true, _. split; [reflexivity|]. split; [discriminate|].
  intros _. split; [apply num_next_error; auto|]. destruct m; try discriminate; reflexivity.
Qed.

Lemma tries_value e tag v n :
  nwf e -> numDone e = false -> 0 < n <= sl_l (ne_p e) -> tag <> tagError ->
  val_is_EndOfInput (mkNumToken tag (ne_pos e) v) = false ->
  tries (e1 <- numPopBytes (nset_tk e (mkNumToken tag (ne_pos e) v)) n ;; Ret (true, e1)) e.
Proof.
  intros Hw Hd Hn Ht Hv.
  destruct (num_next_value e tag v n Hw Hd Hn Ht) as (e' & Hr & Hnx & Hval).
  exists true, e'. split; [exact Hr|]. split; [discriminate|]. intros _.
  split; [exact Hnx|]. rewrite Hval. exact Hv.
Qed.

(** The shape shared by [nextBinValue], [nextOctValue], [nextIntValue] and
    [nextHexValue]. *)
Lemma tries_integer (parse : slice_t -> outcome Z) (decode : slice_t -> Z) m e :
  nwf e -> numDone e = false -> numeric m = true ->
  (exists n, parse (ne_p e) = Ret n /\ n <= sl_l (ne_p e)) ->
  tries (n <- parse (ne_p e) ;;
         if n =? 0 then Ret (false, e)
         else if n <? 0 then Ret (true, nset_tk e (numError (ne_pos e) m))
         else
           let val := decode (mkSlice (sl_p (ne_p e)) n) in
           if val <? 0 then Ret (true, nset_tk e (numError (ne_pos e) ErrNumberOverflow))
           else
             let e := nset_tk e (mkNumToken tagIntegerVal (ne_pos e) (VI val)) in
             e <- numPopBytes e n ;;
             Ret (true, e)) e.
Proof.
  intros Hw Hd Hm (n & Hn & Hle). rewrite Hn. cbn [bind].
  destruct (n =? 0) eqn:E0; b2p; [apply tries_false|].
  destruct (n <? 0) eqn:E1; b2p; [apply tries_error; assumption|].
  cbv zeta. destruct (_ <? 0); [apply tries_error; auto|].
  apply tries_value; auto; [lia|discriminate].
Qed.

Lemma nextBinValue_spec e :
  nwf e -> numDone e = false -> tries (nextBinValue e) e.
Proof.
  intros Hw Hd. apply tries_integer; auto. apply parseBinLiteral_spec, Hw.
Qed.

Lemma nextOctValue_spec e :
  nwf e -> numDone e = false -> tries (nextOctValue e) e.
Proof.
  intros Hw Hd. apply tries_integer; auto. apply parseOctLiteral_spec, Hw.
Qed.

Lemma nextHexValue_spec e :
  nwf e -> numDone e = false -> tries (nextHexValue e) e.
Proof.
  intros Hw Hd. apply tries_integer; auto. apply parseHexLiteral_spec, Hw.
Qed.

Lemma nextIntValue_spec e :
  nwf e -> numDone e = false -> 0 < sl_l (ne_p e) -> tries (nextIntValue e) e.
Proof.
  intros Hw Hd Hl. apply tries_integer; auto. apply parseIntLiteral_spec, Hl.
Qed.

Lemma nextDecValue_spec e :
  nwf e -> numDone e = false -> tries (nextDecValue e) e.
Proof.
  intros Hw Hd. unfold nextDecValue.
  destruct (parseDecLiteral_spec (ne_p e)) as (n & Hn & Hle); [apply Hw|].
  rewrite Hn. cbn [bind].
  destruct (n =? 0) eqn:E0; b2p; [apply tries_false|].
  destruct (n <? 0) eqn:E1; b2p; [apply tries_error; auto|].
  destruct (decodeDecLiteral _ _) as [val errno].
  destruct (d_ltb val d_zero).
  - eexists true, _. split; [reflexivity|]. split; [discriminate|]. intros _.
    split; [apply (num_next_error (nset_errno e errno) e); auto|reflexivity].
  - destruct (num_next_value (nset_errno e errno) tagDecimalVal (VF val) n)
      as (e' & Hr & Hnx & Hval); auto; [cbn; lia|discriminate|].
    exists true, e'. split; [exact Hr|]. split; [discriminate|]. intros _.
    split; [exact Hnx|]. rewrite Hval. reflexivity.
Qed.

Lemma nextISODateTimeValue_spec e :
  nwf e -> numDone e = false -> tries (nextISODateTimeValue e) e.
Proof.
  intros Hw Hd. unfold nextISODateTimeValue.
  destruct (parseISODateTimeLiteral_spec (ne_p e)) as (n & Hn & Hle); [apply Hw|].
  rewrite Hn. cbn [bind].
  destruct (n =? 0) eqn:E0; b2p; [apply tries_false|].
  destruct (n <? 0) eqn:E1; b2p; [apply tries_error; auto|].
  cbv zeta. destruct (d_ltb _ _); [apply tries_error; auto|].
  apply tries_value; auto; [lia|discriminate].
Qed.

Lemma nextOperator_spec e :
  nwf e -> numDone e = false -> 0 < sl_l (ne_p e) -> tries (nextOperator e) e.
Proof.
  intros Hw Hd Hl. unfold nextOperator. cbv zeta.
  destruct (tag_eqb _ tagUnknown) eqn:E; [apply tries_false|].
  apply tries_value; auto; [lia|].
  intros Heq. rewrite Heq in E.
  assert (Hx : forall c, 0 <= c < 256 -> negb (tag_eqb (tkOpTable c) tagError) = true).
  { apply byte_cases. reflexivity. }
  generalize Heq. 
  destruct (Z_lt_dec (ne_p e).[0] 0) as [Hneg|Hpos].
  - unfold tkOpTable, index. destruct (_ <? 0) eqn:E2; b2p; [discriminate|lia].
  - destruct (Z_lt_dec (ne_p e).[0] 256) as [Hlt|Hge].
    + specialize (Hx (ne_p e).[0]). rewrite Heq in Hx. intros _.
      assert (negb (tag_eqb tagError tagError) = true) by (apply Hx; lia). discriminate.
    + unfold tkOpTable, index. destruct (_ <? 0) eqn:E2; b2p; [discriminate|].
      rewrite nth_overflow; [discriminate|]. cbn [List.length]. lia.
Qed.



Lemma numSkipWhitespace_spec e :
  nwf e ->
  exists s, iter (fuel_of (ne_p e)) numSkipWhitespace_body e = Ret s
    /\ nwf s /\ ne_tk s = ne_tk e /\ ne_in s = ne_in e
    /\ sl_l (ne_p s) <= sl_l (ne_p e).
Proof.
  intros Hw.
  apply (iter_spec numSkipWhitespace_body
           (fun s => nwf s /\ ne_tk s = ne_tk e /\ ne_in s = ne_in e
                     /\ sl_l (ne_p s) <= sl_l (ne_p e))
           (fun s => nwf s /\ ne_tk s = ne_tk e /\ ne_in s = ne_in e
                     /\ sl_l (ne_p s) <= sl_l (ne_p e))
           (fun s => sl_l (ne_p s))).
  - intros s (Hs & Htk & Hin & Hle). split; [apply Hs|].
    unfold numSkipWhitespace_body, continue, break.
    destruct (0 <? sl_l (ne_p s)) eqn:E; b2p; [|auto].
    pose proof (whitespace_range (ne_p s) (proj1 Hs)) as Hr.
    destruct (whitespace (ne_p s) =? 0) eqn:E0; b2p; [auto|].
    unfold numPopBytes.
    destruct (whitespace (ne_p s) <=? sl_l (ne_p s)) eqn:E1; b2p; [|lia].
    cbn [assert bind]. unfold nwf in *. cbn [ne_p ne_pos ne_tk ne_in adv sl_l].
    repeat split; auto; lia.
  - repeat split; auto; try apply Hw; lia.
  - unfold fuel_of. destruct Hw. lia.
Qed.

Lemma num_next_refl e : nwf e -> ntk_ok (ne_tk e) -> numDone e = true -> num_next e e.
Proof.
  intros Hw Ht Hd. unfold num_next. repeat split; try apply Hw; try apply Ht; try lia.
  rewrite Hd. discriminate.
Qed.

(** A step of the numeric tokenizer that starts from [s], which [e] has
    lead to without reading a token. *)
Lemma num_next_from e s e' :
  nwf e -> numDone e = false -> ne_tk s = ne_tk e -> ne_in s = ne_in e ->
  sl_l (ne_p s) <= sl_l (ne_p e) -> num_next s e' -> num_next e e'.
Proof.
  intros Hw Hd Htk Hin Hle (Hw' & Ht' & Hmu & Hlt & Hin').
  assert (Hds : numDone s = false) by (unfold numDone in *; rewrite Htk; exact Hd).
  specialize (Hlt Hds). unfold num_next, nmu in *. rewrite Hd. rewrite Hds in *.
  repeat split; try apply Hw'; try apply Ht'; try lia. congruence.
Qed.

(** One of the attempts of [numNextToken]. *)
Ltac try_token H :=
  let e1 := fresh "e1" in
  let Hr := fresh "Hr" in let Hf := fresh "Hf" in let Ht := fresh "Ht" in
  destruct H as ([|] & e1 & Hr & Hf & Ht); rewrite Hr; cbn [bind];
  [destruct (Ht eq_refl); exists e1; split; [reflexivity|split; assumption]
  |rewrite (Hf eq_refl); clear e1 Hr Hf Ht].

Lemma numNextToken_spec e :
  nwf e -> ntk_ok (ne_tk e) ->
  exists e', numNextToken e = Ret e' /\ num_next e e'
    /\ (numDone e = true -> e' = e)
    /\ (numDone e = false -> val_is_EndOfInput (ne_tk e') = true ->
        exists s, iter (fuel_of (ne_p e)) numSkipWhitespace_body e = Ret s
                  /\ sl_l (ne_p s) = 0).
Proof.
  intros Hw Ht. unfold numNextToken.
  destruct (tag_eqb (nt_tag (ne_tk e)) tagError) eqn:Hd.
  { exists e. split; [reflexivity|]. split; [apply num_next_refl; assumption|].
    split; [reflexivity|]. unfold numDone. rewrite Hd. discriminate. }
  destruct (numSkipWhitespace_spec e Hw) as (s & Hs & Hws & Htk & Hin & Hle).
  rewrite Hs. cbn [bind].
  assert (Hds : numDone s = false) by (unfold numDone; rewrite Htk; exact Hd).
  assert (Hfin : forall r, (exists e', r = Ret e' /\ num_next s e'
                                      /\ val_is_EndOfInput (ne_tk e') = false) ->
    exists e', r = Ret e' /\ num_next e e' /\ (numDone e = true -> e' = e)
      /\ (numDone e = false -> val_is_EndOfInput (ne_tk e') = true ->
          exists s0, Ret s = Ret s0 /\ sl_l (ne_p s0) = 0)).
  { intros r (e' & -> & Hnx & Hv). exists e'. split; [reflexivity|].
    split; [eapply num_next_from; eauto|].
    split; [unfold numDone; rewrite Hd; discriminate|]. intros _ Hv'. congruence. }
  destruct (sl_l (ne_p s) =? 0) eqn:E0; b2p.
  { eexists. split; [reflexivity|].
    split; [eapply num_next_from; eauto; apply num_next_error; auto|].
    split; [unfold numDone; rewrite Hd; discriminate|].
    intros _ _. exists s. split; [reflexivity|exact E0]. }
  assert (Hl : 0 < sl_l (ne_p s)) by (destruct Hws; lia).
  apply Hfin.
  try_token (nextOperator_spec s Hws Hds Hl).
  try_token (nextISODateTimeValue_spec s Hws Hds).
  try_token (nextBinValue_spec s Hws Hds).
  try_token (nextHexValue_spec s Hws Hds).
  try_token (nextDecValue_spec s Hws Hds).
  try_token (nextOctValue_spec s Hws Hds).
  try_token (nextIntValue_spec s Hws Hds Hl).
  eexists. split; [reflexivity|]. split; [apply num_next_error; auto|reflexivity].
Qed.


(** ** Where a division comes from *)

(** The operators whose handlers divide. *)
Definition is_div (t : tokenTag_t) : bool :=
  match t with
  | tagDivision | tagModulo => true
  | _ => false
  end.

(** The input holds a slash or a percent sign. *)
Definition has_div : Prop := exists i, mem i = ch "/" \/ mem i = ch "%".

(** The numeric tokenizer reads the input, and its token is a division or
    a modulo only if the input holds the operator. *)
Definition from_input (e : numEngine_t) : Prop :=
  (exists off, sl_p (ne_p e) = Inp off)
  /\ (is_div (nt_tag (ne_tk e)) = true -> has_div).

Lemma tkOpTable_div c : is_div (tkOpTable c) = true -> c = ch "/" \/ c = ch "%".
Proof.
  intros H.
  destruct (Z_lt_dec c 0) as [Hneg|Hpos].
  { exfalso. unfold tkOpTable, index in H. destruct (c <? 0) eqn:E; b2p; [discriminate|lia]. }
  destruct (Z_lt_dec c 256) as [Hlt|Hge].
  - assert (Hx : forall c, 0 <= c < 256 ->
              (negb (is_div (tkOpTable c)) || (c =? ch "/") || (c =? ch "%")) = true)
      by (apply byte_cases; reflexivity).
    specialize (Hx c (conj (proj1 (Z.nlt_ge _ _) Hpos) Hlt)). rewrite H in Hx.
    cbn [negb orb] in Hx. apply orb_prop in Hx.
    destruct Hx as [Hx|Hx]; apply Z.eqb_eq in Hx; auto.
  - exfalso. unfold tkOpTable, index in H. destruct (c <? 0); [discriminate|].
    rewrite nth_overflow in H; [discriminate|]. cbn [List.length]. lia.
Qed.

Lemma from_input_error e m :
  from_input e -> from_input (nset_tk e (numError (ne_pos e) m)).
Proof. intros [Hp _]. split; [exact Hp|discriminate]. Qed.

Lemma from_input_pop e n e1 :
  from_input e -> numPopBytes e n = Ret e1 -> from_input e1.
Proof.
  intros [[off Hp] Ht] H. unfold numPopBytes, assert in H.
  destruct (_ <=? _); [|discriminate]. injection H as <-.
  split; [|exact Ht]. cbn. rewrite Hp. eexists. reflexivity.
Qed.

(** The functions that try a value set a value or an error. *)
Ltac from_input_walk H :=
  repeat first
    [ match type of H with
      | Ret (_, _) = Ret (_, _) => injection H as <- <-
      end
    | match type of H with
      | bind (numPopBytes ?x ?n) _ = _ =>
          let Hp := fresh "Hp" in
          destruct (numPopBytes x n) eqn:Hp; cbn [bind] in H; try discriminate H
      | bind ?m _ = _ => destruct m; cbn [bind] in H; try discriminate H
      | (if ?c then _ else _) = _ => destruct c
      | match ?x with (_, _) => _ end = _ => destruct x; cbv zeta in H
      end ].

Ltac from_input_leaf Hf :=
  first [ exact Hf
        | split; [exact (proj1 Hf)|discriminate]
        | match goal with
          | Hp : numPopBytes _ _ = Ret _ |- _ =>
              apply from_input_pop in Hp; [exact Hp|];
              split; [exact (proj1 Hf)|discriminate]
          end ].

Lemma nextDecValue_from_input e ok e1 :
  nextDecValue e = Ret (ok, e1) -> from_input e -> from_input e1.
Proof.
  unfold nextDecValue. intros H Hf. cbv zeta in H. from_input_walk H; from_input_leaf Hf.
Qed.

Lemma nextISODateTimeValue_from_input e ok e1 :
  nextISODateTimeValue e = Ret (ok, e1) -> from_input e -> from_input e1.
Proof.
  unfold nextISODateTimeValue. intros H Hf. cbv zeta in H.
  from_input_walk H; from_input_leaf Hf.
Qed.

Lemma nextBinValue_from_input e ok e1 :
  nextBinValue e = Ret (ok, e1) -> from_input e -> from_input e1.
Proof.
  unfold nextBinValue. intros H Hf. cbv zeta in H. from_input_walk H; from_input_leaf Hf.
Qed.

Lemma nextOctValue_from_input e ok e1 :
  nextOctValue e = Ret (ok, e1) -> from_input e -> from_input e1.
Proof.
  unfold nextOctValue. intros H Hf. cbv zeta in H. from_input_walk H; from_input_leaf Hf.
Qed.

Lemma nextIntValue_from_input e ok e1 :
  nextIntValue e = Ret (ok, e1) -> from_input e -> from_input e1.
Proof.
  unfold nextIntValue. intros H Hf. cbv zeta in H. from_input_walk H; from_input_leaf Hf.
Qed.

Lemma nextHexValue_from_input e ok e1 :
  nextHexValue e = Ret (ok, e1) -> from_input e -> from_input e1.
Proof.
  unfold nextHexValue. intros H Hf. cbv zeta in H. from_input_walk H; from_input_leaf Hf.
Qed.

Lemma nextOperator_from_input e ok e1 :
  nextOperator e = Ret (ok, e1) -> from_input e -> from_input e1.
Proof.
  unfold nextOperator. cbv zeta. intros H Hf.
  destruct (tag_eqb _ tagUnknown); [injection H as <- <-; exact Hf|].
  destruct (numPopBytes _ 1) as [e2| | |] eqn:Hp; try discriminate. cbn [bind] in H.
  injection H as <- <-. apply from_input_pop in Hp; [exact Hp|].
  destruct Hf as [[off Hp'] _]. split; [exists off; exact Hp'|]. cbn [nset_tk ne_tk nt_tag].
  intros Hd. apply tkOpTable_div in Hd. rewrite Hp' in Hd. cbn [rd] in Hd.
  exists (off + 0). exact Hd.
Qed.

Lemma numSkipWhitespace_from_input fuel e s :
  iter fuel numSkipWhitespace_body e = Ret s -> from_input e -> from_input s.
Proof.
  intros H Hf.
  apply (iter_post _ from_input from_input) in H; [exact H| |exact Hf].
  intros x Hx. unfold numSkipWhitespace_body, continue, break.
  destruct (0 <? sl_l (ne_p x)); [|exact Hx].
  destruct (whitespace (ne_p x) =? 0); [exact Hx|].
  destruct (numPopBytes x _) as [x'| | |] eqn:Hp; cbn [bind]; try exact I.
  exact (from_input_pop x _ x' Hx Hp).
Qed.

(** [numNextToken] keeps reading the input. *)
Lemma numNextToken_from_input e e' :
  numNextToken e = Ret e' -> from_input e -> from_input e'.
Proof.
  unfold numNextToken. intros H Hf.
  destruct (tag_eqb _ tagError); [injection H as <-; exact Hf|].
  destruct (iter _ numSkipWhitespace_body e) as [s| | |] eqn:Hs; try discriminate.
  cbn [bind] in H. apply numSkipWhitespace_from_input in Hs; [|exact Hf].
  destruct (sl_l (ne_p s) =? 0); [injection H as <-; apply from_input_error; exact Hs|].
  destruct (nextOperator s) as [[ok s1]| | |] eqn:H1; try discriminate. cbn [bind] in H.
  apply nextOperator_from_input in H1; [|exact Hs].
  destruct ok; [injection H as <-; exact H1|].
  destruct (nextISODateTimeValue s1) as [[ok s2]| | |] eqn:H2; try discriminate.
  cbn [bind] in H. apply nextISODateTimeValue_from_input in H2; [|exact H1].
  destruct ok; [injection H as <-; exact H2|].
  destruct (nextBinValue s2) as [[ok s3]| | |] eqn:H3; try discriminate.
  cbn [bind] in H. apply nextBinValue_from_input in H3; [|exact H2].
  destruct ok; [injection H as <-; exact H3|].
  destruct (nextHexValue s3) as [[ok s4]| | |] eqn:H4; try discriminate.
  cbn [bind] in H. apply nextHexValue_from_input in H4; [|exact H3].
  destruct ok; [injection H as <-; exact H4|].
  destruct (nextDecValue s4) as [[ok s5]| | |] eqn:H5; try discriminate.
  cbn [bind] in H. apply nextDecValue_from_input in H5; [|exact H4].
  destruct ok; [injection H as <-; exact H5|].
  destruct (nextOctValue s5) as [[ok s6]| | |] eqn:H6; try discriminate.
  cbn [bind] in H. apply nextOctValue_from_input in H6; [|exact H5].
  destruct ok; [injection H as <-; exact H6|].
  destruct (nextIntValue s6) as [[ok s7]| | |] eqn:H7; try discriminate.
  cbn [bind] in H. apply nextIntValue_from_input in H7; [|exact H6].
  destruct ok; injection H as <-; [exact H7|apply from_input_error; exact H7].
Qed.


(** ** The evaluator of numeric expressions *)

(** A result of the evaluator: a value, or an error with its message. *)
Definition res_ok (t : numToken_t) : Prop :=
  0 <= nt_pos t
  /\ (is_value_tag (nt_tag t) = true
      \/ (nt_tag t = tagError
          /\ exists m, nt_val t = VE m /\ (numeric m = true \/ m = ErrEndOfInput))).

(** An error result is not the end of input. *)
Definition not_eoi (t : numToken_t) : Prop :=
  nt_tag t = tagError -> val_is_EndOfInput t = false.

(** [r] is the outcome of an evaluation started in [e]: it is undefined,
    by a division, and the input holds the operator; or it returns, the
    engine has not gone back, and the result is a value or an error (which
    is not the end of input, when [strict]). *)
Definition evaluated (strict : bool) (e : numEngine_t)
  (r : outcome (numEngine_t * numToken_t)) : Prop :=
  (r = Undefined /\ has_div)
  \/ exists e' t, r = Ret (e', t) /\ nwf e' /\ ntk_ok (ne_tk e') /\ nmu e' <= nmu e
                  /\ res_ok t /\ (strict = true -> not_eoi t) /\ from_input e'.

Lemma evaluated_ret e e' t :
  nwf e' -> ntk_ok (ne_tk e') -> from_input e' -> nmu e' <= nmu e -> res_ok t ->
  not_eoi t -> evaluated true e (Ret (e', t)).
Proof.
  intros Hw Ht Hf Hmu Hres Hne. right. exists e', t. split; [reflexivity|].
  split; [exact Hw|]. split; [exact Ht|]. split; [exact Hmu|]. split; [exact Hres|].
  split; [intros _; exact Hne|exact Hf].
Qed.

Lemma res_ok_error pos m : 0 <= pos -> numeric m = true -> res_ok (numError pos m).
Proof.
  intros Hp Hm. split; [exact Hp|]. right. split; [reflexivity|].
  exists m. split; [reflexivity|]. left. exact Hm.
Qed.

Lemma not_eoi_error pos m : numeric m = true -> not_eoi (numError pos m).
Proof. intros Hm _. destruct m; try discriminate; reflexivity. Qed.

Lemma not_eoi_value t : is_value_tag (nt_tag t) = true -> not_eoi t.
Proof. intros Hv Ht. rewrite Ht in Hv. discriminate. Qed.

Lemma res_ok_value tag pos v : 0 <= pos -> is_value_tag tag = true -> res_ok (mkNumToken tag pos v).
Proof. intros Hp Ht. split; [exact Hp|]. left. exact Ht. Qed.

Lemma res_ok_with_val t v : res_ok t -> is_value_tag (nt_tag t) = true -> res_ok (with_val t v).
Proof. intros [Hp _] Ht. split; [exact Hp|]. left. exact Ht. Qed.

Lemma res_ok_end_is_invalid t :
  res_ok t -> nt_tag t = tagError ->
  res_ok (end_is_invalid t) /\ not_eoi (end_is_invalid t).
Proof.
  intros [Hp Hv] Ht. unfold end_is_invalid.
  destruct (val_is_EndOfInput t) eqn:E.
  - split; [|intros _; reflexivity]. split; [exact Hp|]. right. split; [exact Ht|].
    exists ErrInvalidNumericExpression. split; [reflexivity|]. left. reflexivity.
  - split; [|intros _; exact E]. split; [exact Hp|exact Hv].
Qed.

Lemma res_ok_cases t :
  res_ok t -> tag_eqb (nt_tag t) tagError = false -> is_value_tag (nt_tag t) = true.
Proof.
  intros [_ [Hv|[Ht _]]] He; [exact Hv|]. rewrite Ht in He. discriminate.
Qed.

Lemma tag_eqb_eq a b : tag_eqb a b = true -> a = b.
Proof. destruct a, b; (reflexivity || discriminate). Qed.

Lemma is_value_tag_cases tag :
  is_value_tag tag = true -> tag = tagIntegerVal \/ tag = tagDecimalVal.
Proof.
  unfold is_value_tag. intros H. apply orb_prop in H.
  destruct H as [H|H]; apply tag_eqb_eq in H; auto.
Qed.

Lemma normalizeTypes_spec v1 v2 :
  res_ok v1 -> res_ok v2 ->
  is_value_tag (nt_tag v1) = true -> is_value_tag (nt_tag v2) = true ->
  exists v1' v2', normalizeTypes v1 v2 = Ret (v1', v2')
    /\ res_ok v1' /\ res_ok v2'
    /\ ((nt_tag v1' = tagIntegerVal /\ nt_tag v2' = tagIntegerVal)
        \/ (nt_tag v1' = tagDecimalVal /\ nt_tag v2' = tagDecimalVal)).
Proof.
  intros H1 H2 Ht1 Ht2. unfold normalizeTypes. rewrite Ht1, Ht2. cbn [assert].
  destruct (is_value_tag_cases _ Ht1) as [E1|E1];
    destruct (is_value_tag_cases _ Ht2) as [E2|E2]; rewrite E1, E2; cbn;
    eexists _, _; (split; [reflexivity|]); repeat split;
    try apply H1; try apply H2; auto;
    try (left; rewrite ?E1, ?E2; reflexivity).
Qed.

Lemma toDouble_spec t :
  res_ok t -> is_value_tag (nt_tag t) = true ->
  exists t', toDouble t = Ret t' /\ res_ok t' /\ nt_tag t' = tagDecimalVal.
Proof.
  intros H Ht. unfold toDouble. rewrite Ht. cbn [assert].
  destruct (is_value_tag_cases _ Ht) as [E|E]; rewrite E; cbn.
  - eexists. split; [reflexivity|]. split; [|reflexivity].
    apply res_ok_value; [apply H|reflexivity].
  - exists t. split; [reflexivity|]. split; [exact H|exact E].
Qed.


(** The handlers, over an [expression] that evaluates every engine which
    is not behind [B]. *)
Create HintDb numdb.

Section HandlersSpec.

Variable expression : numEngine_t -> Z -> outcome (numEngine_t * numToken_t).
Variable B : Z.
Hypothesis expression_ok : forall e rbp,
  nwf e -> ntk_ok (ne_tk e) -> from_input e -> nmu e <= B -> 0 <= rbp ->
  evaluated (negb (numDone e)) e (expression e rbp).

Lemma expression_call e rbp :
  nwf e -> ntk_ok (ne_tk e) -> from_input e -> nmu e <= B -> 0 <= rbp ->
  (expression e rbp = Undefined /\ has_div)
  \/ exists e' t, expression e rbp = Ret (e', t) /\ nwf e' /\ ntk_ok (ne_tk e')
                  /\ nmu e' <= nmu e /\ res_ok t /\ from_input e'.
Proof.
  intros Hw Ht Hf Hmu Hrbp.
  destruct (expression_ok e rbp Hw Ht Hf Hmu Hrbp)
    as [Hu|(e' & t & Hr & Hw' & Ht' & Hmu' & Hres & _ & Hf')]; [left; exact Hu|].
  right. exists e', t. auto 10.
Qed.

#[local] Hint Resolve res_ok_error not_eoi_error not_eoi_value res_ok_with_val res_ok_value
  : numdb.

(** The start of a handler that evaluates a right operand. *)
Ltac operand e p e' rhs :=
  let Hr := fresh "Hr" in
  let Hw' := fresh "Hw'" in let Htk' := fresh "Htk'" in
  let Hmu' := fresh "Hmu'" in let Hres := fresh "Hres" in
  let Herr := fresh "Herr" in
  let Hu := fresh "Hu" in
  let Hdv := fresh "Hdv" in let Hf' := fresh "Hf'" in
  destruct (expression_call e p)
    as [[Hu Hdv]|(e' & rhs & Hr & Hw' & Htk' & Hmu' & Hres & Hf')];
  [assumption|assumption|assumption|assumption|vm_compute; discriminate
  |rewrite Hu; left; split; [reflexivity|exact Hdv]|];
  rewrite Hr; cbn [bind];
  destruct (tag_eqb (nt_tag rhs) tagError) eqn:Herr;
  [apply tag_eqb_eq in Herr;
   destruct (res_ok_end_is_invalid rhs Hres Herr);
   apply evaluated_ret; auto
  |pose proof (res_ok_cases rhs Hres Herr)].

Lemma nud_spec e t :
  nwf e -> ntk_ok (ne_tk e) -> from_input e -> nmu e <= B -> 0 <= nt_pos t ->
  evaluated true e (nud expression e t).
Proof.
  intros Hw Htk Hfi Hmu Hpos. unfold nud.
  destruct (nt_tag t) eqn:Htag;
    try (apply evaluated_ret; auto with numdb; lia).
  - (* tagIntegerVal *)
    apply evaluated_ret; auto; try lia.
    + split; [exact Hpos|]. left. rewrite Htag. reflexivity.
    + apply not_eoi_value. rewrite Htag. reflexivity.
  - (* tagDecimalVal *)
    apply evaluated_ret; auto; try lia.
    + split; [exact Hpos|]. left. rewrite Htag. reflexivity.
    + apply not_eoi_value. rewrite Htag. reflexivity.
  - (* tagPlus *)
    unfold nudPlus. operand e (highestPrecedence + 1) e' rhs.
    apply evaluated_ret; auto with numdb.
  - (* tagMinus *)
    unfold nudMinus. operand e (highestPrecedence + 1) e' rhs.
    destruct (tag_eqb (nt_tag rhs) tagIntegerVal);
      apply evaluated_ret; auto with numdb.
  - (* tagInverse *)
    unfold nudInverse. operand e (highestPrecedence + 1) e' rhs.
    rewrite H. cbn [assert].
    destruct (tag_eqb (nt_tag rhs) tagDecimalVal);
      apply evaluated_ret; auto with numdb.
  - (* tagOpenParen *)
    unfold nudOpenParen. operand e (precedenceTable tagOpenParen) e' rhs.
    destruct (negb _); [apply evaluated_ret; auto with numdb|].
    destruct (numNextToken_spec e' Hw' Htk') as (e2 & Hr2 & (Hw2 & Htk2 & Hmu2 & _) & _).
    pose proof (numNextToken_from_input e' e2 Hr2 Hf') as Hf2.
    rewrite Hr2. cbn [bind]. apply evaluated_ret; auto with numdb. lia.
Qed.


(** The operands of a binary operator, brought to the same type. *)
Ltac same_types lhs rhs l' r' :=
  let Hn := fresh "Hn" in let Hl' := fresh "Hl'" in let Hr' := fresh "Hr'" in
  let T1 := fresh "T1" in let T2 := fresh "T2" in
  match goal with
  | Hres : res_ok rhs, Hv : is_value_tag (nt_tag rhs) = true,
    Hlres : res_ok lhs, Hlv : is_value_tag (nt_tag lhs) = true |- _ =>
      rewrite Hv; cbn [assert];
      destruct (normalizeTypes_spec lhs rhs Hlres Hres Hlv Hv)
        as (l' & r' & Hn & Hl' & Hr' & [[T1 T2]|[T1 T2]]);
      rewrite Hn; cbn [bind]; rewrite ?T1, ?T2; cbn [tag_eqb tag_index Z.eqb Pos.eqb assert]
  end.

Ltac leaf :=
  apply evaluated_ret; auto with numdb;
  try (apply res_ok_with_val; [assumption|]);
  try (apply not_eoi_value; cbn [with_val nt_tag]);
  try match goal with
      | T : nt_tag ?l = _ |- context [nt_tag ?l] => rewrite T; reflexivity
      end.

Lemma led_spec e t lhs :
  nwf e -> ntk_ok (ne_tk e) -> from_input e -> nmu e <= B -> 0 <= nt_pos t ->
  (is_div (nt_tag t) = true -> has_div) ->
  res_ok lhs -> is_value_tag (nt_tag lhs) = true ->
  evaluated true e (led expression e t lhs).
Proof.
  intros Hw Htk Hfi Hmu Hpos Hdiv Hlres Hlv. unfold led.
  assert (Hdur : forall d rbp, 0 <= rbp ->
                          evaluated true e (ledDuration expression e t lhs d rbp)).
  { intros d rbp Hrbp. unfold ledDuration. rewrite Hlv. cbn [assert].
    destruct (toDouble_spec lhs Hlres Hlv) as (l' & Hl & Hl' & Tl). rewrite Hl. cbn [bind].
    assert (Hvl : is_value_tag (nt_tag l') = true) by (rewrite Tl; reflexivity).
    destruct (tag_eqb (nt_tag (ne_tk e)) tagCloseParen); [leaf; lia|].
    destruct (expression_call e rbp)
      as [[Hu Hdv]|(e' & rhs & Hr & Hw' & Htk' & Hmu' & Hres & Hf')];
      [assumption|assumption|assumption|assumption|assumption
      |rewrite Hu; left; split; [reflexivity|exact Hdv]|].
    rewrite Hr. cbn [bind].
    destruct (tag_eqb (nt_tag rhs) tagError) eqn:Herr.
    - destruct (val_is_EndOfInput rhs) eqn:Heoi; [leaf|].
      apply evaluated_ret; auto. intros _. exact Heoi.
    - pose proof (res_ok_cases rhs Hres Herr) as Hv.
      destruct (toDouble_spec rhs Hres Hv) as (r' & Hr2 & Hr' & Tr). rewrite Hr2. cbn [bind].
      leaf. }
  destruct (nt_tag t) eqn:Htag;
    try (apply evaluated_ret; auto with numdb; lia);
    try (apply Hdur; vm_compute; discriminate).
  - unfold ledPlus. rewrite Hlv. cbn [assert].
    operand e (precedenceTable tagPlus) e' rhs. same_types lhs rhs l' r'; leaf.
  - unfold ledMinus. rewrite Hlv. cbn [assert].
    operand e (precedenceTable tagMinus) e' rhs. same_types lhs rhs l' r'; leaf.
  - unfold ledMultiplication. rewrite Hlv. cbn [assert].
    operand e (precedenceTable tagMultiplication) e' rhs. same_types lhs rhs l' r'; leaf.
  - unfold ledDivision. rewrite Hlv. cbn [assert].
    operand e (precedenceTable tagDivision) e' rhs.
    same_types lhs rhs l' r'; repeat dest_if;
      first [left; split; [reflexivity|apply Hdiv; reflexivity]|leaf].
  - unfold ledXor. rewrite Hlv. cbn [assert].
    operand e (precedenceTable tagXor) e' rhs. same_types lhs rhs l' r'; leaf.
  - unfold ledAnd. rewrite Hlv. cbn [assert].
    operand e (precedenceTable tagAnd) e' rhs. same_types lhs rhs l' r'; leaf.
  - unfold ledOr. rewrite Hlv. cbn [assert].
    operand e (precedenceTable tagOr) e' rhs. same_types lhs rhs l' r'; leaf.
  - unfold ledModulo. rewrite Hlv. cbn [assert].
    operand e (precedenceTable tagModulo) e' rhs.
    same_types lhs rhs l' r'; repeat dest_if;
      first [left; split; [reflexivity|apply Hdiv; reflexivity]|leaf].
Qed.

End HandlersSpec.


Lemma expression_spec fuel : forall e rbp,
  nwf e -> ntk_ok (ne_tk e) -> from_input e -> nmu e < Z.of_nat fuel -> 0 <= rbp ->
  evaluated (negb (numDone e)) e (expression fuel e rbp).
Proof.
  induction fuel as [|fuel IH]; intros e rbp Hw Htk Hfi Hmu Hrbp.
  { unfold nmu, nwf in *. destruct (numDone e); simpl in Hmu; lia. }
  cbn [expression]. destruct (numDone e) eqn:Hd.
  { right. exists e, (ne_tk e). split; [reflexivity|]. split; [exact Hw|]. split; [exact Htk|].
    split; [lia|]. split; [|split; [discriminate|exact Hfi]]. split; [apply Htk|].
    destruct Htk as [_ Hv]. unfold numDone in Hd. apply tag_eqb_eq in Hd. right.
    split; [exact Hd|]. exact (Hv Hd). }
  cbn [negb].
  destruct (numNextToken_spec e Hw Htk) as (e1 & Hr1 & (Hw1 & Htk1 & Hmu1 & Hlt1 & _) & _).
  pose proof (numNextToken_from_input e e1 Hr1 Hfi) as Hfi1.
  specialize (Hlt1 Hd). rewrite Hr1. cbn [bind].
  assert (Hexp : forall e0 rbp0, nwf e0 -> ntk_ok (ne_tk e0) -> from_input e0 ->
                   nmu e0 <= Z.of_nat fuel - 1 -> 0 <= rbp0 ->
                   evaluated (negb (numDone e0)) e0 (expression fuel e0 rbp0)).
  { intros e0 rbp0 H1 H2 H3 H4 H5. apply IH; auto. lia. }
  destruct (nud_spec (expression fuel) (Z.of_nat fuel - 1) Hexp e1 (ne_tk e))
    as [[Hu2 Hdv2]|(e2 & lhs & Hr2 & Hw2 & Htk2 & Hmu2 & Hres2 & Hne2 & Hfi2)]; auto;
    [lia|apply Htk|rewrite Hu2; left; split; [reflexivity|exact Hdv2]|].
  rewrite Hr2. cbn [bind].
  destruct (iter_spec_undef (expression_body (expression fuel) rbp)
              (fun st => nwf (fst st) /\ ntk_ok (ne_tk (fst st)) /\ nmu (fst st) <= nmu e1
                         /\ res_ok (snd st) /\ not_eoi (snd st) /\ from_input (fst st))
              (fun st => nwf (fst st) /\ ntk_ok (ne_tk (fst st)) /\ nmu (fst st) <= nmu e1
                         /\ res_ok (snd st) /\ not_eoi (snd st) /\ from_input (fst st))
              has_div
              (fun st => nmu (fst st))) with (fuel := fuel) (s := (e2, lhs))
    as [Hu3|([e3 t3] & Hr3 & Hw3 & Htk3 & Hmu3 & Hres3 & Hne3 & Hfi3)].
  - intros [s l] (Hs & Hstk & Hsmu & Hsres & Hsne & Hsfi). cbn [fst snd] in *.
    split; [unfold nmu, nwf in *; destruct (numDone s); lia|].
    unfold expression_body, continue, break.
    destruct (negb (tag_eqb (nt_tag l) tagError) && (rbp <? precedenceTable (nt_tag (ne_tk s))))
      eqn:Hc; [|cbn [fst snd]; auto 10].
    b2p.
    assert (Hds : numDone s = false).
    { unfold numDone. destruct (tag_eqb (nt_tag (ne_tk s)) tagError) eqn:Et; [|reflexivity].
      apply tag_eqb_eq in Et. rewrite Et in *.
      match goal with Hp : rbp < precedenceTable tagError |- _ => vm_compute in Hp end.
      destruct rbp; try discriminate; lia. }
    destruct (numNextToken_spec s Hs Hstk) as (s1 & Hs1 & (Hsw1 & Hstk1 & Hsmu1 & Hslt1 & _) & _).
    pose proof (numNextToken_from_input s s1 Hs1 Hsfi) as Hsfi1.
    specialize (Hslt1 Hds). rewrite Hs1. cbn [bind].
    destruct (led_spec (expression fuel) (Z.of_nat fuel - 1) Hexp s1 (ne_tk s) l)
      as [[Hu Hdv]|(s2 & l2 & Hs2 & Hsw2 & Hstk2 & Hsmu2 & Hsres2 & Hsne2 & Hsfi2)]; auto;
      [lia|apply Hstk|apply Hsfi|apply res_ok_cases; assumption|rewrite Hu; exact Hdv|].
    rewrite Hs2. cbn [bind fst snd].
    split; [split; [exact Hsw2|]|lia]. split; [exact Hstk2|]. split; [lia|].
    split; [exact Hsres2|]. split; [apply Hsne2; reflexivity|exact Hsfi2].
  - cbn [fst snd]. split; [exact Hw2|]. split; [exact Htk2|]. split; [lia|].
    split; [exact Hres2|]. split; [apply Hne2; reflexivity|exact Hfi2].
  - cbn [fst]. lia.
  - left. exact Hu3.
  - cbn [fst snd] in *. right. exists e3, t3. split; [exact Hr3|].
    split; [exact Hw3|]. split; [exact Htk3|]. split; [lia|]. split; [exact Hres3|].
    split; [intros _; exact Hne3|exact Hfi3].
Qed.


(** A loop over [unit] that returns does so at an index of its range, the
    body going on at each index before. *)
Lemma for_unit_inr {R : Type} (body : Z -> unit -> unit + R) (r : R) :
  forall k i, for_ k i body tt = inr r ->
  exists j, i <= j < i + Z.of_nat k /\ body j tt = inr r
            /\ forall j', i <= j' < j -> body j' tt = inl tt.
Proof.
  induction k as [|k IH]; intros i H; [discriminate|].
  cbn [for_] in H. destruct (body i tt) as [[]|r'] eqn:Hb.
  - destruct (IH _ H) as (j & Hj & Hbj & Hbefore). exists j.
    split; [lia|]. split; [exact Hbj|]. intros j' Hj'.
    destruct (Z.eq_dec j' i) as [->|Hne]; [exact Hb|]. apply Hbefore. lia.
  - exists i. split; [lia|]. split; [congruence|]. intros j' Hj'. lia.
Qed.

(** A number expression holds a digit or a point behind signs, spaces and
    parentheses. *)
Lemma isNumberExpr_spec p :
  isNumberExpr p = true ->
  exists j, 0 <= j < sl_l p
    /\ p.[j] <> ch " " /\ p.[j] <> TAB /\ p.[j] <> 0xC2
    /\ forall j', 0 <= j' < j -> p.[j'] <> 0xC2.
Proof.
  unfold isNumberExpr, for_range. intros H.
  destruct (for_ _ _ _ _) as [[]|b] eqn:Hf; [discriminate|]. subst b.
  apply for_unit_inr in Hf. destruct Hf as (j & Hj & Hbj & Hbefore).
  exists j. split; [lia|].
  assert (Hs : p.[j] <> ch " " /\ p.[j] <> TAB /\ p.[j] <> 0xC2).
  { destruct ((p.[j] =? ch "+") || (p.[j] =? ch "-") || (p.[j] =? ch " ")
              || (p.[j] =? TAB) || (p.[j] =? ch "(")) eqn:E; [discriminate|].
    b2p. repeat split; try assumption.
    injection Hbj as Hd. intros Hc2. rewrite Hc2 in Hd. vm_compute in Hd.
    discriminate. }
  split; [apply Hs|]. split; [apply Hs|]. split; [apply Hs|].
  intros j' Hj'. specialize (Hbefore j' Hj').
  destruct ((p.[j'] =? ch "+") || (p.[j'] =? ch "-") || (p.[j'] =? ch " ")
            || (p.[j'] =? TAB) || (p.[j'] =? ch "(")) eqn:E; [|discriminate].
  intros Hc2. rewrite Hc2 in E. discriminate.
Qed.


Lemma numSkipWhitespace_stops b l tk errno fuel s :
  isNumberExpr (mkSlice (Inp b) l) = true ->
  iter fuel numSkipWhitespace_body
       (mkNumEngine (mkSlice (Inp b) l) (mkSlice (Inp b) l) 0 tk errno) = Ret s ->
  0 < sl_l (ne_p s).
Proof.
  intros Hn Hs. destruct (isNumberExpr_spec _ Hn) as (j & Hj & H1 & H2 & H3 & Hbefore).
  cbn [sl_l sl_p rd] in *.
  apply (iter_post numSkipWhitespace_body
           (fun s => exists k, 0 <= k <= j /\ ne_p s = mkSlice (Inp (b + k)) (l - k))
           (fun s => 0 < sl_l (ne_p s))) in Hs; [exact Hs| |].
  - intros s0 (k & Hk & Hp). unfold numSkipWhitespace_body, continue, break.
    rewrite Hp. cbn [sl_l].
    destruct (0 <? l - k) eqn:E; b2p; [|lia].
    assert (Hlt : whitespace (mkSlice (Inp (b + k)) (l - k)) <> 0 ->
                  k + whitespace (mkSlice (Inp (b + k)) (l - k)) <= j
                  /\ whitespace (mkSlice (Inp (b + k)) (l - k)) <= l - k).
    { intros Hnz.
      destruct (Z.eq_dec k j) as [->|Hne].
      - exfalso.
        destruct (whitespace_cases (mkSlice (Inp (b + j)) (l - j)))
          as [H0|[(_ & _ & [Hc|Hc])|(_ & _ & Hc & _)]];
          cbn [sl_p sl_l rd] in *; rewrite ?Z.add_0_r in *; congruence.
      - destruct (whitespace_cases (mkSlice (Inp (b + k)) (l - k)))
          as [H0|[(Hw1 & _ & _)|(_ & _ & Hc & _)]]; [congruence|lia|].
        exfalso. cbn [sl_p sl_l rd] in Hc. rewrite Z.add_0_r in Hc.
        apply (Hbefore k); [lia|exact Hc]. }
    destruct (whitespace _ =? 0) eqn:E0; b2p;
      [cbv beta iota; rewrite Hp; cbn [sl_l]; lia|].
    destruct (Hlt E0) as [Hle1 Hle2].
    unfold numPopBytes. rewrite Hp. cbn [sl_l].
    destruct (_ <=? l - k) eqn:E1; b2p; [|lia]. cbn [assert bind ne_p].
    pose proof (whitespace_range (mkSlice (Inp (b + k)) (l - k))) as Hr. cbn [sl_l] in Hr.
    exists (k + whitespace (mkSlice (Inp (b + k)) (l - k))). split; [lia|].
    unfold adv. cbn [sl_p sl_l padd]. apply slice_eq; lia.
  - exists 0. split; [lia|]. cbn [ne_p]. apply slice_eq; lia.
Qed.

(** [evalNumberExpression] is undefined (by a division) or returns a
    decimal value or an error of the evaluator, at a position of the
    expression. *)
Lemma evalNumberExpression_spec errno b l :
  0 < l -> isNumberExpr (mkSlice (Inp b) l) = true ->
  (evalNumberExpression errno (mkSlice (Inp b) l) = Undefined /\ has_div)
  \/ exists t errno', evalNumberExpression errno (mkSlice (Inp b) l) = Ret (t, errno')
       /\ 0 <= nt_pos t
       /\ (nt_tag t = tagDecimalVal
           \/ (nt_tag t = tagError /\ exists m, nt_val t = VE m /\ numeric m = true)).
Proof.
  intros Hl Hn. unfold evalNumberExpression, numEngineInit. cbn [sl_p sl_l is_NULL negb assert].
  destruct (l =? 0) eqn:E0; b2p; [lia|]. cbn [negb assert].
  set (e0 := mkNumEngine _ _ _ _ _).
  assert (Hw0 : nwf e0) by (unfold nwf; cbn; lia).
  assert (Htk0 : ntk_ok (ne_tk e0)) by (split; [cbn; lia|discriminate]).
  destruct (numNextToken_spec e0 Hw0 Htk0) as (e1 & Hr1 & (Hw1 & Htk1 & _) & _ & Heoi).
  assert (Hfi1 : from_input e1).
  { apply (numNextToken_from_input e0 e1 Hr1). split; [exists b; reflexivity|discriminate]. }
  rewrite Hr1. cbn [bind].
  assert (Hne1 : not_eoi (ne_tk e1)).
  { intros _. destruct (val_is_EndOfInput (ne_tk e1)) eqn:Hv; [|reflexivity].
    destruct (Heoi eq_refl eq_refl) as (s & Hs & Hz).
    apply numSkipWhitespace_stops in Hs; [lia|exact Hn]. }
  destruct (expression_spec (S (fuel_of (mkSlice (Inp b) l))) e1 0 Hw1 Htk1 Hfi1)
    as [[Hu Hdv]|(e2 & t & Hr2 & Hw2 & Htk2 & Hmu2 & Hres & Hne2 & _)];
    [|lia|rewrite Hu; left; split; [reflexivity|exact Hdv]|].
  { unfold num_next, nmu, fuel_of in *. cbn [sl_l].
    destruct (numNextToken_spec e0 Hw0 Htk0) as (e1' & Hr1' & (_ & _ & Hmu & _) & _).
    assert (e1' = e1) by congruence. subst e1'.
    unfold nmu in Hmu. cbn in Hmu. destruct (numDone e1); lia. }
  rewrite Hr2. cbn [bind]. right.
  assert (Hne : not_eoi t).
  { destruct (numDone e1) eqn:Hd.
    - unfold expression in Hr2. cbn in Hr2. rewrite Hd in Hr2.
      injection Hr2 as <- <-. exact Hne1.
    - apply Hne2. reflexivity. }
  destruct Hres as [Hpos [Hv|(Ht & m & Hm & Hnum)]].
  - destruct (is_value_tag_cases _ Hv) as [T|T]; rewrite T; cbn.
    + eexists _, _. split; [reflexivity|]. cbn. split; [exact Hpos|]. left. reflexivity.
    + eexists _, _. split; [reflexivity|]. split; [exact Hpos|]. left. exact T.
  - rewrite Ht. cbn. eexists _, _. split; [reflexivity|]. split; [exact Hpos|]. right.
    split; [exact Ht|]. exists m. split; [exact Hm|].
    destruct Hnum as [Hnum | ->]; [exact Hnum|].
    specialize (Hne Ht). unfold val_is_EndOfInput in Hne. rewrite Hm in Hne. discriminate.
Qed.


(** ** The parser *)

(** What the parser keeps of its engine. *)
Definition pinv (e : engine_t) : Prop := wfp e /\ tk_inv (e_tk e).

(** [e'] follows [e] in a run of the parser: output is only added, and
    the text left to parse only shrinks. *)
Definition follows (e e' : engine_t) : Prop :=
  pinv e' /\ (exists s, e_out e' = e_out e ++ s) /\ sl_l (e_p e') <= sl_l (e_p e).

Lemma follows_refl e : pinv e -> follows e e.
Proof.
  intros H. split; [exact H|]. split; [exists []; symmetry; apply app_nil_r|lia].
Qed.

Lemma follows_trans e1 e2 e3 : follows e1 e2 -> follows e2 e3 -> follows e1 e3.
Proof.
  intros (_ & (s1 & H1) & Hl1) (Hp & (s2 & H2) & Hl2).
  split; [exact Hp|]. split; [|lia].
  exists (s1 ++ s2). rewrite H2, H1. symmetry. apply app_assoc.
Qed.

Lemma follows_pinv e e' : follows e e' -> pinv e'.
Proof. intros H. apply H. Qed.

Lemma follows_outputString e x s : follows e x -> follows e (outputString x s).
Proof.
  intros (Hp & (s1 & H1) & Hl). split; [exact Hp|]. split; [|exact Hl].
  exists (s1 ++ s). cbn. rewrite H1. symmetry. apply app_assoc.
Qed.

Lemma follows_outputByte e x c : follows e x -> follows e (outputByte x c).
Proof. apply follows_outputString. Qed.

Lemma follows_setErrorAndPos e x m pos :
  follows e x -> pos_ok pos ->
  (m = ErrUnclosedObject -> mem (pos_b pos) = ch "{") ->
  follows e (setErrorAndPos x m pos).
Proof.
  intros ((Hw & _) & Ho & Hl) Hpos Hm.
  split; [|split; [exact Ho|exact Hl]].
  split; [exact Hw|]. split; [exact Hpos|]. cbn. exists m. split; [reflexivity|exact Hm].
Qed.

Lemma follows_setError e x m :
  follows e x -> m <> ErrUnclosedObject -> follows e (setError x m).
Proof.
  intros H Hm. apply follows_setErrorAndPos; [exact H| |contradiction].
  destruct H as ((Hw & _) & _). apply Hw.
Qed.

Lemma follows_set_depth e x d : follows e x -> follows e (set_depth x d).
Proof. intros H. exact H. Qed.

Lemma follows_set_errno e x r : follows e x -> follows e (set_errno x r).
Proof. intros H. exact H. Qed.

(** [nextToken], whatever the current token. *)
Lemma follows_nextToken e x :
  follows e x ->
  exists x', nextToken x = Ret x' /\ follows e x'
             /\ (done x' = false -> sl_l (e_p x') < sl_l (e_p x))
             /\ e_out x' = e_out x.
Proof.
  intros H. destruct (done x) eqn:Hd.
  - exists x. unfold nextToken. unfold done in Hd. rewrite Hd.
    split; [reflexivity|]. split; [exact H|]. split; [|reflexivity].
    unfold done. rewrite Hd. discriminate.
  - destruct H as ((Hw & Htk) & (s & Ho) & Hl).
    destruct (nextToken_spec x Hw Hd)
      as (x' & Hr & Hw' & Ho' & _ & _ & Htk' & _ & Hle & Hlt & _).
    exists x'. split; [exact Hr|]. split; [|split; [exact Hlt|exact Ho']].
    split; [split; assumption|]. split; [|lia]. exists s. congruence.
Qed.


Lemma for_spec_ge {S R : Type} (body : Z -> S -> S + R)
  (I : S -> Prop) (Q : R -> Prop) (lo : Z) :
  (forall i s, lo <= i -> I s ->
     match body i s with
     | inl s' => I s'
     | inr r => Q r
     end) ->
  forall k i s, lo <= i -> I s ->
  match for_ k i body s with
  | inl s' => I s'
  | inr r => Q r
  end.
Proof.
  intros Hbody k; induction k as [|k IH]; intros i s Hi Hs; cbn [for_].
  - assumption.
  - specialize (Hbody i s Hi Hs). destruct (body i s) as [s'|r].
    + apply IH; [lia|assumption].
    + assumption.
Qed.

Lemma follows_escape_error e x s i :
  follows e s -> e_tk s = e_tk x -> pinv x -> 0 <= i -> follows e (escape_error s i).
Proof.
  intros Hf Htk (_ & Hpos & _) Hi. unfold escape_error.
  apply follows_setErrorAndPos; [exact Hf| |discriminate].
  rewrite Htk. unfold pos_ok in *. cbn [pos_s pos_b pos_l]. lia.
Qed.

(** The state of the loop of an output function: the token is the one
    being written. *)
Definition writing (e x s : engine_t) : Prop := follows e s /\ e_tk s = e_tk x.

Lemma writing_outputByte e x s c : writing e x s -> writing e x (outputByte s c).
Proof. intros [H1 H2]. split; [apply follows_outputByte; exact H1|exact H2]. Qed.

Lemma writing_start e x : follows e x -> writing e x x.
Proof. intros H. split; [exact H|reflexivity]. Qed.

Lemma output_loop e x (body : Z -> engine_t -> engine_t + engine_t) k i s0 :
  writing e x s0 -> 0 <= i ->
  (forall i s, 0 <= i -> writing e x s ->
     match body i s with
     | inl s' => writing e x s'
     | inr r => follows e r
     end) ->
  follows e match for_ k i body s0 with
            | inl e1 => outputByte e1 DQUOTE
            | inr e1 => e1
            end.
Proof.
  intros Hs Hi Hbody.
  pose proof (for_spec_ge body (writing e x) (follows e) 0 Hbody k i s0 Hi Hs) as Hloop.
  destruct (for_ k i body s0); [apply follows_outputByte; apply Hloop|exact Hloop].
Qed.

Ltac output_body e x H :=
  let i := fresh "i" in let s := fresh "s" in
  let Hi := fresh "Hi" in let Hs := fresh "Hs" in
  intros i s Hi Hs; repeat dest_if; repeat apply writing_outputByte; try exact Hs;
  apply (follows_escape_error e x); [apply Hs|apply Hs|apply H|lia].

Lemma outputDoubleQuotedString_follows e x :
  follows e x -> follows e (outputDoubleQuotedString x).
Proof.
  intros H. unfold outputDoubleQuotedString, for_range. cbv zeta.
  apply (output_loop e x);
    [apply writing_outputByte, writing_start, H|lia|output_body e x H].
Qed.

Lemma outputSingleQuotedString_follows e x :
  follows e x -> follows e (outputSingleQuotedString x).
Proof.
  intros H. unfold outputSingleQuotedString, for_range. cbv zeta.
  apply (output_loop e x);
    [apply writing_outputByte, writing_start, H|lia|output_body e x H].
Qed.

Lemma outputQuotelessString_follows e x :
  follows e x -> follows e (outputQuotelessString x).
Proof.
  intros H. unfold outputQuotelessString, for_range. cbv zeta.
  match goal with
  | |- follows e match for_ ?k ?i ?body ?s with _ => _ end =>
      pose proof (for_spec body (follows e) (fun _ => True)) as Hloop;
      specialize (fun Hb => Hloop Hb k i s (follows_outputByte e x _ H));
      destruct (for_ k i body s)
  end.
  - apply follows_outputByte. apply Hloop.
    intros i s Hs. repeat dest_if; repeat apply follows_outputByte; exact Hs.
  - apply follows_outputByte. exact H.
Qed.



Lemma outputMultilineString_loop e nl margin str s :
  follows e s -> 0 <= sl_l margin ->
  exists x', iter (fuel_of str) (outputMultilineString_body nl margin) (str, s) = Ret x'
             /\ follows e x'.
Proof.
  intros Hs Hm.
  apply (iter_spec (outputMultilineString_body nl margin)
           (fun st => follows e (snd st)) (follows e)
           (fun st => Z.max 0 (sl_l (fst st)))).
  - intros [str1 s1] Hs1. cbn [fst snd] in *. split; [lia|].
    unfold outputMultilineString_body, continue, break.
    destruct (0 <? sl_l str1) eqn:E; b2p; [|exact Hs1].
    pose proof (newline_range str1) as Hn.
    repeat dest_if; cbn [fst snd adv sl_l]; b2p;
      (split; [repeat first [apply follows_outputByte | apply follows_outputString];
               exact Hs1|lia]).
  - exact Hs.
  - unfold fuel_of. cbn [fst]. lia.
Qed.

Lemma outputMultilineString_follows e x :
  follows e x -> ml_ok (tk_val (e_tk x)) ->
  exists x', outputMultilineString x = Ret x' /\ follows e x'.
Proof.
  intros H (p & str2 & str3 & H1 & H2 & H3). unfold outputMultilineString. cbv zeta.
  assert (Hp : 0 <= p).
  { apply (iter_post (find_btick_body (tk_val (e_tk x))) (fun p => 0 <= p) (fun p => 0 <= p))
      in H1; [exact H1| |lia].
    intros q Hq. unfold find_btick_body, continue, break. destruct (negb _); lia. }
  rewrite H1. cbn [bind]. rewrite H2. cbn [bind].
  destruct ((adv str2 1).[0] =? ch "n"); rewrite H3; cbn [bind].
  - destruct (outputMultilineString_loop e (bytes "\n") (mkSlice (sl_p (tk_val (e_tk x))) p)
                (mkSlice (padd (sl_p str3) (1 + p)) (sl_l str3 - 2 - p))
                (outputByte x DQUOTE)) as (x' & Hr & Hf);
      [apply follows_outputByte; exact H|exact Hp|].
    cbn [sl_l] in *. rewrite Hr. cbn [bind]. eexists. split; [reflexivity|].
    apply follows_outputByte. exact Hf.
  - destruct (outputMultilineString_loop e (bytes "\r\n") (mkSlice (sl_p (tk_val (e_tk x))) p)
                (mkSlice (padd (sl_p str3) (1 + p)) (sl_l str3 - 2 - p))
                (outputByte x DQUOTE)) as (x' & Hr & Hf);
      [apply follows_outputByte; exact H|exact Hp|].
    cbn [sl_l] in *. rewrite Hr. cbn [bind]. eexists. split; [reflexivity|].
    apply follows_outputByte. exact Hf.
Qed.


(** The outcome of a function of the parser started in [e]: it is
    undefined, by a division, and the input holds the operator; or it
    returns; it returns true only with an error set; and ([strict]) it
    has consumed input unless an error is set. *)
Definition parsed (strict : bool) (e : engine_t) (r : outcome (bool * engine_t)) : Prop :=
  (r = Undefined /\ has_div)
  \/ exists b e', r = Ret (b, e') /\ follows e e' /\ (b = true -> done e' = true)
                  /\ (strict = true -> done e' = false -> sl_l (e_p e') < sl_l (e_p e)).

Lemma parsed_error strict e x b m :
  follows e x -> m <> ErrUnclosedObject -> parsed strict e (Ret (b, setError x m)).
Proof.
  intros H Hm. right. exists b, (setError x m). split; [reflexivity|].
  split; [apply follows_setError; assumption|]. split; [reflexivity|]. discriminate.
Qed.

(** The return at an error met by [nextToken]: the end of input is
    replaced by the message [m]. *)
Lemma parsed_done strict e x m :
  follows e x -> done x = true -> m <> ErrUnclosedObject ->
  parsed strict e (Ret (true, if tk_is_EndOfInput x then setError x m else x)).
Proof.
  intros H Hd Hm. destruct (tk_is_EndOfInput x).
  - apply parsed_error; assumption.
  - right. exists true, x. split; [reflexivity|]. split; [exact H|].
    split; [intros _; exact Hd|]. intros _ Hn. congruence.
Qed.

Lemma parsed_trans strict e x r :
  follows e x -> sl_l (e_p x) <= sl_l (e_p e) -> parsed strict x r -> parsed strict e r.
Proof.
  intros H Hl [Hu|(b & e' & Hr & Hf & Hb & Hp)]; [left; exact Hu|].
  right. exists b, e'. split; [exact Hr|].
  split; [eapply follows_trans; eassumption|]. split; [exact Hb|].
  intros Hs Hd. specialize (Hp Hs Hd). lia.
Qed.

(** The end of [value]: [nextToken], and return done(). *)
Lemma parsed_finish e x :
  follows e x -> parsed true e (x' <- nextToken x ;; Ret (done x', x')).
Proof.
  intros H. destruct (follows_nextToken e x H) as (x' & Hr & Hf & Hlt & _).
  rewrite Hr. cbn [bind]. right. exists (done x'), x'. split; [reflexivity|].
  split; [exact Hf|]. split; [auto|]. intros _ Hd. specialize (Hlt Hd).
  destruct H as (_ & _ & Hl). lia.
Qed.

Section ParserSpec.

Variable value : engine_t -> outcome (bool * engine_t).
Variable B : Z.
Hypothesis value_ok : forall e,
  pinv e -> done e = false -> sl_l (e_p e) <= B -> parsed true e (value e).

Lemma value_call e x :
  follows e x -> done x = false -> sl_l (e_p e) <= B -> parsed true e (value x).
Proof.
  intros H Hd Hl. pose proof H as (Hp & _ & Hle).
  apply (parsed_trans true e x); [exact H|exact Hle|]. apply value_ok; [exact Hp|exact Hd|lia].
Qed.

Lemma done_outputByte x c : done (outputByte x c) = done x.
Proof. reflexivity. Qed.

(** [member] after the identifier is written. *)
Lemma member_tail e x :
  follows e x -> sl_l (e_p e) <= B ->
  parsed true e
    (e <- nextToken x ;;
     if done e then
       Ret (true, if tk_is_EndOfInput e then setError e ErrUnexpectedEndOfInput else e)
     else if negb (tag_eqb (tk_tag (e_tk e)) tagColon)
     then Ret (true, setError e ErrExpectColon)
     else
       let e := outputByte e (ch ":") in
       e <- nextToken e ;;
       if done e then
         Ret (true, if tk_is_EndOfInput e then setError e ErrUnexpectedEndOfInput else e)
       else value e).
Proof.
  intros H HB. destruct (follows_nextToken e x H) as (x1 & Hr1 & Hf1 & Hlt1 & _).
  rewrite Hr1. cbn [bind].
  destruct (done x1) eqn:Hd1; [apply parsed_done; auto; discriminate|].
  destruct (negb _); [apply parsed_error; auto; discriminate|]. cbv zeta.
  destruct (follows_nextToken e (outputByte x1 (ch ":")))
    as (x2 & Hr2 & Hf2 & Hlt2 & _); [apply follows_outputByte; exact Hf1|].
  rewrite Hr2. cbn [bind].
  destruct (done x2) eqn:Hd2; [apply parsed_done; auto; discriminate|].
  apply value_call; assumption.
Qed.

Lemma member_spec e :
  pinv e -> done e = false -> sl_l (e_p e) <= B -> parsed true e (member value e).
Proof.
  intros Hp Hd HB. pose proof (follows_refl e Hp) as H. unfold member.
  destruct (tk_tag (e_tk e));
    try (apply member_tail;
         [first [apply outputDoubleQuotedString_follows
                |apply outputSingleQuotedString_follows
                |apply outputQuotelessString_follows
                |apply follows_setError; [|discriminate]]; exact H
         |exact HB]).
  apply parsed_error; [exact H|discriminate].
Qed.

(** The measure of the loops of [members] and [values]. *)
Definition pmu (e : engine_t) : Z := if done e then 0 else sl_l (e_p e) + 1.

(** The shape shared by the loops of [members] and [values]: [item] is
    [member] or [value], [close] the closing tag, [m] the message after a
    comma. *)
Lemma list_loop (item : engine_t -> outcome (bool * engine_t)) close m e x :
  (forall s, follows e s -> done s = false -> parsed true s (item s)) ->
  m <> ErrUnclosedObject ->
  follows e x ->
  let loop :=
    iter (S (fuel_of (e_p x)))
      (fun st : bool * engine_t =>
         let '(notFirst, e) := st in
         if negb (done e) && negb (tag_eqb (tk_tag (e_tk e)) close) then
           '(stop, e) <-
             (if notFirst then
                let e := outputByte e (ch ",") in
                if tag_eqb (tk_tag (e_tk e)) tagComma then
                  e <- nextToken e ;;
                  if done e then
                    Ret (true, if tk_is_EndOfInput e then setError e m else e)
                  else if tag_eqb (tk_tag (e_tk e)) tagCloseBrace
                          || tag_eqb (tk_tag (e_tk e)) tagCloseSquare
                  then Ret (true, setError e m)
                  else Ret (false, e)
                else Ret (false, e)
              else Ret (false, e)) ;;
           if (stop : bool) then break e
           else
             '(b, e) <- item e ;;
             if (b : bool) then break e else continue (true, e)
         else break e) (false, x) in
  (loop = Undefined /\ has_div)
  \/ exists x', loop = Ret x'
       /\ follows e x' /\ (done x' = true \/ tk_tag (e_tk x') = close).
Proof.
  intros Hitem Hm Hx. cbv zeta.
  apply (iter_spec_undef _ (fun st => follows e (snd st))
           (fun x' => follows e x' /\ (done x' = true \/ tk_tag (e_tk x') = close))
           has_div
           (fun st => pmu (snd st))).
  - intros [nf s] Hs. cbn [snd] in *.
    split; [unfold pmu; destruct Hs as ((Hw & _) & _); destruct (done s); ulia|].
    unfold continue, break.
    destruct (negb (done s) && negb (tag_eqb (tk_tag (e_tk s)) close)) eqn:Hc.
    2:{ split; [exact Hs|]. apply andb_false_iff in Hc.
        destruct Hc as [Hc|Hc]; apply negb_false_iff in Hc;
          [left; exact Hc|right; apply tag_eqb_eq; exact Hc]. }
    apply andb_prop in Hc. destruct Hc as [Hd _]. apply negb_true_iff in Hd.
    assert (Hgo : forall s1, follows e s1 -> done s1 = false -> pmu s1 <= pmu s ->
              match ('(b, e0) <- item s1 ;;
                     if (b : bool) then Ret (inr e0) else Ret (inl (true, e0))) with
              | Ret (inl s') => follows e (snd s') /\ pmu (snd s') < pmu s
              | Ret (inr r) => follows e r /\ (done r = true \/ tk_tag (e_tk r) = close)
              | Undefined => has_div
              | _ => False
              end).
    { intros s1 Hs1 Hd1 Hmu1.
      destruct (Hitem s1 Hs1 Hd1) as [[Hu Hdv]|(b & s2 & Hr & Hf & Hb & Hlt)];
        [rewrite Hu; exact Hdv|].
      rewrite Hr. cbn [bind]. pose proof (follows_trans _ _ _ Hs1 Hf) as Hf2.
      destruct b; [split; [exact Hf2|left; auto]|]. cbn [snd]. split; [exact Hf2|].
      unfold pmu in *. rewrite Hd, Hd1 in *.
      destruct (done s2) eqn:Hd2; [destruct Hs as ((Hw & _) & _); ulia|].
      specialize (Hlt eq_refl eq_refl). lia. }
    destruct nf; cbn [bind]; [|apply Hgo; [exact Hs|exact Hd|lia]].
    cbv zeta. change (e_tk (outputByte s (ch ","))) with (e_tk s).
    destruct (tag_eqb (tk_tag (e_tk s)) tagComma); cbn [bind].
    + destruct (follows_nextToken e (outputByte s (ch ","))) as (s1 & Hr1 & Hf1 & Hlt1 & _);
        [apply follows_outputByte; exact Hs|].
      rewrite Hr1. cbn [bind].
      destruct (done s1) eqn:Hd1; cbn [bind].
      * destruct (tk_is_EndOfInput s1);
          (split; [|left; auto]); [apply follows_setError; assumption|exact Hf1].
      * destruct (_ || _); cbn [bind];
          [split; [apply follows_setError; assumption|left; reflexivity]|].
        apply Hgo; [exact Hf1|exact Hd1|].
        specialize (Hlt1 eq_refl). unfold pmu. rewrite Hd, Hd1. cbn in Hlt1. lia.
    + apply (Hgo (outputByte s (ch ","))); [apply follows_outputByte; exact Hs|exact Hd|].
      exact (Z.le_refl (pmu s)).
  - exact Hx.
  - cbn [snd]. unfold pmu, fuel_of. destruct Hx as ((Hw & _) & _).
    destruct (done x); ulia.
Qed.


Lemma members_spec x :
  pinv x -> sl_l (e_p x) <= B ->
  (members value x = Undefined /\ has_div)
  \/ exists b x', members value x = Ret (b, x')
       /\ follows (outputByte x (ch "{")) x' /\ (b = true -> done x' = true)
       /\ (done x' = true \/ tk_tag (e_tk x') = tagCloseBrace).
Proof.
  intros H HB. unfold members. cbv zeta.
  destruct (list_loop (member value) tagCloseBrace ErrExpectIdentifierAfterComma
              (outputByte x (ch "{")) (outputByte x (ch "{")))
    as [[Hu Hdv]|(x' & Hr & Hf & Hend)].
  - intros s Hs Hd. apply member_spec; [apply Hs|exact Hd|].
    destruct Hs as (_ & _ & Hl). cbn in Hl. lia.
  - discriminate.
  - apply follows_refl. exact H.
  - assert (Hu' : iter (S (fuel_of (e_p (outputByte x (ch "{"))))) (members_body value)
                       (false, outputByte x (ch "{")) = Undefined) by exact Hu.
    rewrite Hu'. left. split; [reflexivity|exact Hdv].
  - assert (Hr' : iter (S (fuel_of (e_p (outputByte x (ch "{"))))) (members_body value)
                       (false, outputByte x (ch "{")) = Ret x') by exact Hr.
    rewrite Hr'. cbn [bind]. right.
    eexists _, _. split; [reflexivity|]. split; [apply follows_outputByte; exact Hf|].
    split; [auto|exact Hend].
Qed.

Lemma values_spec x :
  pinv x -> sl_l (e_p x) <= B ->
  (values value x = Undefined /\ has_div)
  \/ exists b x', values value x = Ret (b, x')
       /\ follows (outputByte x (ch "[")) x' /\ (b = true -> done x' = true)
       /\ (done x' = true \/ tk_tag (e_tk x') = tagCloseSquare).
Proof.
  intros H HB. unfold values. cbv zeta.
  destruct (list_loop value tagCloseSquare ErrExpectValueAfterComma
              (outputByte x (ch "[")) (outputByte x (ch "[")))
    as [[Hu Hdv]|(x' & Hr & Hf & Hend)].
  - intros s Hs Hd. apply value_ok; [apply Hs|exact Hd|].
    destruct Hs as (_ & _ & Hl). cbn in Hl. lia.
  - discriminate.
  - apply follows_refl. exact H.
  - assert (Hu' : iter (S (fuel_of (e_p (outputByte x (ch "["))))) (values_body value)
                       (false, outputByte x (ch "[")) = Undefined) by exact Hu.
    rewrite Hu'. left. split; [reflexivity|exact Hdv].
  - assert (Hr' : iter (S (fuel_of (e_p (outputByte x (ch "["))))) (values_body value)
                       (false, outputByte x (ch "[")) = Ret x') by exact Hr.
    rewrite Hr'. cbn [bind]. right.
    eexists _, _. split; [reflexivity|]. split; [apply follows_outputByte; exact Hf|].
    split; [auto|exact Hend].
Qed.

End ParserSpec.


Lemma parsed_done_at strict e x m pos :
  follows e x -> done x = true -> pos_ok pos ->
  (m = ErrUnclosedObject -> mem (pos_b pos) = ch "{") ->
  parsed strict e (Ret (true, if tk_is_EndOfInput x then setErrorAndPos x m pos else x)).
Proof.
  intros H Hd Hpos Hm. destruct (tk_is_EndOfInput x).
  - right. eexists _, _. split; [reflexivity|].
    split; [apply follows_setErrorAndPos; assumption|]. split; [reflexivity|]. discriminate.
  - right. exists true, x. split; [reflexivity|]. split; [exact H|].
    split; [intros _; exact Hd|]. intros _ Hn. congruence.
Qed.

(** A bracket: [list] is [members] or [values], started after the token
    that follows the bracket is read. *)
Lemma parsed_bracket e x c (r : outcome (bool * engine_t)) m pos :
  follows e x -> sl_l (e_p x) < sl_l (e_p e) ->
  ((r = Undefined /\ has_div)
   \/ exists b x', r = Ret (b, x') /\ follows (outputByte x c) x'
                   /\ (b = true -> done x' = true)) ->
  pos_ok pos ->
  (m = ErrUnclosedObject -> mem (pos_b pos) = ch "{") ->
  parsed true e
    ('(b, e) <- r ;;
     if (b : bool) then
       Ret (true, if tk_is_EndOfInput e then setErrorAndPos e m pos else e)
     else (e <- nextToken (set_depth e (e_depth e - 1)) ;; Ret (done e, e))).
Proof.
  intros H Hlt [[-> Hdv]|(b & x1 & -> & Hf & Hb)] Hpos Hm;
    [left; split; [reflexivity|exact Hdv]|]. cbn [bind].
  pose proof (follows_trans _ _ _ (follows_outputByte _ _ c H) Hf) as Hf1.
  destruct b.
  - apply parsed_done_at; auto.
  - apply parsed_finish. apply follows_set_depth. exact Hf1.
Qed.

Lemma value_spec fuel : forall e,
  pinv e -> done e = false -> sl_l (e_p e) < Z.of_nat fuel -> parsed true e (value fuel e).
Proof.
  induction fuel as [|fuel IH]; intros e Hp Hd Hl.
  { destruct Hp as ((_ & Hl0 & _) & _). simpl in Hl. lia. }
  pose proof (follows_refl e Hp) as H.
  assert (Hval : forall e0, pinv e0 -> done e0 = false -> sl_l (e_p e0) <= Z.of_nat fuel - 1 ->
                            parsed true e0 (value fuel e0)).
  { intros e0 H1 H2 H3. apply IH; auto. lia. }
  cbn [value]. cbv zeta.
  destruct Hp as (Hw & Hpos & Htk).
  destruct (tk_tag (e_tk e)) eqn:Htag;
    try (apply parsed_error; [exact H|discriminate]).
  - (* tagOpenBrace *)
    destruct (follows_nextToken e e H) as (e1 & Hr1 & Hf1 & Hlt1 & _).
    rewrite Hr1. cbn [bind].
    destruct (done e1) eqn:Hd1; [apply parsed_done_at; auto|].
    destruct (e_depth e1 =? maxDepth); [apply parsed_error; [exact Hf1|discriminate]|].
    specialize (Hlt1 eq_refl).
    apply parsed_bracket with (x := set_depth e1 (e_depth e1 + 1)) (c := ch "{"); auto.
    destruct (members_spec (value fuel) (Z.of_nat fuel - 1) Hval
                (set_depth e1 (e_depth e1 + 1))) as [Hu|(b & x' & Hr & Hf & Hb & _)];
      [apply Hf1|cbn; lia|left; exact Hu|].
    right. exists b, x'. auto.
  - (* tagOpenSquare *)
    destruct (follows_nextToken e e H) as (e1 & Hr1 & Hf1 & Hlt1 & _).
    rewrite Hr1. cbn [bind].
    destruct (done e1) eqn:Hd1; [apply parsed_done; auto; discriminate|].
    destruct (e_depth e1 =? maxDepth); [apply parsed_error; [exact Hf1|discriminate]|].
    specialize (Hlt1 eq_refl).
    apply parsed_bracket with (x := set_depth e1 (e_depth e1 + 1)) (c := ch "["); auto;
      [|apply Hf1|discriminate].
    destruct (values_spec (value fuel) (Z.of_nat fuel - 1) Hval
                (set_depth e1 (e_depth e1 + 1))) as [Hu|(b & x' & Hr & Hf & Hb & _)];
      [apply Hf1|cbn; lia|left; exact Hu|].
    right. exists b, x'. auto.
  - (* tagQuotelessString *)
    destruct Htk as (b & l & Hv & Hl0).
    destruct (isLiteralValue _); [apply parsed_finish, follows_outputString, H|].
    destruct (isNumberExpr _) eqn:Hn;
      [|apply parsed_finish, outputQuotelessString_follows, H].
    rewrite Hv in *.
    destruct (evalNumberExpression_spec (e_errno e) b l Hl0 Hn)
      as [[Hu Hdv]|(t & errno' & Hr & Htpos & [Ht|(Ht & m & Hm & Hnum)])].
    + rewrite Hu. left. split; [reflexivity|exact Hdv].
    + rewrite Hr. cbn [bind]. rewrite Ht. cbn [tag_eqb tag_index Z.eqb Pos.eqb negb assert].
      apply parsed_finish, follows_outputString, follows_set_errno, H.
    + rewrite Hr. cbn [bind]. rewrite Ht. cbn [tag_eqb tag_index Z.eqb Pos.eqb].
      right. eexists _, _. split; [reflexivity|]. split; [|split; [reflexivity|discriminate]].
      apply follows_setErrorAndPos; [apply follows_set_errno, H| |].
      * cbn [set_errno e_tk]. unfold pos_ok in *. cbn [pos_s pos_b pos_l]. lia.
      * unfold val_err. rewrite Hm. intros ->. discriminate.
  - (* tagDoubleQuotedString *)
    apply parsed_finish, outputDoubleQuotedString_follows, H.
  - (* tagSingleQuotedString *)
    apply parsed_finish, outputSingleQuotedString_follows, H.
  - (* tagMultilineString *)
    destruct (outputMultilineString_follows e e H Htk) as (x' & Hr & Hf).
    rewrite Hr. cbn [bind]. apply parsed_finish, Hf.
Qed.


(** ** Decoding *)

Lemma mem_beyond i : Z.of_nat (List.length text) <= i -> mem i = 0.
Proof.
  intros H. unfold mem. destruct (i <? 0) eqn:E; [reflexivity|].
  rewrite nth_overflow; [reflexivity|lia].
Qed.

Lemma myStrLen_spec :
  exists len, myStrLen = Ret len /\ 0 <= len /\ mem len = 0
              /\ forall i, 0 <= i < len -> mem i <> 0.
Proof.
  unfold myStrLen.
  apply (iter_spec myStrLen_body
           (fun i => 0 <= i <= Z.of_nat (List.length text) /\ forall j, 0 <= j < i -> mem j <> 0)
           (fun len => 0 <= len /\ mem len = 0 /\ forall i, 0 <= i < len -> mem i <> 0)
           (fun i => Z.of_nat (List.length text) - i)).
  - intros i (Hi & Hbefore). split; [lia|]. unfold myStrLen_body, continue, break.
    destruct (mem i =? 0) eqn:E; b2p; cbn [negb].
    + split; [lia|]. split; [exact E|exact Hbefore].
    + assert (i < Z.of_nat (List.length text)).
      { destruct (Z_lt_dec i (Z.of_nat (List.length text))); [assumption|].
        exfalso. apply E. apply mem_beyond. lia. }
      split; [|lia]. split; [lia|]. intros j Hj.
      destruct (Z.eq_dec j i) as [->|Hne]; [exact E|apply Hbefore; lia].
  - split; [lia|]. intros j Hj. lia.
  - lia.
Qed.

Lemma column_spec p :
  is_NULL (sl_p p) = false -> 0 <= sl_l p ->
  exists col, column p = Ret col /\ 0 <= col <= sl_l p.
Proof.
  intros Hn Hl. unfold column. rewrite Hn. cbn [negb assert].
  destruct (0 <=? sl_l p) eqn:E; b2p; [|lia]. cbn [assert].
  apply (iter_spec column_body
           (fun st => 0 <= sl_l (fst st) /\ 0 <= snd st /\ snd st + sl_l (fst st) <= sl_l p)
           (fun col => 0 <= col <= sl_l p)
           (fun st => sl_l (fst st))).
  - intros [q cnt] (Hq & Hc & Hsum). cbn [fst snd] in *. split; [exact Hq|].
    unfold column_body, continue, break.
    destruct (0 <? sl_l q) eqn:E0; b2p; [|lia].
    destruct ((_ =? 0) || (sl_l q <? _)) eqn:E1; [lia|]. b2p.
    cbn [fst snd adv sl_l].
    pose proof (Z.land_nonneg (utf8Table q.[0]) 15) as Hnn.
    assert (0 <= Z.land (utf8Table q.[0]) 15) by (apply Hnn; right; lia).
    lia.
  - cbn [fst snd]. lia.
  - cbn [fst]. unfold fuel_of. lia.
Qed.

(** The engine at the end of [parse]: an error is set (the end of input,
    when all went well), and the output starts with the brace of the top
    level object. *)
Lemma parse_spec errno len :
  0 <= len ->
  (parse errno len = Undefined /\ has_div)
  \/ exists e, parse errno len = Ret e /\ pinv e /\ done e = true
               /\ exists s, e_out e = Zbyte (ch "{") :: s.
Proof.
  intros Hlen. unfold parse. cbv zeta.
  assert (Hp0 : pinv (initial_engine errno len)).
  { split; [|split; [|exact I]]; unfold wfp, pos_ok; cbn; repeat split; lia. }
  destruct (follows_nextToken _ _ (follows_refl _ Hp0)) as (e1 & Hr1 & Hf1 & _ & Ho1).
  rewrite Hr1. cbn [bind].
  destruct (members_spec (value (fuel_of (e_p e1))) (sl_l (e_p e1))) with (x := e1)
    as [[Hu Hdv]|(b & e2 & Hr2 & Hf2 & Hb & Hend)];
    [|apply Hf1|lia|rewrite Hu; left; split; [reflexivity|exact Hdv]|].
  { intros e0 H1 H2 H3. apply value_spec; auto. unfold fuel_of.
    destruct Hf1 as ((Hw & _) & _). ulia. }
  rewrite Hr2. cbn [bind]. right.
  assert (Hout : exists s, e_out e2 = Zbyte (ch "{") :: s).
  { destruct Hf2 as (_ & (s & Ho) & _). exists s. rewrite Ho. cbn. rewrite Ho1. reflexivity. }
  destruct (tag_eqb (tk_tag (e_tk e2)) tagCloseBrace) eqn:Et.
  - eexists. split; [reflexivity|]. split; [|split; [reflexivity|exact Hout]].
    apply (follows_pinv e2). apply follows_setErrorAndPos;
      [apply follows_refl; apply Hf2|apply Hf2|discriminate].
  - exists e2. split; [reflexivity|]. split; [apply Hf2|]. split; [|exact Hout].
    destruct Hend as [Hd|Ht]; [exact Hd|]. rewrite Ht in Et. discriminate.
Qed.



(** The message of an error token. *)
Definition tk_msg (t : token_t) : errmsg :=
  match sl_p (tk_val t) with
  | Msg m => m
  | _ => ErrEndOfInput
  end.

(** The error met by [qjson_decode], if any, with its position: the state
    in which [parse] leaves the engine, the end of input being no error. *)
Definition decode_error (errno : bool) : outcome (option (errmsg * pos_t)) :=
  len <- myStrLen ;;
  if len =? 0 then Ret None
  else
    e <- parse errno len ;;
    Ret (if tk_is_EndOfInput e then None
         else Some (tk_msg (e_tk e), tk_pos (e_tk e))).








(** An [unclosed object] error is anchored at an opening brace of the
    input. *)
Lemma unclosed_object_at_brace errno m pos :
  decode_error errno = Ret (Some (m, pos)) -> m = ErrUnclosedObject ->
  mem (pos_b pos) = ch "{" /\ pos_ok pos.
Proof.
  unfold decode_error. intros H Hm.
  destruct myStrLen_spec as (len & Hlen & Hl0 & _). rewrite Hlen in H. cbn [bind] in H.
  destruct (len =? 0); [discriminate|].
  destruct (parse_spec errno len Hl0) as [[Hu _]|(e & Hr & ((_ & Hpos & Htk) & Hd & _))];
    [rewrite Hu in H; discriminate|].
  rewrite Hr in H. cbn [bind] in H.
  destruct (tk_is_EndOfInput e); [discriminate|]. injection H as H1 H2. subst pos.
  split; [|exact Hpos].
  unfold done in Hd. apply tag_eqb_eq in Hd. rewrite Hd in Htk.
  destruct Htk as (m' & Htk & Hbrace). apply Hbrace.
  rewrite Htk in H1. cbn in H1. congruence.
Qed.


(** ** The tokenizer and the rest of the engine

    The tokenizer reads and writes the text left, the position and the
    token; it leaves the output, the depth and [errno] alone, and does not
    depend on them. *)

Definition omap {A B : Type} (f : A -> B) (m : outcome A) : outcome B :=
  match m with
  | Ret a => Ret (f a)
  | AssertFail => AssertFail
  | NoFuel => NoFuel
  | Undefined => Undefined
  end.

Definition sum_map {A B C D : Type} (f : A -> C) (g : B -> D) (x : A + B) : C + D :=
  match x with
  | inl a => inl (f a)
  | inr b => inr (g b)
  end.

Lemma iter_frame {S R : Type} (g : S -> S) (h : R -> R) (body : S -> outcome (S + R)) :
  (forall s, body (g s) = omap (sum_map g h) (body s)) ->
  forall fuel s, iter fuel body (g s) = omap h (iter fuel body s).
Proof.
  intros Hbody fuel. induction fuel as [|fuel IH]; intros s; [reflexivity|].
  cbn [iter]. rewrite Hbody. destruct (body s) as [[s'|r]| | |]; cbn [omap sum_map];
    [apply IH|reflexivity..].
Qed.

Section Frame.

Variable o : list byte.
Variable d : Z.
Variable r : bool.

(** The engine [e] with another output, depth and [errno]. *)
Definition fr (e : engine_t) : engine_t :=
  mkEngine (e_p e) (e_pos e) o (e_tk e) d r.

(** A result whose last component is the engine. *)
Definition frr {A : Type} (x : A * engine_t) : A * engine_t := (fst x, fr (snd x)).

Lemma popBytes_fr e n : popBytes (fr e) n = fr (popBytes e n).
Proof. reflexivity. Qed.

Lemma popNewline_fr e : popNewline (fr e) = frr (popNewline e).
Proof.
  unfold popNewline. cbn [fr e_p]. destruct (_ =? 0); reflexivity.
Qed.

Lemma qchar_fr e : qchar (fr e) = qchar e.
Proof. reflexivity. Qed.

Lemma lenISODateTime_fr e : lenISODateTime (fr e) = lenISODateTime e.
Proof. reflexivity. Qed.

Lemma delimiter_fr e : delimiter (fr e) = frr (delimiter e).
Proof.
  unfold delimiter. cbn [fr e_p]. destruct (negb _); reflexivity.
Qed.

(** The steps of the proofs that follow: rewriting of the calls already
    treated, and case analysis of what both sides test. *)
Ltac fr_case :=
  match goal with
  | |- context [bind (omap _ ?m) _] => destruct m as [?| | |]
  | |- context [if ?c then _ else _] => destruct c
  | |- context [match ?x with Some _ => _ | None => _ end] => destruct x
  | |- context [match ?x with (_, _) => _ end] => destruct x
  end.

Ltac fr_simpl :=
  cbn [fr frr omap sum_map bind fst snd continue break
       e_p e_pos e_tk e_out e_depth e_errno].

Lemma skipRestOfLine_fr e : skipRestOfLine (fr e) = omap frr (skipRestOfLine e).
Proof.
  unfold skipRestOfLine. cbn [fr e_p].
  apply (iter_frame fr frr). intros s. unfold skipRestOfLine_body.
  rewrite popNewline_fr. destruct (popNewline s) as [nl s1]. fr_simpl.
  destruct (nl || _); [reflexivity|]. rewrite qchar_fr.
  destruct (qchar s1) as [[er|] n]; reflexivity.
Qed.

Lemma skipLineComment_fr e : skipLineComment (fr e) = omap frr (skipLineComment e).
Proof.
  unfold skipLineComment. fr_simpl. destruct (_ =? 0); [reflexivity|].
  destruct (_ || _); [|reflexivity]. rewrite skipRestOfLine_fr.
  destruct (skipRestOfLine e) as [[err e1]| | |]; reflexivity.
Qed.

Lemma skipMultilineComment_fr e :
  skipMultilineComment (fr e) = omap frr (skipMultilineComment e).
Proof.
  unfold skipMultilineComment. fr_simpl. destruct (_ || _); [reflexivity|].
  cbv zeta. rewrite popBytes_fr. cbn [fr e_p].
  apply (iter_frame fr frr). intros s. unfold skipMultilineComment_body. fr_simpl.
  destruct (_ =? 0); [reflexivity|]. destruct (_ && _); [reflexivity|].
  rewrite popNewline_fr. destruct (popNewline s) as [nl s1]. fr_simpl.
  destruct nl; [reflexivity|]. destruct (_ <? _); [reflexivity|].
  rewrite qchar_fr. destruct (qchar s1) as [[er|] n]; reflexivity.
Qed.

Lemma skipWhitespaces_fr e : skipWhitespaces (fr e) = omap fr (skipWhitespaces e).
Proof.
  unfold skipWhitespaces. cbn [fr e_p].
  apply (iter_frame fr fr). intros s. unfold skipWhitespaces_body. fr_simpl.
  destruct (_ =? 0); reflexivity.
Qed.

Lemma skipSpaces_fr e : skipSpaces (fr e) = omap frr (skipSpaces e).
Proof.
  unfold skipSpaces. cbn [fr e_p].
  change (@None error_t, fr e) with (frr (@None error_t, e)).
  apply (iter_frame frr frr). intros [err s]. unfold skipSpaces_body. fr_simpl.
  destruct (_ && _); [|reflexivity].
  rewrite skipWhitespaces_fr. destruct (skipWhitespaces s) as [s1| | |]; fr_simpl;
    [|reflexivity..].
  rewrite skipLineComment_fr. destruct (skipLineComment s1) as [[[err1 ok1] s2]| | |];
    fr_simpl; [|reflexivity..].
  destruct (ok1 || _); [reflexivity|].
  rewrite skipMultilineComment_fr. destruct (skipMultilineComment s2) as [[[err2 ok2] s3]| | |];
    fr_simpl; [|reflexivity..].
  destruct (ok2 || _); [reflexivity|].
  rewrite popNewline_fr. destruct (popNewline s3) as [nl s4]. fr_simpl.
  destruct (negb nl); reflexivity.
Qed.


Lemma doubleQuotedString_fr e :
  doubleQuotedString (fr e) = omap frr (doubleQuotedString e).
Proof.
  unfold doubleQuotedString. fr_simpl. cbv zeta. destruct (_ || _); [reflexivity|].
  rewrite popBytes_fr. cbn [fr e_p].
  apply (iter_frame fr frr). intros s. unfold doubleQuotedString_body. fr_simpl.
  destruct (_ =? 0); [reflexivity|]. destruct (_ && _); [reflexivity|].
  destruct (_ =? DQUOTE); [reflexivity|]. destruct (negb _); [reflexivity|].
  rewrite qchar_fr. destruct (qchar s) as [[er|] n]; reflexivity.
Qed.

Lemma singleQuotedString_fr e :
  singleQuotedString (fr e) = omap frr (singleQuotedString e).
Proof.
  unfold singleQuotedString. fr_simpl. cbv zeta. destruct (_ || _); [reflexivity|].
  rewrite popBytes_fr. cbn [fr e_p].
  apply (iter_frame fr frr). intros s. unfold singleQuotedString_body. fr_simpl.
  destruct (_ =? 0); [reflexivity|]. destruct (_ && _); [reflexivity|].
  destruct (_ =? SQUOTE); [reflexivity|]. destruct (negb _); [reflexivity|].
  rewrite qchar_fr. destruct (qchar s) as [[er|] n]; reflexivity.
Qed.

(** The state and the result of the loop of [quotelessString]. *)
Definition frq (st : engine_t * Z) : engine_t * Z := (fr (fst st), snd st).
Definition frq' (x : option error_t * engine_t * Z) : option error_t * engine_t * Z :=
  (fst (fst x), fr (snd (fst x)), snd x).

Lemma quotelessString_fr e :
  quotelessString (fr e) = omap frr (quotelessString e).
Proof.
  unfold quotelessString. fr_simpl. cbv zeta.
  change (fr e, pos_b (e_pos e)) with (frq (e, pos_b (e_pos e))).
  rewrite (iter_frame frq frq').
  - destruct (iter _ _ _) as [[[err s] endIdx]| | |]; [|reflexivity..].
    cbn [omap frq' fst snd bind]. destruct (is_err err); [reflexivity|].
    destruct (_ =? endIdx); reflexivity.
  - intros [s endIdx]. unfold quotelessString_body, frq. fr_simpl.
    destruct (_ =? 0); [reflexivity|].
    destruct (negb (whitespace _ =? 0)).
    { rewrite skipWhitespaces_fr. destruct (skipWhitespaces s) as [s1| | |]; reflexivity. }
    cbv zeta. rewrite qchar_fr, lenISODateTime_fr.
    destruct (negb (stopByte _ =? 0)); [destruct (_ || _)|].
    + destruct (lenISODateTime s) as [n| | |]; [|reflexivity..]. cbn [bind].
      destruct (n =? 0); reflexivity.
    + destruct (qchar s) as [[er|] n]; reflexivity.
    + destruct (qchar s) as [[er|] n]; reflexivity.
Qed.

Lemma multilineString_fr e :
  multilineString (fr e) = omap frr (multilineString e).
Proof.
  unfold multilineString. fr_simpl. destruct (_ || _); [reflexivity|].
  destruct (getMargin _) as [m| | |]; [|reflexivity..]. cbn [bind]. cbv zeta.
  destruct (negb (_ =? _)); [reflexivity|].
  rewrite popBytes_fr, skipWhitespaces_fr.
  destruct (skipWhitespaces (popBytes e 1)) as [e1| | |]; [|reflexivity..]. fr_simpl.
  destruct (_ =? 0); [reflexivity|]. destruct (_ =? 0); [reflexivity|].
  rewrite popBytes_fr, skipWhitespaces_fr.
  destruct (skipWhitespaces (popBytes e1 _)) as [e2| | |]; [|reflexivity..]. fr_simpl.
  rewrite popNewline_fr. destruct (popNewline e2) as [nl e3]. fr_simpl.
  assert (Hstart : forall startPos,
    (if negb nl then
       '(err, ok, e) <- skipLineComment (fr e3) ;;
       if is_err err then Ret (err, e)
       else if negb ok then Ret (Some (newError startPos ErrInvalidMultilineStart), e)
       else Ret (None, e)
     else Ret (None, fr e3))
    = omap frr (if negb nl then
                  '(err, ok, e) <- skipLineComment e3 ;;
                  if is_err err then Ret (err, e)
                  else if negb ok then Ret (Some (newError startPos ErrInvalidMultilineStart), e)
                  else Ret (None, e)
                else Ret (None, e3))).
  { intros startPos. destruct (negb nl); [|reflexivity].
    rewrite skipLineComment_fr. destruct (skipLineComment e3) as [[[err ok] e4]| | |];
      [|reflexivity..]. fr_simpl. destruct (is_err err); [reflexivity|].
    destruct (negb ok); reflexivity. }
  rewrite Hstart.
  match goal with
  | |- context [omap frr ?m] => destruct m as [[err e4]| | |]; [|reflexivity..]
  end.
  fr_simpl. destruct (is_err err); [reflexivity|].
  destruct (_ =? 0); [reflexivity|]. destruct (negb (_ =? _)); [reflexivity|].
  rewrite popBytes_fr. cbn [fr e_p].
  apply (iter_frame fr frr). intros s. unfold multilineString_body. fr_simpl.
  destruct (0 <? _); [|reflexivity].
  rewrite popNewline_fr. destruct (popNewline s) as [nl1 s1]. fr_simpl.
  destruct nl1.
  { destruct (negb (_ =? _)); [reflexivity|]. destruct (0 <? _); reflexivity. }
  destruct (_ <? 32); [reflexivity|].
  destruct (_ =? BTICK).
  { rewrite popBytes_fr. fr_simpl. destruct (_ || _); reflexivity. }
  rewrite qchar_fr. destruct (qchar s1) as [[er|] n]; reflexivity.
Qed.

Lemma nextToken_fr e : nextToken (fr e) = omap fr (nextToken e).
Proof.
  unfold nextToken. fr_simpl. destruct (tag_eqb _ tagError); [reflexivity|].
  rewrite skipSpaces_fr. destruct (skipSpaces e) as [[[er|] e1]| | |]; [|  |reflexivity..];
    fr_simpl; [reflexivity|].
  cbv zeta. destruct (_ =? 0); [reflexivity|].
  rewrite delimiter_fr. destruct (delimiter e1) as [tag e2]. fr_simpl.
  destruct (negb _); [reflexivity|].
  rewrite doubleQuotedString_fr.
  destruct (doubleQuotedString e2) as [[[[er|] s] e3]| | |]; [| |reflexivity..];
    fr_simpl; [reflexivity|].
  destruct (negb _); [reflexivity|].
  rewrite singleQuotedString_fr.
  destruct (singleQuotedString e3) as [[[[er|] s1] e4]| | |]; [| |reflexivity..];
    fr_simpl; [reflexivity|].
  destruct (negb _); [reflexivity|].
  rewrite multilineString_fr.
  destruct (multilineString e4) as [[[[er|] s2] e5]| | |]; [| |reflexivity..];
    fr_simpl; [reflexivity|].
  destruct (negb _); [reflexivity|].
  rewrite quotelessString_fr.
  destruct (quotelessString e5) as [[[[er|] s3] e6]| | |]; [| |reflexivity..];
    fr_simpl; [reflexivity|].
  destruct (negb _); reflexivity.
Qed.

End Frame.




(** ** What the output functions keep *)

(** The errors other than the depth error, the unclosed object and the
    end of input. *)
Definition ordinary (m : errmsg) : Prop :=
  m <> ErrMaxObjectArrayDepth /\ m <> ErrUnclosedObject /\ m <> ErrEndOfInput.

(** [x'] is [x] with output added, and possibly an error set, which is
    an ordinary one. *)
Definition kept (x x' : engine_t) : Prop :=
  e_p x' = e_p x /\ e_pos x' = e_pos x /\ e_depth x' = e_depth x
  /\ (e_tk x' = e_tk x
      \/ (done x' = true /\ ordinary (tk_msg (e_tk x')))).

Lemma kept_refl x : kept x x.
Proof. repeat split. left. reflexivity. Qed.

Lemma kept_outputString x s l : kept x s -> kept x (outputString s l).
Proof. intros H. exact H. Qed.

Lemma kept_outputByte x s c : kept x s -> kept x (outputByte s c).
Proof. intros H. exact H. Qed.

Lemma kept_escape_error x s i : kept x s -> kept x (escape_error s i).
Proof.
  intros (H1 & H2 & H3 & _). split; [exact H1|]. split; [exact H2|]. split; [exact H3|].
  right. split; [reflexivity|repeat split; discriminate].
Qed.

Lemma kept_setError x m : ordinary m -> kept x (setError x m).
Proof. intros Hm. repeat split. right. split; [reflexivity|exact Hm]. Qed.

Lemma kept_loop x (body : Z -> engine_t -> engine_t + engine_t) k i s0 :
  kept x s0 ->
  (forall i s, kept x s ->
     match body i s with
     | inl s' => kept x s'
     | inr r => kept x r
     end) ->
  kept x match for_ k i body s0 with
         | inl e1 => outputByte e1 DQUOTE
         | inr e1 => e1
         end.
Proof.
  intros Hs Hbody.
  pose proof (for_spec body (kept x) (kept x) Hbody k i s0 Hs) as Hloop.
  destruct (for_ k i body s0); [apply kept_outputByte; exact Hloop|exact Hloop].
Qed.

Ltac kept_body :=
  let i := fresh "i" in let s := fresh "s" in let Hs := fresh "Hs" in
  intros i s Hs; repeat dest_if; repeat apply kept_outputByte;
  try apply kept_escape_error; exact Hs.

Lemma outputDoubleQuotedString_kept x : kept x (outputDoubleQuotedString x).
Proof.
  unfold outputDoubleQuotedString, for_range. cbv zeta.
  apply kept_loop; [apply kept_outputByte, kept_refl|kept_body].
Qed.

Lemma outputSingleQuotedString_kept x : kept x (outputSingleQuotedString x).
Proof.
  unfold outputSingleQuotedString, for_range. cbv zeta.
  apply kept_loop; [apply kept_outputByte, kept_refl|kept_body].
Qed.

Lemma outputQuotelessString_kept x : kept x (outputQuotelessString x).
Proof.
  unfold outputQuotelessString, for_range. cbv zeta.
  match goal with
  | |- kept x match for_ ?k ?i ?body ?s with _ => _ end =>
      pose proof (for_spec body (kept x) (fun _ => True)) as Hloop;
      specialize (fun Hb => Hloop Hb k i s (kept_outputByte x x _ (kept_refl x)));
      destruct (for_ k i body s)
  end.
  - apply kept_outputByte. apply Hloop. kept_body.
  - apply kept_outputByte, kept_refl.
Qed.

Lemma outputMultilineString_kept x x' :
  outputMultilineString x = Ret x' -> kept x x'.
Proof.
  unfold outputMultilineString. cbv zeta. intros H.
  destruct (iter _ (find_btick_body _) _) as [p| | |]; try discriminate. cbn [bind] in H.
  destruct (iter _ skip_ws_body _) as [str2| | |]; try discriminate. cbn [bind] in H.
  destruct (if _ =? ch "n" then _ else _) as [nl str].
  destruct (iter _ find_LF_body _) as [str3| | |]; try discriminate. cbn [bind] in H.
  destruct (iter _ (outputMultilineString_body _ _) _) as [x1| | |] eqn:Hloop;
    try discriminate.
  cbn [bind] in H. injection H as <-. apply kept_outputByte.
  apply (iter_post _ (fun st => kept x (snd st)) (kept x)) in Hloop; [exact Hloop| |].
  - intros [s1 e1] Hs. cbn [snd] in Hs. unfold outputMultilineString_body, continue, break.
    repeat dest_if; cbn [snd];
      repeat first [apply kept_outputByte | apply kept_outputString]; exact Hs.
  - cbn [snd]. apply kept_outputByte, kept_refl.
Qed.

(** ** The nesting of brackets

    The tokens of the input are those that successive calls of
    [nextToken] read from the start; the nesting before the [n]-th token
    is the count of opening brackets less the count of closing brackets
    among the tokens before it. *)

Section Nesting.

Variable len : Z.
Hypothesis len_pos : 0 <= len.

Definition lexn (n : nat) : outcome engine_t :=
  repeat_call nextToken n (initial_engine false len).

Definition tag_at (n : nat) : tokenTag_t :=
  match lexn n with
  | Ret e => tk_tag (e_tk e)
  | _ => tagUnknown
  end.

Definition bracket (t : tokenTag_t) : Z :=
  match t with
  | tagOpenBrace | tagOpenSquare => 1
  | tagCloseBrace | tagCloseSquare => -1
  | _ => 0
  end.

Fixpoint nesting_before (n : nat) : Z :=
  match n with
  | O => 0
  | S k => nesting_before k + bracket (tag_at k)
  end.

(** There are more than [maxDepth] brackets open at some token. *)
Definition too_deep : Prop := exists k, maxDepth < nesting_before k.

(** The tokenizer alone never stops, and never reports the depth or an
    unclosed object. *)
Lemma lexn_spec n :
  exists e, lexn n = Ret e /\ wfp e /\ tk_inv (e_tk e)
            /\ (done e = true -> tk_msg (e_tk e) <> ErrMaxObjectArrayDepth
                                 /\ tk_msg (e_tk e) <> ErrUnclosedObject).
Proof.
  induction n as [|n (e & Hr & Hw & Htk & Hm)].
  - exists (initial_engine false len). split; [reflexivity|].
    split; [unfold wfp, pos_ok; cbn; repeat split; lia|].
    split; [|discriminate]. split; [unfold pos_ok; cbn; lia|exact I].
  - unfold lexn in *. cbn [repeat_call]. rewrite Hr. cbn [bind].
    destruct (done e) eqn:Hd.
    + exists e. unfold nextToken. unfold done in Hd. rewrite Hd.
      split; [reflexivity|]. split; [exact Hw|]. split; [exact Htk|].
      intros _. apply Hm. reflexivity.
    + destruct (nextToken_spec e Hw Hd)
        as (e' & Hr' & Hw' & _ & _ & _ & Htk' & _ & _ & _ & Herr).
      exists e'. split; [exact Hr'|]. split; [exact Hw'|]. split; [exact Htk'|].
      intros Hd'.
      destruct (Herr Hd') as (pos & m & Hem & Hlex). rewrite Hem. cbn.
      destruct Hlex as [Hlex | ->]; [|split; discriminate].
      split; intros ->; discriminate.
Qed.

(** The engine [e] of the parser is at the [n]-th token. *)
Definition sync (n : nat) (e : engine_t) : Prop :=
  exists en, lexn n = Ret en /\ e_p e = e_p en /\ e_pos e = e_pos en /\ e_tk e = e_tk en.

Lemma sync_tag n e : sync n e -> tag_at n = tk_tag (e_tk e).
Proof. intros (en & Hr & _ & _ & Htk). unfold tag_at. rewrite Hr, Htk. reflexivity. Qed.

Lemma sync_next n e e' :
  sync n e -> nextToken e = Ret e' ->
  sync (S n) e' /\ e_depth e' = e_depth e
  /\ (done e = false -> done e' = true ->
      tk_msg (e_tk e') <> ErrMaxObjectArrayDepth /\ tk_msg (e_tk e') <> ErrUnclosedObject).
Proof.
  intros (en & Hr & Hp & Hpos & Htk) He.
  assert (Hfr : e = fr (e_out e) (e_depth e) (e_errno e) en).
  { destruct e. cbn in *. subst. reflexivity. }
  rewrite Hfr, nextToken_fr in He.
  destruct (nextToken en) as [en'| | |] eqn:Hn; try discriminate.
  cbn [omap] in He. injection He as <-.
  assert (Hl : lexn (S n) = Ret en').
  { unfold lexn in *. cbn [repeat_call]. rewrite Hr. exact Hn. }
  split; [exists en'; repeat split; exact Hl|]. split; [reflexivity|].
  intros Hd Hd'. destruct (lexn_spec (S n)) as (x & Hx & _ & _ & Hm).
  rewrite Hl in Hx. injection Hx as <-. apply Hm. exact Hd'.
Qed.

Lemma sync_tk_inv n e : sync n e -> tk_inv (e_tk e).
Proof.
  intros (en & Hr & _ & _ & Htk). destruct (lexn_spec n) as (x & Hx & _ & Hinv & _).
  rewrite Hr in Hx. injection Hx as <-. rewrite Htk. exact Hinv.
Qed.

Lemma sync_same n e x :
  sync n e -> e_p x = e_p e -> e_pos x = e_pos e -> e_tk x = e_tk e -> sync n x.
Proof.
  intros (en & Hr & Hp & Hpos & Htk) H1 H2 H3. exists en. repeat split; congruence.
Qed.

(** The parser is at the [n]-th token, at the depth that the tokens
    before it make. *)
Definition at_depth (n : nat) (e : engine_t) : Prop :=
  sync n e /\ e_depth e = nesting_before n.

(** No more than [maxDepth] brackets are open at any token up to the
    token [n]. *)
Definition bounded (n : nat) : Prop :=
  forall j, (j <= n)%nat -> nesting_before j <= maxDepth.

(** From the token [n0] to the token [n] the nesting never goes below
    what it is before [n0], and before [n] it is back to that: the tokens
    between them are whole items of the level of [n0]; and it never goes
    above [maxDepth] if it did not before. *)
Definition level_kept (n0 n : nat) : Prop :=
  (n0 <= n)%nat /\ nesting_before n = nesting_before n0
  /\ (forall j, (n0 <= j <= n)%nat -> nesting_before n0 <= nesting_before j)
  /\ (bounded n0 -> bounded n).

Lemma level_kept_refl n : level_kept n n.
Proof.
  split; [lia|]. split; [reflexivity|]. split; [|auto]. intros j Hj.
  assert (Hjn : j = n) by lia. rewrite Hjn. lia.
Qed.

Lemma level_kept_trans a b c : level_kept a b -> level_kept b c -> level_kept a c.
Proof.
  intros (H1 & H2 & H3 & Hb1) (H4 & H5 & H6 & Hb2).
  split; [lia|]. split; [congruence|]. split; [|auto].
  intros j Hj. destruct (Nat.le_gt_cases j b) as [Hjb|Hjb].
  - apply H3. lia.
  - rewrite <- H2. apply H6. lia.
Qed.

Lemma bounded_next n :
  bounded n -> nesting_before (S n) <= maxDepth -> bounded (S n).
Proof.
  intros Hb Hn j Hj. destruct (Nat.eq_dec j (S n)) as [Hjn|Hjn]; [rewrite Hjn; exact Hn|].
  apply Hb. lia.
Qed.

Lemma level_kept_step n : bracket (tag_at n) = 0 -> level_kept n (S n).
Proof.
  intros H. split; [lia|]. split; [cbn [nesting_before]; lia|]. split.
  - intros j Hj. assert (Hc : j = n \/ j = S n) by lia.
    destruct Hc as [Hc|Hc]; rewrite Hc; [lia|]. cbn [nesting_before]. lia.
  - intros Hb. apply bounded_next; [exact Hb|].
    specialize (Hb n (Nat.le_refl n)). cbn [nesting_before]. lia.
Qed.

(** The position of the [n]-th token. *)
Definition token_pos (n : nat) : pos_t :=
  match lexn n with
  | Ret e => tk_pos (e_tk e)
  | _ => mkPos 0 0 0
  end.

(** The [n]-th call of the tokenizer meets the end of the input. *)
Definition at_end (n : nat) : bool :=
  match lexn n with
  | Ret e => done e && tk_is_EndOfInput e
  | _ => false
  end.

(** An object is left open at the position [pos]: a token [k] is an
    opening brace at [pos]; the end of the input is met at a later token
    [n]; from the token after the brace to the end the nesting stays
    above that before the brace, so that the brace is never closed; and at
    the end it is one more, so that every bracket opened after the brace is
    closed, and the brace is the innermost one still open. *)
Definition left_open (pos : pos_t) : Prop :=
  exists k n, (k < n)%nat /\ tag_at k = tagOpenBrace /\ token_pos k = pos
    /\ at_end n = true
    /\ nesting_before n = nesting_before k + 1
    /\ forall j, (k < j <= n)%nat -> nesting_before k < nesting_before j.

Lemma sync_pos n e : sync n e -> token_pos n = tk_pos (e_tk e).
Proof. intros (en & Hr & _ & _ & Htk). unfold token_pos. rewrite Hr, Htk. reflexivity. Qed.

Lemma sync_end n e : sync n e -> at_end n = done e && tk_is_EndOfInput e.
Proof.
  intros (en & Hr & _ & _ & Htk). unfold at_end, tk_is_EndOfInput, done.
  rewrite Hr, Htk. reflexivity.
Qed.

(** After the end of the input the tokenizer stays there: no bracket
    follows it. *)
Lemma at_end_stays n j : at_end n = true -> (n <= j)%nat ->
  lexn j = lexn n /\ nesting_before j = nesting_before n.
Proof.
  unfold at_end. destruct (lexn n) as [e| | |] eqn:Hn; try discriminate.
  intros He Hj. apply andb_prop in He. destruct He as [Hd _].
  induction Hj as [|j Hj [IH1 IH2]]; [rewrite Hn; auto|].
  assert (Hl : lexn (S j) = Ret e).
  { unfold lexn in *. cbn [repeat_call]. rewrite IH1. cbn [bind].
    unfold nextToken. unfold done in Hd. rewrite Hd. reflexivity. }
  split; [exact Hl|]. cbn [nesting_before]. unfold tag_at. rewrite IH1.
  unfold done in Hd. apply tag_eqb_eq in Hd. rewrite Hd. cbn [bracket]. lia.
Qed.

Lemma at_end_tag n j : at_end n = true -> (n <= j)%nat -> tag_at j = tagError.
Proof.
  intros He Hj. destruct (at_end_stays n j He Hj) as [Hl _].
  unfold tag_at. rewrite Hl. unfold at_end in He.
  destruct (lexn n) as [e| | |]; try discriminate.
  apply andb_prop in He. destruct He as [Hd _]. apply tag_eqb_eq. exact Hd.
Qed.

(** At most one brace is left open in that sense. *)
Lemma left_open_unique pos pos' : left_open pos -> left_open pos' -> pos = pos'.
Proof.
  intros (k & n & Hkn & Hk & Hp & He & Hnb & Hlow)
         (k' & n' & Hkn' & Hk' & Hp' & He' & Hnb' & Hlow').
  assert (Hnn : nesting_before n = nesting_before n').
  { destruct (Nat.le_gt_cases n n') as [Hle|Hle].
    - symmetry. apply (at_end_stays n n' He Hle).
    - apply (at_end_stays n' n He'). lia. }
  assert (Hkk : k = k').
  { destruct (Nat.lt_total k k') as [Hlt|[Heq|Hlt]]; [|exact Heq|]; exfalso.
    - destruct (Nat.le_gt_cases n k') as [Hle|Hle].
      + rewrite (at_end_tag n k' He Hle) in Hk'. discriminate.
      + specialize (Hlow k'). lia.
    - destruct (Nat.le_gt_cases n' k) as [Hle|Hle].
      + rewrite (at_end_tag n' k He' Hle) in Hk. discriminate.
      + specialize (Hlow' k). lia. }
  congruence.
Qed.

(** The parser is at some token, back at the level of the token [n0]. *)
Definition reached (n0 : nat) (e : engine_t) : Prop :=
  exists n, at_depth n e /\ level_kept n0 n.

(** What holds of an engine of the parser that started an item at the
    token [n0]: it is where the tokens put it, also when they end; the
    depth error is set only when the nesting is too deep; and the unclosed
    object error only at a brace that is left open. *)
Definition nested (n0 : nat) (e : engine_t) : Prop :=
  (done e = false \/ tk_is_EndOfInput e = true -> reached n0 e)
  /\ (done e = true -> tk_msg (e_tk e) = ErrMaxObjectArrayDepth -> too_deep)
  /\ (done e = true -> tk_msg (e_tk e) = ErrUnclosedObject ->
      left_open (tk_pos (e_tk e))).

Lemma eoi_msg e : tk_is_EndOfInput e = true -> tk_msg (e_tk e) = ErrEndOfInput.
Proof.
  unfold tk_is_EndOfInput, tk_msg, is_ErrEndOfInput.
  destruct (sl_p (tk_val (e_tk e))) as [|off|m]; try discriminate.
  destruct m; try discriminate. reflexivity.
Qed.

Lemma nested_done n0 x :
  done x = true -> tk_is_EndOfInput x = false ->
  tk_msg (e_tk x) <> ErrMaxObjectArrayDepth /\ tk_msg (e_tk x) <> ErrUnclosedObject ->
  nested n0 x.
Proof.
  intros Hd He [H1 H2]. split; [|split].
  - intros [H|H]; congruence.
  - intros _ H. contradiction.
  - intros _ H. contradiction.
Qed.

Lemma nested_ordinary n0 x : done x = true -> ordinary (tk_msg (e_tk x)) -> nested n0 x.
Proof.
  intros Hd (H1 & H2 & H3). apply nested_done; auto.
  destruct (tk_is_EndOfInput x) eqn:E; [|reflexivity]. apply eoi_msg in E. contradiction.
Qed.

Lemma nested_error n0 x m pos : ordinary m -> nested n0 (setErrorAndPos x m pos).
Proof. intros Hm. apply nested_ordinary; [reflexivity|exact Hm]. Qed.

Lemma nested_from a b e : level_kept a b -> nested b e -> nested a e.
Proof.
  intros Hab (H1 & H2 & H3). split; [|split; assumption].
  intros H. destruct (H1 H) as (n & Hat & Hk). exists n. split; [exact Hat|].
  eapply level_kept_trans; eassumption.
Qed.

Lemma nested_stopped a b e :
  done e = true -> tk_is_EndOfInput e = false -> nested b e -> nested a e.
Proof.
  intros Hd He (_ & H2 & H3). split; [|split; assumption]. intros [H|H]; congruence.
Qed.

(** [nextToken] from a token that is not a bracket. *)
Lemma nested_next n x e' :
  at_depth n x -> done x = false -> nextToken x = Ret e' ->
  (done e' = true ->
   tk_msg (e_tk e') <> ErrMaxObjectArrayDepth /\ tk_msg (e_tk e') <> ErrUnclosedObject)
  /\ sync (S n) e' /\ e_depth e' = nesting_before n
  /\ nesting_before (S n) = nesting_before n + bracket (tk_tag (e_tk x)).
Proof.
  intros [Hs Hdep] Hd Hr. destruct (sync_next n x e' Hs Hr) as (Hs' & Hdep' & Hm).
  split; [intros Hd'; apply Hm; assumption|]. split; [exact Hs'|].
  split; [congruence|]. cbn [nesting_before]. rewrite (sync_tag n x Hs). reflexivity.
Qed.


(** The result of [value] or [member] called at the token [n0]. *)
Definition item_ok (n0 : nat) (r : bool * engine_t) : Prop :=
  nested n0 (snd r) /\ (fst r = true -> done (snd r) = true).

Lemma item_ok_from a b r : level_kept a b -> item_ok b r -> item_ok a r.
Proof. intros Hab [H1 H2]. split; [eapply nested_from; eassumption|exact H2]. Qed.

Lemma nextToken_done x : done x = true -> nextToken x = Ret x.
Proof. intros H. unfold nextToken. unfold done in H. rewrite H. reflexivity. Qed.

(** [nextToken] after an output function, from a token that is not a
    bracket. *)
Lemma nested_after n x x' e' :
  at_depth n x -> done x = false ->
  (e_tk x' = e_tk x -> bracket (tk_tag (e_tk x)) = 0) -> kept x x' ->
  nextToken x' = Ret e' ->
  nested n e' /\ (done e' = false -> at_depth (S n) e' /\ level_kept n (S n)).
Proof.
  intros Hat Hd Hb (Hp & Hpos & Hdep & [Htk|[Hd' Hm]]) Hr.
  - assert (Hat' : at_depth n x').
    { destruct Hat as [Hs Hdx]. split; [eapply sync_same; eauto|congruence]. }
    assert (Hdx' : done x' = false) by (unfold done in *; rewrite Htk; exact Hd).
    destruct (nested_next n x' e' Hat' Hdx' Hr) as (Hm & Hs & Hde & Hnb).
    rewrite Htk, (Hb Htk), Z.add_0_r in Hnb.
    assert (Hat1 : at_depth (S n) e') by (split; [exact Hs|congruence]).
    assert (Hk : level_kept n (S n)).
    { apply level_kept_step. rewrite (sync_tag n x (proj1 Hat)). exact (Hb Htk). }
    split; [|auto]. split; [intros _; exists (S n); split; assumption|].
    split; intros Hde' Hmsg; exfalso; destruct (Hm Hde') as [Hm1 Hm2]; contradiction.
  - rewrite (nextToken_done x' Hd') in Hr. injection Hr as <-.
    split; [apply nested_ordinary; assumption|congruence].
Qed.

Lemma finish_nested n x x' r :
  at_depth n x -> done x = false ->
  (e_tk x' = e_tk x -> bracket (tk_tag (e_tk x)) = 0) -> kept x x' ->
  (e <- nextToken x' ;; Ret (done e, e)) = Ret r -> item_ok n r.
Proof.
  intros Hat Hd Hb Hk H. destruct (nextToken x') as [e'| | |] eqn:Hr; try discriminate.
  cbn [bind] in H. injection H as <-. split; [|cbn; auto].
  apply (nested_after n x x' e'); assumption.
Qed.

(** An error met by [nextToken], the end of input being replaced. *)
Lemma item_ok_done n0 x m pos :
  (tk_is_EndOfInput x = false -> nested n0 x) -> done x = true -> ordinary m ->
  item_ok n0 (true, if tk_is_EndOfInput x then setErrorAndPos x m pos else x).
Proof.
  intros Hn Hd Hm. destruct (tk_is_EndOfInput x).
  - split; [apply nested_error; exact Hm|reflexivity].
  - split; [apply Hn; reflexivity|intros _; exact Hd].
Qed.

Lemma item_ok_error n0 b x m pos :
  ordinary m -> item_ok n0 (b, setErrorAndPos x m pos).
Proof. intros Hm. split; [apply nested_error; exact Hm|reflexivity]. Qed.

Section NestedParser.

Variable value : engine_t -> outcome (bool * engine_t).
Hypothesis value_nested : forall n e r,
  at_depth n e -> done e = false -> value e = Ret r -> item_ok n r.

Lemma member_tail_nested n e x r :
  at_depth n e -> done e = false ->
  (e_tk x = e_tk e -> bracket (tk_tag (e_tk e)) = 0) -> kept e x ->
  (e <- nextToken x ;;
   if done e then
     Ret (true, if tk_is_EndOfInput e then setError e ErrUnexpectedEndOfInput else e)
   else if negb (tag_eqb (tk_tag (e_tk e)) tagColon)
   then Ret (true, setError e ErrExpectColon)
   else
     let e := outputByte e (ch ":") in
     e <- nextToken e ;;
     if done e then
       Ret (true, if tk_is_EndOfInput e then setError e ErrUnexpectedEndOfInput else e)
     else value e) = Ret r ->
  item_ok n r.
Proof.
  intros Hat Hd Hb Hk H.
  destruct (nextToken x) as [e1| | |] eqn:Hr1; try discriminate. cbn [bind] in H.
  destruct (nested_after n e x e1 Hat Hd Hb Hk Hr1) as [Hn1 Hat1].
  destruct (done e1) eqn:Hd1.
  { injection H as <-.
    apply item_ok_done; [intros _; assumption|assumption|repeat split; discriminate]. }
  destruct (Hat1 eq_refl) as [Hat1' Hk1].
  destruct (negb _) eqn:Hc.
  { injection H as <-. apply item_ok_error. repeat split; discriminate. }
  apply negb_false_iff, tag_eqb_eq in Hc. cbv zeta in H.
  destruct (nextToken (outputByte e1 (ch ":"))) as [e2| | |] eqn:Hr2; try discriminate.
  cbn [bind] in H.
  destruct (nested_after (S n) e1 (outputByte e1 (ch ":")) e2 Hat1' Hd1) as [Hn2 Hat2];
    [intros _; rewrite Hc; reflexivity|apply kept_outputByte, kept_refl|exact Hr2|].
  apply (item_ok_from n (S n)); [exact Hk1|].
  destruct (done e2) eqn:Hd2.
  { injection H as <-.
    apply item_ok_done; [intros _; assumption|assumption|repeat split; discriminate]. }
  destruct (Hat2 eq_refl) as [Hat2' Hk2].
  apply (item_ok_from (S n) (S (S n))); [exact Hk2|].
  apply (value_nested (S (S n)) e2); auto.
Qed.

Lemma member_nested n e r :
  at_depth n e -> done e = false -> member value e = Ret r -> item_ok n r.
Proof.
  intros Hat Hd H. unfold member in H.
  destruct (tk_tag (e_tk e)) eqn:Htag;
    try (apply (member_tail_nested n e _ r Hat Hd) in H; [exact H| |];
         [intros Htk; exfalso; unfold done in Hd; rewrite <- Htk in Hd; discriminate
         |apply kept_setError; repeat split; discriminate]).
  - injection H as <-. apply item_ok_error. repeat split; discriminate.
  - apply (member_tail_nested n e _ r Hat Hd) in H; [exact H| |];
      [intros _; rewrite Htag; reflexivity|apply outputQuotelessString_kept].
  - apply (member_tail_nested n e _ r Hat Hd) in H; [exact H| |];
      [intros _; rewrite Htag; reflexivity|apply outputDoubleQuotedString_kept].
  - apply (member_tail_nested n e _ r Hat Hd) in H; [exact H| |];
      [intros _; rewrite Htag; reflexivity|apply outputSingleQuotedString_kept].
Qed.


(** The loops of [members] and [values] (see [list_loop]). *)
Lemma list_loop_nested (item : engine_t -> outcome (bool * engine_t)) close m fuel n0 x x' :
  (forall n s r, at_depth n s -> done s = false -> item s = Ret r -> item_ok n r) ->
  ordinary m ->
  nested n0 x ->
  iter fuel
    (fun st : bool * engine_t =>
       let '(notFirst, e) := st in
       if negb (done e) && negb (tag_eqb (tk_tag (e_tk e)) close) then
         '(stop, e) <-
           (if notFirst then
              let e := outputByte e (ch ",") in
              if tag_eqb (tk_tag (e_tk e)) tagComma then
                e <- nextToken e ;;
                if done e then
                  Ret (true, if tk_is_EndOfInput e then setError e m else e)
                else if tag_eqb (tk_tag (e_tk e)) tagCloseBrace
                        || tag_eqb (tk_tag (e_tk e)) tagCloseSquare
                then Ret (true, setError e m)
                else Ret (false, e)
              else Ret (false, e)
            else Ret (false, e)) ;;
         if (stop : bool) then break e
         else
           '(b, e) <- item e ;;
           if (b : bool) then break e else continue (true, e)
       else break e) (false, x) = Ret x' ->
  nested n0 x' /\ (done x' = false -> tk_tag (e_tk x') = close).
Proof.
  intros Hitem Hm Hx Hr.
  apply (iter_post _ (fun st => nested n0 (snd st))
           (fun x' => nested n0 x' /\ (done x' = false -> tk_tag (e_tk x') = close)))
    in Hr; [exact Hr| |exact Hx].
  intros [nf s] Hs. cbn [snd] in Hs. unfold continue, break.
  destruct (negb (done s) && negb (tag_eqb (tk_tag (e_tk s)) close)) eqn:Hc.
  2:{ split; [exact Hs|]. intros Hd. rewrite Hd in Hc. cbn in Hc.
      apply negb_false_iff, tag_eqb_eq in Hc. exact Hc. }
  apply andb_prop in Hc. destruct Hc as [Hd _]. apply negb_true_iff in Hd.
  destruct Hs as [Hs _]. destruct (Hs (or_introl Hd)) as (n & Hat & Hk).
  assert (Hgo : forall k s1, at_depth k s1 -> level_kept n0 k -> done s1 = false ->
            match ('(b, e0) <- item s1 ;;
                   if (b : bool) then Ret (inr e0) else Ret (inl (true, e0))) with
            | Ret (inl s') => nested n0 (snd s')
            | Ret (inr r) => nested n0 r /\ (done r = false -> tk_tag (e_tk r) = close)
            | _ => True
            end).
  { intros k s1 Hat1 Hk1 Hd1.
    destruct (item s1) as [[b s2]| | |] eqn:Hi; cbn [bind]; [|exact I..].
    destruct (Hitem k s1 (b, s2) Hat1 Hd1 Hi) as [Hn2 Hb]. cbn [fst snd] in *.
    apply (nested_from n0 k) in Hn2; [|exact Hk1].
    destruct b; [|exact Hn2]. split; [exact Hn2|]. intros Hd2. rewrite Hb in Hd2; auto.
    discriminate. }
  destruct nf; cbn [bind]; [|apply (Hgo n); assumption].
  cbv zeta. change (e_tk (outputByte s (ch ","))) with (e_tk s).
  destruct (tag_eqb (tk_tag (e_tk s)) tagComma) eqn:Hcomma; cbn [bind].
  - apply tag_eqb_eq in Hcomma.
    destruct (nextToken (outputByte s (ch ","))) as [s1| | |] eqn:Hr1; cbn [bind]; [|exact I..].
    destruct (nested_after n s (outputByte s (ch ",")) s1 Hat Hd) as [Hn1 Hat1];
      [intros _; rewrite Hcomma; reflexivity|apply kept_outputByte, kept_refl|exact Hr1|].
    apply (nested_from n0 n) in Hn1; [|exact Hk].
    destruct (done s1) eqn:Hd1; cbn [bind].
    + destruct (tk_is_EndOfInput s1).
      * split; [apply nested_error; exact Hm|discriminate].
      * split; [exact Hn1|congruence].
    + destruct (Hat1 eq_refl) as [Hat1' Hk1]. destruct (_ || _); cbn [bind].
      * split; [apply nested_error; exact Hm|discriminate].
      * apply (Hgo (S n)); auto. eapply level_kept_trans; eassumption.
  - apply (Hgo n); assumption.
Qed.

Lemma members_nested n0 x r :
  nested n0 x -> members value x = Ret r ->
  nested n0 (snd r) /\ fst r = done (snd r)
  /\ (done (snd r) = false -> tk_tag (e_tk (snd r)) = tagCloseBrace).
Proof.
  intros Hx H. unfold members in H. cbv zeta in H.
  destruct (iter _ (members_body value) _) as [x'| | |] eqn:Hr; try discriminate.
  cbn [bind] in H. injection H as <-. cbn [fst snd].
  apply (list_loop_nested (member value) tagCloseBrace ErrExpectIdentifierAfterComma
           _ n0)
    in Hr; [|apply member_nested|repeat split; discriminate|exact Hx].
  destruct Hr as [Hn Hc]. split; [exact Hn|]. split; [reflexivity|exact Hc].
Qed.

Lemma values_nested n0 x r :
  nested n0 x -> values value x = Ret r ->
  nested n0 (snd r) /\ fst r = done (snd r)
  /\ (done (snd r) = false -> tk_tag (e_tk (snd r)) = tagCloseSquare).
Proof.
  intros Hx H. unfold values in H. cbv zeta in H.
  destruct (iter _ (values_body value) _) as [x'| | |] eqn:Hr; try discriminate.
  cbn [bind] in H. injection H as <-. cbn [fst snd].
  apply (list_loop_nested value tagCloseSquare ErrExpectValueAfterComma _ n0)
    in Hr; [|apply value_nested|repeat split; discriminate|exact Hx].
  destruct Hr as [Hn Hc]. split; [exact Hn|]. split; [reflexivity|exact Hc].
Qed.

End NestedParser.


(** A bracket, after the token that follows it is read: [list] is
    [members] or [values].  The error [m] set when the input ends in the
    list is an ordinary one, or the unclosed object, set at the position
    of the brace. *)
Lemma bracket_nested n e e1 close (list : engine_t -> outcome (bool * engine_t)) m pos r :
  at_depth n e -> done e = false -> bracket (tk_tag (e_tk e)) = 1 ->
  nextToken e = Ret e1 -> done e1 = false ->
  (forall x r, nested (S n) x -> list x = Ret r ->
     nested (S n) (snd r) /\ fst r = done (snd r)
     /\ (done (snd r) = false -> tk_tag (e_tk (snd r)) = close)) ->
  bracket close = -1 ->
  ordinary m
  \/ (m = ErrUnclosedObject /\ tk_tag (e_tk e) = tagOpenBrace /\ pos = tk_pos (e_tk e)) ->
  (if e_depth e1 =? maxDepth then Ret (true, setError e1 ErrMaxObjectArrayDepth)
   else
     '(b, e) <- list (set_depth e1 (e_depth e1 + 1)) ;;
     if (b : bool) then
       Ret (true, if tk_is_EndOfInput e then setErrorAndPos e m pos else e)
     else (e <- nextToken (set_depth e (e_depth e - 1)) ;; Ret (done e, e))) = Ret r ->
  item_ok n r.
Proof.
  intros Hat Hd Hb Hr1 Hd1 Hlist Hclose Hm H.
  destruct (nested_next n e e1 Hat Hd Hr1) as (_ & Hs1 & Hdep1 & Hnb1). rewrite Hb in Hnb1.
  destruct (e_depth e1 =? maxDepth) eqn:Hmax; b2p.
  { injection H as <-. split; [|reflexivity].
    split; [intros [Hc|Hc]; discriminate|]. split; [|intros _ Hc; discriminate].
    intros _ _. exists (S n). lia. }
  assert (Hx : nested (S n) (set_depth e1 (e_depth e1 + 1))).
  { split; [|split; intros Hc; unfold done in *; cbn in Hc; congruence].
    intros _. exists (S n). split; [|apply level_kept_refl].
    split; [eapply sync_same; eauto|cbn [set_depth e_depth]; lia]. }
  destruct (list _) as [[b e2]| | |] eqn:Hl; try discriminate. cbn [bind] in H.
  destruct (Hlist _ _ Hx Hl) as (Hn2 & Hb2 & Hc2). cbn [fst snd] in *.
  destruct b.
  { injection H as <-.
    split; [|intros _; cbn [snd]; destruct (tk_is_EndOfInput e2); [reflexivity|auto]].
    cbn [snd]. destruct (tk_is_EndOfInput e2) eqn:He2.
    - destruct Hm as [Hm|(Hm & Htag & Hpos)]; [apply nested_error; exact Hm|].
      rewrite Hm, Hpos.
      destruct Hn2 as (Hn2 & _ & _).
      destruct (Hn2 (or_intror He2)) as (n2 & [Hs2 Hdep2] & Hk1 & Hk2 & Hk3 & _).
      split; [intros [Hc|Hc]; discriminate|]. split; [intros _ Hc; discriminate|].
      intros _ _. exists n, n2.
      split; [lia|]. split; [rewrite (sync_tag n e (proj1 Hat)); exact Htag|].
      split; [exact (sync_pos n e (proj1 Hat))|].
      split; [rewrite (sync_end n2 e2 Hs2), <- Hb2; exact He2|].
      split; [lia|]. intros j Hj. specialize (Hk3 j). lia.
    - apply (nested_stopped n (S n)); auto. }
  destruct Hn2 as (Hn2 & _ & _).
  destruct (Hn2 (or_introl (eq_sym Hb2))) as (n2 & [Hs2 Hdep2] & Hk1 & Hk2 & Hk3 & Hk4).
  specialize (Hc2 (eq_sym Hb2)).
  destruct (nextToken (set_depth e2 (e_depth e2 - 1))) as [e3| | |] eqn:Hr3;
    try discriminate.
  cbn [bind] in H. injection H as <-. split; [|cbn; auto]. cbn [snd].
  destruct (sync_next n2 (set_depth e2 (e_depth e2 - 1)) e3) as (Hs3 & Hdep3 & Hm3);
    [eapply sync_same; eauto|exact Hr3|].
  assert (Hnb3 : nesting_before (S n2) = nesting_before n2 - 1).
  { cbn [nesting_before]. rewrite (sync_tag n2 e2 Hs2), Hc2, Hclose. lia. }
  split; [|split].
  - intros _. exists (S n2). split.
    + split; [exact Hs3|]. rewrite Hdep3. cbn [set_depth e_depth]. lia.
    + split; [lia|]. split; [lia|]. split.
      * intros j Hj.
        destruct (Nat.eq_dec j n) as [Hjn|Hjn]; [rewrite Hjn; lia|].
        destruct (Nat.eq_dec j (S n2)) as [Hj2|Hj2]; [rewrite Hj2; lia|].
        specialize (Hk3 j). lia.
      * intros Hbn. pose proof (Hbn n (Nat.le_refl n)) as Hn.
        apply bounded_next; [|lia]. apply Hk4. apply bounded_next; [exact Hbn|lia].
  - intros Hd3 Hmsg. exfalso. destruct (Hm3 (eq_sym Hb2) Hd3). contradiction.
  - intros Hd3 Hmsg. exfalso. destruct (Hm3 (eq_sym Hb2) Hd3). contradiction.
Qed.

Lemma value_nested fuel : forall n e r,
  at_depth n e -> done e = false -> value fuel e = Ret r -> item_ok n r.
Proof.
  induction fuel as [|fuel IH]; intros n e r Hat Hd H; [discriminate|].
  cbn [value] in H. cbv zeta in H.
  destruct (tk_tag (e_tk e)) eqn:Htag;
    try (injection H as <-; apply item_ok_error; repeat split; discriminate).
  - (* tagOpenBrace *)
    destruct (nextToken e) as [e1| | |] eqn:Hr1; try discriminate. cbn [bind] in H.
    destruct (done e1) eqn:Hd1.
    + injection H as <-.
      destruct (nested_next n e e1 Hat Hd Hr1) as (Hm1 & Hs1 & Hdep1 & Hnb1).
      rewrite Htag in Hnb1. cbn [bracket] in Hnb1.
      split; [|intros _; cbn [snd]; destruct (tk_is_EndOfInput e1); [reflexivity|exact Hd1]].
      cbn [snd]. destruct (tk_is_EndOfInput e1) eqn:He1.
      * split; [intros [Hc|Hc]; discriminate|]. split; [intros _ Hc; discriminate|].
        intros _ _. exists n, (S n). split; [lia|].
        split; [rewrite (sync_tag n e (proj1 Hat)); exact Htag|].
        split; [exact (sync_pos n e (proj1 Hat))|].
        split; [rewrite (sync_end (S n) e1 Hs1), Hd1; exact He1|].
        split; [lia|]. intros j Hj. assert (Hjn : j = S n) by lia. rewrite Hjn. lia.
      * apply nested_done; auto.
    + apply (bracket_nested n e e1 tagCloseBrace (members (value fuel))) in H; auto.
      * rewrite Htag. reflexivity.
      * intros x r0. apply members_nested. exact IH.
  - (* tagOpenSquare *)
    destruct (nextToken e) as [e1| | |] eqn:Hr1; try discriminate. cbn [bind] in H.
    destruct (done e1) eqn:Hd1.
    + injection H as <-. apply item_ok_done; auto; [|repeat split; discriminate].
      intros He1. apply nested_done; [exact Hd1|exact He1|].
      apply (nested_next n e e1 Hat Hd Hr1). exact Hd1.
    + apply (bracket_nested n e e1 tagCloseSquare (values (value fuel))) in H; auto.
      * rewrite Htag. reflexivity.
      * intros x r0. apply values_nested. exact IH.
      * left. repeat split; discriminate.
  - (* tagQuotelessString *)
    assert (Hb : forall x : engine_t, e_tk x = e_tk e -> bracket (tk_tag (e_tk e)) = 0)
      by (intros x _; rewrite Htag; reflexivity).
    destruct (isLiteralValue _).
    { apply (finish_nested n e _ r Hat Hd) in H; [exact H|apply Hb|].
      apply kept_outputString, kept_refl. }
    destruct (isNumberExpr _) eqn:Hn.
    2:{ apply (finish_nested n e _ r Hat Hd) in H; [exact H|apply Hb|].
        apply outputQuotelessString_kept. }
    pose proof (sync_tk_inv n e (proj1 Hat)) as (_ & Htk). rewrite Htag in Htk.
    destruct Htk as (b & l & Hv & Hl0). rewrite Hv in *.
    destruct (evalNumberExpression_spec (e_errno e) b l Hl0 Hn)
      as [[Hu _]|(t & errno' & Hr & _ & [Ht|(Ht & m & Hm & Hnum)])];
      [rewrite Hu in H; discriminate| |];
      rewrite Hr in H; cbn [bind] in H; rewrite Ht in H;
      cbn [tag_eqb tag_index Z.eqb Pos.eqb negb assert] in H.
    + apply (finish_nested n e _ r Hat Hd) in H; [exact H|apply Hb|].
      repeat split. left. reflexivity.
    + injection H as <-. apply item_ok_error. unfold val_err. rewrite Hm.
      repeat split; intros ->; discriminate.
  - (* tagDoubleQuotedString *)
    apply (finish_nested n e _ r Hat Hd) in H; [exact H| |apply outputDoubleQuotedString_kept].
    intros _. rewrite Htag. reflexivity.
  - (* tagSingleQuotedString *)
    apply (finish_nested n e _ r Hat Hd) in H; [exact H| |apply outputSingleQuotedString_kept].
    intros _. rewrite Htag. reflexivity.
  - (* tagMultilineString *)
    destruct (outputMultilineString e) as [x'| | |] eqn:Hx; try discriminate.
    cbn [bind] in H.
    apply (finish_nested n e x' r Hat Hd) in H; [exact H| |].
    + intros _. rewrite Htag. reflexivity.
    + apply outputMultilineString_kept. exact Hx.
Qed.

Lemma parse_nested errno e : parse errno len = Ret e -> nested 0 e.
Proof.
  unfold parse. cbv zeta. intros H.
  destruct (nextToken (initial_engine errno len)) as [e1| | |] eqn:Hr1; try discriminate.
  cbn [bind] in H.
  assert (Hat0 : at_depth 0 (initial_engine errno len)).
  { split; [|reflexivity]. exists (initial_engine false len). repeat split. }
  destruct (nested_after 0 _ _ e1 Hat0 eq_refl (fun _ => eq_refl) (kept_refl _) Hr1)
    as [Hn1 _].
  destruct (members _ e1) as [[b e2]| | |] eqn:Hm; try discriminate. cbn [bind] in H.
  destruct (members_nested _ (value_nested _) 0 e1 _ Hn1 Hm) as (Hn2 & _).
  destruct (tag_eqb _ tagCloseBrace); injection H as <-;
    [apply nested_error; repeat split; discriminate|exact Hn2].
Qed.


End Nesting.


(** An [unclosed object] error is anchored at the opening brace of the
    object that is left open. *)
Lemma unclosed_object_left_open errno pos :
  decode_error errno = Ret (Some (ErrUnclosedObject, pos)) ->
  exists len, myStrLen = Ret len /\ left_open len pos
              /\ forall pos', left_open len pos' -> pos' = pos.
Proof.
  unfold decode_error. intros H.
  destruct myStrLen_spec as (len & Hlen & Hl0 & _). rewrite Hlen in H. cbn [bind] in H.
  destruct (len =? 0); [discriminate|].
  destruct (parse_spec errno len Hl0) as [[Hu _]|(e & Hr & _ & Hd & _)];
    [rewrite Hu in H; discriminate|].
  rewrite Hr in H. cbn [bind] in H.
  destruct (tk_is_EndOfInput e); [discriminate|]. injection H as Hm Hp.
  destruct (parse_nested len Hl0 errno e Hr) as (_ & _ & Hopen).
  specialize (Hopen Hd Hm). rewrite Hp in Hopen.
  exists len. split; [exact Hlen|]. split; [exact Hopen|].
  intros pos' H'. exact (left_open_unique len pos' pos H' Hopen).
Qed.

(** When decoding succeeds, no bracket is open where the input ends. *)
Lemma success_closes_brackets errno :
  decode_error errno = Ret None ->
  exists len n, myStrLen = Ret len /\ at_end len n = true /\ nesting_before len n = 0.
Proof.
  unfold decode_error. intros H.
  destruct myStrLen_spec as (len & Hlen & Hl0 & _). rewrite Hlen in H. cbn [bind] in H.
  exists len.
  destruct (len =? 0) eqn:E; b2p.
  { subst len. exists 1%nat. split; [exact Hlen|]. split; reflexivity. }
  destruct (parse_spec errno len Hl0) as [[Hu _]|(e & Hr & _ & Hd & _)];
    [rewrite Hu in H; discriminate|].
  rewrite Hr in H. cbn [bind] in H.
  destruct (tk_is_EndOfInput e) eqn:He; [|discriminate].
  destruct (parse_nested len Hl0 errno e Hr) as (Hreach & _ & _).
  destruct (Hreach (or_intror He)) as (n & [Hs Hdep] & _ & Hnb & _ & _).
  exists n. split; [exact Hlen|].
  split; [rewrite (sync_end len n e Hs), Hd; exact He|exact Hnb].
Qed.


(** When decoding succeeds, no more than [maxDepth] brackets are open
    at any token. *)
Lemma success_bounds_nesting errno :
  decode_error errno = Ret None ->
  exists len, myStrLen = Ret len /\ forall k, nesting_before len k <= maxDepth.
Proof.
  unfold decode_error. intros H.
  destruct myStrLen_spec as (len & Hlen & Hl0 & _). rewrite Hlen in H. cbn [bind] in H.
  exists len. split; [exact Hlen|].
  assert (Hend : forall n, at_end len n = true -> bounded len n ->
                           forall k, nesting_before len k <= maxDepth).
  { intros n He Hb k. destruct (Nat.le_gt_cases k n) as [Hk|Hk]; [apply Hb; exact Hk|].
    destruct (at_end_stays len n k He) as [_ Hs]; [lia|]. rewrite Hs. apply Hb. lia. }
  destruct (len =? 0) eqn:E; b2p.
  { subst len. apply (Hend 1%nat); [reflexivity|].
    intros j Hj. assert (Hc : j = 0%nat \/ j = 1%nat) by lia.
    destruct Hc as [Hc|Hc]; rewrite Hc; cbn; unfold maxDepth; lia. }
  destruct (parse_spec errno len Hl0) as [[Hu _]|(e & Hr & _ & Hd & _)];
    [rewrite Hu in H; discriminate|].
  rewrite Hr in H. cbn [bind] in H.
  destruct (tk_is_EndOfInput e) eqn:He; [|discriminate].
  destruct (parse_nested len Hl0 errno e Hr) as (Hreach & _ & _).
  destruct (Hreach (or_intror He)) as (n & [Hs Hdep] & _ & _ & _ & Hb).
  apply (Hend n); [rewrite (sync_end len n e Hs), Hd; exact He|].
  apply Hb. intros j Hj. assert (Hj0 : j = 0%nat) by lia. rewrite Hj0.
  cbn [nesting_before]. unfold maxDepth. lia.
Qed.

(** The depth error is reported only when more than [maxDepth] brackets
    are open at some token. *)
Lemma depth_error_too_deep errno pos :
  decode_error errno = Ret (Some (ErrMaxObjectArrayDepth, pos)) ->
  exists len k, myStrLen = Ret len /\ maxDepth < nesting_before len k.
Proof.
  unfold decode_error. intros H.
  destruct myStrLen_spec as (len & Hlen & Hl0 & _). rewrite Hlen in H. cbn [bind] in H.
  destruct (len =? 0); [discriminate|].
  destruct (parse_spec errno len Hl0) as [[Hu _]|(e & Hr & _ & Hd & _)];
    [rewrite Hu in H; discriminate|].
  rewrite Hr in H. cbn [bind] in H.
  destruct (tk_is_EndOfInput e); [discriminate|]. injection H as Hm _.
  destruct (parse_nested len Hl0 errno e Hr) as (_ & Hdeep & _).
  destruct (Hdeep Hd Hm) as (k & Hk). exists len, k. split; [exact Hlen|exact Hk].
Qed.


(** * Further properties of the code *)

(** X1. The depth error is reported only for an input nested too deep:
    when [qjson_decode] fails with [too many object or array
    encapsulations], there is a token of the input before which the
    opening brackets read outnumber the closing ones by more than
    [maxDepth]. *)
Theorem depth_error_needs_deep_nesting : forall (errno : bool) (pos : pos_t),
  decode_error errno = Ret (Some (ErrMaxObjectArrayDepth, pos)) ->
  exists len k, myStrLen = Ret len /\ maxDepth < nesting_before len k.
Proof.
  intros errno pos H. exact (depth_error_too_deep errno pos H).
Qed.

(** X2. The tokenizer does not depend on the output, the depth or
    [errno], and leaves them alone: [nextToken] on an engine with other
    values of these three fields reads the same token, pops the same
    bytes, and returns the three fields as it found them. *)
Theorem tokenizer_ignores_output_depth_errno :
  forall (e : engine_t) (o : list byte) (d : Z) (r : bool),
  nextToken (mkEngine (e_p e) (e_pos e) o (e_tk e) d r)
  = omap (fun e' => mkEngine (e_p e') (e_pos e') o (e_tk e') d r) (nextToken e).
Proof.
  intros e o d r. exact (nextToken_fr o d r e).
Qed.

(** X3. From an engine whose text left starts at its position and whose
    token is not an error, [nextToken] returns; it never gives back
    input; it pops at least one byte unless it sets an error; and the
    error it sets is one of the tokenizer or the end of input. *)
Theorem nextToken_consumes_or_fails : forall e : engine_t,
  wfp e -> done e = false ->
  exists e', nextToken e = Ret e' /\ wfp e'
    /\ e_out e' = e_out e /\ e_depth e' = e_depth e
    /\ sl_l (e_p e') <= sl_l (e_p e)
    /\ (done e' = false -> sl_l (e_p e') < sl_l (e_p e))
    /\ (done e' = true ->
        lexical (tk_msg (e_tk e')) = true \/ tk_msg (e_tk e') = ErrEndOfInput).
Proof.
  intros e Hw Hd.
  destruct (nextToken_spec e Hw Hd)
    as (e' & Hr & Hw' & Ho & Hdep & _ & _ & _ & Hle & Hlt & Herr).
  exists e'. repeat (split; [assumption|]). intros Hd'.
  destruct (Herr Hd') as (pos & m & Htk & Hm). rewrite Htk. exact Hm.
Qed.


(** X5. [numNextToken] returns, its assertion on the bytes popped
    holding: in the error state it changes nothing; otherwise it sets an
    error or pops at least one byte of the expression. *)
Theorem numNextToken_consumes_or_fails : forall e : numEngine_t,
  0 <= sl_l (ne_p e) -> 0 <= ne_pos e -> 0 <= nt_pos (ne_tk e) ->
  exists e', numNextToken e = Ret e'
    /\ 0 <= sl_l (ne_p e') /\ 0 <= ne_pos e' /\ 0 <= nt_pos (ne_tk e')
    /\ (numDone e = true -> e' = e)
    /\ (numDone e = false ->
        numDone e' = true \/ sl_l (ne_p e') < sl_l (ne_p e)).
Proof.
  intros e Hl Hpos Htk.
  destruct (numDone e) eqn:Hd.
  - exists e. unfold numNextToken. unfold numDone in Hd. rewrite Hd.
    repeat (split; [assumption || reflexivity|]). discriminate.
  - assert (Hok : ntk_ok (ne_tk e)).
    { split; [exact Htk|]. intros Ht. unfold numDone in Hd. rewrite Ht in Hd. discriminate. }
    destruct (numNextToken_spec e (conj Hl Hpos) Hok)
      as (e' & Hr & ((Hl' & Hpos') & (Htk' & _) & _ & Hlt & _) & _).
    exists e'. repeat (split; [assumption|]). split; [discriminate|].
    intros _. specialize (Hlt Hd). unfold nmu in Hlt. rewrite Hd in Hlt.
    destruct (numDone e'); [left; reflexivity|right; lia].
Qed.

(** X6. [myStrLen] returns the offset of the first NUL byte of the
    input. *)
Theorem myStrLen_finds_first_nul :
  exists len, myStrLen = Ret len /\ 0 <= len /\ mem len = 0
              /\ forall i, 0 <= i < len -> mem i <> 0.
Proof. exact myStrLen_spec. Qed.


Lemma column_ascii b l :
  0 <= l -> (forall i, 0 <= i < l -> utf8Table (mem (b + i)) = s1) ->
  column (mkSlice (Inp b) l) = Ret l.
Proof.
  intros Hl Hascii. unfold column. cbn [sl_p sl_l is_NULL negb assert].
  destruct (0 <=? l) eqn:E; b2p; [|lia]. cbn [assert].
  destruct (iter_spec column_body
              (fun st => 0 <= snd st <= l
                         /\ fst st = mkSlice (Inp (b + snd st)) (l - snd st))
              (fun col => col = l)
              (fun st => l - snd st)) with (fuel := fuel_of (mkSlice (Inp b) l))
                                           (s := (mkSlice (Inp b) l, 0))
    as (col & Hr & ->); [| | |exact Hr].
  - intros [q cnt] (Hc & Hq). cbn [fst snd] in *. subst q. split; [lia|].
    unfold column_body, continue, break. cbn [sl_p sl_l rd].
    destruct (0 <? l - cnt) eqn:E0; b2p; [|lia].
    rewrite Z.add_0_r, Hascii by lia.
    change (Z.land s1 15) with 1. cbn [Z.eqb orb].
    destruct (l - cnt <? 1) eqn:E1; b2p; [lia|].
    cbn [fst snd]. split; [|lia]. split; [lia|].
    unfold adv. cbn [sl_p sl_l padd]. apply slice_eq; lia.
  - cbn [fst snd]. split; [lia|]. apply slice_eq; lia.
  - cbn [snd]. unfold fuel_of. cbn [sl_l]. lia.
Qed.

(** X7. [column] returns a count between 0 and the byte length of the
    slice, and the byte length itself when every byte of the slice is a
    printable ASCII character or a TAB (the bytes of class [s1]). *)
Theorem column_counts_characters : forall b l : Z,
  0 <= l ->
  exists col, column (mkSlice (Inp b) l) = Ret col /\ 0 <= col <= l
    /\ ((forall i, 0 <= i < l -> utf8Table (mem (b + i)) = s1) -> col = l).
Proof.
  intros b l Hl.
  destruct (column_spec (mkSlice (Inp b) l) eq_refl Hl) as (col & Hr & Hc).
  exists col. split; [exact Hr|]. split; [exact Hc|].
  intros Hascii. rewrite (column_ascii b l Hl Hascii) in Hr. congruence.
Qed.

(** X8. The parsers of numeric literals never report more bytes than the
    slice holds: each returns 0, -1 or a length within the slice, so the
    assertion of [numPopBytes] holds for the tokens they delimit. *)
Theorem literal_parsers_stay_in_slice : forall v : slice_t,
  0 < sl_l v ->
  (exists n, parseBinLiteral v = Ret n /\ n <= sl_l v)
  /\ (exists n, parseOctLiteral v = Ret n /\ n <= sl_l v)
  /\ (exists n, parseIntLiteral v = Ret n /\ n <= sl_l v)
  /\ (exists n, parseHexLiteral v = Ret n /\ n <= sl_l v)
  /\ (exists n, parseDecLiteral v = Ret n /\ n <= sl_l v)
  /\ (exists n, parseISODateTimeLiteral v = Ret n /\ n <= sl_l v).
Proof.
  intros v Hl. assert (H0 : 0 <= sl_l v) by lia.
  split; [apply parseBinLiteral_spec, H0|].
  split; [apply parseOctLiteral_spec, H0|].
  split; [apply parseIntLiteral_spec, Hl|].
  split; [apply parseHexLiteral_spec, H0|].
  split; [apply parseDecLiteral_spec, H0|].
  destruct (parseISODateTimeLiteral_spec v H0) as (n & Hn & Hle).
  exists n. split; [exact Hn|lia].
Qed.


(** X10. [skipSpaces] returns, with an error of the tokenizer or at the
    end of the input or at the start of a token: no white space, newline
    or comment is left in front. *)
Theorem skipSpaces_stops_at_token_start : forall e : engine_t,
  wfp e ->
  exists err e', skipSpaces e = Ret (err, e')
    /\ advanced e e' /\ lex_err err
    /\ (err = None -> sl_l (e_p e') = 0 \/ token_start (e_p e')).
Proof. intros e Hw. exact (skipSpaces_spec e Hw). Qed.

(** X11. [doubleQuotedString] and [singleQuotedString] return; without
    error, either there is no such string in front and nothing is
    popped, or the slice returned starts at the opening quote and holds
    exactly the bytes popped. *)
Theorem quoted_string_is_what_is_popped : forall e : engine_t,
  wfp e ->
  (exists err s e', doubleQuotedString e = Ret (err, s, e')
     /\ advanced e e' /\ lex_err err
     /\ (err = None ->
         (is_NULL (sl_p s) = true /\ e' = e
          /\ (sl_l (e_p e) = 0 \/ (e_p e).[0] <> DQUOTE))
         \/ (s = mkSlice (Inp (pos_b (e_pos e))) (pos_b (e_pos e') - pos_b (e_pos e))
             /\ pos_b (e_pos e) < pos_b (e_pos e'))))
  /\ (exists err s e', singleQuotedString e = Ret (err, s, e')
        /\ advanced e e' /\ lex_err err
        /\ (err = None ->
            (is_NULL (sl_p s) = true /\ e' = e
             /\ (sl_l (e_p e) = 0 \/ (e_p e).[0] <> SQUOTE))
            \/ (s = mkSlice (Inp (pos_b (e_pos e))) (pos_b (e_pos e') - pos_b (e_pos e))
                /\ pos_b (e_pos e) < pos_b (e_pos e')))).
Proof.
  intros e Hw. split.
  - destruct (doubleQuotedString_spec e Hw) as (err & s & e' & Hr & H).
    exists err, s, e'. split; [exact Hr|exact H].
  - destruct (singleQuotedString_spec e Hw) as (err & s & e' & Hr & H).
    exists err, s, e'. split; [exact Hr|exact H].
Qed.




(** ** The characters that [qchar] accepts *)

(** The class of a first byte, by ranges (what [utf8Table] tabulates). *)
Definition utf8_class (b : Z) : Z :=
  if (b =? 9) || ((0x20 <=? b) && (b <=? 0x7F)) then s1
  else if (0xC2 <=? b) && (b <=? 0xDF) then s2
  else if b =? 0xE0 then s3
  else if b =? 0xED then s5
  else if (0xE1 <=? b) && (b <=? 0xEF) then s4
  else if b =? 0xF0 then s6
  else if (0xF1 <=? b) && (b <=? 0xF3) then s7
  else if b =? 0xF4 then s8
  else s0.

Lemma utf8Table_class b : 0 <= b < 256 -> utf8Table b = utf8_class b.
Proof.
  intros Hb. apply Z.eqb_eq.
  apply (byte_cases (fun b => utf8Table b =? utf8_class b)); [reflexivity|exact Hb].
Qed.

(** The byte sequences of the well-formed UTF-8 table of the Unicode
    standard (table 3-7), less the control characters other than TAB:
    the length of the sequence [b0 b1 b2 b3] starts with, if any.  [top]
    is the greatest third or fourth byte, 0xBF in the standard. *)
Definition utf8_length (top b0 b1 b2 b3 : Z) : option Z :=
  let between lo b hi := (lo <=? b) && (b <=? hi) in
  if (b0 =? 9) || between 0x20 b0 0x7F then Some 1
  else if between 0xC2 b0 0xDF then
    if between 0x80 b1 0xBF then Some 2 else None
  else if b0 =? 0xE0 then
    if between 0xA0 b1 0xBF && between 0x80 b2 top then Some 3 else None
  else if b0 =? 0xED then
    if between 0x80 b1 0x9F && between 0x80 b2 top then Some 3 else None
  else if between 0xE1 b0 0xEF then
    if between 0x80 b1 0xBF && between 0x80 b2 top then Some 3 else None
  else if b0 =? 0xF0 then
    if between 0x90 b1 0xBF && between 0x80 b2 top && between 0x80 b3 top
    then Some 4 else None
  else if between 0xF1 b0 0xF3 then
    if between 0x80 b1 0xBF && between 0x80 b2 top && between 0x80 b3 top
    then Some 4 else None
  else if b0 =? 0xF4 then
    if between 0x80 b1 0x8F && between 0x80 b2 top && between 0x80 b3 top
    then Some 4 else None
  else None.

Lemma rd_range p i : 0 <= rd p i < 256.
Proof.
  destruct p as [|off|m]; cbn [rd].
  - lia.
  - apply mem_range.
  - destruct (i <? 0); [lia|apply byteZ_range].
Qed.

(** Both sides of the statement below are tests of bytes: the tests of
    constants are evaluated, the others compared test by test. *)
Ltac eval_closed :=
  repeat match goal with
         | |- context [Z.eqb ?a ?b] =>
             let v := eval vm_compute in (Z.eqb a b) in
             lazymatch v with
             | true => change (Z.eqb a b) with true
             | false => change (Z.eqb a b) with false
             end
         | |- context [Z.ltb ?a ?b] =>
             let v := eval vm_compute in (Z.ltb a b) in
             lazymatch v with
             | true => change (Z.ltb a b) with true
             | false => change (Z.ltb a b) with false
             end
         | |- context [Z.leb ?a ?b] =>
             let v := eval vm_compute in (Z.leb a b) in
             lazymatch v with
             | true => change (Z.leb a b) with true
             | false => change (Z.leb a b) with false
             end
         | |- context [Z.land ?a 15] =>
             let v := eval vm_compute in (Z.land a 15) in
             lazymatch v with
             | Z0 => change (Z.land a 15) with v
             | Zpos _ => change (Z.land a 15) with v
             end
         | |- context [utf8Range ?a] =>
             let v := eval vm_compute in (utf8Range a) in
             lazymatch v with
             | Z0 => change (utf8Range a) with v
             | Zpos _ => change (utf8Range a) with v
             end
         end;
  cbn [andb orb negb]; cbv iota.

Ltac byte_tests :=
  eval_closed;
  repeat (match goal with
          | |- context [?a <? ?b] => destruct (Z.ltb_spec a b)
          | |- context [?a <=? ?b] => destruct (Z.leb_spec a b)
          | |- context [?a =? ?b] => destruct (Z.eqb_spec a b)
          end; try lia; cbn [andb orb negb]; cbv iota; eval_closed);
  try reflexivity.

(** The tests of the byte [b] first. *)
Ltac tests_on b :=
  repeat (match goal with
          | |- context [b =? ?c] => destruct (Z.eqb_spec b c)
          | |- context [?c <=? b] => destruct (Z.leb_spec c b)
          | |- context [b <=? ?c] => destruct (Z.leb_spec b c)
          | |- context [?c <? b] => destruct (Z.ltb_spec c b)
          | |- context [b <? ?c] => destruct (Z.ltb_spec b c)
          end; try lia; cbn [andb orb negb]; cbv iota).

Ltac class_is c :=
  lazymatch goal with
  | |- context [utf8_class ?b] =>
      let Hc := fresh "Hc" in
      assert (Hc : utf8_class b = c) by (unfold utf8_class; tests_on b; reflexivity);
      rewrite Hc; clear Hc;
      unfold utf8_length, utf8lo, utf8hi, s0, s1, s2, s3, s4, s5, s6, s7, s8;
      cbv zeta; eval_closed; tests_on b; byte_tests
  end.

(** X13. With an [unsigned] plain [char], [qchar] accepts exactly the
    well-formed UTF-8 sequences of the Unicode standard (less the control
    characters below 0x20 other than TAB) and rejects the others as
    invalid.  With a [signed] plain [char] the upper bound of the third
    and fourth bytes is not tested, their comparison with 0xBF being made
    on a negative [char]: every byte from 0x80 is accepted there. *)
Theorem qchar_accepts_wellformed_utf8 : forall e : engine_t,
  4 <= sl_l (e_p e) ->
  match utf8_length (if char_signed then 0xFF else 0xBF)
                    (e_p e).[0] (e_p e).[1] (e_p e).[2] (e_p e).[3] with
  | Some n => qchar e = (None, n)
  | None => qchar e = (Some (newError (e_pos e) ErrInvalidChar), 0)
  end.
Proof.
  intros e Hl. unfold qchar, qcharX, char. cbv zeta.
  pose proof (rd_range (sl_p (e_p e)) 0) as H0.
  pose proof (rd_range (sl_p (e_p e)) 1) as H1.
  pose proof (rd_range (sl_p (e_p e)) 2) as H2.
  pose proof (rd_range (sl_p (e_p e)) 3) as H3.
  rewrite (utf8Table_class _ H0).
  destruct (sl_l (e_p e) =? 0) eqn:E0; b2p; [lia|].
  generalize dependent ((e_p e).[0]). generalize dependent ((e_p e).[1]).
  generalize dependent ((e_p e).[2]). generalize dependent ((e_p e).[3]).
  intros b3 H3 b2 H2 b1 H1 b0 H0.
  assert (Hcases : b0 = 9 \/ 32 <= b0 <= 127 \/ 194 <= b0 <= 223 \/ b0 = 224
                   \/ b0 = 237 \/ (225 <= b0 <= 239 /\ b0 <> 237) \/ b0 = 240
                   \/ 241 <= b0 <= 243 \/ b0 = 244
                   \/ (b0 <> 9 /\ (b0 < 32 \/ (127 < b0 < 194) \/ 244 < b0))) by lia.
  destruct char_signed;
    destruct Hcases as [Hc|[Hc|[Hc|[Hc|[Hc|[Hc|[Hc|[Hc|[Hc|Hc]]]]]]]]].
  - class_is s1.
  - class_is s1.
  - class_is s2.
  - class_is s3.
  - class_is s5.
  - class_is s4.
  - class_is s6.
  - class_is s7.
  - class_is s8.
  - class_is s0.
  - class_is s1.
  - class_is s1.
  - class_is s2.
  - class_is s3.
  - class_is s5.
  - class_is s4.
  - class_is s6.
  - class_is s7.
  - class_is s8.
  - class_is s0.
Qed.


(** ** The values of the integer literals *)

(** A counted loop that reads one byte per trip is a loop over the list
    of the bytes. *)
Fixpoint bytes_loop {S R : Type} (body : Z -> S -> S + R) (bs : list Z) (s : S) : S + R :=
  match bs with
  | [] => inl s
  | c :: r =>
      match body c s with
      | inl s' => bytes_loop body r s'
      | inr x => inr x
      end
  end.

Lemma for_list {S R : Type} (f : Z -> Z) (body : Z -> S -> S + R) k : forall i s,
  for_ k i (fun p => body (f p)) s
  = bytes_loop body (map (fun j => f (i + Z.of_nat j)) (seq 0 k)) s.
Proof.
  induction k as [|k IH]; intros i s; [reflexivity|].
  cbn [for_ seq map bytes_loop]. rewrite Z.add_0_r.
  destruct (body (f i) s) as [s'|x]; [|reflexivity].
  rewrite IH, <- seq_shift, map_map. f_equal. apply map_ext. intros j. f_equal. lia.
Qed.

Lemma for_slice {S R : Type} (v : slice_t) (body : Z -> S -> S + R) (s : S) :
  for_range 0 (sl_l v) (fun p => body v.[p]) s = bytes_loop body (slice_bytes v) s.
Proof.
  unfold for_range, slice_bytes. rewrite Z.sub_0_r.
  rewrite (for_list (fun p => v.[p]) body). reflexivity.
Qed.

(** The value of a string of digits, underscores apart, read after the
    value [acc]. *)
Fixpoint digits_value (radix : Z) (digit : Z -> Z) (acc : Z) (bs : list Z) : Z :=
  match bs with
  | [] => acc
  | c :: r =>
      if c =? ch "_" then digits_value radix digit acc r
      else digits_value radix digit (radix * acc + digit c) r
  end.

Lemma digits_value_ge radix digit bs : forall acc,
  1 <= radix -> (forall c, 0 <= digit c) -> 0 <= acc ->
  acc <= digits_value radix digit acc bs.
Proof.
  induction bs as [|c r IH]; intros acc Hr Hd Ha; cbn [digits_value]; [lia|].
  destruct (c =? ch "_"); [apply IH; assumption|].
  specialize (Hd c) as Hc. specialize (IH (radix * acc + digit c) Hr Hd).
  nia.
Qed.

(** Bits: a digit put below a shifted value is added to it, and a mask of
    high bits tests a bound. *)
Lemma lor_shiftl val d k :
  0 <= val -> 0 <= k -> 0 <= d < 2 ^ k -> Z.lor (Z.shiftl val k) d = val * 2 ^ k + d.
Proof.
  intros Hv Hk Hd.
  assert (Hland : Z.land (Z.shiftl val k) d = 0).
  { assert (Hd' : d = Z.land (Z.ones k) d)
      by (rewrite Z.land_comm, Z.land_ones, Z.mod_small; lia).
    rewrite Hd', Z.land_assoc, Z.land_ones, Z.shiftl_mul_pow2, Z.mod_mul by lia.
    apply Z.land_0_l. }
  rewrite <- Z.lxor_lor by exact Hland. rewrite <- Z.add_nocarry_lxor by exact Hland.
  rewrite Z.shiftl_mul_pow2 by lia. reflexivity.
Qed.

Lemma high_mask val k :
  0 <= k <= 64 -> 0 <= val < 2 ^ 64 ->
  (Z.land val (2 ^ 64 - 2 ^ k) =? 0) = (val <? 2 ^ k).
Proof.
  intros Hk Hv.
  assert (Hm : 2 ^ 64 - 2 ^ k = Z.shiftl (Z.ones (64 - k)) k).
  { rewrite Z.shiftl_mul_pow2, Z.ones_equiv, <- Z.sub_1_r by lia.
    rewrite Z.mul_sub_distr_r, <- Z.pow_add_r by lia.
    replace (64 - k + k) with 64 by lia. lia. }
  rewrite Hm. destruct (val <? 2 ^ k) eqn:E; b2p.
  - apply Z.eqb_eq.
    assert (Hv' : val = Z.land val (Z.ones k)) by (rewrite Z.land_ones, Z.mod_small; lia).
    rewrite Hv', <- Z.land_assoc, (Z.land_comm (Z.ones k)), (Z.land_ones _ k) by lia.
    rewrite Z.shiftl_mul_pow2, Z.mod_mul by lia. apply Z.land_0_r.
  - apply Z.eqb_neq. intros H0.
    assert (Hs : Z.shiftr (Z.land val (Z.shiftl (Z.ones (64 - k)) k)) k = val / 2 ^ k).
    { rewrite Z.shiftr_land, Z.shiftr_shiftl_l, Z.sub_diag, Z.shiftl_0_r by lia.
      rewrite Z.land_ones, Z.shiftr_div_pow2 by lia.
      apply Z.mod_small. split; [apply Z.div_pos; lia|].
      apply Z.div_lt_upper_bound; [lia|]. rewrite <- Z.pow_add_r by lia.
      replace (k + (64 - k)) with 64 by lia. lia. }
    rewrite H0, Z.shiftr_0_l in Hs.
    assert (1 <= val / 2 ^ k); [|lia].
    apply Z.div_le_lower_bound; lia.
Qed.


(** The bodies of the loops of the four decoders, as functions of the
    byte read. *)
Definition bin_step (c val : Z) : Z + Z :=
  if c =? ch "_" then inl val
  else if negb (Z.land val 0x8000000000000000 =? 0) then inr (-1)
  else
    let val := to_uint64 (Z.shiftl val 1) in
    inl (if c =? ch "1" then Z.lor val 1 else val).

Definition oct_step (c val : Z) : Z + Z :=
  if c =? ch "_" then inl val
  else if negb (Z.land val 0xF000000000000000 =? 0) then inr (-1)
  else inl (Z.lor (to_uint64 (Z.shiftl val 3)) (to_uint64 (char c - ch "0"))).

Definition int_step (c val : Z) : Z + Z :=
  if c =? ch "_" then inl val
  else if 0x1999999999999999 <? val then inr (-1)
  else inl (to_uint64 (val * 10 + to_uint64 (char c - ch "0"))).

Definition hex_step (c val : Z) : Z + Z :=
  if c =? ch "_" then inl val
  else if negb (Z.land val 0xF000000000000000 =? 0) then inr (-1)
  else if inRange c (ch "0") (ch "9") then
    inl (Z.lor (to_uint64 (Z.shiftl val 4)) (to_uint64 (char c - ch "0")))
  else
    inl (Z.lor (to_uint64 (Z.shiftl val 4))
               (to_uint64 (to_uint64 (Z.land c 0xDF - ch "A") + 10))).

Lemma decodeBinLiteral_loop v :
  decodeBinLiteral v
  = match bytes_loop bin_step (slice_bytes (adv v 2)) 0 with
    | inr r => r
    | inl val => if negb (Z.land val 0x8000000000000000 =? 0) then -1 else to_int64 val
    end.
Proof. rewrite <- for_slice. reflexivity. Qed.

Lemma decodeOctLiteral_loop v :
  decodeOctLiteral v
  = match bytes_loop oct_step
            (slice_bytes (if Z.land v.[1] 0xDF =? ch "O" then adv v 2 else adv v 1)) 0 with
    | inr r => r
    | inl val => to_int32 (to_int64 val)
    end.
Proof. rewrite <- for_slice. reflexivity. Qed.

Lemma decodeIntLiteral_loop v :
  decodeIntLiteral v
  = match bytes_loop int_step (slice_bytes v) 0 with
    | inr r => r
    | inl val => if negb (Z.land val 0x8000000000000000 =? 0) then -1 else to_int64 val
    end.
Proof. rewrite <- for_slice. reflexivity. Qed.

Lemma decodeHexLiteral_loop v :
  decodeHexLiteral v
  = match bytes_loop hex_step (slice_bytes (adv v 2)) 0 with
    | inr r => r
    | inl val => if negb (Z.land val 0x8000000000000000 =? 0) then -1 else to_int64 val
    end.
Proof. rewrite <- for_slice. reflexivity. Qed.

(** The digits and their values. *)
Definition bin_char (c : Z) : bool := (c =? ch "0") || (c =? ch "1").
Definition oct_char (c : Z) : bool := (ch "0" <=? c) && (c <=? ch "7").
Definition dec_char (c : Z) : bool := (ch "0" <=? c) && (c <=? ch "9").
Definition hex_char (c : Z) : bool :=
  dec_char c || ((ch "A" <=? c) && (c <=? ch "F")) || ((ch "a" <=? c) && (c <=? ch "f")).

Definition dec_digit (c : Z) : Z := c - ch "0".
Definition hex_digit (c : Z) : Z :=
  if c <=? ch "9" then c - ch "0"
  else if c <=? ch "F" then c - ch "A" + 10
  else c - ch "a" + 10.

(** A string of digits and underscores. *)
Definition digits_of (digit_char : Z -> bool) (bs : list Z) : bool :=
  forallb (fun c => (c =? ch "_") || digit_char c) bs.

Lemma char_ascii c : 0 <= c < 128 -> char c = c.
Proof.
  intros Hc. unfold char. destruct (128 <=? c) eqn:E; b2p; [lia|].
  rewrite andb_false_r. reflexivity.
Qed.

Lemma to_uint64_small z : 0 <= z < 2 ^ 64 -> to_uint64 z = z.
Proof. intros Hz. unfold to_uint64. apply Z.mod_small. exact Hz. Qed.

Lemma to_int64_small z : 0 <= z < 2 ^ 63 -> to_int64 z = z.
Proof. intros Hz. unfold to_int64. rewrite Z.mod_small; lia. Qed.

Lemma hex_digit_code c :
  hex_char c = true ->
  (if inRange c (ch "0") (ch "9") then to_uint64 (char c - ch "0")
   else to_uint64 (to_uint64 (Z.land c 0xDF - ch "A") + 10)) = hex_digit c
  /\ 0 <= hex_digit c < 16.
Proof.
  intros Hc.
  assert (Hr : 0 <= c < 128).
  { unfold hex_char, dec_char in Hc. change (ch "0") with 48 in Hc.
    change (ch "9") with 57 in Hc. change (ch "A") with 65 in Hc.
    change (ch "F") with 70 in Hc. change (ch "a") with 97 in Hc.
    change (ch "f") with 102 in Hc.
    repeat match type of Hc with
           | context [?a <=? ?b] => destruct (Z.leb_spec a b)
           end; cbn in Hc; try discriminate; lia. }
  rewrite (char_ascii c Hr).
  assert (Hall : forall c, 0 <= c < 256 ->
            implb (hex_char c)
              (((if inRange c (ch "0") (ch "9") then to_uint64 (c - ch "0")
                 else to_uint64 (to_uint64 (Z.land c 0xDF - ch "A") + 10)) =? hex_digit c)
               && (0 <=? hex_digit c) && (hex_digit c <? 16)) = true).
  { apply byte_cases. reflexivity. }
  specialize (Hall c). rewrite Hc in Hall. cbn [implb] in Hall.
  assert (H : 0 <= c < 256) by lia. specialize (Hall H). b2p. split; [assumption|lia].
Qed.


Lemma dec_digit_code c :
  dec_char c = true ->
  to_uint64 (char c - ch "0") = dec_digit c /\ 0 <= dec_digit c < 10.
Proof.
  unfold dec_char, dec_digit. change (ch "0") with 48. change (ch "9") with 57.
  intros Hc. b2p. rewrite char_ascii, to_uint64_small by lia. lia.
Qed.

Lemma digits_value_mono radix digit digit_char :
  1 <= radix -> (forall c, digit_char c = true -> 0 <= digit c) ->
  forall bs acc, 0 <= acc -> digits_of digit_char bs = true ->
  acc <= digits_value radix digit acc bs.
Proof.
  intros Hr Hd. induction bs as [|x bs IH]; intros acc Ha Hb; cbn [digits_value]; [lia|].
  cbn [digits_of forallb] in Hb. apply andb_prop in Hb. destruct Hb as [Hx Hb].
  destruct (x =? ch "_") eqn:Ex; [apply IH; assumption|].
  cbn [orb] in Hx. specialize (Hd x Hx).
  specialize (IH (radix * acc + digit x) ltac:(nia) Hb). nia.
Qed.

(** The loops of the decoders: the value read so far stays below 2^64,
    and the loop is left early exactly when the next digit would push
    the value beyond. *)
Lemma hex_loop bs : forall val,
  0 <= val < 2 ^ 64 -> digits_of hex_char bs = true ->
  match bytes_loop hex_step bs val with
  | inl val' => val' = digits_value 16 hex_digit val bs /\ 0 <= val' < 2 ^ 64
  | inr r => r = -1 /\ 2 ^ 64 <= digits_value 16 hex_digit val bs
  end.
Proof.
  induction bs as [|c r IH]; intros val Hv Hbs; cbn [bytes_loop digits_value].
  - split; [reflexivity|exact Hv].
  - cbn [digits_of forallb] in Hbs. apply andb_prop in Hbs. destruct Hbs as [Hc Hr].
    unfold hex_step at 1. destruct (c =? ch "_") eqn:Eu; [apply IH; assumption|].
    cbn [orb] in Hc.
    destruct (hex_digit_code c Hc) as [Hcode Hd].
    change 0xF000000000000000 with (2 ^ 64 - 2 ^ 60).
    rewrite (high_mask val 60) by lia.
    destruct (val <? 2 ^ 60) eqn:E; b2p; cbn [negb].
    + assert (Hnew : (if inRange c (ch "0") (ch "9")
                      then @inl Z Z (Z.lor (to_uint64 (Z.shiftl val 4)) (to_uint64 (char c - ch "0")))
                      else inl (Z.lor (to_uint64 (Z.shiftl val 4))
                                  (to_uint64 (to_uint64 (Z.land c 0xDF - ch "A") + 10))))
                     = inl (16 * val + hex_digit c)).
      { assert (Hs : to_uint64 (Z.shiftl val 4) = Z.shiftl val 4)
          by (apply to_uint64_small; rewrite Z.shiftl_mul_pow2; lia).
        rewrite Hs.
        destruct (inRange c (ch "0") (ch "9")); rewrite Hcode, lor_shiftl by lia;
          f_equal; lia. }
      rewrite Hnew. apply IH; [lia|exact Hr].
    + split; [reflexivity|].
      assert (Hge := digits_value_mono 16 hex_digit hex_char ltac:(lia)
                       (fun x Hx => proj1 (proj2 (hex_digit_code x Hx)))
                       r (16 * val + hex_digit c) ltac:(lia) Hr).
      lia.
Qed.

Lemma bin_loop bs : forall val,
  0 <= val < 2 ^ 64 -> digits_of bin_char bs = true ->
  match bytes_loop bin_step bs val with
  | inl val' => val' = digits_value 2 dec_digit val bs /\ 0 <= val' < 2 ^ 64
  | inr r => r = -1 /\ 2 ^ 64 <= digits_value 2 dec_digit val bs
  end.
Proof.
  induction bs as [|c r IH]; intros val Hv Hbs; cbn [bytes_loop digits_value].
  - split; [reflexivity|exact Hv].
  - cbn [digits_of forallb] in Hbs. apply andb_prop in Hbs. destruct Hbs as [Hc Hr].
    unfold bin_step at 1. destruct (c =? ch "_") eqn:Eu; [apply IH; assumption|].
    cbn [orb] in Hc.
    change 0x8000000000000000 with (2 ^ 64 - 2 ^ 63).
    rewrite (high_mask val 63) by lia.
    assert (Hd : dec_digit c = 0 /\ (c =? ch "1") = false
                 \/ dec_digit c = 1 /\ (c =? ch "1") = true).
    { unfold bin_char in Hc. unfold dec_digit. change (ch "0") with 48 in *.
      change (ch "1") with 49 in *. apply orb_prop in Hc.
      destruct Hc as [Hc|Hc]; b2p; subst c; [left|right]; split; reflexivity. }
    destruct (val <? 2 ^ 63) eqn:E; b2p; cbn [negb].
    + cbv zeta.
      assert (Hs : to_uint64 (Z.shiftl val 1) = Z.shiftl val 1)
        by (apply to_uint64_small; rewrite Z.shiftl_mul_pow2; lia).
      rewrite Hs.
      assert (Hnew : (if c =? ch "1" then Z.lor (Z.shiftl val 1) 1 else Z.shiftl val 1)
                     = 2 * val + dec_digit c).
      { destruct Hd as [[Hd ->]|[Hd ->]]; rewrite Hd.
        - rewrite Z.shiftl_mul_pow2 by lia. lia.
        - rewrite lor_shiftl by lia. lia. }
      rewrite Hnew. apply IH; [lia|exact Hr].
    + split; [reflexivity|].
      assert (Hpos : forall x, bin_char x = true -> 0 <= dec_digit x).
      { intros x Hx. unfold bin_char in Hx. unfold dec_digit. change (ch "0") with 48 in *.
        change (ch "1") with 49 in *. apply orb_prop in Hx. destruct Hx; b2p; lia. }
      assert (Hge := digits_value_mono 2 dec_digit bin_char ltac:(lia) Hpos
                       r (2 * val + dec_digit c)).
      destruct Hd as [[Hd _]|[Hd _]]; rewrite Hd in *; specialize (Hge ltac:(lia) Hr); lia.
Qed.


Lemma oct_loop bs : forall val,
  0 <= val < 2 ^ 63 -> digits_of oct_char bs = true ->
  match bytes_loop oct_step bs val with
  | inl val' => val' = digits_value 8 dec_digit val bs /\ 0 <= val' < 2 ^ 63
  | inr r => r = -1 /\ 2 ^ 63 <= digits_value 8 dec_digit val bs
  end.
Proof.
  assert (Hoct : forall x, oct_char x = true -> dec_char x = true).
  { intros x. unfold oct_char, dec_char. change (ch "0") with 48. change (ch "7") with 55.
    change (ch "9") with 57. intros Hx. b2p. apply andb_true_intro. split; b2p; lia. }
  induction bs as [|c r IH]; intros val Hv Hbs; cbn [bytes_loop digits_value].
  - split; [reflexivity|exact Hv].
  - cbn [digits_of forallb] in Hbs. apply andb_prop in Hbs. destruct Hbs as [Hc Hr].
    unfold oct_step at 1. destruct (c =? ch "_") eqn:Eu; [apply IH; assumption|].
    cbn [orb] in Hc. destruct (dec_digit_code c (Hoct c Hc)) as [Hcode _].
    assert (Hd : 0 <= dec_digit c < 8).
    { unfold oct_char in Hc. unfold dec_digit. change (ch "0") with 48 in *.
      change (ch "7") with 55 in *. b2p. lia. }
    change 0xF000000000000000 with (2 ^ 64 - 2 ^ 60).
    rewrite (high_mask val 60) by lia.
    destruct (val <? 2 ^ 60) eqn:E; b2p; cbn [negb].
    + assert (Hs : to_uint64 (Z.shiftl val 3) = Z.shiftl val 3)
        by (apply to_uint64_small; rewrite Z.shiftl_mul_pow2; lia).
      rewrite Hs, Hcode, lor_shiftl by lia.
      replace (val * 2 ^ 3 + dec_digit c) with (8 * val + dec_digit c) by lia.
      apply IH; [lia|exact Hr].
    + split; [reflexivity|].
      assert (Hge := digits_value_mono 8 dec_digit oct_char ltac:(lia)
                       (fun x Hx => proj1 (proj2 (dec_digit_code x (Hoct x Hx))))
                       r (8 * val + dec_digit c) ltac:(lia) Hr).
      lia.
Qed.

Lemma int_loop bs : forall val,
  0 <= val -> digits_of dec_char bs = true ->
  digits_value 10 dec_digit val bs < 2 ^ 64 ->
  bytes_loop int_step bs val = inl (digits_value 10 dec_digit val bs).
Proof.
  induction bs as [|c r IH]; intros val Hv Hbs Hlt; cbn [bytes_loop digits_value] in *.
  - reflexivity.
  - cbn [digits_of forallb] in Hbs. apply andb_prop in Hbs. destruct Hbs as [Hc Hr].
    unfold int_step at 1. destruct (c =? ch "_") eqn:Eu; [apply IH; assumption|].
    cbn [orb] in Hc. destruct (dec_digit_code c Hc) as [Hcode Hd].
    assert (Hge := digits_value_mono 10 dec_digit dec_char ltac:(lia)
                     (fun x Hx => proj1 (proj2 (dec_digit_code x Hx)))
                     r (10 * val + dec_digit c) ltac:(lia) Hr).
    destruct (0x1999999999999999 <? val) eqn:E; b2p; [lia|].
    rewrite Hcode, to_uint64_small by lia.
    replace (val * 10 + dec_digit c) with (10 * val + dec_digit c) by lia.
    apply IH; [lia|exact Hr|exact Hlt].
Qed.

(** The last test of three of the decoders, on a value below 2^64. *)
Lemma sign_test val :
  0 <= val < 2 ^ 64 ->
  (if negb (Z.land val 0x8000000000000000 =? 0) then -1 else to_int64 val)
  = if val <? 2 ^ 63 then val else -1.
Proof.
  intros Hv. change 0x8000000000000000 with (2 ^ 64 - 2 ^ 63).
  rewrite (high_mask val 63) by lia.
  destruct (val <? 2 ^ 63) eqn:E; b2p; cbn [negb]; [|reflexivity].
  apply to_int64_small. lia.
Qed.

(** X14. The value of a hexadecimal literal.  For a literal whose bytes
    after the two bytes of the header are hexadecimal digits and
    underscores, [decodeHexLiteral] returns the number these digits write
    in base 16, the underscores skipped, when that number is below 2^63,
    and -1 when it is not: no value wraps around. *)
Theorem decodeHexLiteral_value : forall v : slice_t,
  digits_of hex_char (slice_bytes (adv v 2)) = true ->
  decodeHexLiteral v
  = if digits_value 16 hex_digit 0 (slice_bytes (adv v 2)) <? 2 ^ 63
    then digits_value 16 hex_digit 0 (slice_bytes (adv v 2))
    else -1.
Proof.
  intros v Hd. rewrite decodeHexLiteral_loop.
  assert (H := hex_loop (slice_bytes (adv v 2)) 0 ltac:(lia) Hd).
  destruct (bytes_loop hex_step (slice_bytes (adv v 2)) 0) as [val|r].
  - destruct H as [Hval Hr]. rewrite sign_test by exact Hr. rewrite Hval. reflexivity.
  - destruct H as [-> Hge].
    destruct (digits_value 16 hex_digit 0 (slice_bytes (adv v 2)) <? 2 ^ 63) eqn:E; b2p;
      [lia|reflexivity].
Qed.

(** X15. The value of a binary literal.  For a literal whose bytes after
    the two bytes of the header are the digits 0 and 1 and underscores,
    [decodeBinLiteral] returns the number these digits write in base 2
    when that number is below 2^63, and -1 when it is not. *)
Theorem decodeBinLiteral_value : forall v : slice_t,
  digits_of bin_char (slice_bytes (adv v 2)) = true ->
  decodeBinLiteral v
  = if digits_value 2 dec_digit 0 (slice_bytes (adv v 2)) <? 2 ^ 63
    then digits_value 2 dec_digit 0 (slice_bytes (adv v 2))
    else -1.
Proof.
  intros v Hd. rewrite decodeBinLiteral_loop.
  assert (H := bin_loop (slice_bytes (adv v 2)) 0 ltac:(lia) Hd).
  destruct (bytes_loop bin_step (slice_bytes (adv v 2)) 0) as [val|r].
  - destruct H as [Hval Hr]. rewrite sign_test by exact Hr. rewrite Hval. reflexivity.
  - destruct H as [-> Hge].
    destruct (digits_value 2 dec_digit 0 (slice_bytes (adv v 2)) <? 2 ^ 63) eqn:E; b2p;
      [lia|reflexivity].
Qed.

(** X16. The value of a decimal integer literal, as long as it is below
    2^64.  For a string of decimal digits and underscores that writes a
    number below 2^64, [decodeIntLiteral] returns that number when it is
    below 2^63 and -1 when it is not: the test of [val] against
    0x1999999999999999 never fires and the multiplication never wraps. *)
Theorem decodeIntLiteral_value : forall v : slice_t,
  digits_of dec_char (slice_bytes v) = true ->
  digits_value 10 dec_digit 0 (slice_bytes v) < 2 ^ 64 ->
  decodeIntLiteral v
  = if digits_value 10 dec_digit 0 (slice_bytes v) <? 2 ^ 63
    then digits_value 10 dec_digit 0 (slice_bytes v)
    else -1.
Proof.
  intros v Hd Hlt. rewrite decodeIntLiteral_loop.
  rewrite (int_loop (slice_bytes v) 0 ltac:(lia) Hd Hlt).
  apply sign_test. split; [|exact Hlt].
  apply (digits_value_mono 10 dec_digit dec_char ltac:(lia)
           (fun x Hx => proj1 (proj2 (dec_digit_code x Hx))) (slice_bytes v) 0 ltac:(lia) Hd).
Qed.

(** X17. The value of an octal literal.  For a literal whose bytes after
    the header (0o, 0O, or a single 0) are octal digits and underscores,
    [decodeOctLiteral] returns -1 when the number they write in base 8 is
    2^63 or more, and otherwise that number converted to [int]: it is the
    number itself only when it is below 2^31. *)
Theorem decodeOctLiteral_value : forall v : slice_t,
  digits_of oct_char
    (slice_bytes (if Z.land v.[1] 0xDF =? ch "O" then adv v 2 else adv v 1)) = true ->
  decodeOctLiteral v
  = (let V := digits_value 8 dec_digit 0
                (slice_bytes (if Z.land v.[1] 0xDF =? ch "O" then adv v 2 else adv v 1)) in
     if V <? 2 ^ 63 then to_int32 V else -1)
  /\ (digits_value 8 dec_digit 0
        (slice_bytes (if Z.land v.[1] 0xDF =? ch "O" then adv v 2 else adv v 1)) < 2 ^ 31 ->
      decodeOctLiteral v
      = digits_value 8 dec_digit 0
          (slice_bytes (if Z.land v.[1] 0xDF =? ch "O" then adv v 2 else adv v 1))).
Proof.
  intros v Hd. cbv zeta. rewrite decodeOctLiteral_loop.
  set (bs := slice_bytes (if Z.land v.[1] 0xDF =? ch "O" then adv v 2 else adv v 1)) in *.
  assert (H := oct_loop bs 0 ltac:(lia) Hd).
  assert (Hpos := digits_value_mono 8 dec_digit oct_char ltac:(lia)
                    (fun x Hx => ltac:(unfold oct_char in Hx; unfold dec_digit;
                                       change (ch "0") with 48 in *; b2p; lia))
                    bs 0 ltac:(lia) Hd).
  destruct (bytes_loop oct_step bs 0) as [val|r].
  - destruct H as [Hval Hr]. rewrite to_int64_small by exact Hr. rewrite <- Hval.
    destruct (val <? 2 ^ 63) eqn:E; b2p; [|lia].
    split; [reflexivity|]. intros Hsmall. unfold to_int32. rewrite Z.mod_small; lia.
  - destruct H as [-> Hge]. destruct (digits_value 8 dec_digit 0 bs <? 2 ^ 63) eqn:E; b2p; [lia|].
    split; [reflexivity|]. lia.
Qed.


(** ** The literals that the parsers accept are strings of digits *)

Lemma digits_of_slice (digit_char : Z -> bool) v :
  (forall i, 0 <= i < sl_l v -> (v.[i] =? ch "_") || digit_char v.[i] = true) ->
  digits_of digit_char (slice_bytes v) = true.
Proof.
  intros H. unfold digits_of, slice_bytes. apply forallb_forall. intros c Hc.
  apply in_map_iff in Hc. destruct Hc as (j & <- & Hj). apply in_seq in Hj.
  apply H. lia.
Qed.

Lemma parseDigits_digits isDigit v n :
  isDigit v.[0] = true ->
  iter (fuel_of v) (parseDigits_body isDigit v) 1 = Ret n -> 0 < n ->
  forall i, 0 <= i < n -> (v.[i] =? ch "_") || isDigit v.[i] = true.
Proof.
  intros H0 Hn.
  apply (iter_post (parseDigits_body isDigit v)
           (fun p => 1 <= p /\
                     forall i, 0 <= i < p -> (v.[i] =? ch "_") || isDigit v.[i] = true)
           (fun n => 0 < n ->
                     forall i, 0 <= i < n -> (v.[i] =? ch "_") || isDigit v.[i] = true)
           ) with (fuel := fuel_of v) (s := 1); [| |exact Hn].
  - intros p [Hp Hinv]. unfold parseDigits_body, continue, break.
    destruct (p <? sl_l v) eqn:E; b2p.
    + destruct (v.[p] =? ch "_") eqn:Eu; cbv beta iota zeta; cbn [andb].
      * destruct (p + 1 =? sl_l v) eqn:E2; [intros; lia|].
        destruct (isDigit v.[p + 1]) eqn:Ed; cbn [negb].
        -- split; [lia|]. intros i Hi.
           destruct (Z.eq_dec i (p + 1)) as [->|]; [rewrite Ed; apply orb_true_r|].
           destruct (Z.eq_dec i p) as [->|]; [rewrite Eu; reflexivity|].
           apply Hinv. lia.
        -- replace (p + 1 - 1) with p by lia. rewrite Eu. intros; lia.
      * destruct (isDigit v.[p]) eqn:Ed; cbn [negb].
        -- split; [lia|]. intros i Hi.
           destruct (Z.eq_dec i p) as [->|]; [rewrite Ed; apply orb_true_r|].
           apply Hinv. lia.
        -- destruct (v.[p - 1] =? ch "_"); [intros; lia|].
           intros _ i Hi. apply Hinv. exact Hi.
    + intros _ i Hi. apply Hinv. lia.
  - split; [lia|]. intros i Hi. assert (i = 0) as -> by lia. rewrite H0. apply orb_true_r.
Qed.

(** A literal made of a header of [k] bytes and digits: the bytes after
    the header are digits and underscores. *)
Lemma headed_literal_digits (isDigit : Z -> bool) (parseDigits : slice_t -> outcome Z)
  k v b n :
  (forall w p, 0 < sl_l w -> parseDigits w = Ret p -> 0 < p ->
     p <= sl_l w /\ forall i, 0 <= i < p -> (w.[i] =? ch "_") || isDigit w.[i] = true) ->
  sl_p v = Inp b -> 0 <= k ->
  (let '(n, v) := skipHeaderAndOptionalUnderscore k v in
   if 0 <=? n then
     p <- parseDigits v ;;
     if 0 <? p then Ret (n + p) else Ret (-1)
   else Ret (-1)) = Ret n ->
  0 < n ->
  k < n <= sl_l v
  /\ forall i, 0 <= i < n - k ->
       (rd (Inp (b + k)) i =? ch "_") || isDigit (rd (Inp (b + k)) i) = true.
Proof.
  intros Hd Hv Hk H Hn.
  destruct (skipHeaderAndOptionalUnderscore k v) as [n' v'] eqn:Hs.
  destruct (0 <=? n') eqn:E; b2p; [|injection H as <-; lia].
  destruct (skipHeader_spec _ _ _ _ Hk Hs E) as [H1 H2].
  destruct (parseDigits v') as [p| | |] eqn:Hp; cbn [bind] in H; try discriminate.
  destruct (0 <? p) eqn:E2; b2p; injection H as <-; [|lia].
  destruct (Hd v' p H1 Hp E2) as [Hple Hall].
  unfold skipHeaderAndOptionalUnderscore in Hs.
  destruct (sl_l v <=? k) eqn:E3; b2p; [injection Hs as <- <-; lia|].
  destruct v as [vp vl]. cbn [sl_p sl_l] in *. subst vp.
  cbv zeta in Hs. cbn [adv sl_p sl_l padd rd] in Hs.
  destruct (mem (b + k + 0) =? ch "_") eqn:Eu.
  - destruct (vl - k - 1 =? 0); injection Hs as <- <-; [lia|].
    cbn [adv sl_p sl_l padd rd] in *.
    split; [lia|]. intros i Hi.
    destruct (Z.eq_dec i 0) as [->|Hne]; [rewrite Eu; reflexivity|].
    specialize (Hall (i - 1) ltac:(lia)). cbn [sl_p rd] in Hall.
    replace (b + k + 1 + (i - 1)) with (b + k + i) in Hall by lia. exact Hall.
  - injection Hs as <- <-. cbn [adv sl_p sl_l padd rd] in *.
    split; [lia|]. intros i Hi.
    specialize (Hall i ltac:(lia)). exact Hall.
Qed.

Lemma isHexDigit_hex_char c : 0 <= c < 256 -> isHexDigit c = hex_char c.
Proof.
  intros Hc.
  assert (H : forall c, 0 <= c < 256 -> Bool.eqb (isHexDigit c) (hex_char c) = true)
    by (apply byte_cases; reflexivity).
  apply Bool.eqb_prop. apply H. exact Hc.
Qed.

Lemma isIntDigit_dec_char c : 0 <= c < 256 -> isIntDigit c = dec_char c.
Proof.
  intros Hc.
  assert (H : forall c, 0 <= c < 256 -> Bool.eqb (isIntDigit c) (dec_char c) = true)
    by (apply byte_cases; reflexivity).
  apply Bool.eqb_prop. apply H. exact Hc.
Qed.

Lemma isOctDigit_oct_char c : 0 <= c < 256 -> isOctDigit c = oct_char c.
Proof.
  intros Hc.
  assert (H : forall c, 0 <= c < 256 -> Bool.eqb (isOctDigit c) (oct_char c) = true)
    by (apply byte_cases; reflexivity).
  apply Bool.eqb_prop. apply H. exact Hc.
Qed.

Lemma parseHexDigits_digits w p :
  0 < sl_l w -> parseHexDigits w = Ret p -> 0 < p ->
  p <= sl_l w /\ forall i, 0 <= i < p -> (w.[i] =? ch "_") || hex_char w.[i] = true.
Proof.
  intros Hl Hp Hpos. unfold parseHexDigits in Hp.
  destruct (sl_l w =? 0) eqn:E; b2p; cbn [orb] in Hp; [injection Hp as <-; lia|].
  destruct (isHexDigit w.[0]) eqn:E0; cbn [negb] in Hp; [|injection Hp as <-; lia].
  split.
  - destruct (parseDigits_spec isHexDigit w ltac:(lia)) as (n & Hn & Hle). congruence.
  - intros i Hi. rewrite <- isHexDigit_hex_char by apply rd_range.
    apply (parseDigits_digits isHexDigit w p E0 Hp Hpos i Hi).
Qed.

Lemma parseBinDigits_digits w p :
  0 < sl_l w -> parseBinDigits w = Ret p -> 0 < p ->
  p <= sl_l w /\ forall i, 0 <= i < p -> (w.[i] =? ch "_") || bin_char w.[i] = true.
Proof.
  intros Hl Hp Hpos. unfold parseBinDigits in Hp.
  destruct (isBinDigit w.[0]) eqn:E0; cbn [negb] in Hp; [|injection Hp as <-; lia].
  split.
  - destruct (parseDigits_spec isBinDigit w ltac:(lia)) as (n & Hn & Hle). congruence.
  - intros i Hi. apply (parseDigits_digits isBinDigit w p E0 Hp Hpos i Hi).
Qed.

Lemma parseOctDigits_digits w p :
  0 < sl_l w -> parseOctDigits w = Ret p -> 0 < p ->
  p <= sl_l w /\ forall i, 0 <= i < p -> (w.[i] =? ch "_") || oct_char w.[i] = true.
Proof.
  intros Hl Hp Hpos. unfold parseOctDigits in Hp.
  destruct (sl_l w =? 0) eqn:E; b2p; cbn [orb] in Hp; [injection Hp as <-; lia|].
  destruct (isOctDigit w.[0]) eqn:E0; cbn [negb] in Hp; [|injection Hp as <-; lia].
  split.
  - destruct (parseDigits_spec isOctDigit w ltac:(lia)) as (n & Hn & Hle). congruence.
  - intros i Hi. rewrite <- isOctDigit_oct_char by apply rd_range.
    apply (parseDigits_digits isOctDigit w p E0 Hp Hpos i Hi).
Qed.

Lemma parseIntDigits_digits w p :
  0 < sl_l w -> parseIntDigits w = Ret p -> 0 < p ->
  p <= sl_l w /\ forall i, 0 <= i < p -> (w.[i] =? ch "_") || dec_char w.[i] = true.
Proof.
  intros Hl Hp Hpos. unfold parseIntDigits in Hp.
  destruct (sl_l w =? 0) eqn:E; b2p; cbn [orb] in Hp; [injection Hp as <-; lia|].
  destruct (isIntDigit w.[0]) eqn:E0; cbn [negb] in Hp; [|injection Hp as <-; lia].
  split.
  - destruct (parseDigits_spec isIntDigit w ltac:(lia)) as (n & Hn & Hle). congruence.
  - intros i Hi. rewrite <- isIntDigit_dec_char by apply rd_range.
    apply (parseDigits_digits isIntDigit w p E0 Hp Hpos i Hi).
Qed.

(** X18. A hexadecimal literal that [parseHexLiteral] accepts becomes an
    integer token.  When [parseHexLiteral] returns a length n > 0 at the
    head of the expression, [nextHexValue] returns true with the n bytes
    popped and an integer token holding the number that the digits after
    0x write in base 16, if that number is below 2^63, and with the error
    number overflow and nothing popped if it is not. *)
Theorem nextHexValue_value : forall (e : numEngine_t) (b n : Z),
  sl_p (ne_p e) = Inp b ->
  parseHexLiteral (ne_p e) = Ret n -> 0 < n ->
  nextHexValue e
  = Ret (true,
         let V := digits_value 16 hex_digit 0 (slice_bytes (mkSlice (Inp (b + 2)) (n - 2))) in
         if V <? 2 ^ 63 then
           mkNumEngine (ne_in e) (adv (ne_p e) n) (ne_pos e + n)
                       (mkNumToken tagIntegerVal (ne_pos e) (VI V)) (ne_errno e)
         else nset_tk e (numError (ne_pos e) ErrNumberOverflow)).
Proof.
  intros e b n Hb Hp Hn. unfold nextHexValue. rewrite Hp. cbn [bind].
  unfold parseHexLiteral in Hp.
  destruct (_ || _) in Hp; [injection Hp as <-; lia|].
  destruct (headed_literal_digits hex_char parseHexDigits 2 (ne_p e) b n
              parseHexDigits_digits Hb ltac:(lia) Hp Hn) as [Hle Hall].
  assert (Hd : digits_of hex_char (slice_bytes (adv (mkSlice (sl_p (ne_p e)) n) 2)) = true).
  { apply digits_of_slice. rewrite Hb. cbn [adv sl_p sl_l padd]. exact Hall. }
  rewrite (decodeHexLiteral_value _ Hd). rewrite Hb. cbn [adv sl_p sl_l padd]. cbv zeta.
  assert (Hpos := digits_value_mono 16 hex_digit hex_char ltac:(lia)
                    (fun x Hx => proj1 (proj2 (hex_digit_code x Hx)))
                    _ 0 ltac:(lia) Hd).
  rewrite Hb in Hpos. cbn [adv sl_p sl_l padd] in Hpos.
  destruct (n =? 0) eqn:E0; b2p; [lia|]. destruct (n <? 0) eqn:E1; b2p; [lia|].
  destruct (_ <? 2 ^ 63) eqn:E; [|reflexivity].
  match goal with |- context [?V <? 0] => destruct (V <? 0) eqn:E2 end; b2p; [lia|].
  unfold numPopBytes, assert. cbn [nset_tk ne_p ne_in ne_pos ne_tk ne_errno].
  destruct (n <=? sl_l (ne_p e)) eqn:E3; b2p; [reflexivity|lia].
Qed.


(** X19. A binary literal that [parseBinLiteral] accepts becomes an
    integer token.  When [parseBinLiteral] returns a length n > 0 at the
    head of the expression, [nextBinValue] returns true with the n bytes
    popped and an integer token holding the number that the digits after
    0b write in base 2, if that number is below 2^63, and with the error
    number overflow and nothing popped if it is not. *)
Theorem nextBinValue_value : forall (e : numEngine_t) (b n : Z),
  sl_p (ne_p e) = Inp b ->
  parseBinLiteral (ne_p e) = Ret n -> 0 < n ->
  nextBinValue e
  = Ret (true,
         let V := digits_value 2 dec_digit 0 (slice_bytes (mkSlice (Inp (b + 2)) (n - 2))) in
         if V <? 2 ^ 63 then
           mkNumEngine (ne_in e) (adv (ne_p e) n) (ne_pos e + n)
                       (mkNumToken tagIntegerVal (ne_pos e) (VI V)) (ne_errno e)
         else nset_tk e (numError (ne_pos e) ErrNumberOverflow)).
Proof.
  intros e b n Hb Hp Hn. unfold nextBinValue. rewrite Hp. cbn [bind].
  unfold parseBinLiteral in Hp.
  destruct (_ || _) in Hp; [injection Hp as <-; lia|].
  destruct (headed_literal_digits bin_char parseBinDigits 2 (ne_p e) b n
              parseBinDigits_digits Hb ltac:(lia) Hp Hn) as [Hle Hall].
  assert (Hd : digits_of bin_char (slice_bytes (adv (mkSlice (sl_p (ne_p e)) n) 2)) = true).
  { apply digits_of_slice. rewrite Hb. cbn [adv sl_p sl_l padd]. exact Hall. }
  rewrite (decodeBinLiteral_value _ Hd). rewrite Hb. cbn [adv sl_p sl_l padd]. cbv zeta.
  assert (Hbin : forall x, bin_char x = true -> 0 <= dec_digit x).
  { intros x Hx. unfold bin_char in Hx. unfold dec_digit. change (ch "0") with 48 in *.
    change (ch "1") with 49 in *. apply orb_prop in Hx. destruct Hx; b2p; lia. }
  assert (Hpos := digits_value_mono 2 dec_digit bin_char ltac:(lia) Hbin _ 0 ltac:(lia) Hd).
  rewrite Hb in Hpos. cbn [adv sl_p sl_l padd] in Hpos.
  destruct (n =? 0) eqn:E0; b2p; [lia|]. destruct (n <? 0) eqn:E1; b2p; [lia|].
  destruct (_ <? 2 ^ 63) eqn:E; [|reflexivity].
  match goal with |- context [?V <? 0] => destruct (V <? 0) eqn:E2 end; b2p; [lia|].
  unfold numPopBytes, assert. cbn [nset_tk ne_p ne_in ne_pos ne_tk ne_errno].
  destruct (n <=? sl_l (ne_p e)) eqn:E3; b2p; [reflexivity|lia].
Qed.

(** X20. A decimal integer literal that [parseIntLiteral] accepts becomes
    an integer token, as long as it writes a number below 2^64.  When
    [parseIntLiteral] returns a length n > 0 at the head of a non-empty
    expression and the n bytes write a number below 2^64, [nextIntValue]
    returns true with the n bytes popped and an integer token holding
    that number, if it is below 2^63, and with the error number overflow
    and nothing popped if it is not. *)
Theorem nextIntValue_value : forall (e : numEngine_t) (b n : Z),
  sl_p (ne_p e) = Inp b -> 0 < sl_l (ne_p e) ->
  parseIntLiteral (ne_p e) = Ret n -> 0 < n ->
  digits_value 10 dec_digit 0 (slice_bytes (mkSlice (Inp b) n)) < 2 ^ 64 ->
  nextIntValue e
  = Ret (true,
         let V := digits_value 10 dec_digit 0 (slice_bytes (mkSlice (Inp b) n)) in
         if V <? 2 ^ 63 then
           mkNumEngine (ne_in e) (adv (ne_p e) n) (ne_pos e + n)
                       (mkNumToken tagIntegerVal (ne_pos e) (VI V)) (ne_errno e)
         else nset_tk e (numError (ne_pos e) ErrNumberOverflow)).
Proof.
  intros e b n Hb Hl Hp Hn Hlt. unfold nextIntValue. rewrite Hp. cbn [bind].
  assert (H : n <= sl_l (ne_p e)
              /\ forall i, 0 <= i < n ->
                   ((ne_p e).[i] =? ch "_") || dec_char (ne_p e).[i] = true).
  { unfold parseIntLiteral in Hp.
    destruct (inRange (ne_p e).[0] (ch "1") (ch "9")).
    - apply parseIntDigits_digits; assumption.
    - destruct ((ne_p e).[0] =? ch "0") eqn:E0; cbn [negb] in Hp;
        [|injection Hp as <-; lia].
      destruct (_ && _) in Hp; injection Hp as <-; [lia|].
      split; [lia|]. intros i Hi. assert (i = 0) as -> by lia.
      b2p. rewrite E0. reflexivity. }
  destruct H as [Hle Hall].
  assert (Hd : digits_of dec_char (slice_bytes (mkSlice (sl_p (ne_p e)) n)) = true).
  { apply digits_of_slice. cbn [sl_p sl_l]. exact Hall. }
  rewrite Hb in Hd.
  rewrite Hb, (decodeIntLiteral_value _ Hd Hlt). cbv zeta.
  assert (Hpos := digits_value_mono 10 dec_digit dec_char ltac:(lia)
                    (fun x Hx => proj1 (proj2 (dec_digit_code x Hx)))
                    _ 0 ltac:(lia) Hd).
  destruct (n =? 0) eqn:E0; b2p; [lia|]. destruct (n <? 0) eqn:E1; b2p; [lia|].
  destruct (_ <? 2 ^ 63) eqn:E; [|reflexivity].
  match goal with |- context [?V <? 0] => destruct (V <? 0) eqn:E2 end; b2p; [lia|].
  unfold numPopBytes, assert. cbn [nset_tk ne_p ne_in ne_pos ne_tk ne_errno].
  destruct (n <=? sl_l (ne_p e)) eqn:E3; b2p; [reflexivity|lia].
Qed.

(** X21. An octal literal that [parseOctLiteral] accepts becomes an
    integer token only through an [int].  When [parseOctLiteral] returns
    a length n > 0 at the head of the expression, with V the number that
    the digits after the header (0o, 0O, or a single 0) write in base 8,
    [nextOctValue] returns true with the error number overflow when V is
    2^63 or more or V converted to [int] is negative, and otherwise with
    the n bytes popped and an integer token holding V converted to [int],
    which is V when V is below 2^31. *)
Theorem nextOctValue_value : forall (e : numEngine_t) (b n : Z),
  sl_p (ne_p e) = Inp b ->
  parseOctLiteral (ne_p e) = Ret n -> 0 < n ->
  let k := if Z.land (ne_p e).[1] 0xDF =? ch "O" then 2 else 1 in
  let V := digits_value 8 dec_digit 0 (slice_bytes (mkSlice (Inp (b + k)) (n - k))) in
  nextOctValue e
  = Ret (true,
         if (V <? 2 ^ 63) && (0 <=? to_int32 V) then
           mkNumEngine (ne_in e) (adv (ne_p e) n) (ne_pos e + n)
                       (mkNumToken tagIntegerVal (ne_pos e) (VI (to_int32 V))) (ne_errno e)
         else nset_tk e (numError (ne_pos e) ErrNumberOverflow))
  /\ (V < 2 ^ 31 -> to_int32 V = V).
Proof.
  intros e b n Hb Hp Hn k V. unfold nextOctValue. rewrite Hp. cbn [bind].
  assert (H : k < n <= sl_l (ne_p e)
              /\ forall i, 0 <= i < n - k ->
                   (rd (Inp (b + k)) i =? ch "_") || oct_char (rd (Inp (b + k)) i) = true).
  { unfold parseOctLiteral in Hp.
    destruct (_ || _) in Hp; [injection Hp as <-; lia|].
    destruct (2 <=? sl_l (ne_p e)) eqn:E2; cbn [andb] in Hp.
    - subst k. destruct (Z.land (ne_p e).[1] 0xDF =? ch "O") eqn:EO.
      + apply (headed_literal_digits oct_char parseOctDigits 2 (ne_p e) b n
                 parseOctDigits_digits Hb ltac:(lia) Hp Hn).
      + b2p. destruct (sl_l (ne_p e) <? 2) eqn:E3; b2p; [lia|]. cbn [orb] in Hp.
        destruct (_ && _) in Hp; [injection Hp as <-; lia|].
        apply (headed_literal_digits oct_char parseOctDigits 1 (ne_p e) b n
                 parseOctDigits_digits Hb ltac:(lia) Hp Hn).
    - b2p. destruct (sl_l (ne_p e) <? 2) eqn:E3; b2p; [|lia]. cbn [orb] in Hp.
      injection Hp as <-. lia. }
  destruct H as [Hle Hall].
  assert (Hsl : (if Z.land (mkSlice (sl_p (ne_p e)) n).[1] 0xDF =? ch "O"
                 then adv (mkSlice (sl_p (ne_p e)) n) 2
                 else adv (mkSlice (sl_p (ne_p e)) n) 1)
                = mkSlice (Inp (b + k)) (n - k)).
  { cbn [sl_p]. subst k. destruct (Z.land (ne_p e).[1] 0xDF =? ch "O");
      rewrite Hb; reflexivity. }
  assert (Hd : digits_of oct_char
                 (slice_bytes (if Z.land (mkSlice (sl_p (ne_p e)) n).[1] 0xDF =? ch "O"
                               then adv (mkSlice (sl_p (ne_p e)) n) 2
                               else adv (mkSlice (sl_p (ne_p e)) n) 1)) = true).
  { rewrite Hsl. apply digits_of_slice. cbn [sl_p sl_l]. exact Hall. }
  destruct (decodeOctLiteral_value _ Hd) as [Hval _]. cbv zeta in Hval.
  rewrite Hsl in Hval, Hd. fold V in Hval. rewrite Hval.
  assert (Hoct : forall x, oct_char x = true -> 0 <= dec_digit x).
  { intros x Hx. unfold oct_char in Hx. unfold dec_digit. change (ch "0") with 48 in *.
    b2p. lia. }
  assert (Hpos := digits_value_mono 8 dec_digit oct_char ltac:(lia) Hoct _ 0 ltac:(lia) Hd).
  fold V in Hpos.
  split; [|intros Hs; unfold to_int32; rewrite Z.mod_small; lia].
  destruct (n =? 0) eqn:E0; b2p; [lia|]. destruct (n <? 0) eqn:E1; b2p; [lia|].
  cbv zeta.
  destruct (V <? 2 ^ 63) eqn:E; cbn [andb]; [|reflexivity].
  destruct (0 <=? to_int32 V) eqn:E3; destruct (to_int32 V <? 0) eqn:E4; b2p; try lia;
    [|reflexivity].
  unfold numPopBytes, assert. cbn [nset_tk ne_p ne_in ne_pos ne_tk ne_errno].
  destruct (n <=? sl_l (ne_p e)) eqn:E5; b2p; [reflexivity|lia].
Qed.

End Qjson.

(** * Evaluation on concrete inputs *)

Definition dq : list byte := [x22].

(** The value of a successful outcome is compared with [=]; inputs are
    written as byte strings. *)
Definition json (l : list byte) : outcome (list byte) := Ret (l ++ [x00]).

(** C8. decode of [ttl: 1h30m] returns [{"ttl":5400}]: the expression
    evaluates to the double (1*3600) + (30*60), the unit suffix taking the
    expression on its right as an optional operand ([1h] alone is 1*3600),
    and the double 5400 is printed by %.16g as [5400]. *)
Theorem decode_ttl_1h30m : forall (char_signed errno : bool),
  qjson_decode char_signed (bytes "ttl: 1h30m") errno
  = json (bytes "{" ++ dq ++ bytes "ttl" ++ dq ++ bytes ":5400}")
  /\ evalNumberExpression char_signed (bytes "ttl: 1h30m") errno (mkSlice (Inp 5) 5)
     = Ret (mkNumToken tagDecimalVal 0
              (VF (d_add (d_mul (d_of_int 1) (d_of_int 3600))
                         (d_mul (d_of_int 30) (d_of_int 60)))), errno)
  /\ evalNumberExpression char_signed (bytes "ttl: 1h") errno (mkSlice (Inp 5) 2)
     = Ret (mkNumToken tagDecimalVal 0 (VF (d_mul (d_of_int 1) (d_of_int 3600))), errno)
  /\ d_add (d_mul (d_of_int 1) (d_of_int 3600)) (d_mul (d_of_int 30) (d_of_int 60))
     = d_of_int 5400
  /\ sprintf_g 16 (d_of_int 5400) = bytes "5400".
Proof.
  intros cs er; destruct cs, er; vm_compute; repeat split; reflexivity.
Qed.

Definition failure (msg : string) : outcome (list byte) := Ret (bytes msg ++ [x00]).

(** C1. decode does not return for every input, and the column it prints
    is not always that of the error.  In the member
    [a: (-9223372036854775807-1)/-1] the left operand is INT64_MIN and
    [ledDivision] divides it by -1, as [ledModulo] does with [%]: the
    quotient does not fit, C leaves the operation undefined and the
    machine division traps.  The division by 1 instead returns.  And in
    the input [/*^A*/ x], where ^A is the byte 01, the end of input is
    met after [x], at column 8 of the line, and the
    diagnostic says col 3: the comment lets the control byte pass and
    [column], which requires valid characters, stops counting at it. *)
Theorem decode_traps_on_int64_min_division : forall (char_signed errno : bool),
  qjson_decode char_signed (bytes "a: (-9223372036854775807-1)/-1") errno = Undefined
  /\ qjson_decode char_signed (bytes "a: (-9223372036854775807-1)%-1") errno = Undefined
  /\ qjson_decode char_signed (bytes "a: (-9223372036854775807-1)/1") errno
     = json (bytes "{" ++ dq ++ bytes "a" ++ dq ++ bytes ":-9.223372036854776e+18}")
  /\ qjson_decode char_signed (bytes "/*" ++ [x01] ++ bytes "*/ x") errno
     = failure "unexpected end of input at line 1 col 3"
  /\ qjson_decode char_signed (bytes "/**/ x") errno
     = failure "unexpected end of input at line 1 col 7".
Proof.
  intros cs er; destruct cs, er; vm_compute; repeat split; reflexivity.
Qed.

(** C2. An ISO date time whose hour is 24 and whose minute is not zero is
    accepted when its seconds and fraction are zero: the guard of
    [makeTime] joins the three tests with [&&].  The literal
    [1970-01-01T24:30:00Z] evaluates to 88200, and so does every minute
    from 1 to 59 evaluate to a time instead of the failure value. *)
Theorem hour24_nonzero_minute_is_accepted : forall (char_signed errno : bool),
  qjson_decode char_signed (bytes "t: 1970-01-01T24:30:00Z") errno
  = json (bytes "{" ++ dq ++ bytes "t" ++ dq ++ bytes ":88200}")
  /\ makeTime (mkISODateTime 1970 1 1 24 30 0 0 0 d_zero) = d_of_int 88200
  /\ forallb (fun m => d_eqb (makeTime (mkISODateTime 1970 1 1 24 m 0 0 0 d_zero))
                             (d_of_int (86400 + 60 * m)))
             (map Z.of_nat (seq 1 59)) = true.
Proof.
  intros cs er; destruct cs, er; vm_compute; repeat split; reflexivity.
Qed.

(** C4. A backslash followed by [u] is accepted although the third of the
    four characters after it is not a hex digit (the test reads the
    fourth one twice), and the message of a rejected backslash is spelt
    [invalid escape squence]. *)
Theorem escape_check_misses_third_hex_digit : forall (char_signed errno : bool),
  qjson_decode char_signed (bytes "a: " ++ dq ++ bytes "\u00G0" ++ dq) errno
  = json (bytes "{" ++ dq ++ bytes "a" ++ dq ++ bytes ":" ++ dq ++ bytes "\u00G0" ++ dq ++ bytes "}")
  /\ qjson_decode char_signed (bytes "a: " ++ dq ++ bytes "\q" ++ dq) errno
     = failure "invalid escape squence at line 1 col 5".
Proof.
  intros cs er; destruct cs, er; vm_compute; split; reflexivity.
Qed.

(** C6. The decimal literal 18446744073709551616 (2^64) evaluates to 0
    instead of failing: [decodeIntLiteral] lets [val*10 + digit] wrap when
    [val] is 0x1999999999999999 and the digit is above 5.  The octal
    literal 0o40000000000 (2^32) evaluates to 0 too: [decodeOctLiteral]
    returns an [int]. *)
Theorem integer_literal_wraps : forall (char_signed errno : bool),
  qjson_decode char_signed (bytes "a: 18446744073709551616") errno
  = json (bytes "{" ++ dq ++ bytes "a" ++ dq ++ bytes ":0}")
  /\ decodeIntLiteral char_signed (bytes "18446744073709551616") (mkSlice (Inp 0) 20) = 0
  /\ qjson_decode char_signed (bytes "a: 0o40000000000") errno
     = json (bytes "{" ++ dq ++ bytes "a" ++ dq ++ bytes ":0}")
  /\ decodeOctLiteral char_signed (bytes "0o40000000000") (mkSlice (Inp 0) 13) = 0
  /\ qjson_decode char_signed (bytes "a: 9223372036854775808") errno
     = failure "number overflow at line 1 col 4".
Proof.
  intros cs er; destruct cs, er; vm_compute; repeat split; reflexivity.
Qed.

(** C7, as stated, fails: [True] and [tRUE], which are neither the
    lowercase nor the uppercase form, are mapped to the keyword, and the
    case variation [TrUe] is not. *)
Lemma literal_spellings_counterexample :
  isLiteralValue (bytes "True") (mkSlice (Inp 0) 4) = Some "true"%string
  /\ isLiteralValue (bytes "tRUE") (mkSlice (Inp 0) 4) = Some "true"%string
  /\ isLiteralValue (bytes "TrUe") (mkSlice (Inp 0) 4) = None
  /\ qjson_decode true (bytes "a: True") false
     = json (bytes "{" ++ dq ++ bytes "a" ++ dq ++ bytes ":true}")
  /\ qjson_decode true (bytes "a: TrUe") false
     = json (bytes "{" ++ dq ++ bytes "a" ++ dq ++ bytes ":" ++ dq ++ bytes "TrUe" ++ dq ++ bytes "}").
Proof.
  vm_compute; repeat split; reflexivity.
Qed.

(** C3, as stated, fails: the top level is an implicit object, so the
    brace that opens the input [{a:1] stands where an identifier is
    expected.  And the end of the input met before the closing brace of an
    object, but after the name of a member, its colon or a comma, is
    reported by another error than [unclosed object]. *)
Lemma leading_brace_counterexample :
  qjson_decode true (bytes "{a:1") false = failure "expect string identifier at line 1 col 2"
  /\ qjson_decode false (bytes "{a:1") false = failure "expect string identifier at line 1 col 2"
  /\ qjson_decode true (bytes "a:{b:") false = failure "unexpected end of input at line 1 col 6"
  /\ qjson_decode true (bytes "a:{b:1,") false
     = failure "expect identifier after comma at line 1 col 8".
Proof.
  vm_compute; repeat split; reflexivity.
Qed.

(** C5, as stated, fails: 201 nested arrays whose last bracket ends the
    input fail with [unclosed array], the end of input being tested
    before the depth. *)
Lemma deep_nesting_counterexample :
  qjson_decode true (bytes "a:" ++ repeat x5b 201) false
  = failure "unclosed array at line 1 col 204"
  /\ qjson_decode false (bytes "a:" ++ repeat x5b 201) false
     = failure "unclosed array at line 1 col 204".
Proof.
  vm_compute; split; reflexivity.
Qed.

(** A witness of C10: the engine that [qjson_decode] starts from, on the
    input [a: 1]. *)
Lemma nextToken_sets_token_witness :
  (exists e', nextToken true (bytes "a: 1") (initial_engine false 4) = Ret e'
              /\ wfp e' /\ lexer_tag (tk_tag (e_tk e')) = true)
  /\ (token_start (bytes "a: 1") (e_p (initial_engine false 4)) ->
      tkTagTable (rd (bytes "a: 1") (sl_p (e_p (initial_engine false 4))) 0) = tagUnknown ->
      exists err s e', quotelessString true (bytes "a: 1") (initial_engine false 4)
                       = Ret (err, s, e')
                       /\ (err = None -> is_NULL (sl_p s) = false)).
Proof.
  apply (nextToken_sets_token true (bytes "a: 1") (initial_engine false 4)).
  - unfold wfp, pos_ok. cbn. repeat split; try reflexivity; lia.
  - cbn. discriminate.
Defined.

(** A witness of C9: the engines after a syntax error and at the end of a
    numeric expression. *)
Lemma advance_in_error_state_witness :
  repeat_call (nextToken true (bytes "a")) 3 (setError (initial_engine false 1) ErrSyntaxError)
  = Ret (setError (initial_engine false 1) ErrSyntaxError)
  /\ repeat_call (numNextToken true (bytes "a")) 3
       (mkNumEngine nullSlice nullSlice 0 (numError 0 ErrEndOfInput) false)
     = Ret (mkNumEngine nullSlice nullSlice 0 (numError 0 ErrEndOfInput) false).
Proof.
  apply (advance_in_error_state_is_noop true (bytes "a")); reflexivity.
Defined.

(** C7, amended: the spellings that are mapped are the 28 accepted ones:
    the first letter in either case, the other letters all in lower case
    or all in upper case.  A slice equal to an accepted spelling is
    mapped by [isLiteralValue] to the keyword of that spelling, and
    decode of the member [a: w], for every accepted spelling [w], emits
    the keyword; a slice that [isLiteralValue] maps to a keyword has at
    most five bytes and begins with an accepted spelling of that
    keyword, so no other case variation and no string that does not
    begin with an accepted spelling is mapped.  (What becomes of a longer
    slice that begins with an accepted spelling is left out.) *)
Theorem literal_values_accepted :
  (forall (text : list byte) (p : slice_t) (w k : string),
     In (w, k) accepted_spellings ->
     sl_l p = Z.of_nat (List.length (bytes w)) -> match_at text p 0 (bytes w) = true ->
     isLiteralValue text p = Some k)
  /\ (forall (text : list byte) (p : slice_t) (k : string),
        isLiteralValue text p = Some k ->
        sl_l p <= 5
        /\ exists w, In (w, k) accepted_spellings /\ starts_with text p w = true)
  /\ (forall (char_signed errno : bool) (w k : string),
        In (w, k) accepted_spellings ->
        qjson_decode char_signed (bytes "a: " ++ bytes w) errno
        = json (bytes "{" ++ dq ++ bytes "a" ++ dq ++ bytes ":" ++ bytes k ++ bytes "}")).
Proof.
  split; [|split].
  - intros text p w k Hin Hl Hm.
    apply (isLiteralValue_complete text p w k); [|exact Hin|].
    + rewrite Hl. unfold accepted_spellings in Hin. cbn [In] in Hin.
      repeat (destruct Hin as [Hin | Hin]; [injection Hin as <- <-; cbn; lia|]).
      destruct Hin.
    + unfold starts_with. rewrite Hl, Z.leb_refl, Hm. reflexivity.
  - intros text p k. apply isLiteralValue_sound.
  - intros cs er w k Hin. unfold accepted_spellings in Hin. cbn [In] in Hin.
    repeat (destruct Hin as [Hin | Hin];
            [injection Hin as <- <-; destruct cs, er; vm_compute; reflexivity|]).
    destruct Hin.
Qed.

(** A witness of C7, amended: the spelling [Yes]. *)
Lemma literal_values_accepted_witness :
  isLiteralValue (bytes "Yes") (mkSlice (Inp 0) 3) = Some "true"%string
  /\ qjson_decode true (bytes "a: " ++ bytes "Yes") false
     = json (bytes "{" ++ dq ++ bytes "a" ++ dq ++ bytes ":" ++ bytes "true" ++ bytes "}").
Proof.
  split.
  - apply (proj1 literal_values_accepted (bytes "Yes") (mkSlice (Inp 0) 3)
             "Yes"%string "true"%string); [|reflexivity|reflexivity].
    unfold accepted_spellings. cbn [In]. do 13 right. left. reflexivity.
  - apply (proj2 (proj2 literal_values_accepted) true false "Yes"%string "true"%string).
    unfold accepted_spellings. cbn [In]. do 13 right. left. reflexivity.
Defined.

(** The length switch of [isLiteralValue] falls through: a slice of at
    most five bytes that begins with an accepted spelling and goes on is
    mapped as well, where the comment of the function says equal to. *)
Lemma isLiteralValue_falls_through :
  isLiteralValue (bytes "nulls") (mkSlice (Inp 0) 5) = Some "null"%string
  /\ isLiteralValue (bytes "one") (mkSlice (Inp 0) 3) = Some "true"%string
  /\ forall char_signed errno : bool,
       qjson_decode char_signed (bytes "a: nulls") errno
       = json (bytes "{" ++ dq ++ bytes "a" ++ dq ++ bytes ":null}").
Proof.
  split; [reflexivity|]. split; [reflexivity|].
  intros cs er; destruct cs, er; vm_compute; reflexivity.
Qed.

(** C3, amended: the brace that opens the input [{a:1] stands where the
    implicit top level object expects an identifier, and that is the
    error reported.  For the objects written with braces the claim
    holds.  First, whenever [unclosed object] is reported, whatever the
    input, its position is that of the token of an opening brace (not of
    a brace in a string or a comment), the end of the input is met at a
    later token, that brace is never closed and every bracket opened
    after it is: it is the brace of the innermost object still open, and
    the only such brace.  Second, decoding succeeds only if no bracket is
    open where the input ends.  Third, in [value] at an opening brace,
    the end of the input met right after the brace, or by [members]
    after a member, sets [unclosed object] at the position of that
    brace.  Last, some inputs. *)
Theorem unclosed_object_is_anchored_at_its_brace :
  (forall (char_signed : bool) (text : list byte) (errno : bool) (pos : pos_t),
     decode_error char_signed text errno = Ret (Some (ErrUnclosedObject, pos)) ->
     pos_ok pos /\ mem text (pos_b pos) = ch "{"
     /\ exists len, myStrLen text = Ret len
          /\ left_open char_signed text len pos
          /\ forall pos', left_open char_signed text len pos' -> pos' = pos)
  /\ (forall (char_signed : bool) (text : list byte) (errno : bool),
        decode_error char_signed text errno = Ret None ->
        exists len n, myStrLen text = Ret len
          /\ at_end char_signed text len n = true
          /\ nesting_before char_signed text len n = 0)
  /\ (forall (char_signed : bool) (text : list byte) (fuel : nat) (e e1 : engine_t),
        tk_tag (e_tk e) = tagOpenBrace -> nextToken char_signed text e = Ret e1 ->
        (done e1 = true -> tk_is_EndOfInput e1 = true ->
         value char_signed text (S fuel) e
         = Ret (true, setErrorAndPos e1 ErrUnclosedObject (tk_pos (e_tk e))))
        /\ (forall e2 : engine_t,
              done e1 = false -> e_depth e1 <> maxDepth ->
              members char_signed text (value char_signed text fuel)
                      (set_depth e1 (e_depth e1 + 1)) = Ret (true, e2) ->
              tk_is_EndOfInput e2 = true ->
              value char_signed text (S fuel) e
              = Ret (true, setErrorAndPos e2 ErrUnclosedObject (tk_pos (e_tk e)))))
  /\ (forall char_signed errno : bool,
        qjson_decode char_signed (bytes "a:{b:1") errno
        = failure "unclosed object at line 1 col 3"
        /\ qjson_decode char_signed (bytes "a:{") errno
           = failure "unclosed object at line 1 col 3"
        /\ qjson_decode char_signed (bytes "a:{b:{c:1") errno
           = failure "unclosed object at line 1 col 6"
        /\ qjson_decode char_signed (bytes "a:{b:'{',c:[1]") errno
           = failure "unclosed object at line 1 col 3"
        /\ qjson_decode char_signed (bytes "{a:1") errno
           = failure "expect string identifier at line 1 col 2").
Proof.
  split; [|split; [|split]].
  - intros cs text errno pos H.
    destruct (unclosed_object_at_brace cs text errno _ pos H eq_refl) as [Hb Hp].
    split; [exact Hp|]. split; [exact Hb|].
    exact (unclosed_object_left_open cs text errno pos H).
  - intros cs text errno H. exact (success_closes_brackets cs text errno H).
  - intros cs text fuel e e1 Htag Hr. split.
    + intros Hd He. cbn [value]. cbv zeta. rewrite Htag, Hr. cbn [bind].
      rewrite Hd, He. reflexivity.
    + intros e2 Hd Hdep Hm He. cbn [value]. cbv zeta. rewrite Htag, Hr. cbn [bind].
      rewrite Hd. apply Z.eqb_neq in Hdep. rewrite Hdep, Hm. cbn [bind].
      rewrite He. reflexivity.
  - intros cs er. destruct cs, er; vm_compute; repeat split; reflexivity.
Qed.

(** A witness of C3, amended: the input [a:{b:1], whose brace is the
    token 3 and whose end is met at the token 7; the input [a:1], which
    decodes; [value] at the brace of [a:{]; and [value] at the brace of
    [a:{b:1]. *)
Lemma unclosed_object_witness :
  (pos_ok (mkPos 2 0 0) /\ mem (bytes "a:{b:1") (pos_b (mkPos 2 0 0)) = ch "{"
   /\ exists len, myStrLen (bytes "a:{b:1") = Ret len
        /\ left_open true (bytes "a:{b:1") len (mkPos 2 0 0)
        /\ forall pos', left_open true (bytes "a:{b:1") len pos' -> pos' = mkPos 2 0 0)
  /\ (exists len n, myStrLen (bytes "a:1") = Ret len
        /\ at_end true (bytes "a:1") len n = true
        /\ nesting_before true (bytes "a:1") len n = 0)
  /\ (let e := mkEngine (mkSlice (Inp 3) 0) (mkPos 3 0 0) []
                        (mkToken tagOpenBrace (mkPos 2 0 0) nullSlice) 0 false in
      let e1 := mkEngine (mkSlice (Inp 3) 0) (mkPos 3 0 0) []
                         (error_token (newError (mkPos 3 0 0) ErrEndOfInput)) 0 false in
      value true (bytes "a:{") 1 e
      = Ret (true, setErrorAndPos e1 ErrUnclosedObject (mkPos 2 0 0)))
  /\ (let e := mkEngine (mkSlice (Inp 3) 3) (mkPos 3 0 0) []
                        (mkToken tagOpenBrace (mkPos 2 0 0) nullSlice) 0 false in
      let e2 := mkEngine (mkSlice (Inp 6) 0) (mkPos 6 0 0)
                         (bytes "{" ++ dq ++ bytes "b" ++ dq ++ bytes ":1}")
                         (error_token (newError (mkPos 6 0 0) ErrEndOfInput)) 1 false in
      value true (bytes "a:{b:1") 3 e
      = Ret (true, setErrorAndPos e2 ErrUnclosedObject (mkPos 2 0 0))).
Proof.
  split; [|split; [|split]].
  - apply (proj1 unclosed_object_is_anchored_at_its_brace true (bytes "a:{b:1") false
             (mkPos 2 0 0)); reflexivity.
  - apply (proj1 (proj2 unclosed_object_is_anchored_at_its_brace) true (bytes "a:1") false);
      reflexivity.
  - cbv zeta.
    exact (proj1 (proj1 (proj2 (proj2 unclosed_object_is_anchored_at_its_brace)) true
             (bytes "a:{") 0%nat
             (mkEngine (mkSlice (Inp 3) 0) (mkPos 3 0 0) []
                       (mkToken tagOpenBrace (mkPos 2 0 0) nullSlice) 0 false)
             (mkEngine (mkSlice (Inp 3) 0) (mkPos 3 0 0) []
                       (error_token (newError (mkPos 3 0 0) ErrEndOfInput)) 0 false)
             eq_refl eq_refl) eq_refl eq_refl).
  - cbv zeta.
    apply (proj2 (proj1 (proj2 (proj2 unclosed_object_is_anchored_at_its_brace)) true
             (bytes "a:{b:1") 2%nat
             (mkEngine (mkSlice (Inp 3) 3) (mkPos 3 0 0) []
                       (mkToken tagOpenBrace (mkPos 2 0 0) nullSlice) 0 false)
             (mkEngine (mkSlice (Inp 4) 2) (mkPos 4 0 0) []
                       (mkToken tagQuotelessString (mkPos 3 0 0) (mkSlice (Inp 3) 1)) 0 false)
             eq_refl eq_refl)
             (mkEngine (mkSlice (Inp 6) 0) (mkPos 6 0 0)
                       (bytes "{" ++ dq ++ bytes "b" ++ dq ++ bytes ":1}")
                       (error_token (newError (mkPos 6 0 0) ErrEndOfInput)) 1 false));
      [reflexivity|cbn; discriminate|reflexivity|reflexivity].
Defined.

(** C5, amended: an input whose nesting exceeds [maxDepth] = 200 at
    some token is never decoded with success; [value] at an opening
    bracket, with 200 brackets open already and a further token after the
    bracket, sets the depth error (when the input ends right after the
    bracket, the end of input is tested first, and the error is that of
    the unclosed bracket); and the depth error is reported only for an
    input whose nesting exceeds 200 at some token.  The nesting counts the
    brackets written, the implicit top level object apart. *)
Theorem nesting_is_capped :
  (forall (char_signed : bool) (text : list byte) (errno : bool) (len : Z) (k : nat),
     myStrLen text = Ret len -> maxDepth < nesting_before char_signed text len k ->
     decode_error char_signed text errno <> Ret None)
  /\ (forall (char_signed : bool) (text : list byte) (fuel : nat) (e e1 : engine_t),
        tk_tag (e_tk e) = tagOpenBrace \/ tk_tag (e_tk e) = tagOpenSquare ->
        nextToken char_signed text e = Ret e1 -> done e1 = false ->
        e_depth e1 = maxDepth ->
        value char_signed text (S fuel) e
        = Ret (true, setError e1 ErrMaxObjectArrayDepth))
  /\ (forall (char_signed : bool) (text : list byte) (errno : bool) (pos : pos_t),
        decode_error char_signed text errno = Ret (Some (ErrMaxObjectArrayDepth, pos)) ->
        exists len k, myStrLen text = Ret len
                      /\ maxDepth < nesting_before char_signed text len k)
  /\ (forall char_signed errno : bool,
        qjson_decode char_signed (bytes "a:" ++ repeat x5b 201 ++ bytes "1") errno
        = failure "too many object or array encapsulations at line 1 col 205"
        /\ qjson_decode char_signed
             (bytes "a:" ++ repeat x5b 200 ++ bytes "1" ++ repeat x5d 200) errno
           = json (bytes "{" ++ dq ++ bytes "a" ++ dq ++ bytes ":"
                   ++ repeat x5b 200 ++ bytes "1" ++ repeat x5d 200 ++ bytes "}")
        /\ qjson_decode char_signed (bytes "a:" ++ repeat x5b 201) errno
           = failure "unclosed array at line 1 col 204").
Proof.
  split; [|split; [|split]].
  - intros cs text errno len k Hlen Hk H.
    destruct (success_bounds_nesting cs text errno H) as (len' & Hlen' & Hb).
    rewrite Hlen in Hlen'. injection Hlen' as <-. specialize (Hb k). lia.
  - intros cs text fuel e e1 Htag Hr Hd Hdep.
    cbn [value]. cbv zeta. apply Z.eqb_eq in Hdep.
    destruct Htag as [Htag|Htag]; rewrite Htag, Hr; cbn [bind]; rewrite Hd, Hdep;
      reflexivity.
  - intros cs text errno pos H. exact (depth_error_too_deep cs text errno pos H).
  - intros cs er. destruct cs, er; vm_compute; repeat split; reflexivity.
Qed.

(** A witness of C5, amended: the input [a:] followed by 201 opening
    square brackets and [1], whose nesting is 201 before the token 204;
    and [value] at the bracket of [[1], with 200 brackets open already. *)
Lemma nesting_is_capped_witness :
  decode_error true (bytes "a:" ++ repeat x5b 201 ++ bytes "1") false <> Ret None
  /\ (let e := mkEngine (mkSlice (Inp 1) 1) (mkPos 1 0 0) []
                        (mkToken tagOpenSquare (mkPos 0 0 0) nullSlice) 200 false in
      let e1 := mkEngine (mkSlice (Inp 2) 0) (mkPos 2 0 0) []
                         (mkToken tagQuotelessString (mkPos 1 0 0) (mkSlice (Inp 1) 1))
                         200 false in
      value true (bytes "[1") 1 e = Ret (true, setError e1 ErrMaxObjectArrayDepth))
  /\ (exists len k, myStrLen (bytes "a:" ++ repeat x5b 201 ++ bytes "1") = Ret len
        /\ maxDepth < nesting_before true (bytes "a:" ++ repeat x5b 201 ++ bytes "1") len k).
Proof.
  split; [|split].
  - apply (proj1 nesting_is_capped true (bytes "a:" ++ repeat x5b 201 ++ bytes "1") false
             204 204%nat); [reflexivity|vm_compute; reflexivity].
  - cbv zeta.
    apply (proj1 (proj2 nesting_is_capped) true (bytes "[1") 0%nat
             (mkEngine (mkSlice (Inp 1) 1) (mkPos 1 0 0) []
                       (mkToken tagOpenSquare (mkPos 0 0 0) nullSlice) 200 false)
             (mkEngine (mkSlice (Inp 2) 0) (mkPos 2 0 0) []
                       (mkToken tagQuotelessString (mkPos 1 0 0) (mkSlice (Inp 1) 1))
                       200 false));
      [right; reflexivity|reflexivity|reflexivity|reflexivity].
  - apply (proj1 (proj2 (proj2 nesting_is_capped)) true
             (bytes "a:" ++ repeat x5b 201 ++ bytes "1") false (mkPos 204 0 0)).
    vm_compute. reflexivity.
Defined.

(** * The output buffer *)

(** The model of the engine keeps the output as the list of the bytes
    written.  The source keeps it in a buffer that grows: [buf] points to
    [cap] bytes allocated with [malloc], of which the first [len] are
    written.  A byte of the buffer that was never written is [None]. *)
Module Buffer.

Record outBuf_t : Type := mkOutBuf {
  buf : option (list (option byte)); (* data storage allocated with malloc *)
  len : Z;                           (* number of data bytes in storage *)
  cap : Z                            (* maximum capacity of storage *)
}.

Definition INT_MAX : Z := 2 ^ 31 - 1.

(** [malloc(n)]: [n] bytes of indeterminate value (the source does not
    test for a failed allocation, and neither does the model). *)
Definition malloc (n : Z) : list (option byte) := repeat None (Z.to_nat n).

(** [memcpy(dst + off, src, n)] where [src] lists the [n] bytes copied;
    writing beyond the end of [dst] is undefined. *)
Definition memcpy (dst : list (option byte)) (off : Z) (src : list (option byte))
  : outcome (list (option byte)) :=
  assert ((0 <=? off) && (off + Z.of_nat (List.length src) <=? Z.of_nat (List.length dst)))
    (Ret (firstn (Z.to_nat off) dst ++ src
          ++ skipn (Z.to_nat off + List.length src) dst)).

Definition outputInit : outBuf_t := mkOutBuf None 0 0.

(** [outputGrow] grows the output buffer without modifying [len]; the
    product [cap*2] is an [int], and its overflow is undefined. *)
Definition outputGrow (o : outBuf_t) : outcome outBuf_t :=
  let o := match buf o with
           | None => mkOutBuf (Some (malloc 1024)) 0 1024
           | Some _ => o
           end in
  let newCap := cap o * 2 in
  assert (newCap <=? INT_MAX)
    (match buf o with
     | None => AssertFail
     | Some b =>
         assert (cap o <=? Z.of_nat (List.length b))
           (tmp <- memcpy (malloc newCap) 0 (firstn (Z.to_nat (cap o)) b) ;;
            Ret (mkOutBuf (Some tmp) (len o) newCap))
     end).

(** [outputByte] appends a byte to the output buffer. *)
Definition outputByte (o : outBuf_t) (c : byte) : outcome outBuf_t :=
  assert (len o <=? cap o)
    (o <- (if len o =? cap o then outputGrow o else Ret o) ;;
     match buf o with
     | None => AssertFail
     | Some b =>
         b <- memcpy b (len o) [Some c] ;;
         Ret (mkOutBuf (Some b) (len o + 1) (cap o))
     end).

(** [outputString] appends a string to the output buffer; [s] lists the
    [strlen(s)] bytes of the string.  Copying no byte changes nothing,
    also when [buf] is still NULL. *)
Definition outputString (o : outBuf_t) (s : list byte) : outcome outBuf_t :=
  assert (len o <=? cap o)
    (let l := Z.of_nat (List.length s) in
     o <- iter (S (Z.to_nat (len o + l)))
            (fun o => if cap o <? len o + l
                      then (o <- outputGrow o ;; continue o)
                      else break o) o ;;
     match buf o with
     | None => if l =? 0 then Ret o else AssertFail
     | Some b =>
         b <- memcpy b (len o) (map Some s) ;;
         Ret (mkOutBuf (Some b) (len o + l) (cap o))
     end).

(** [outputGet] returns the output buffer content ([realloc] keeps the
    first [len] bytes).  On return, the output buffer is empty. *)
Definition outputGet (o : outBuf_t) : list (option byte) * outBuf_t :=
  (match buf o with
   | None => []
   | Some b => firstn (Z.to_nat (len o)) b
   end,
   mkOutBuf None 0 0).

(** [outputReset] resets the output buffer to an empty state. *)
Definition outputReset (o : outBuf_t) : outBuf_t := mkOutBuf (buf o) 0 (cap o).

(** The buffer [o] holds the bytes [bs]: they are its first [len] bytes,
    within the capacity, which is that of the storage. *)
Definition holds (o : outBuf_t) (bs : list byte) : Prop :=
  len o = Z.of_nat (List.length bs) /\ len o <= cap o
  /\ match buf o with
     | None => cap o = 0
     | Some b =>
         Z.of_nat (List.length b) = cap o /\ firstn (List.length bs) b = map Some bs
         /\ exists k, 1 <= k /\ cap o = 1024 * 2 ^ k
     end.

Lemma memcpy_spec dst off src :
  0 <= off -> off + Z.of_nat (List.length src) <= Z.of_nat (List.length dst) ->
  exists r, memcpy dst off src = Ret r
    /\ List.length r = List.length dst
    /\ firstn (Z.to_nat off + List.length src) r = firstn (Z.to_nat off) dst ++ src.
Proof.
  intros H0 Hle. unfold memcpy, assert.
  rewrite (proj2 (Z.leb_le _ _) H0), (proj2 (Z.leb_le _ _) Hle). cbn [andb].
  eexists. split; [reflexivity|]. split.
  - rewrite !List.length_app, List.length_firstn, List.length_skipn. lia.
  - rewrite app_assoc. rewrite firstn_app.
    rewrite List.length_app, List.length_firstn.
    replace (Z.to_nat off + List.length src - (Nat.min (Z.to_nat off) (List.length dst) + List.length src))%nat
      with 0%nat by lia.
    cbn [firstn]. rewrite app_nil_r. apply firstn_all2.
    rewrite List.length_app, List.length_firstn. lia.
Qed.

Lemma outputGrow_spec o bs :
  holds o bs -> cap o < 2 ^ 30 ->
  exists o', outputGrow o = Ret o' /\ holds o' bs
    /\ cap o < cap o' /\ cap o' <= Z.max 2048 (2 * cap o).
Proof.
  intros (Hlen & Hle & Hb) Hc. unfold outputGrow.
  destruct (buf o) as [b|] eqn:Eb.
  - destruct Hb as (Hlb & Hfirst & k & Hk & Hcap).
    cbv zeta. rewrite Eb. unfold assert, INT_MAX.
    rewrite (proj2 (Z.leb_le (cap o * 2) _)) by lia.
    rewrite (proj2 (Z.leb_le (cap o) _)) by lia.
    destruct (memcpy_spec (malloc (cap o * 2)) 0 (firstn (Z.to_nat (cap o)) b))
      as (r & Hr & Hlr & Hfr); [lia| |].
    { unfold malloc. rewrite List.repeat_length, List.length_firstn. lia. }
    rewrite Hr. cbn [bind]. eexists. split; [reflexivity|].
    assert (Hall : firstn (Z.to_nat (cap o)) b = b) by (apply firstn_all2; lia).
    rewrite Hall in Hfr. cbn [firstn app Z.to_nat Nat.add] in Hfr.
    split; [|cbn [cap]; lia].
    unfold holds. cbn [buf len cap]. split; [exact Hlen|]. split; [lia|].
    split; [unfold malloc in Hlr; rewrite List.repeat_length in Hlr; lia|]. split.
    + rewrite <- Hfirst.
      transitivity (firstn (List.length bs) (firstn (List.length b) r));
        [rewrite firstn_firstn; f_equal; lia|rewrite Hfr; reflexivity].
    + exists (k + 1). split; [lia|]. rewrite Z.pow_add_r by lia. lia.
  - cbv zeta. cbn [buf cap len]. unfold assert, INT_MAX. cbn [Z.leb Z.mul Z.compare].
    assert (Hbs : bs = []) by (destruct bs; [reflexivity|cbn in Hlen; lia]).
    subst bs. rewrite Hb. eexists. split; [vm_compute; reflexivity|].
    split; [|cbn [cap]; lia].
    unfold holds. cbn [buf len cap List.length]. split; [reflexivity|].
    split; [lia|]. split; [reflexivity|]. split; [reflexivity|].
    exists 1. split; [lia|reflexivity].
Qed.

Lemma write_spec o bs b s :
  holds o bs -> buf o = Some b ->
  len o + Z.of_nat (List.length s) <= cap o ->
  exists b', memcpy b (len o) (map Some s) = Ret b'
    /\ holds (mkOutBuf (Some b') (len o + Z.of_nat (List.length s)) (cap o)) (bs ++ s).
Proof.
  intros (Hlen & Hle & Hb) Eb Hfit. rewrite Eb in Hb.
  destruct Hb as (Hlb & Hfirst & Hk).
  destruct (memcpy_spec b (len o) (map Some s)) as (r & Hr & Hlr & Hfr);
    [lia|rewrite List.length_map; lia|].
  exists r. split; [exact Hr|]. unfold holds. cbn [buf len cap].
  rewrite List.length_app. split; [lia|]. split; [lia|].
  split; [lia|]. split; [|exact Hk].
  rewrite List.length_map in Hfr.
  replace (Z.to_nat (len o)) with (List.length bs) in Hfr by lia.
  rewrite Hfr, Hfirst, map_app. reflexivity.
Qed.

Lemma outputByte_holds o bs c :
  holds o bs -> Z.of_nat (List.length bs) < 2 ^ 30 ->
  exists o', outputByte o c = Ret o' /\ holds o' (bs ++ [c]).
Proof.
  intros Ho Hsz. assert (Ho' := Ho). destruct Ho' as (Hlen & Hle & Hb).
  unfold outputByte, assert. rewrite (proj2 (Z.leb_le _ _) Hle).
  assert (Hgrown : exists o1, (if len o =? cap o then outputGrow o else Ret o) = Ret o1
                     /\ holds o1 bs /\ len o1 < cap o1).
  { destruct (len o =? cap o) eqn:E.
    - apply Z.eqb_eq in E.
      destruct (outputGrow_spec o bs Ho) as (o1 & Hg & Ho1 & Hlt & _); [lia|].
      exists o1. split; [exact Hg|]. split; [exact Ho1|].
      destruct Ho1 as (Hlen1 & _). lia.
    - apply Z.eqb_neq in E. exists o. split; [reflexivity|]. split; [exact Ho|lia]. }
  destruct Hgrown as (o1 & -> & Ho1 & Hlt). cbn [bind].
  destruct (buf o1) as [b|] eqn:Eb.
  - destruct (write_spec o1 bs b [c] Ho1 Eb) as (b' & Hw & Hh); [cbn; lia|].
    cbn [map] in Hw. rewrite Hw. cbn [bind]. eexists. split; [reflexivity|exact Hh].
  - destruct Ho1 as (Hlen1 & _ & Hc). rewrite Eb in Hc. lia.
Qed.

Lemma outputString_holds o bs s :
  holds o bs -> Z.of_nat (List.length bs) + Z.of_nat (List.length s) <= 2 ^ 30 ->
  exists o', outputString o s = Ret o' /\ holds o' (bs ++ s).
Proof.
  intros Ho Hsz. assert (Ho' := Ho). destruct Ho' as (Hlen & Hle & Hb).
  unfold outputString, assert. rewrite (proj2 (Z.leb_le _ _) Hle). cbv zeta.
  destruct (iter_spec
              (fun o0 => if cap o0 <? len o0 + Z.of_nat (List.length s)
                         then (o1 <- outputGrow o0 ;; continue o1)
                         else break o0)
              (fun o0 => holds o0 bs)
              (fun o0 => holds o0 bs /\ len o0 + Z.of_nat (List.length s) <= cap o0)
              (fun o0 => Z.max 0 (len o + Z.of_nat (List.length s) - cap o0)))
    with (fuel := S (Z.to_nat (len o + Z.of_nat (List.length s)))) (s := o)
    as (o1 & Hit & Ho1 & Hfit).
  - intros o0 H0. split; [lia|]. assert (H0' := H0). destruct H0' as (Hl0 & Hle0 & _).
    destruct (cap o0 <? len o0 + Z.of_nat (List.length s)) eqn:E.
    + apply Z.ltb_lt in E.
      destruct (outputGrow_spec o0 bs H0) as (o1 & Hg & Ho1 & Hlt & _); [lia|].
      rewrite Hg. cbn [bind]. unfold continue. split; [exact Ho1|lia].
    + apply Z.ltb_ge in E. unfold break. split; [exact H0|exact E].
  - exact Ho.
  - lia.
  - rewrite Hit. cbn [bind].
    destruct (buf o1) as [b|] eqn:Eb.
    + destruct (write_spec o1 bs b s Ho1 Eb Hfit) as (b' & Hw & Hh).
      rewrite Hw. cbn [bind]. eexists. split; [reflexivity|exact Hh].
    + assert (Ho1' := Ho1). destruct Ho1' as (Hlen1 & _ & Hc). rewrite Eb in Hc.
      assert (Hs0 : s = []) by (destruct s; [reflexivity|cbn in Hfit; lia]).
      subst s. cbn [List.length Z.of_nat Z.eqb]. eexists. split; [reflexivity|].
      rewrite app_nil_r. exact Ho1.
Qed.

(** A sequence of writes to the buffer, and the bytes it writes. *)
Inductive write_t : Type :=
| WByte (c : byte)
| WString (s : list byte).

Fixpoint writes (ws : list write_t) (o : outBuf_t) : outcome outBuf_t :=
  match ws with
  | [] => Ret o
  | WByte c :: ws => o <- outputByte o c ;; writes ws o
  | WString s :: ws => o <- outputString o s ;; writes ws o
  end.

Fixpoint written (ws : list write_t) : list byte :=
  match ws with
  | [] => []
  | WByte c :: ws => c :: written ws
  | WString s :: ws => s ++ written ws
  end.

Lemma writes_hold ws : forall o bs,
  holds o bs ->
  Z.of_nat (List.length bs) + Z.of_nat (List.length (written ws)) <= 2 ^ 30 ->
  exists o', writes ws o = Ret o' /\ holds o' (bs ++ written ws).
Proof.
  induction ws as [|[c|s] ws IH]; intros o bs Ho Hsz; cbn [writes written] in *.
  - exists o. split; [reflexivity|]. rewrite app_nil_r. exact Ho.
  - cbn [List.length] in Hsz.
    destruct (outputByte_holds o bs c Ho) as (o1 & -> & Ho1); [lia|]. cbn [bind].
    destruct (IH o1 (bs ++ [c]) Ho1) as (o2 & Hw & Ho2);
      [rewrite List.length_app; cbn [List.length]; lia|].
    exists o2. split; [exact Hw|]. rewrite <- app_assoc in Ho2. exact Ho2.
  - rewrite List.length_app in Hsz.
    destruct (outputString_holds o bs s Ho) as (o1 & -> & Ho1); [lia|]. cbn [bind].
    destruct (IH o1 (bs ++ s) Ho1) as (o2 & Hw & Ho2);
      [rewrite List.length_app; lia|].
    exists o2. split; [exact Hw|]. rewrite <- app_assoc in Ho2. exact Ho2.
Qed.

End Buffer.

(** X22. One write to the output buffer.  On a buffer that holds the
    bytes [bs], [outputByte] and [outputString] return (no assertion
    fails, nothing is written outside the storage) with a buffer that
    holds [bs] followed by the bytes written, as long as the total is at
    most 2^30 bytes; the capacity is then 1024 * 2^k for a k >= 1. *)
Theorem output_buffer_appends : forall (o : Buffer.outBuf_t) (bs : list byte),
  Buffer.holds o bs ->
  (forall c, Z.of_nat (List.length bs) < 2 ^ 30 ->
     exists o', Buffer.outputByte o c = Ret o' /\ Buffer.holds o' (bs ++ [c])
       /\ exists k, 1 <= k /\ Buffer.cap o' = 1024 * 2 ^ k)
  /\ (forall s, Z.of_nat (List.length bs) + Z.of_nat (List.length s) <= 2 ^ 30 ->
        exists o', Buffer.outputString o s = Ret o' /\ Buffer.holds o' (bs ++ s)).
Proof.
  intros o bs Ho. split.
  - intros c Hsz. destruct (Buffer.outputByte_holds o bs c Ho Hsz) as (o' & Hr & Ho').
    exists o'. split; [exact Hr|]. split; [exact Ho'|].
    destruct Ho' as (Hlen & Hle & Hb). destruct (Buffer.buf o').
    + destruct Hb as (_ & _ & Hk). exact Hk.
    + rewrite List.length_app in Hlen. cbn [List.length] in Hlen. lia.
  - intros s Hsz. apply Buffer.outputString_holds; assumption.
Qed.

(** X23. What is written is what [outputGet] returns.  From the buffer
    of [outputInit], a sequence of calls of [outputByte] and
    [outputString] that writes at most 2^30 bytes in all returns, and
    [outputGet] then returns exactly the bytes written, in order, every
    one of them initialised, and leaves the buffer as [outputInit] does. *)
Theorem output_buffer_round_trip : forall ws : list Buffer.write_t,
  Z.of_nat (List.length (Buffer.written ws)) <= 2 ^ 30 ->
  exists o, Buffer.writes ws Buffer.outputInit = Ret o
    /\ fst (Buffer.outputGet o) = map Some (Buffer.written ws)
    /\ snd (Buffer.outputGet o) = Buffer.outputInit.
Proof.
  intros ws Hsz.
  destruct (Buffer.writes_hold ws Buffer.outputInit []) as (o & Hw & Ho).
  - unfold Buffer.holds, Buffer.outputInit. cbn. lia.
  - cbn [List.length]. lia.
  - exists o. split; [exact Hw|]. split; [|reflexivity].
    cbn [app] in Ho. destruct Ho as (Hlen & Hle & Hb).
    unfold Buffer.outputGet. cbn [fst]. destruct (Buffer.buf o) as [b|].
    + destruct Hb as (_ & Hfirst & _). rewrite Hlen, Nat2Z.id. exact Hfirst.
    + destruct (Buffer.written ws); [reflexivity|cbn [List.length] in Hlen; lia].
Qed.

(** * Witnesses of the further properties *)

(** X1: 201 brackets and a value. *)
Lemma depth_error_witness :
  exists len k,
    myStrLen (bytes "a:" ++ repeat x5b 201 ++ bytes "1") = Ret len
    /\ maxDepth < nesting_before true (bytes "a:" ++ repeat x5b 201 ++ bytes "1") len k.
Proof.
  apply (depth_error_needs_deep_nesting true (bytes "a:" ++ repeat x5b 201 ++ bytes "1")
           false (mkPos 204 0 0)).
  vm_compute. reflexivity.
Defined.

(** X3: the first token of [a:1]. *)
Lemma nextToken_consumes_witness :
  exists e', nextToken true (bytes "a:1") (initial_engine false 3) = Ret e' /\ wfp e'
    /\ e_out e' = e_out (initial_engine false 3)
    /\ e_depth e' = e_depth (initial_engine false 3)
    /\ sl_l (e_p e') <= sl_l (e_p (initial_engine false 3))
    /\ (done e' = false -> sl_l (e_p e') < sl_l (e_p (initial_engine false 3)))
    /\ (done e' = true ->
        lexical (tk_msg (e_tk e')) = true \/ tk_msg (e_tk e') = ErrEndOfInput).
Proof.
  apply (nextToken_consumes_or_fails true (bytes "a:1") (initial_engine false 3)).
  - unfold wfp, pos_ok. cbn. repeat split; try reflexivity; lia.
  - reflexivity.
Defined.


(** X5: the first token of the expression [1+2]. *)
Lemma numNextToken_witness :
  exists e',
    numNextToken true (bytes "1+2")
      (mkNumEngine (mkSlice (Inp 0) 3) (mkSlice (Inp 0) 3) 0
                   (mkNumToken tagUnknown 0 (VI 0)) false) = Ret e'
    /\ 0 <= sl_l (ne_p e') /\ 0 <= ne_pos e' /\ 0 <= nt_pos (ne_tk e')
    /\ (numDone (mkNumEngine (mkSlice (Inp 0) 3) (mkSlice (Inp 0) 3) 0
                             (mkNumToken tagUnknown 0 (VI 0)) false) = true ->
        e' = mkNumEngine (mkSlice (Inp 0) 3) (mkSlice (Inp 0) 3) 0
                         (mkNumToken tagUnknown 0 (VI 0)) false)
    /\ (numDone (mkNumEngine (mkSlice (Inp 0) 3) (mkSlice (Inp 0) 3) 0
                             (mkNumToken tagUnknown 0 (VI 0)) false) = false ->
        numDone e' = true
        \/ sl_l (ne_p e')
           < sl_l (ne_p (mkNumEngine (mkSlice (Inp 0) 3) (mkSlice (Inp 0) 3) 0
                                     (mkNumToken tagUnknown 0 (VI 0)) false))).
Proof.
  apply (numNextToken_consumes_or_fails true (bytes "1+2")
           (mkNumEngine (mkSlice (Inp 0) 3) (mkSlice (Inp 0) 3) 0
                        (mkNumToken tagUnknown 0 (VI 0)) false)); cbn; lia.
Defined.

(** X7: the column after [abc]. *)
Lemma column_witness :
  exists col, column (bytes "abc") (mkSlice (Inp 0) 3) = Ret col /\ 0 <= col <= 3
    /\ ((forall i, 0 <= i < 3 -> utf8Table (mem (bytes "abc") (0 + i)) = s1) -> col = 3).
Proof.
  apply (column_counts_characters (bytes "abc") 0 3). lia.
Defined.

(** X8: the literal [0x1F]. *)
Lemma literal_parsers_witness :
  (exists n, parseBinLiteral (bytes "0x1F") (mkSlice (Inp 0) 4) = Ret n /\ n <= 4)
  /\ (exists n, parseOctLiteral (bytes "0x1F") (mkSlice (Inp 0) 4) = Ret n /\ n <= 4)
  /\ (exists n, parseIntLiteral (bytes "0x1F") (mkSlice (Inp 0) 4) = Ret n /\ n <= 4)
  /\ (exists n, parseHexLiteral (bytes "0x1F") (mkSlice (Inp 0) 4) = Ret n /\ n <= 4)
  /\ (exists n, parseDecLiteral (bytes "0x1F") (mkSlice (Inp 0) 4) = Ret n /\ n <= 4)
  /\ (exists n, parseISODateTimeLiteral (bytes "0x1F") (mkSlice (Inp 0) 4) = Ret n /\ n <= 4).
Proof.
  apply (literal_parsers_stay_in_slice (bytes "0x1F") (mkSlice (Inp 0) 4)). cbn. lia.
Defined.


(** X10: a space before [a]. *)
Lemma skipSpaces_witness :
  exists err e', skipSpaces true (bytes " a") (initial_engine false 2) = Ret (err, e')
    /\ advanced (initial_engine false 2) e' /\ lex_err err
    /\ (err = None -> sl_l (e_p e') = 0 \/ token_start (bytes " a") (e_p e')).
Proof.
  apply (skipSpaces_stops_at_token_start true (bytes " a") (initial_engine false 2)).
  unfold wfp, pos_ok. cbn. repeat split; try reflexivity; lia.
Defined.

(** X13: a character of two bytes, then [ab]. *)
Lemma qchar_witness :
  qchar false [xc3; xa9; x61; x62] (initial_engine false 4) = (None, 2).
Proof.
  apply (qchar_accepts_wellformed_utf8 false [xc3; xa9; x61; x62] (initial_engine false 4)).
  cbn. lia.
Defined.

(** X14 to X17: the literals [0x1F], [0b101], [42] and [0o17]. *)
Lemma decodeHexLiteral_witness :
  decodeHexLiteral true (bytes "0x1F") (mkSlice (Inp 0) 4) = 31.
Proof.
  apply (decodeHexLiteral_value true (bytes "0x1F") (mkSlice (Inp 0) 4)). reflexivity.
Defined.

Lemma decodeBinLiteral_witness :
  decodeBinLiteral (bytes "0b101") (mkSlice (Inp 0) 5) = 5.
Proof.
  apply (decodeBinLiteral_value (bytes "0b101") (mkSlice (Inp 0) 5)). reflexivity.
Defined.

Lemma decodeIntLiteral_witness :
  decodeIntLiteral true (bytes "42") (mkSlice (Inp 0) 2) = 42.
Proof.
  apply (decodeIntLiteral_value true (bytes "42") (mkSlice (Inp 0) 2)); reflexivity.
Defined.

Lemma decodeOctLiteral_witness :
  decodeOctLiteral true (bytes "0o17") (mkSlice (Inp 0) 4) = 15
  /\ (15 < 2 ^ 31 -> decodeOctLiteral true (bytes "0o17") (mkSlice (Inp 0) 4) = 15).
Proof.
  apply (decodeOctLiteral_value true (bytes "0o17") (mkSlice (Inp 0) 4)). reflexivity.
Defined.

(** X11: the string [a] between double quotes. *)
Lemma quoted_string_witness :
  (exists err s e',
     doubleQuotedString true [x22; x61; x22] (initial_engine false 3) = Ret (err, s, e')
     /\ advanced (initial_engine false 3) e' /\ lex_err err
     /\ (err = None ->
         (is_NULL (sl_p s) = true /\ e' = initial_engine false 3
          /\ (sl_l (e_p (initial_engine false 3)) = 0
              \/ rd [x22; x61; x22] (sl_p (e_p (initial_engine false 3))) 0 <> DQUOTE))
         \/ (s = mkSlice (Inp (pos_b (e_pos (initial_engine false 3))))
                         (pos_b (e_pos e') - pos_b (e_pos (initial_engine false 3)))
             /\ pos_b (e_pos (initial_engine false 3)) < pos_b (e_pos e'))))
  /\ (exists err s e',
        singleQuotedString true [x22; x61; x22] (initial_engine false 3) = Ret (err, s, e')
        /\ advanced (initial_engine false 3) e' /\ lex_err err
        /\ (err = None ->
            (is_NULL (sl_p s) = true /\ e' = initial_engine false 3
             /\ (sl_l (e_p (initial_engine false 3)) = 0
                 \/ rd [x22; x61; x22] (sl_p (e_p (initial_engine false 3))) 0 <> SQUOTE))
            \/ (s = mkSlice (Inp (pos_b (e_pos (initial_engine false 3))))
                            (pos_b (e_pos e') - pos_b (e_pos (initial_engine false 3)))
                /\ pos_b (e_pos (initial_engine false 3)) < pos_b (e_pos e')))).
Proof.
  apply (quoted_string_is_what_is_popped true [x22; x61; x22] (initial_engine false 3)).
  unfold wfp, pos_ok. cbn. repeat split; try reflexivity; lia.
Defined.



(** X18 to X21: the literals [0x1F], [0b101], [42] and [0o17] at the head
    of an expression. *)
Lemma nextHexValue_witness :
  nextHexValue true (bytes "0x1F")
    (mkNumEngine (mkSlice (Inp 0) 4) (mkSlice (Inp 0) 4) 0
                 (mkNumToken tagUnknown 0 (VI 0)) false)
  = Ret (true, mkNumEngine (mkSlice (Inp 0) 4) (mkSlice (Inp 4) 0) 4
                           (mkNumToken tagIntegerVal 0 (VI 31)) false).
Proof.
  apply (nextHexValue_value true (bytes "0x1F")
           (mkNumEngine (mkSlice (Inp 0) 4) (mkSlice (Inp 0) 4) 0
                        (mkNumToken tagUnknown 0 (VI 0)) false) 0 4);
    [reflexivity|vm_compute; reflexivity|lia].
Defined.

Lemma nextBinValue_witness :
  nextBinValue (bytes "0b101")
    (mkNumEngine (mkSlice (Inp 0) 5) (mkSlice (Inp 0) 5) 0
                 (mkNumToken tagUnknown 0 (VI 0)) false)
  = Ret (true, mkNumEngine (mkSlice (Inp 0) 5) (mkSlice (Inp 5) 0) 5
                           (mkNumToken tagIntegerVal 0 (VI 5)) false).
Proof.
  apply (nextBinValue_value (bytes "0b101")
           (mkNumEngine (mkSlice (Inp 0) 5) (mkSlice (Inp 0) 5) 0
                        (mkNumToken tagUnknown 0 (VI 0)) false) 0 5);
    [reflexivity|vm_compute; reflexivity|lia].
Defined.

Lemma nextIntValue_witness :
  nextIntValue true (bytes "42")
    (mkNumEngine (mkSlice (Inp 0) 2) (mkSlice (Inp 0) 2) 0
                 (mkNumToken tagUnknown 0 (VI 0)) false)
  = Ret (true, mkNumEngine (mkSlice (Inp 0) 2) (mkSlice (Inp 2) 0) 2
                           (mkNumToken tagIntegerVal 0 (VI 42)) false).
Proof.
  apply (nextIntValue_value true (bytes "42")
           (mkNumEngine (mkSlice (Inp 0) 2) (mkSlice (Inp 0) 2) 0
                        (mkNumToken tagUnknown 0 (VI 0)) false) 0 2);
    [reflexivity|cbn; lia|vm_compute; reflexivity|lia|vm_compute; reflexivity].
Defined.

Lemma nextOctValue_witness :
  nextOctValue true (bytes "0o17")
    (mkNumEngine (mkSlice (Inp 0) 4) (mkSlice (Inp 0) 4) 0
                 (mkNumToken tagUnknown 0 (VI 0)) false)
  = Ret (true, mkNumEngine (mkSlice (Inp 0) 4) (mkSlice (Inp 4) 0) 4
                           (mkNumToken tagIntegerVal 0 (VI 15)) false)
  /\ (15 < 2 ^ 31 -> to_int32 15 = 15).
Proof.
  apply (nextOctValue_value true (bytes "0o17")
           (mkNumEngine (mkSlice (Inp 0) 4) (mkSlice (Inp 0) 4) 0
                        (mkNumToken tagUnknown 0 (VI 0)) false) 0 4);
    [reflexivity|vm_compute; reflexivity|lia].
Defined.

(** X22 and X23: writes to the buffer of [outputInit]. *)
Lemma output_buffer_appends_witness :
  (exists o', Buffer.outputByte Buffer.outputInit x7b = Ret o'
     /\ Buffer.holds o' ([] ++ [x7b])
     /\ exists k, 1 <= k /\ Buffer.cap o' = 1024 * 2 ^ k)
  /\ (exists o', Buffer.outputString Buffer.outputInit (bytes "null") = Ret o'
        /\ Buffer.holds o' ([] ++ bytes "null")).
Proof.
  assert (H : Buffer.holds Buffer.outputInit []).
  { unfold Buffer.holds, Buffer.outputInit. cbn. lia. }
  split.
  - apply (proj1 (output_buffer_appends Buffer.outputInit [] H) x7b). cbn. lia.
  - apply (proj2 (output_buffer_appends Buffer.outputInit [] H) (bytes "null")). cbn. lia.
Defined.

Lemma output_buffer_round_trip_witness :
  exists o,
    Buffer.writes [Buffer.WString (bytes "{}"); Buffer.WByte x00] Buffer.outputInit = Ret o
    /\ fst (Buffer.outputGet o)
       = map Some (Buffer.written [Buffer.WString (bytes "{}"); Buffer.WByte x00])
    /\ snd (Buffer.outputGet o) = Buffer.outputInit.
Proof.
  apply (output_buffer_round_trip [Buffer.WString (bytes "{}"); Buffer.WByte x00]).
  cbn. lia.
Defined.

(** * Strings without special bytes *)





